(** * The moteus multiplex register protocol: a model of [moteus_protocol.h]
    and [wrapper.h], with the properties of its quantizer, frame writer,
    write combiner and reply parser.

    Bytes and machine integers are [Z] with the wrap-around written out;
    [double] and [float] are the IEEE-754 binary64 and binary32 formats of
    [SpecFloat]; C++ exceptions, [abort()] and undefined behaviour are the
    outcomes of a small state monad that keeps the mutations made before a
    throw. *)

From Stdlib Require Import ZArith List Bool Lia SpecFloat.
From Stdlib Require String.
Import String.StringSyntax.
Delimit Scope string_scope with str.
Import ListNotations.
Local Open Scope Z_scope.

(** ** Outcomes of a call *)

Inductive exn : Type :=
| runtime_error (what : String.string)
| logic_error (what : String.string).

Inductive outcome (A : Type) : Type :=
| Returns (a : A)
| Throws (e : exn)
| Aborts
| Undefined.

Arguments Returns {A} a.
Arguments Throws {A} e.
Arguments Aborts {A}.
Arguments Undefined {A}.

(** A member function over an object state [St]: the outcome and the state
    it leaves behind (a throw keeps what was written before it). *)
Definition M (St A : Type) : Type := St -> outcome A * St.

Definition ret {St A} (a : A) : M St A := fun s => (Returns a, s).

Definition bind {St A B} (c : M St A) (k : A -> M St B) : M St B :=
  fun s =>
    match c s with
    | (Returns a, s') => k a s'
    | (Throws e, s') => (Throws e, s')
    | (Aborts, s') => (Aborts, s')
    | (Undefined, s') => (Undefined, s')
    end.

Definition throw {St A} (e : exn) : M St A := fun s => (Throws e, s).
Definition undefined {St A} : M St A := fun s => (Undefined, s).
Definition get {St} : M St St := fun s => (Returns s, s).
Definition put {St} (s : St) : M St unit := fun _ => (Returns tt, s).

Declare Scope cpp_scope.
Delimit Scope cpp_scope with cpp.
Notation "x <- c ;; k" := (bind c (fun x => k))
  (at level 61, c at next level, right associativity) : cpp_scope.
Notation "c ;; k" := (bind c (fun _ => k))
  (at level 61, right associativity) : cpp_scope.

(** ** Machine integers *)

(** The signed integer types the templates are instantiated at. *)
Inductive IntType : Type := int8_t | int16_t | int32_t.

Definition sizeof (T : IntType) : Z :=
  match T with int8_t => 1 | int16_t => 2 | int32_t => 4 end.

Definition numeric_limits_max (T : IntType) : Z :=
  match T with int8_t => 127 | int16_t => 32767 | int32_t => 2147483647 end.

Definition numeric_limits_min (T : IntType) : Z := - numeric_limits_max T - 1.

(** [static_cast<T>] of an integer: reduction modulo [2^(8 sizeof T)] into
    the two's complement range. *)
Definition static_cast (T : IntType) (z : Z) : Z :=
  (z + 2 ^ (8 * sizeof T - 1)) mod 2 ^ (8 * sizeof T) - 2 ^ (8 * sizeof T - 1).

Definition uint8 (z : Z) : Z := z mod 256.
Definition uint32 (z : Z) : Z := z mod 2 ^ 32.
Definition size_t (z : Z) : Z := z mod 2 ^ 64.

(** The object representation of a [w]-byte value on a little endian
    machine, least significant byte first ([z] is reduced modulo
    [2^(8w)], which is two's complement for a negative [z]). *)
Fixpoint le_bytes (w : nat) (z : Z) : list Z :=
  match w with
  | O => []
  | S w' => z mod 256 :: le_bytes w' (z / 256)
  end.

(** The unsigned value of a little endian byte string. *)
Fixpoint le_value (bs : list Z) : Z :=
  match bs with
  | [] => 0
  | b :: bs' => b + 256 * le_value bs'
  end.

(** [memcpy(&dst[at], src, length src)]. *)
Definition memcpy (dst : list Z) (at_ : Z) (src : list Z) : list Z :=
  firstn (Z.to_nat at_) dst ++ src ++ skipn (Z.to_nat at_ + length src) dst.

(** The longest prefix whose elements all satisfy [f]. *)
Fixpoint take_while {A} (f : A -> bool) (l : list A) : list A :=
  match l with
  | [] => []
  | x :: l' => if f x then x :: take_while f l' else []
  end.

(** ** Enumerations *)

Inductive Resolution : Type := kInt8 | kInt16 | kInt32 | kFloat | kIgnore.

Definition Resolution_eqb (a b : Resolution) : bool :=
  match a, b with
  | kInt8, kInt8 | kInt16, kInt16 | kInt32, kInt32
  | kFloat, kFloat | kIgnore, kIgnore => true
  | _, _ => false
  end.

Module Multiplex.
Definition kWriteBase : Z := 0x00.
Definition kWriteInt8 : Z := 0x00.
Definition kWriteInt16 : Z := 0x04.
Definition kWriteInt32 : Z := 0x08.
Definition kWriteFloat : Z := 0x0c.
Definition kReadBase : Z := 0x10.
Definition kReplyBase : Z := 0x20.
Definition kWriteError : Z := 0x30.
Definition kReadError : Z := 0x31.
Definition kNop : Z := 0x50.
End Multiplex.

(** ** Floating point *)

(** [double] is binary64 and [float] is binary32, both as [spec_float]
    with the operations of [SpecFloat] at the format's precision and
    exponent range (rounding to nearest, ties to even). *)
Definition prec64 : Z := 53.
Definition emax64 : Z := 1024.
Definition prec32 : Z := 24.
Definition emax32 : Z := 128.

Definition is_double (x : spec_float) : Prop := valid_binary prec64 emax64 x = true.
Definition is_float (x : spec_float) : Prop := valid_binary prec32 emax32 x = true.

(** [std::isfinite]. *)
Definition isfinite (x : spec_float) : bool :=
  match x with
  | S754_zero _ | S754_finite _ _ _ => true
  | S754_infinity _ | S754_nan => false
  end.

Definition double_div (x y : spec_float) : spec_float := SFdiv prec64 emax64 x y.
Definition double_mul (x y : spec_float) : spec_float := SFmul prec64 emax64 x y.

(** An integer of at most 53 bits as a [double]: the conversion is exact. *)
Definition double_of_int (z : Z) : spec_float :=
  binary_normalize prec64 emax64 z 0 false.

(** A finite number with its fraction discarded. *)
Definition truncate (x : spec_float) : option Z :=
  match x with
  | S754_zero _ => Some 0
  | S754_finite s m e =>
      Some (cond_Zopp s
              (match e with
               | Zneg _ => Z.pos m / 2 ^ (- e)
               | _ => Z.pos m * 2 ^ e
               end))
  | S754_infinity _ | S754_nan => None
  end.

(** [static_cast<T>] of a [double]: the truncated value, when [T] can
    represent it; undefined otherwise. *)
Definition int_of_double (T : IntType) (x : spec_float) : outcome Z :=
  match truncate x with
  | Some z =>
      if (numeric_limits_min T <=? z) && (z <=? numeric_limits_max T)
      then Returns z
      else Undefined
  | None => Undefined
  end.

(** [static_cast<float>] of a [double] rounds to binary32, and
    [static_cast<double>] of a [float] is exact. *)
Definition float_of_double (x : spec_float) : spec_float :=
  match x with
  | S754_finite s m e => binary_round prec32 emax32 s m e
  | _ => x
  end.

Definition double_of_float (x : spec_float) : spec_float :=
  match x with
  | S754_finite s m e => binary_round prec64 emax64 s m e
  | _ => x
  end.

(** The 32 bits of a [float]: sign, biased exponent, fraction (a NaN is
    the quiet NaN with an empty payload). *)
Definition bits_of_float (x : spec_float) : Z :=
  match x with
  | S754_zero s => if s then 2 ^ 31 else 0
  | S754_infinity s => (if s then 2 ^ 31 else 0) + 255 * 2 ^ 23
  | S754_nan => 255 * 2 ^ 23 + 2 ^ 22
  | S754_finite s m e =>
      (if s then 2 ^ 31 else 0)
      + (if Z.pos m <? 2 ^ 23 then Z.pos m
         else (e + 150) * 2 ^ 23 + (Z.pos m - 2 ^ 23))
  end.

Definition float_of_bits (b : Z) : spec_float :=
  let s := Z.testbit b 31 in
  let biased := (b / 2 ^ 23) mod 256 in
  let fraction := b mod 2 ^ 23 in
  if biased =? 0 then
    match fraction with
    | Zpos m => S754_finite s m (-149)
    | _ => S754_zero s
    end
  else if biased =? 255 then
    if fraction =? 0 then S754_infinity s else S754_nan
  else
    match fraction + 2 ^ 23 with
    | Zpos m => S754_finite s m (biased - 150)
    | _ => S754_nan
    end.

(** The decimal constants of the scale tables: the [double] nearest to
    [num / den]. *)
Definition literal (num den : Z) : spec_float :=
  double_div (double_of_int num) (double_of_int den).

(** ** The quantizer *)

Definition Saturate (T : IntType) (value scale : spec_float) : outcome Z :=
  if negb (isfinite value) then Returns (numeric_limits_min T)
  else
    let scaled := double_div value scale in
    let max := numeric_limits_max T in
    let double_max := double_of_int max in
    if SFltb scaled (SFopp double_max) then Returns (- max)
    else if SFltb double_max scaled then Returns max
    else int_of_double T scaled.

(** ** The frame and its writer *)

(** [struct CanFrame { uint8_t data[64]; uint8_t size; }]. *)
Record CanFrame : Type := { data : list Z; size : Z }.

(** The bytes written so far. *)
Definition contents (f : CanFrame) : list Z := firstn (Z.to_nat (size f)) (data f).

Definition wf_frame (f : CanFrame) : Prop :=
  length (data f) = 64%nat /\ 0 <= size f <= 64.

Definition empty_frame : CanFrame := {| data := repeat 0 64; size := 0 |}.

Module WriteCanFrame.

(** The body of [Write<T>] once [value] is converted: the capacity check,
    the [memcpy] and the size update, for an object representation
    [repr] of [sizeof(value)] bytes. *)
Definition Write_repr (repr : list Z) : M CanFrame unit :=
  fun f =>
    if Z.of_nat (length repr) + size f >? 64
    then (Throws (runtime_error "overflow"%str), f)
    else (Returns tt,
          {| data := memcpy (data f) (size f) repr;
             size := uint8 (size f + Z.of_nat (length repr)) |}).

(** [Write<T>(value_in)] at an integer type [T]. *)
Definition Write (T : IntType) (value_in : Z) : M CanFrame unit :=
  Write_repr (le_bytes (Z.to_nat (sizeof T)) (static_cast T value_in)).

(** [Write<float>(value_in)]. *)
Definition Write_float (value_in : spec_float) : M CanFrame unit :=
  Write_repr (le_bytes 4 (bits_of_float value_in)).

(** A value computed before the call. *)
Definition computed {A} (o : outcome A) : M CanFrame A := fun f => (o, f).

Definition WriteMapped (value int8_scale int16_scale int32_scale : spec_float)
    (res : Resolution) : M CanFrame unit :=
  match res with
  | kInt8 => (v <- computed (Saturate int8_t value int8_scale) ;; Write int8_t v)%cpp
  | kInt16 => (v <- computed (Saturate int16_t value int16_scale) ;; Write int16_t v)%cpp
  | kInt32 => (v <- computed (Saturate int32_t value int32_scale) ;; Write int32_t v)%cpp
  | kFloat => Write_float (float_of_double value)
  | kIgnore => throw (runtime_error "Attempt to write ignored resolution"%str)
  end.

Definition WritePosition (value : spec_float) (res : Resolution) : M CanFrame unit :=
  WriteMapped value (literal 1 100) (literal 1 10000) (literal 1 100000) res.

Definition WriteVelocity (value : spec_float) (res : Resolution) : M CanFrame unit :=
  WriteMapped value (literal 1 10) (literal 25 100000) (literal 1 100000) res.

Definition WriteTorque (value : spec_float) (res : Resolution) : M CanFrame unit :=
  WriteMapped value (literal 5 10) (literal 1 100) (literal 1 1000) res.

Definition WritePwm (value : spec_float) (res : Resolution) : M CanFrame unit :=
  WriteMapped value (literal 1 127) (literal 1 32767) (literal 1 2147483647) res.

Definition WriteVoltage (value : spec_float) (res : Resolution) : M CanFrame unit :=
  WriteMapped value (literal 5 10) (literal 1 10) (literal 1 1000) res.

Definition WriteTemperature (value : spec_float) (res : Resolution) : M CanFrame unit :=
  WriteMapped (double_of_float value) (literal 1 1) (literal 1 10) (literal 1 1000) res.

Definition WriteTime (value : spec_float) (res : Resolution) : M CanFrame unit :=
  WriteMapped (double_of_float value) (literal 1 100) (literal 1 1000) (literal 1 1000000) res.

End WriteCanFrame.

(** ** The write combiner *)

Module WriteCombiner.

(** The members of [WriteCombiner<N>]; [N] is the length of
    [resolutions_], and the frame behind [frame_] is the second
    component of the state the member functions run over. *)
Record t : Type := {
  base_command_ : Z;
  start_register_ : Z;
  resolutions_ : list Resolution;
  current_resolution_ : Resolution;
  offset_ : Z
}.

Definition N (w : t) : Z := Z.of_nat (length (resolutions_ w)).

(** The constructor. *)
Definition make (base_command start_register : Z)
    (resolutions : list Resolution) : t :=
  {| base_command_ := static_cast int8_t base_command;
     start_register_ := uint32 start_register;
     resolutions_ := resolutions;
     current_resolution_ := kIgnore;
     offset_ := 0 |}.

Definition set_offset (w : t) (o : Z) : t :=
  {| base_command_ := base_command_ w;
     start_register_ := start_register_ w;
     resolutions_ := resolutions_ w;
     current_resolution_ := current_resolution_ w;
     offset_ := o |}.

Definition set_current_resolution (w : t) (r : Resolution) : t :=
  {| base_command_ := base_command_ w;
     start_register_ := start_register_ w;
     resolutions_ := resolutions_ w;
     current_resolution_ := r;
     offset_ := offset_ w |}.

(** [~WriteCombiner()]. *)
Definition destructor (w : t) : outcome unit :=
  if negb (offset_ w =? N w) then Aborts else Returns tt.

(** A frame operation run through [frame_]. *)
Definition on_frame {A} (c : M CanFrame A) : M (t * CanFrame) A :=
  fun s => let (o, f') := c (snd s) in (o, (fst s, f')).

(** The lambda of [MaybeWrite] that picks the width code. *)
Definition width_code (new_resolution : Resolution) : M (t * CanFrame) Z :=
  match new_resolution with
  | kInt8 => ret 0x00
  | kInt16 => ret 0x04
  | kInt32 => ret 0x08
  | kFloat => ret 0x0c
  | kIgnore => throw (logic_error "unreachable"%str)
  end.

(** The iterations of the loop that counts how far the new resolution
    goes, over the declared resolutions after [this_offset]. *)
Fixpoint run_ahead (new_resolution : Resolution) (rest : list Resolution) : Z :=
  match rest with
  | r :: rest' =>
      if Resolution_eqb r new_resolution
      then 1 + run_ahead new_resolution rest'
      else 0
  | [] => 0
  end.

(** The framing part of [MaybeWrite], once [count] is known: the
    command byte (and the count byte of the long form), the range check
    on the register, and the register byte. *)
Definition write_framing (new_resolution : Resolution) (count this_offset : Z)
  : M (t * CanFrame) bool :=
  (w <- (fun s => (Returns (fst s), s)) ;;
   code <- width_code new_resolution ;;
   let write_command := static_cast int8_t (base_command_ w + code) in
   (if count <=? 3
    then on_frame (WriteCanFrame.Write int8_t (write_command + count))
    else (on_frame (WriteCanFrame.Write int8_t write_command) ;;
          on_frame (WriteCanFrame.Write int8_t count))) ;;
   (if size_t (start_register_ w + this_offset) >? 127
    then throw (logic_error "unsupported"%str)
    else ret tt) ;;
   on_frame (WriteCanFrame.Write int8_t
               (size_t (start_register_ w + this_offset))) ;;
   ret true)%cpp.

Definition MaybeWrite : M (t * CanFrame) bool :=
  fun s =>
    let w := fst s in
    let f := snd s in
    let this_offset := offset_ w in
    let w := set_offset w (size_t (this_offset + 1)) in
    match nth_error (resolutions_ w) (Z.to_nat this_offset) with
    | None => (Undefined, (w, f))
    | Some r =>
        if Resolution_eqb (current_resolution_ w) r
        then (Returns (negb (Resolution_eqb (current_resolution_ w) kIgnore)), (w, f))
        else
          let new_resolution := r in
          let w := set_current_resolution w new_resolution in
          if Resolution_eqb new_resolution kIgnore
          then (Returns false, (w, f))
          else
            let count :=
              1 + run_ahead new_resolution
                    (skipn (S (Z.to_nat this_offset)) (resolutions_ w)) in
            write_framing new_resolution count this_offset (w, f)
    end.

(** [k] calls in a row, whatever each call's outcome (a caller that
    catches the exceptions): the outcomes, oldest first, and the final
    state. *)
Fixpoint drive (k : nat) (s : t * CanFrame) : list (outcome bool) * (t * CanFrame) :=
  match k with
  | O => ([], s)
  | S k' =>
      let (o, s') := MaybeWrite s in
      let (os, s'') := drive k' s' in
      (o :: os, s'')
  end.

End WriteCombiner.

(** ** The multiplex parser *)

Module MultiplexParser.

Record t : Type := {
  data_ : list Z;
  size_ : Z;
  offset_ : Z;
  remaining_ : Z;
  current_resolution_ : Resolution;
  current_register_ : Z
}.

(** [MultiplexParser(const uint8_t* data, uint8_t size)]. *)
Definition make (data : list Z) (size : Z) : t :=
  {| data_ := data; size_ := uint8 size; offset_ := 0; remaining_ := 0;
     current_resolution_ := kIgnore; current_register_ := 0 |}.

Definition wf (p : t) : Prop :=
  0 <= offset_ p /\ 0 <= size_ p <= Z.of_nat (length (data_ p)).

Definition ResolutionSize (res : Resolution) : Z :=
  match res with
  | kInt8 => 1
  | kInt16 => 2
  | kInt32 => 4
  | kFloat => 4
  | kIgnore => 1
  end.

Definition set_offset (p : t) (o : Z) : t :=
  {| data_ := data_ p; size_ := size_ p; offset_ := o;
     remaining_ := remaining_ p;
     current_resolution_ := current_resolution_ p;
     current_register_ := current_register_ p |}.

Definition set_remaining (p : t) (r : Z) : t :=
  {| data_ := data_ p; size_ := size_ p; offset_ := offset_ p;
     remaining_ := r;
     current_resolution_ := current_resolution_ p;
     current_register_ := current_register_ p |}.

Definition set_current_resolution (p : t) (r : Resolution) : t :=
  {| data_ := data_ p; size_ := size_ p; offset_ := offset_ p;
     remaining_ := remaining_ p;
     current_resolution_ := r;
     current_register_ := current_register_ p |}.

Definition set_current_register (p : t) (r : Z) : t :=
  {| data_ := data_ p; size_ := size_ p; offset_ := offset_ p;
     remaining_ := remaining_ p;
     current_resolution_ := current_resolution_ p;
     current_register_ := r |}.

(** [data_[offset_++]]: reading past the array is undefined. *)
Definition fetch : M t Z :=
  fun p =>
    match nth_error (data_ p) (Z.to_nat (offset_ p)) with
    | Some b => (Returns b, set_offset p (offset_ p + 1))
    | None => (Undefined, set_offset p (offset_ p + 1))
    end.

(** What [next] returns when there is no element. *)
Definition no_element : bool * Z * Resolution := (false, 0, kInt8).

(** The lambda of [next] that decodes the width code. *)
Definition resolution_of_id (id : Z) : Resolution :=
  match id with
  | 0 => kInt8
  | 1 => kInt16
  | 2 => kInt32
  | 3 => kFloat
  | _ => kInt8
  end.

(** The [while (offset_ < size_)] loop of [next] and the [return] after
    it; every iteration reads at least one byte, so [fuel] iterations
    are enough once [fuel] is the number of bytes left. *)
Fixpoint scan (fuel : nat) : M t (bool * Z * Resolution) :=
  fun p =>
    match fuel with
    | O => (Returns no_element, p)
    | S fuel' =>
        if offset_ p <? size_ p then
          (cmd <- fetch ;;
           if cmd =? Multiplex.kNop then scan fuel'
           else fun p =>
             if offset_ p >=? size_ p then (Returns no_element, p)
             else if (cmd >=? 0x20) && (cmd <? 0x30) then
               let id := Z.land (Z.shiftr cmd 2) 0x03 in
               let p := set_current_resolution p (resolution_of_id id) in
               let count := Z.land cmd 0x03 in
               let after_count (count : Z) : M t (bool * Z * Resolution) :=
                 if count =? 0 then scan fuel'
                 else
                   (reg <- fetch ;;
                    fun p =>
                      let p := set_current_register p reg in
                      let p := set_remaining p (count - 1) in
                      if offset_ p + ResolutionSize (current_resolution_ p) >? size_ p
                      then (Returns no_element, p)
                      else
                        (Returns (true, current_register_ p, current_resolution_ p),
                         set_current_register p (uint32 (current_register_ p + 1))))%cpp in
               if count =? 0 then
                 (count <- fetch ;;
                  fun p =>
                    if offset_ p >=? size_ p then (Returns no_element, p)
                    else after_count count p)%cpp p
               else after_count count p
             else (Returns no_element, set_offset p (size_ p)))%cpp p
        else (Returns no_element, p)
    end.

Definition next : M t (bool * Z * Resolution) :=
  fun p =>
    if offset_ p >=? size_ p then (Returns no_element, p)
    else if negb (remaining_ p =? 0) then
      let p := set_remaining p (remaining_ p - 1) in
      let this_register := current_register_ p in
      let p := set_current_register p (uint32 (current_register_ p + 1)) in
      if offset_ p + ResolutionSize (current_resolution_ p) >? size_ p
      then (Returns no_element, p)
      else (Returns (true, this_register, current_resolution_ p), p)
    else scan (Z.to_nat (size_ p - offset_ p)) p.

(** [Read<T>()]: the object representation of the next [sizeof(T)]
    bytes, as an unsigned number. *)
Definition Read_repr (w : Z) : M t Z :=
  fun p =>
    if offset_ p + w >? size_ p
    then (Throws (runtime_error "overrun"%str), p)
    else
      (Returns (le_value (firstn (Z.to_nat w) (skipn (Z.to_nat (offset_ p)) (data_ p)))),
       set_offset p (offset_ p + w)).

(** [Read<T>()] at an integer type: the two's complement value. *)
Definition Read (T : IntType) : M t Z :=
  (u <- Read_repr (sizeof T) ;; ret (static_cast T u))%cpp.

(** [Read<float>()]. *)
Definition Read_float : M t spec_float :=
  (u <- Read_repr 4 ;; ret (float_of_bits u))%cpp.

(** [Nanify<T>(value)]. *)
Definition Nanify (T : IntType) (value : Z) : spec_float :=
  if value =? numeric_limits_min T then S754_nan else double_of_int value.

Definition ReadMapped (res : Resolution) (int8_scale int16_scale int32_scale : spec_float)
  : M t spec_float :=
  match res with
  | kInt8 => (v <- Read int8_t ;; ret (double_mul (Nanify int8_t v) int8_scale))%cpp
  | kInt16 => (v <- Read int16_t ;; ret (double_mul (Nanify int16_t v) int16_scale))%cpp
  | kInt32 => (v <- Read int32_t ;; ret (double_mul (Nanify int32_t v) int32_scale))%cpp
  | kFloat => (x <- Read_float ;; ret (double_of_float x))%cpp
  | kIgnore => throw (logic_error "unreachable"%str)
  end.

Definition ReadPosition (res : Resolution) : M t spec_float :=
  ReadMapped res (literal 1 100) (literal 1 10000)
    (literal 1 100000).

Definition Ignore (res : Resolution) : M t unit :=
  fun p => (Returns tt, set_offset p (offset_ p + ResolutionSize res)).

(** The elements handed to a consumer that, like [ParseQueryResult],
    asks for the next element and takes its value before asking again
    ([Read] and [Ignore] move the cursor past the value), until there is
    no element: register, resolution and the offset of the value. *)
Fixpoint elements (fuel : nat) (p : t) : list (Z * Resolution * Z) :=
  match fuel with
  | O => []
  | S fuel' =>
      match next p with
      | (Returns (true, reg, res), p') =>
          (reg, res, offset_ p') :: elements fuel' (snd (Ignore res p'))
      | _ => []
      end
  end.

(** Every element takes at least one byte, so the bytes left bound the
    number of rounds. *)
Definition all_elements (p : t) : list (Z * Resolution * Z) :=
  elements (Z.to_nat (size_ p - offset_ p)) p.

(** [ReadInt]: the mapped value at scale 1.0 converted with
    [static_cast<int>], which is undefined for a NaN and for a value
    outside the range of [int]. *)
Definition ReadInt (res : Resolution) : M t Z :=
  (x <- ReadMapped res (literal 1 1) (literal 1 1) (literal 1 1) ;;
   fun p => (int_of_double int32_t x, p))%cpp.

Definition ReadVelocity (res : Resolution) : M t spec_float :=
  ReadMapped res (literal 1 10) (literal 25 100000) (literal 1 100000).

Definition ReadTorque (res : Resolution) : M t spec_float :=
  ReadMapped res (literal 5 10) (literal 1 100) (literal 1 1000).

Definition ReadPwm (res : Resolution) : M t spec_float :=
  ReadMapped res (literal 1 127) (literal 1 32767) (literal 1 2147483647).

Definition ReadVoltage (res : Resolution) : M t spec_float :=
  ReadMapped res (literal 5 10) (literal 1 10) (literal 1 1000).

Definition ReadTemperature (res : Resolution) : M t spec_float :=
  ReadMapped res (literal 1 1) (literal 1 10) (literal 1 1000).

Definition ReadTime (res : Resolution) : M t spec_float :=
  ReadMapped res (literal 1 100) (literal 1 1000) (literal 1 1000000).

Definition ReadCurrent (res : Resolution) : M t spec_float :=
  ReadMapped res (literal 1 1) (literal 1 10) (literal 1 1000).

End MultiplexParser.

(** ** Registers and modes *)

Module Register.
Definition kMode : Z := 0x000.
Definition kPosition : Z := 0x001.
Definition kVelocity : Z := 0x002.
Definition kTorque : Z := 0x003.
Definition kQCurrent : Z := 0x004.
Definition kDCurrent : Z := 0x005.
Definition kRezeroState : Z := 0x00c.
Definition kVoltage : Z := 0x00d.
Definition kTemperature : Z := 0x00e.
Definition kFault : Z := 0x00f.
Definition kCommandPosition : Z := 0x020.
Definition kStayWithinLower : Z := 0x040.
End Register.

Module Mode.
Definition kStopped : Z := 0.
Definition kPosition : Z := 10.
Definition kStayWithinBounds : Z := 13.
End Mode.

(** ** The commands *)

Module PositionCommand.
Record t : Type := {
  position : spec_float;
  velocity : spec_float;
  feedforward_torque : spec_float;
  kp_scale : spec_float;
  kd_scale : spec_float;
  maximum_torque : spec_float;
  stop_position : spec_float;
  watchdog_timeout : spec_float
}.

(** The default member initializers. *)
Definition initial : t :=
  {| position := S754_zero false; velocity := S754_zero false;
     feedforward_torque := S754_zero false;
     kp_scale := literal 1 1; kd_scale := literal 1 1;
     maximum_torque := S754_zero false; stop_position := S754_nan;
     watchdog_timeout := S754_zero false |}.
End PositionCommand.

Module PositionResolution.
Record t : Type := {
  position : Resolution;
  velocity : Resolution;
  feedforward_torque : Resolution;
  kp_scale : Resolution;
  kd_scale : Resolution;
  maximum_torque : Resolution;
  stop_position : Resolution;
  watchdog_timeout : Resolution
}.

Definition initial : t :=
  {| position := kFloat; velocity := kFloat; feedforward_torque := kFloat;
     kp_scale := kFloat; kd_scale := kFloat; maximum_torque := kIgnore;
     stop_position := kFloat; watchdog_timeout := kFloat |}.
End PositionResolution.

(** [bounds_min] and [bounds_max] are [float]s, the other values
    [double]s. *)
Module WithinCommand.
Record t : Type := {
  bounds_min : spec_float;
  bounds_max : spec_float;
  feedforward_torque : spec_float;
  kp_scale : spec_float;
  kd_scale : spec_float;
  maximum_torque : spec_float;
  stop_position : spec_float;
  watchdog_timeout : spec_float
}.

Definition initial : t :=
  {| bounds_min := S754_zero false; bounds_max := S754_zero false;
     feedforward_torque := S754_zero false;
     kp_scale := literal 1 1; kd_scale := literal 1 1;
     maximum_torque := S754_zero false; stop_position := S754_nan;
     watchdog_timeout := S754_zero false |}.
End WithinCommand.

Module WithinResolution.
Record t : Type := {
  bounds_min : Resolution;
  bounds_max : Resolution;
  feedforward_torque : Resolution;
  kp_scale : Resolution;
  kd_scale : Resolution;
  maximum_torque : Resolution;
  stop_position : Resolution;
  watchdog_timeout : Resolution
}.

Definition initial : t :=
  {| bounds_min := kFloat; bounds_max := kFloat; feedforward_torque := kFloat;
     kp_scale := kFloat; kd_scale := kFloat; maximum_torque := kFloat;
     stop_position := kFloat; watchdog_timeout := kFloat |}.
End WithinResolution.

Module QueryCommand.
Record t : Type := {
  mode : Resolution;
  position : Resolution;
  velocity : Resolution;
  torque : Resolution;
  q_current : Resolution;
  d_current : Resolution;
  rezero_state : Resolution;
  voltage : Resolution;
  temperature : Resolution;
  fault : Resolution
}.

Definition initial : t :=
  {| mode := kInt16; position := kInt16; velocity := kInt16; torque := kInt16;
     q_current := kInt16; d_current := kInt16; rezero_state := kInt16;
     voltage := kInt8; temperature := kInt8; fault := kInt8 |}.

Definition any_set (c : t) : bool :=
  negb (Resolution_eqb (mode c) kIgnore) || negb (Resolution_eqb (position c) kIgnore)
  || negb (Resolution_eqb (velocity c) kIgnore) || negb (Resolution_eqb (torque c) kIgnore)
  || negb (Resolution_eqb (q_current c) kIgnore)
  || negb (Resolution_eqb (d_current c) kIgnore)
  || negb (Resolution_eqb (rezero_state c) kIgnore)
  || negb (Resolution_eqb (voltage c) kIgnore)
  || negb (Resolution_eqb (temperature c) kIgnore) || negb (Resolution_eqb (fault c) kIgnore).
End QueryCommand.

(** A block that declares a [WriteCombiner]: the body runs over the
    combiner and the frame, and the destructor runs when the block is
    left.  When an exception leaves the block the destructor runs during
    stack unwinding, so its [abort()] ends the process before any handler
    is reached (without a handler the process is terminated as well);
    otherwise the exception goes on to the caller. *)
Definition combiner_scope (w : WriteCombiner.t)
    (body : M (WriteCombiner.t * CanFrame) unit) : M CanFrame unit :=
  fun f =>
    match body (w, f) with
    | (Returns _, (w', f')) => (WriteCombiner.destructor w', f')
    | (Throws e, (w', f')) =>
        match WriteCombiner.destructor w' with
        | Returns _ => (Throws e, f')
        | _ => (Aborts, f')
        end
    | (Aborts, (_, f')) => (Aborts, f')
    | (Undefined, (_, f')) => (Undefined, f')
    end.

(** [if (combiner.MaybeWrite()) { frame->Write...(...); }]. *)
Definition write_if_requested (write : M CanFrame unit)
  : M (WriteCombiner.t * CanFrame) unit :=
  (requested <- WriteCombiner.MaybeWrite ;;
   if requested then WriteCombiner.on_frame write else ret tt)%cpp.

(** [for (int i = 0; i < n; i++) { combiner.MaybeWrite(); }]. *)
Fixpoint MaybeWrite_times (n : nat) : M (WriteCombiner.t * CanFrame) unit :=
  match n with
  | O => ret tt
  | S n' => (_ <- WriteCombiner.MaybeWrite ;; MaybeWrite_times n')%cpp
  end.

Definition EmitStopCommand : M CanFrame unit :=
  (WriteCanFrame.Write int8_t (Z.lor Multiplex.kWriteInt8 0x01) ;;
   WriteCanFrame.Write int8_t Register.kMode ;;
   WriteCanFrame.Write int8_t Mode.kStopped)%cpp.

(** [watchdog_timeout] is a [double] handed to the [float] parameter of
    [WriteTime]. *)
Definition EmitPositionCommand (command : PositionCommand.t)
    (resolution : PositionResolution.t) : M CanFrame unit :=
  (WriteCanFrame.Write int8_t (Z.lor Multiplex.kWriteInt8 0x01) ;;
   WriteCanFrame.Write int8_t Register.kMode ;;
   WriteCanFrame.Write int8_t Mode.kPosition ;;
   combiner_scope
     (WriteCombiner.make 0x00 Register.kCommandPosition
        [PositionResolution.position resolution;
         PositionResolution.velocity resolution;
         PositionResolution.feedforward_torque resolution;
         PositionResolution.kp_scale resolution;
         PositionResolution.kd_scale resolution;
         PositionResolution.maximum_torque resolution;
         PositionResolution.stop_position resolution;
         PositionResolution.watchdog_timeout resolution])
     (write_if_requested
        (WriteCanFrame.WritePosition (PositionCommand.position command)
           (PositionResolution.position resolution)) ;;
      write_if_requested
        (WriteCanFrame.WriteVelocity (PositionCommand.velocity command)
           (PositionResolution.velocity resolution)) ;;
      write_if_requested
        (WriteCanFrame.WriteTorque (PositionCommand.feedforward_torque command)
           (PositionResolution.feedforward_torque resolution)) ;;
      write_if_requested
        (WriteCanFrame.WritePwm (PositionCommand.kp_scale command)
           (PositionResolution.kp_scale resolution)) ;;
      write_if_requested
        (WriteCanFrame.WritePwm (PositionCommand.kd_scale command)
           (PositionResolution.kd_scale resolution)) ;;
      write_if_requested
        (WriteCanFrame.WriteTorque (PositionCommand.maximum_torque command)
           (PositionResolution.maximum_torque resolution)) ;;
      write_if_requested
        (WriteCanFrame.WritePosition (PositionCommand.stop_position command)
           (PositionResolution.stop_position resolution)) ;;
      write_if_requested
        (WriteCanFrame.WriteTime (float_of_double (PositionCommand.watchdog_timeout command))
           (PositionResolution.watchdog_timeout resolution))))%cpp.

Definition EmitWithinCommand (command : WithinCommand.t)
    (resolution : WithinResolution.t) : M CanFrame unit :=
  (WriteCanFrame.Write int8_t (Z.lor Multiplex.kWriteInt8 0x01) ;;
   WriteCanFrame.Write int8_t Register.kMode ;;
   WriteCanFrame.Write int8_t Mode.kStayWithinBounds ;;
   combiner_scope
     (WriteCombiner.make 0x00 Register.kStayWithinLower
        [WithinResolution.bounds_min resolution;
         WithinResolution.bounds_max resolution;
         WithinResolution.feedforward_torque resolution;
         WithinResolution.kp_scale resolution;
         WithinResolution.kd_scale resolution;
         WithinResolution.maximum_torque resolution;
         WithinResolution.stop_position resolution;
         WithinResolution.watchdog_timeout resolution])
     (write_if_requested
        (WriteCanFrame.WriteTime (WithinCommand.bounds_min command)
           (WithinResolution.bounds_min resolution)) ;;
      write_if_requested
        (WriteCanFrame.WriteTime (WithinCommand.bounds_max command)
           (WithinResolution.bounds_max resolution)) ;;
      write_if_requested
        (WriteCanFrame.WriteTorque (WithinCommand.feedforward_torque command)
           (WithinResolution.feedforward_torque resolution)) ;;
      write_if_requested
        (WriteCanFrame.WritePwm (WithinCommand.kp_scale command)
           (WithinResolution.kp_scale resolution)) ;;
      write_if_requested
        (WriteCanFrame.WritePwm (WithinCommand.kd_scale command)
           (WithinResolution.kd_scale resolution)) ;;
      write_if_requested
        (WriteCanFrame.WriteTorque (WithinCommand.maximum_torque command)
           (WithinResolution.maximum_torque resolution)) ;;
      write_if_requested
        (WriteCanFrame.WritePosition (WithinCommand.stop_position command)
           (WithinResolution.stop_position resolution)) ;;
      write_if_requested
        (WriteCanFrame.WriteTime (float_of_double (WithinCommand.watchdog_timeout command))
           (WithinResolution.watchdog_timeout resolution))))%cpp.

Definition EmitQueryCommand (command : QueryCommand.t) : M CanFrame unit :=
  (combiner_scope
     (WriteCombiner.make 0x10 Register.kMode
        [QueryCommand.mode command;
         QueryCommand.position command;
         QueryCommand.velocity command;
         QueryCommand.torque command;
         QueryCommand.q_current command;
         QueryCommand.d_current command])
     (MaybeWrite_times 6) ;;
   combiner_scope
     (WriteCombiner.make 0x10 Register.kRezeroState
        [QueryCommand.rezero_state command;
         QueryCommand.voltage command;
         QueryCommand.temperature command;
         QueryCommand.fault command])
     (MaybeWrite_times 4))%cpp.

(** ** The reply to a query *)

Module QueryResult.
Record t : Type := {
  mode : Z;
  position : spec_float;
  velocity : spec_float;
  torque : spec_float;
  q_current : spec_float;
  d_current : spec_float;
  rezero_state : bool;
  voltage : spec_float;
  temperature : spec_float;
  fault : Z
}.

(** The member initializers: [Mode::kStopped], NaNs, [false] and 0. *)
Definition initial : t :=
  {| mode := Mode.kStopped; position := S754_nan; velocity := S754_nan;
     torque := S754_nan; q_current := S754_nan; d_current := S754_nan;
     rezero_state := false; voltage := S754_nan; temperature := S754_nan;
     fault := 0 |}.

Definition set_mode (r : t) (v : Z) : t :=
  {| mode := v; position := position r; velocity := velocity r; torque := torque r;
     q_current := q_current r; d_current := d_current r; rezero_state := rezero_state r;
     voltage := voltage r; temperature := temperature r; fault := fault r |}.

Definition set_position (r : t) (v : spec_float) : t :=
  {| mode := mode r; position := v; velocity := velocity r; torque := torque r;
     q_current := q_current r; d_current := d_current r; rezero_state := rezero_state r;
     voltage := voltage r; temperature := temperature r; fault := fault r |}.

Definition set_velocity (r : t) (v : spec_float) : t :=
  {| mode := mode r; position := position r; velocity := v; torque := torque r;
     q_current := q_current r; d_current := d_current r; rezero_state := rezero_state r;
     voltage := voltage r; temperature := temperature r; fault := fault r |}.

Definition set_torque (r : t) (v : spec_float) : t :=
  {| mode := mode r; position := position r; velocity := velocity r; torque := v;
     q_current := q_current r; d_current := d_current r; rezero_state := rezero_state r;
     voltage := voltage r; temperature := temperature r; fault := fault r |}.

Definition set_q_current (r : t) (v : spec_float) : t :=
  {| mode := mode r; position := position r; velocity := velocity r; torque := torque r;
     q_current := v; d_current := d_current r; rezero_state := rezero_state r;
     voltage := voltage r; temperature := temperature r; fault := fault r |}.

Definition set_d_current (r : t) (v : spec_float) : t :=
  {| mode := mode r; position := position r; velocity := velocity r; torque := torque r;
     q_current := q_current r; d_current := v; rezero_state := rezero_state r;
     voltage := voltage r; temperature := temperature r; fault := fault r |}.

Definition set_rezero_state (r : t) (v : bool) : t :=
  {| mode := mode r; position := position r; velocity := velocity r; torque := torque r;
     q_current := q_current r; d_current := d_current r; rezero_state := v;
     voltage := voltage r; temperature := temperature r; fault := fault r |}.

Definition set_voltage (r : t) (v : spec_float) : t :=
  {| mode := mode r; position := position r; velocity := velocity r; torque := torque r;
     q_current := q_current r; d_current := d_current r; rezero_state := rezero_state r;
     voltage := v; temperature := temperature r; fault := fault r |}.

Definition set_temperature (r : t) (v : spec_float) : t :=
  {| mode := mode r; position := position r; velocity := velocity r; torque := torque r;
     q_current := q_current r; d_current := d_current r; rezero_state := rezero_state r;
     voltage := voltage r; temperature := v; fault := fault r |}.

Definition set_fault (r : t) (v : Z) : t :=
  {| mode := mode r; position := position r; velocity := velocity r; torque := torque r;
     q_current := q_current r; d_current := d_current r; rezero_state := rezero_state r;
     voltage := voltage r; temperature := temperature r; fault := v |}.
End QueryResult.

(** The [switch] of [ParseQueryResult] on the register of an element. *)
Definition store_register (reg : Z) (res : Resolution) (result : QueryResult.t)
  : M MultiplexParser.t QueryResult.t :=
  if reg =? Register.kMode then
    (v <- MultiplexParser.ReadInt res ;; ret (QueryResult.set_mode result v))%cpp
  else if reg =? Register.kPosition then
    (v <- MultiplexParser.ReadPosition res ;; ret (QueryResult.set_position result v))%cpp
  else if reg =? Register.kVelocity then
    (v <- MultiplexParser.ReadVelocity res ;; ret (QueryResult.set_velocity result v))%cpp
  else if reg =? Register.kTorque then
    (v <- MultiplexParser.ReadTorque res ;; ret (QueryResult.set_torque result v))%cpp
  else if reg =? Register.kQCurrent then
    (v <- MultiplexParser.ReadCurrent res ;; ret (QueryResult.set_q_current result v))%cpp
  else if reg =? Register.kDCurrent then
    (v <- MultiplexParser.ReadCurrent res ;; ret (QueryResult.set_d_current result v))%cpp
  else if reg =? Register.kRezeroState then
    (v <- MultiplexParser.ReadInt res ;;
     ret (QueryResult.set_rezero_state result (negb (v =? 0))))%cpp
  else if reg =? Register.kVoltage then
    (v <- MultiplexParser.ReadVoltage res ;; ret (QueryResult.set_voltage result v))%cpp
  else if reg =? Register.kTemperature then
    (v <- MultiplexParser.ReadTemperature res ;;
     ret (QueryResult.set_temperature result v))%cpp
  else if reg =? Register.kFault then
    (v <- MultiplexParser.ReadInt res ;; ret (QueryResult.set_fault result v))%cpp
  else
    (MultiplexParser.Ignore res ;; ret result)%cpp.

(** The [while (true)] loop of [ParseQueryResult]; every round that does
    not leave the loop moves the cursor by at least one byte, so the
    bytes left, and one round more, bound the rounds. *)
Fixpoint parse_registers (fuel : nat) (result : QueryResult.t)
  : M MultiplexParser.t QueryResult.t :=
  match fuel with
  | O => ret result
  | S fuel' =>
      (entry <- MultiplexParser.next ;;
       match entry with
       | (false, _, _) => ret result
       | (true, reg, res) =>
           (result' <- store_register reg res result ;;
            parse_registers fuel' result')
       end)%cpp
  end.

(** [size] is a [size_t] that the constructor of the parser takes as a
    [uint8_t]. *)
Definition ParseQueryResult (data : list Z) (size : Z) : outcome QueryResult.t :=
  fst (parse_registers (S (Z.to_nat (uint8 size))) QueryResult.initial
         (MultiplexParser.make data size)).

(** ** The wrapper of [wrapper.h] *)

Module MoteusWrapper.
Section Drivers.
(** [MoteusAPI] and its constructor are declared in [MoteusAPI.h]. *)
Variable MoteusAPI : Type.
Variable MoteusAPI_new : String.string -> Z -> MoteusAPI.

(** The condition handed to [assert] in the constructor. *)
Definition assert_condition (dev_name : list String.string) (moteus_id : list Z) : bool :=
  negb (length dev_name =? length moteus_id)%nat.

(** The [for] loop of the constructor, from index [i] on: [names] are
    the device names left; [moteus_id[i]] past the end of the vector
    is undefined. *)
Fixpoint push_drivers (names : list String.string) (i : nat) (moteus_id : list Z)
    (drivers : list MoteusAPI) : outcome (list MoteusAPI) :=
  match names with
  | [] => Returns drivers
  | name :: names' =>
      match nth_error moteus_id i with
      | Some id => push_drivers names' (S i) moteus_id (drivers ++ [MoteusAPI_new name id])
      | None => Undefined
      end
  end.

(** The constructor, with assertions compiled in: the [drivers] of the
    new object, or the abort of a failed assertion. *)
Definition make (dev_name : list String.string) (moteus_id : list Z)
  : outcome (list MoteusAPI) :=
  if assert_condition dev_name moteus_id
  then push_drivers dev_name 0 moteus_id []
  else Aborts.
End Drivers.
End MoteusWrapper.

(** * Properties *)

(** ** Byte strings *)

Lemma le_bytes_length (w : nat) (z : Z) : length (le_bytes w z) = w.
Proof. revert z; induction w as [|w IH]; intros z; simpl; [reflexivity|now rewrite IH]. Qed.

Lemma nth_error_le_bytes (w i : nat) (z : Z) :
  (i < w)%nat ->
  nth_error (le_bytes w z) i = Some ((z / 256 ^ Z.of_nat i) mod 256).
Proof.
  revert i z; induction w as [|w IH]; intros i z Hi; [lia|].
  destruct i as [|i]; simpl le_bytes; simpl nth_error.
  - now rewrite Z.pow_0_r, Z.div_1_r.
  - rewrite IH by lia. f_equal. f_equal.
    rewrite Nat2Z.inj_succ, Z.pow_succ_r by lia.
    now rewrite Z.div_div by lia.
Qed.

Lemma le_value_le_bytes (w : nat) (z : Z) :
  le_value (le_bytes w z) = z mod 256 ^ Z.of_nat w.
Proof.
  revert z; induction w as [|w IH]; intros z.
  - simpl. now rewrite Z.mod_1_r.
  - simpl le_bytes; simpl le_value. rewrite IH.
    rewrite Nat2Z.inj_succ, Z.pow_succ_r by lia.
    rewrite Z.rem_mul_r by lia. reflexivity.
Qed.

Lemma memcpy_length (dst src : list Z) (at_ : Z) :
  0 <= at_ ->
  (Z.to_nat at_ + length src <= length dst)%nat ->
  length (memcpy dst at_ src) = length dst.
Proof.
  intros H0 Hle. unfold memcpy.
  rewrite !length_app, length_firstn, length_skipn. lia.
Qed.

Lemma memcpy_prefix (dst src : list Z) (at_ : Z) :
  (Z.to_nat at_ <= length dst)%nat ->
  firstn (Z.to_nat at_ + length src) (memcpy dst at_ src)
  = firstn (Z.to_nat at_) dst ++ src.
Proof.
  intros Hle. unfold memcpy.
  assert (Hl : length (firstn (Z.to_nat at_) dst) = Z.to_nat at_)
    by (rewrite length_firstn; lia).
  rewrite firstn_app, Hl.
  rewrite (firstn_all2 (n := Z.to_nat at_ + length src)) by lia.
  f_equal.
  replace (Z.to_nat at_ + length src - Z.to_nat at_)%nat with (length src) by lia.
  rewrite firstn_app, firstn_all, Nat.sub_diag. simpl.
  now rewrite app_nil_r.
Qed.

(** ** The frame writer *)

Lemma Write_repr_overflow (repr : list Z) (f : CanFrame) :
  size f + Z.of_nat (length repr) > 64 ->
  WriteCanFrame.Write_repr repr f = (Throws (runtime_error "overflow"%str), f).
Proof.
  intros H. unfold WriteCanFrame.Write_repr.
  destruct (Z.gtb_spec (Z.of_nat (length repr) + size f) 64); [reflexivity|lia].
Qed.

Lemma Write_repr_append (repr : list Z) (f : CanFrame) :
  wf_frame f ->
  size f + Z.of_nat (length repr) <= 64 ->
  exists f',
    WriteCanFrame.Write_repr repr f = (Returns tt, f')
    /\ wf_frame f'
    /\ size f' = size f + Z.of_nat (length repr)
    /\ contents f' = contents f ++ repr.
Proof.
  intros [Hlen Hsz] H. unfold WriteCanFrame.Write_repr.
  destruct (Z.gtb_spec (Z.of_nat (length repr) + size f) 64); [lia|].
  eexists; split; [reflexivity|].
  assert (Hu : uint8 (size f + Z.of_nat (length repr)) = size f + Z.of_nat (length repr))
    by (unfold uint8; apply Z.mod_small; lia).
  unfold wf_frame, contents; cbn [data size]. rewrite Hu.
  repeat split; try lia.
  - rewrite memcpy_length; lia.
  - replace (Z.to_nat (size f + Z.of_nat (length repr)))
      with (Z.to_nat (size f) + length repr)%nat by lia.
    apply memcpy_prefix. lia.
Qed.

Lemma static_cast_mod (T : IntType) (z : Z) :
  static_cast T z mod 2 ^ (8 * sizeof T) = z mod 2 ^ (8 * sizeof T).
Proof.
  unfold static_cast.
  rewrite <- Zminus_mod_idemp_l, Z.mod_mod by (destruct T; simpl; lia).
  rewrite Zminus_mod_idemp_l. f_equal. lia.
Qed.

Lemma static_cast_range (T : IntType) (z : Z) :
  numeric_limits_min T <= static_cast T z <= numeric_limits_max T.
Proof.
  unfold static_cast, numeric_limits_min.
  pose proof (Z.mod_pos_bound (z + 2 ^ (8 * sizeof T - 1)) (2 ^ (8 * sizeof T))).
  destruct T; simpl in *; lia.
Qed.

Lemma static_cast_small (T : IntType) (z : Z) :
  numeric_limits_min T <= z <= numeric_limits_max T -> static_cast T z = z.
Proof.
  unfold static_cast, numeric_limits_min. intros H.
  rewrite Z.mod_small; destruct T; simpl in *; lia.
Qed.

Lemma Write_int8_append (v : Z) (f : CanFrame) :
  wf_frame f ->
  size f + 1 <= 64 ->
  exists f',
    WriteCanFrame.Write int8_t v f = (Returns tt, f')
    /\ wf_frame f'
    /\ size f' = size f + 1
    /\ contents f' = contents f ++ [uint8 v].
Proof.
  intros Hwf Hroom. unfold WriteCanFrame.Write.
  destruct (Write_repr_append (le_bytes (Z.to_nat (sizeof int8_t)) (static_cast int8_t v)) f Hwf)
    as (f' & E & Hwf' & Hs & Hc).
  - simpl. lia.
  - exists f'. split; [exact E|]. split; [exact Hwf'|]. split.
    + rewrite Hs. simpl. lia.
    + rewrite Hc. pose proof (static_cast_mod int8_t v) as Hm.
      change (2 ^ (8 * sizeof int8_t)) with 256 in Hm.
      change (Z.to_nat (sizeof int8_t)) with 1%nat. simpl le_bytes. unfold uint8.
      now rewrite Hm.
Qed.

(** ** The write combiner *)

Lemma Resolution_eqb_eq (a b : Resolution) : Resolution_eqb a b = true <-> a = b.
Proof. destruct a, b; simpl; split; intros H; try reflexivity; discriminate. Qed.

Lemma Resolution_eqb_neq (a b : Resolution) : Resolution_eqb a b = false <-> a <> b.
Proof. destruct a, b; simpl; split; intros H; try reflexivity; try discriminate; congruence. Qed.

Lemma Resolution_eqb_refl (a : Resolution) : Resolution_eqb a a = true.
Proof. now destruct a. Qed.

(** The framing part only writes to the frame. *)
Definition frame_only {A} (c : M (WriteCombiner.t * CanFrame) A) : Prop :=
  forall s, fst (snd (c s)) = fst s.

Lemma frame_only_bind {A B} (c : M (WriteCombiner.t * CanFrame) A)
    (k : A -> M (WriteCombiner.t * CanFrame) B) :
  frame_only c -> (forall a, frame_only (k a)) -> frame_only (bind c k).
Proof.
  intros Hc Hk s. unfold bind. specialize (Hc s).
  destruct (c s) as [[a|e| |] s']; cbn [fst snd] in *; try assumption.
  now rewrite Hk.
Qed.

Lemma frame_only_on_frame {A} (c : M CanFrame A) :
  frame_only (WriteCombiner.on_frame c).
Proof. intros [w f]. unfold WriteCombiner.on_frame. cbn [fst snd]. now destruct (c f). Qed.

Lemma frame_only_write_framing (r : Resolution) (count this_offset : Z) :
  frame_only (WriteCombiner.write_framing r count this_offset).
Proof.
  unfold WriteCombiner.write_framing.
  apply frame_only_bind; [intros s; reflexivity|intros w].
  apply frame_only_bind; [destruct r; intros s; reflexivity|intros code].
  apply frame_only_bind.
  { destruct (count <=? 3); [apply frame_only_on_frame|].
    apply frame_only_bind; [apply frame_only_on_frame|intros _; apply frame_only_on_frame]. }
  intros _. apply frame_only_bind.
  { destruct (_ >? 127); intros s; reflexivity. }
  intros _. apply frame_only_bind; [apply frame_only_on_frame|].
  intros _ s; reflexivity.
Qed.

(** Every call advances the counter, and touches no other member than the
    current resolution, whatever its outcome. *)
Lemma MaybeWrite_members (s : WriteCombiner.t * CanFrame) :
  let w' := fst (snd (WriteCombiner.MaybeWrite s)) in
  WriteCombiner.offset_ w' = size_t (WriteCombiner.offset_ (fst s) + 1)
  /\ WriteCombiner.resolutions_ w' = WriteCombiner.resolutions_ (fst s)
  /\ WriteCombiner.base_command_ w' = WriteCombiner.base_command_ (fst s)
  /\ WriteCombiner.start_register_ w' = WriteCombiner.start_register_ (fst s).
Proof.
  destruct s as [w f]. unfold WriteCombiner.MaybeWrite. cbn [fst snd].
  cbn [WriteCombiner.set_offset WriteCombiner.resolutions_ WriteCombiner.current_resolution_].
  destruct (nth_error _ _) as [r|]; [|cbn; auto].
  destruct (Resolution_eqb (WriteCombiner.current_resolution_ w) r); [cbn; auto|].
  destruct (Resolution_eqb r kIgnore); [cbn; auto|].
  rewrite frame_only_write_framing. cbn. auto.
Qed.

(** A computation that either returns a value in [Q] or throws: it never
    aborts and never runs into undefined behaviour. *)
Definition returns_in {St A} (Q : A -> Prop) (c : M St A) : Prop :=
  forall s, match fst (c s) with
            | Returns a => Q a
            | Throws _ => True
            | Aborts | Undefined => False
            end.

Lemma returns_in_bind {St A B} (QA : A -> Prop) (QB : B -> Prop)
    (c : M St A) (k : A -> M St B) :
  returns_in QA c -> (forall a, QA a -> returns_in QB (k a)) ->
  returns_in QB (bind c k).
Proof.
  intros Hc Hk s. unfold bind. specialize (Hc s).
  destruct (c s) as [[a|e| |] s']; cbn [fst] in *; try easy.
  now apply Hk.
Qed.

Lemma returns_in_Write_repr (repr : list Z) :
  returns_in (fun _ => True) (WriteCanFrame.Write_repr repr).
Proof. intros f. unfold WriteCanFrame.Write_repr. now destruct (_ >? 64). Qed.

Lemma returns_in_on_frame {A} (Q : A -> Prop) (c : M CanFrame A) :
  returns_in Q c -> returns_in Q (WriteCombiner.on_frame c).
Proof.
  intros Hc [w f]. unfold WriteCombiner.on_frame. cbn [snd]. specialize (Hc f).
  now destruct (c f).
Qed.

Lemma write_framing_returns_true (r : Resolution) (count this_offset : Z) :
  returns_in (fun b => b = true) (WriteCombiner.write_framing r count this_offset).
Proof.
  unfold WriteCombiner.write_framing.
  apply (returns_in_bind (fun _ => True)); [now intros s|intros w _].
  apply (returns_in_bind (fun _ => True)); [destruct r; now intros s|intros code _].
  apply (returns_in_bind (fun _ => True)).
  { destruct (count <=? 3).
    - apply returns_in_on_frame, returns_in_Write_repr.
    - apply (returns_in_bind (fun _ => True)); [|intros _ _];
        apply returns_in_on_frame, returns_in_Write_repr. }
  intros _ _. apply (returns_in_bind (fun _ => True)).
  { destruct (_ >? 127); now intros s. }
  intros _ _. apply (returns_in_bind (fun _ => True)).
  { apply returns_in_on_frame, returns_in_Write_repr. }
  now intros _ _ s.
Qed.

(** The bits that select the width in a command byte. *)
Definition width_bits (r : Resolution) : Z :=
  match r with kInt8 => 0x00 | kInt16 => 0x04 | kInt32 => 0x08 | kFloat => 0x0c | kIgnore => 0 end.

(** The bytes of the framing of a run of [count] registers of resolution
    [r] whose first register is [reg], as [write_framing] computes them. *)
Definition framing_bytes (base : Z) (r : Resolution) (count reg : Z) : list Z :=
  let write_command := static_cast int8_t (base + width_bits r) in
  (if count <=? 3
   then [uint8 (write_command + count)]
   else [uint8 write_command; uint8 count]) ++ [uint8 reg].

Lemma write_framing_writes (w : WriteCombiner.t) (f : CanFrame)
    (r : Resolution) (count this_offset : Z) :
  r <> kIgnore ->
  wf_frame f ->
  size f + 3 <= 64 ->
  size_t (WriteCombiner.start_register_ w + this_offset) <= 127 ->
  exists f',
    WriteCombiner.write_framing r count this_offset (w, f) = (Returns true, (w, f'))
    /\ wf_frame f'
    /\ contents f'
       = contents f
         ++ framing_bytes (WriteCombiner.base_command_ w) r count
              (size_t (WriteCombiner.start_register_ w + this_offset)).
Proof.
  intros Hr Hwf Hroom Hreg.
  unfold WriteCombiner.write_framing, framing_bytes, bind, ret, throw.
  cbn [fst snd].
  assert (Hcode : WriteCombiner.width_code r (w, f) = (Returns (width_bits r), (w, f)))
    by (destruct r; try reflexivity; congruence).
  rewrite Hcode.
  set (wc := static_cast int8_t (WriteCombiner.base_command_ w + width_bits r)).
  destruct (Z.gtb_spec (size_t (WriteCombiner.start_register_ w + this_offset)) 127) as [Hgt|_];
    [lia|].
  unfold WriteCombiner.on_frame. cbn [fst snd].
  destruct (count <=? 3).
  - destruct (Write_int8_append (wc + count) f Hwf) as (f1 & E1 & Hwf1 & Hs1 & Hc1); [lia|].
    cbn [fst snd]. rewrite E1. cbn [fst snd].
    destruct (Write_int8_append (size_t (WriteCombiner.start_register_ w + this_offset)) f1 Hwf1)
      as (f2 & E2 & Hwf2 & Hs2 & Hc2); [lia|].
    cbn [fst snd]. rewrite E2. cbn [fst snd]. exists f2. split; [reflexivity|]. split; [assumption|].
    rewrite Hc2, Hc1, <- app_assoc. reflexivity.
  - destruct (Write_int8_append wc f Hwf) as (f1 & E1 & Hwf1 & Hs1 & Hc1); [lia|].
    cbn [fst snd]. rewrite E1. cbn [fst snd].
    destruct (Write_int8_append count f1 Hwf1) as (f2 & E2 & Hwf2 & Hs2 & Hc2); [lia|].
    cbn [fst snd]. rewrite E2. cbn [fst snd].
    destruct (Write_int8_append (size_t (WriteCombiner.start_register_ w + this_offset)) f2 Hwf2)
      as (f3 & E3 & Hwf3 & Hs3 & Hc3); [lia|].
    cbn [fst snd]. rewrite E3. cbn [fst snd]. exists f3. split; [reflexivity|]. split; [assumption|].
    rewrite Hc3, Hc2, Hc1, <- !app_assoc. reflexivity.
Qed.

Lemma MaybeWrite_same_resolution (w : WriteCombiner.t) (f : CanFrame) (r : Resolution) :
  nth_error (WriteCombiner.resolutions_ w) (Z.to_nat (WriteCombiner.offset_ w)) = Some r ->
  WriteCombiner.current_resolution_ w = r ->
  WriteCombiner.MaybeWrite (w, f)
  = (Returns (negb (Resolution_eqb r kIgnore)),
     (WriteCombiner.set_offset w (size_t (WriteCombiner.offset_ w + 1)), f)).
Proof.
  intros Hn Hc. unfold WriteCombiner.MaybeWrite. cbn [fst snd].
  cbn [WriteCombiner.set_offset WriteCombiner.resolutions_ WriteCombiner.current_resolution_].
  rewrite Hn, Hc, Resolution_eqb_refl. reflexivity.
Qed.

Lemma MaybeWrite_new_gap (w : WriteCombiner.t) (f : CanFrame) :
  nth_error (WriteCombiner.resolutions_ w) (Z.to_nat (WriteCombiner.offset_ w)) = Some kIgnore ->
  WriteCombiner.current_resolution_ w <> kIgnore ->
  WriteCombiner.MaybeWrite (w, f)
  = (Returns false,
     (WriteCombiner.set_current_resolution
        (WriteCombiner.set_offset w (size_t (WriteCombiner.offset_ w + 1))) kIgnore, f)).
Proof.
  intros Hn Hc. unfold WriteCombiner.MaybeWrite. cbn [fst snd].
  cbn [WriteCombiner.set_offset WriteCombiner.resolutions_ WriteCombiner.current_resolution_].
  rewrite Hn. apply Resolution_eqb_neq in Hc. rewrite Hc. reflexivity.
Qed.

Lemma MaybeWrite_new_run (w : WriteCombiner.t) (f : CanFrame) (r : Resolution) :
  nth_error (WriteCombiner.resolutions_ w) (Z.to_nat (WriteCombiner.offset_ w)) = Some r ->
  WriteCombiner.current_resolution_ w <> r ->
  r <> kIgnore ->
  WriteCombiner.MaybeWrite (w, f)
  = WriteCombiner.write_framing r
      (1 + WriteCombiner.run_ahead r
             (skipn (S (Z.to_nat (WriteCombiner.offset_ w))) (WriteCombiner.resolutions_ w)))
      (WriteCombiner.offset_ w)
      (WriteCombiner.set_current_resolution
         (WriteCombiner.set_offset w (size_t (WriteCombiner.offset_ w + 1))) r, f).
Proof.
  intros Hn Hc Hr. unfold WriteCombiner.MaybeWrite. cbn [fst snd].
  cbn [WriteCombiner.set_offset WriteCombiner.resolutions_ WriteCombiner.current_resolution_].
  rewrite Hn. apply Resolution_eqb_neq in Hc, Hr. rewrite Hc, Hr. reflexivity.
Qed.

(** After a call that read resolution [r], [r] is the current resolution. *)
Lemma MaybeWrite_current (w : WriteCombiner.t) (f : CanFrame) (r : Resolution) :
  nth_error (WriteCombiner.resolutions_ w) (Z.to_nat (WriteCombiner.offset_ w)) = Some r ->
  WriteCombiner.current_resolution_ (fst (snd (WriteCombiner.MaybeWrite (w, f)))) = r.
Proof.
  intros Hn.
  destruct (Resolution_eqb (WriteCombiner.current_resolution_ w) r) eqn:Ec.
  - apply Resolution_eqb_eq in Ec. rewrite (MaybeWrite_same_resolution w f r Hn Ec).
    exact Ec.
  - apply Resolution_eqb_neq in Ec.
    destruct (Resolution_eqb r kIgnore) eqn:Er.
    + apply Resolution_eqb_eq in Er. subst r. now rewrite MaybeWrite_new_gap.
    + apply Resolution_eqb_neq in Er. rewrite (MaybeWrite_new_run w f r Hn Ec Er).
      now rewrite frame_only_write_framing.
Qed.

(** A call leaves a well-formed frame well-formed. *)
Lemma Write_repr_wf (repr : list Z) (f : CanFrame) :
  wf_frame f -> wf_frame (snd (WriteCanFrame.Write_repr repr f)).
Proof.
  intros Hwf.
  destruct (Z_le_gt_dec (size f + Z.of_nat (length repr)) 64) as [Hle|Hgt].
  - destruct (Write_repr_append repr f Hwf Hle) as (f' & E & Hwf' & _). now rewrite E.
  - now rewrite Write_repr_overflow.
Qed.

Definition keeps_wf {A} (c : M (WriteCombiner.t * CanFrame) A) : Prop :=
  forall s, wf_frame (snd s) -> wf_frame (snd (snd (c s))).

Lemma keeps_wf_bind {A B} (c : M (WriteCombiner.t * CanFrame) A)
    (k : A -> M (WriteCombiner.t * CanFrame) B) :
  keeps_wf c -> (forall a, keeps_wf (k a)) -> keeps_wf (bind c k).
Proof.
  intros Hc Hk s Hs. unfold bind. specialize (Hc s Hs).
  destruct (c s) as [[a|e| |] s']; cbn [fst snd] in *; try assumption.
  now apply Hk.
Qed.

Lemma keeps_wf_on_frame_Write (T : IntType) (v : Z) :
  keeps_wf (WriteCombiner.on_frame (WriteCanFrame.Write T v)).
Proof.
  intros [w f] Hwf. unfold WriteCombiner.on_frame, WriteCanFrame.Write. cbn [fst snd] in *.
  pose proof (Write_repr_wf (le_bytes (Z.to_nat (sizeof T)) (static_cast T v)) f Hwf) as H.
  now destruct (WriteCanFrame.Write_repr _ f).
Qed.

Lemma keeps_wf_write_framing (r : Resolution) (count this_offset : Z) :
  keeps_wf (WriteCombiner.write_framing r count this_offset).
Proof.
  unfold WriteCombiner.write_framing.
  apply keeps_wf_bind; [now intros s|intros w].
  apply keeps_wf_bind; [destruct r; now intros s|intros code].
  apply keeps_wf_bind.
  { destruct (count <=? 3); [apply keeps_wf_on_frame_Write|].
    apply keeps_wf_bind; [|intros _]; apply keeps_wf_on_frame_Write. }
  intros _. apply keeps_wf_bind.
  { destruct (_ >? 127); now intros s. }
  intros _. apply keeps_wf_bind; [apply keeps_wf_on_frame_Write|].
  now intros _ s.
Qed.

Lemma MaybeWrite_wf : keeps_wf WriteCombiner.MaybeWrite.
Proof.
  intros [w f] Hwf. unfold WriteCombiner.MaybeWrite. cbn [fst snd] in *.
  cbn [WriteCombiner.set_offset WriteCombiner.resolutions_ WriteCombiner.current_resolution_].
  destruct (nth_error _ _) as [r|]; [|assumption].
  destruct (Resolution_eqb (WriteCombiner.current_resolution_ w) r); [assumption|].
  destruct (Resolution_eqb r kIgnore); [assumption|].
  now apply keeps_wf_write_framing.
Qed.

Lemma drive_snoc (k : nat) (s : WriteCombiner.t * CanFrame) :
  WriteCombiner.drive (S k) s
  = (fst (WriteCombiner.drive k s)
       ++ [fst (WriteCombiner.MaybeWrite (snd (WriteCombiner.drive k s)))],
     snd (WriteCombiner.MaybeWrite (snd (WriteCombiner.drive k s)))).
Proof.
  revert s; induction k as [|k IH]; intros s.
  - simpl. now destruct (WriteCombiner.MaybeWrite s).
  - change (WriteCombiner.drive (S (S k)) s)
      with (let (o, s') := WriteCombiner.MaybeWrite s in
            let (os, s'') := WriteCombiner.drive (S k) s' in (o :: os, s'')).
    destruct (WriteCombiner.MaybeWrite s) as [o s'] eqn:E.
    rewrite IH.
    change (WriteCombiner.drive (S k) s)
      with (let (o, s') := WriteCombiner.MaybeWrite s in
            let (os, s'') := WriteCombiner.drive k s' in (o :: os, s'')).
    rewrite E.
    destruct (WriteCombiner.drive k s') as [os s'']. reflexivity.
Qed.

(** The state after [k] calls on a fresh combiner: the counter is [k], the
    current resolution is the last one read, and the frame is still a
    frame. *)
Lemma drive_state (base start : Z) (res : list Resolution) (f : CanFrame) (k : nat) :
  (k <= length res)%nat ->
  Z.of_nat (length res) < 2 ^ 64 ->
  let w := fst (snd (WriteCombiner.drive k (WriteCombiner.make base start res, f))) in
  WriteCombiner.offset_ w = Z.of_nat k
  /\ WriteCombiner.resolutions_ w = res
  /\ WriteCombiner.base_command_ w = static_cast int8_t base
  /\ WriteCombiner.start_register_ w = uint32 start
  /\ WriteCombiner.current_resolution_ w
     = match k with O => kIgnore | S k' => nth k' res kIgnore end.
Proof.
  induction k as [|k IH]; intros Hk HN.
  - simpl. auto.
  - rewrite drive_snoc. cbn [snd]. cbv zeta in IH.
    destruct IH as (Ho & Hres & Hb & Hs & Hc); [lia|assumption|].
    destruct (WriteCombiner.drive k _) as [os [w f']]. cbn [fst snd] in *.
    pose proof (MaybeWrite_members (w, f')) as (Mo & Mres & Mb & Ms). cbn [fst snd] in *.
    rewrite Mo, Mres, Mb, Ms, Ho, Hres, Hb, Hs.
    repeat split.
    + unfold size_t. rewrite Z.mod_small; lia.
    + destruct (nth_error res k) as [r|] eqn:En.
      * rewrite (MaybeWrite_current w f' r) by (rewrite Ho, Hres, Nat2Z.id; exact En).
        symmetry. now apply nth_error_nth.
      * apply nth_error_None in En. lia.
Qed.

Lemma drive_wf (k : nat) (s : WriteCombiner.t * CanFrame) :
  wf_frame (snd s) -> wf_frame (snd (snd (WriteCombiner.drive k s))).
Proof.
  induction k as [|k IH]; intros Hwf; [exact Hwf|].
  rewrite drive_snoc. cbn [snd]. apply MaybeWrite_wf. now apply IH.
Qed.

Lemma drive_offset (k : nat) (s : WriteCombiner.t * CanFrame) :
  let w := fst (snd (WriteCombiner.drive k s)) in
  size_t (WriteCombiner.offset_ w) = size_t (WriteCombiner.offset_ (fst s) + Z.of_nat k)
  /\ (k <> O -> WriteCombiner.offset_ w = size_t (WriteCombiner.offset_ (fst s) + Z.of_nat k))
  /\ WriteCombiner.resolutions_ w = WriteCombiner.resolutions_ (fst s).
Proof.
  induction k as [|k IH]; cbv zeta.
  - simpl. rewrite Z.add_0_r. repeat split. congruence.
  - rewrite drive_snoc. cbn [snd]. cbv zeta in IH. destruct IH as (Ho & _ & Hres).
    destruct (WriteCombiner.drive k s) as [os [w f']]. cbn [fst snd] in *.
    pose proof (MaybeWrite_members (w, f')) as (Mo & Mres & _). cbn [fst snd] in *.
    rewrite Mo, Mres, Hres.
    assert (E : size_t (WriteCombiner.offset_ w + 1)
                = size_t (WriteCombiner.offset_ (fst s) + Z.of_nat (S k))).
    { unfold size_t in *. rewrite <- Zplus_mod_idemp_l, Ho, Zplus_mod_idemp_l.
      f_equal. lia. }
    rewrite E. repeat split. unfold size_t. now rewrite Z.mod_mod by lia.
Qed.

Lemma MaybeWrite_in_bounds (w : WriteCombiner.t) (f : CanFrame) (r : Resolution) :
  nth_error (WriteCombiner.resolutions_ w) (Z.to_nat (WriteCombiner.offset_ w)) = Some r ->
  match fst (WriteCombiner.MaybeWrite (w, f)) with
  | Returns b => b = negb (Resolution_eqb r kIgnore)
  | Throws _ => r <> kIgnore
  | Aborts | Undefined => False
  end.
Proof.
  intros Hn.
  destruct (Resolution_eqb (WriteCombiner.current_resolution_ w) r) eqn:Ec.
  - apply Resolution_eqb_eq in Ec. now rewrite (MaybeWrite_same_resolution w f r Hn Ec).
  - apply Resolution_eqb_neq in Ec.
    destruct (Resolution_eqb r kIgnore) eqn:Er.
    + apply Resolution_eqb_eq in Er. subst r. now rewrite MaybeWrite_new_gap.
    + apply Resolution_eqb_neq in Er. rewrite (MaybeWrite_new_run w f r Hn Ec Er).
      pose proof (write_framing_returns_true r
        (1 + WriteCombiner.run_ahead r
               (skipn (S (Z.to_nat (WriteCombiner.offset_ w))) (WriteCombiner.resolutions_ w)))
        (WriteCombiner.offset_ w)
        (WriteCombiner.set_current_resolution
           (WriteCombiner.set_offset w (size_t (WriteCombiner.offset_ w + 1))) r, f)) as H.
      destruct (fst _); simpl; auto.
Qed.

Lemma MaybeWrite_past_the_end (w : WriteCombiner.t) (f : CanFrame) :
  nth_error (WriteCombiner.resolutions_ w) (Z.to_nat (WriteCombiner.offset_ w)) = None ->
  fst (WriteCombiner.MaybeWrite (w, f)) = Undefined.
Proof.
  intros Hn. unfold WriteCombiner.MaybeWrite. cbn [fst snd].
  cbn [WriteCombiner.set_offset WriteCombiner.resolutions_]. now rewrite Hn.
Qed.

Lemma drive_outcomes_length (k : nat) (s : WriteCombiner.t * CanFrame) :
  length (fst (WriteCombiner.drive k s)) = k.
Proof.
  induction k as [|k IH]; [reflexivity|].
  rewrite drive_snoc. cbn [fst]. rewrite length_app, IH. simpl. lia.
Qed.

Lemma drive_in_bounds (base start : Z) (res : list Resolution) (f : CanFrame) (k : nat) :
  (k <= length res)%nat ->
  Z.of_nat (length res) < 2 ^ 64 ->
  Forall (fun o : outcome bool => o <> Aborts /\ o <> Undefined)
    (fst (WriteCombiner.drive k (WriteCombiner.make base start res, f))).
Proof.
  induction k as [|k IH]; intros Hk HN; [constructor|].
  rewrite drive_snoc. cbn [fst]. apply Forall_app. split; [apply IH; lia|].
  constructor; [|constructor].
  pose proof (drive_state base start res f k ltac:(lia) HN) as (Ho & Hres & _).
  destruct (WriteCombiner.drive k _) as [os [w f']]. cbn [fst snd] in *.
  destruct (nth_error res k) as [r|] eqn:En; [|apply nth_error_None in En; lia].
  pose proof (MaybeWrite_in_bounds w f' r) as H.
  rewrite Ho, Hres, Nat2Z.id in H. specialize (H En).
  destruct (fst (WriteCombiner.MaybeWrite (w, f'))); split; try discriminate; contradiction.
Qed.

(** C7. A combiner over N declared resolutions that is torn down after
    [k] calls of [MaybeWrite] aborts the process exactly when [k] differs
    from N, whatever the calls returned or threw; driven exactly N times,
    no call aborts or reads outside the array and the destructor returns.
    A call after the N-th reads [resolutions_] past its end. *)
Theorem destructor_aborts_unless_driven_N_times
    (base start : Z) (res : list Resolution) (f : CanFrame) (k : nat) :
  Z.of_nat k < 2 ^ 64 ->
  Z.of_nat (length res) < 2 ^ 64 ->
  let run := WriteCombiner.drive k (WriteCombiner.make base start res, f) in
  (k <> length res -> WriteCombiner.destructor (fst (snd run)) = Aborts)
  /\ (k = length res ->
      WriteCombiner.destructor (fst (snd run)) = Returns tt
      /\ Forall (fun o : outcome bool => o <> Aborts /\ o <> Undefined) (fst run))
  /\ ((length res < k)%nat -> nth_error (fst run) (length res) = Some Undefined).
Proof.
  intros Hk HN run.
  pose proof (drive_offset k (WriteCombiner.make base start res, f)) as (Ho & Ho' & Hres).
  fold run in Ho, Ho', Hres. cbn [fst WriteCombiner.make WriteCombiner.offset_
    WriteCombiner.resolutions_] in Ho, Ho', Hres.
  assert (Hoff : WriteCombiner.offset_ (fst (snd run)) = Z.of_nat k).
  { destruct k as [|k']; [reflexivity|].
    rewrite Ho' by discriminate. unfold size_t. rewrite Z.mod_small; lia. }
  unfold WriteCombiner.destructor, WriteCombiner.N. rewrite Hoff, Hres.
  split; [|split].
  - intros Hne. destruct (Z.eqb_spec (Z.of_nat k) (Z.of_nat (length res))); [lia|reflexivity].
  - intros ->. rewrite Z.eqb_refl. split; [reflexivity|].
    apply drive_in_bounds; [lia|assumption].
  - intros Hlt. subst run. clear Ho Ho' Hres Hoff.
    induction k as [|k IH]; [lia|].
    rewrite drive_snoc. cbn [fst].
    destruct (Nat.eq_dec k (length res)) as [->|Hne].
    + rewrite nth_error_app2 by (rewrite drive_outcomes_length; lia).
      rewrite drive_outcomes_length, Nat.sub_diag. simpl. f_equal.
      pose proof (drive_state base start res f (length res) ltac:(lia) HN) as (So & Sres & _).
      destruct (WriteCombiner.drive (length res) _) as [os [w f']]. cbn [fst snd] in *.
      apply MaybeWrite_past_the_end. rewrite So, Sres, Nat2Z.id.
      apply nth_error_None. lia.
    + rewrite nth_error_app1 by (rewrite drive_outcomes_length; lia).
      apply IH; lia.
Qed.

Lemma destructor_aborts_unless_driven_N_times_witness :
  WriteCombiner.destructor
    (fst (snd (WriteCombiner.drive 1
                 (WriteCombiner.make 0x10 0x0c [kInt16; kInt8], empty_frame))))
  = Aborts.
Proof.
  apply (destructor_aborts_unless_driven_N_times 0x10 0x0c [kInt16; kInt8] empty_frame 1).
  - reflexivity.
  - reflexivity.
  - simpl. lia.
Defined.

(** C6. The call for register [i] of a combiner driven from its
    construction tells the caller to write exactly when [resolutions[i]]
    is not [kIgnore]: for an ignored register it returns [false] and
    leaves the frame alone; for any other it returns [true] unless the
    framing it has to write throws (frame full, register above 127), which
    a frame with three free bytes and a register within 127 exclude. *)
Theorem MaybeWrite_true_iff_not_ignored
    (base start : Z) (res : list Resolution) (f0 : CanFrame) (i : nat) (r : Resolution) :
  nth_error res i = Some r ->
  Z.of_nat (length res) < 2 ^ 64 ->
  let s := snd (WriteCombiner.drive i (WriteCombiner.make base start res, f0)) in
  let call := WriteCombiner.MaybeWrite s in
  (r = kIgnore -> fst call = Returns false /\ snd (snd call) = snd s)
  /\ (r <> kIgnore -> fst call = Returns true \/ exists e, fst call = Throws e)
  /\ (r <> kIgnore -> wf_frame (snd s) -> size (snd s) + 3 <= 64 ->
      0 <= start -> start + Z.of_nat i <= 127 -> fst call = Returns true).
Proof.
  intros Hn HN s call.
  assert (Hi : (i < length res)%nat) by (apply nth_error_Some; congruence).
  pose proof (drive_state base start res f0 i ltac:(lia) HN) as (Ho & Hres & Hb & Hs & Hc).
  fold s in Ho, Hres, Hb, Hs, Hc. subst call.
  destruct s as [w f]. cbn [fst snd] in *.
  assert (Hn' : nth_error (WriteCombiner.resolutions_ w)
                  (Z.to_nat (WriteCombiner.offset_ w)) = Some r)
    by (now rewrite Ho, Hres, Nat2Z.id).
  pose proof (MaybeWrite_in_bounds w f r Hn') as Hin.
  split; [|split].
  - intros ->. destruct (Resolution_eqb (WriteCombiner.current_resolution_ w) kIgnore) eqn:Ec.
    + apply Resolution_eqb_eq in Ec.
      now rewrite (MaybeWrite_same_resolution w f kIgnore Hn' Ec).
    + apply Resolution_eqb_neq in Ec. now rewrite (MaybeWrite_new_gap w f Hn' Ec).
  - intros Hr. apply Resolution_eqb_neq in Hr. rewrite Hr in Hin.
    destruct (fst (WriteCombiner.MaybeWrite (w, f))) as [b|e| |]; try contradiction.
    + left. now subst b.
    + right. now exists e.
  - intros Hr Hwf Hroom Hs0 Hreg.
    destruct (Resolution_eqb (WriteCombiner.current_resolution_ w) r) eqn:Ec.
    + apply Resolution_eqb_eq in Ec. rewrite (MaybeWrite_same_resolution w f r Hn' Ec).
      apply Resolution_eqb_neq in Hr. now rewrite Hr.
    + apply Resolution_eqb_neq in Ec. rewrite (MaybeWrite_new_run w f r Hn' Ec Hr).
      edestruct write_framing_writes as (f' & E & _); [exact Hr|exact Hwf|exact Hroom| |].
      2:{ rewrite E. reflexivity. }
      cbn [WriteCombiner.start_register_ WriteCombiner.set_current_resolution
           WriteCombiner.set_offset].
      rewrite Hs, Ho. unfold uint32, size_t.
      rewrite (Z.mod_small start) by lia. rewrite Z.mod_small by lia. lia.
Qed.

Lemma MaybeWrite_true_iff_not_ignored_witness :
  fst (WriteCombiner.MaybeWrite
         (snd (WriteCombiner.drive 5
                 (WriteCombiner.make 0x00 0x20
                    [kFloat; kFloat; kFloat; kFloat; kFloat; kIgnore; kFloat; kFloat],
                  empty_frame))))
  = Returns false.
Proof.
  apply (MaybeWrite_true_iff_not_ignored 0x00 0x20
           [kFloat; kFloat; kFloat; kFloat; kFloat; kIgnore; kFloat; kFloat]
           empty_frame 5 kIgnore).
  - reflexivity.
  - reflexivity.
  - reflexivity.
Defined.

Lemma run_ahead_run (r : Resolution) (rest : list Resolution) (n : nat) :
  (forall j, (j < n)%nat -> nth_error rest j = Some r) ->
  nth_error rest n <> Some r ->
  WriteCombiner.run_ahead r rest = Z.of_nat n.
Proof.
  revert rest; induction n as [|n IH]; intros rest Hrun Hend.
  - destruct rest as [|x rest]; [reflexivity|]. simpl in *.
    destruct (Resolution_eqb x r) eqn:E; [|reflexivity].
    apply Resolution_eqb_eq in E. congruence.
  - destruct rest as [|x rest].
    + specialize (Hrun O ltac:(lia)). discriminate.
    + pose proof (Hrun O ltac:(lia)) as H0. simpl in H0. injection H0 as ->.
      cbn [WriteCombiner.run_ahead]. rewrite Resolution_eqb_refl.
      rewrite (IH rest); [lia| |exact Hend].
      intros j Hj. apply (Hrun (S j)). lia.
Qed.

(** The fields of a command byte built on a base command with a clear
    low nibble. *)
Lemma command_byte_fields (base : Z) (r : Resolution) (c : Z) :
  0 <= base < 128 -> base mod 16 = 0 -> r <> kIgnore -> 0 <= c <= 3 ->
  let opcode := base + width_bits r + c in
  static_cast int8_t (base + width_bits r) = base + width_bits r
  /\ uint8 opcode = opcode
  /\ Z.land opcode 0x03 = c
  /\ MultiplexParser.resolution_of_id (Z.land (Z.shiftr opcode 2) 0x03) = r
  /\ Z.land opcode 0xF0 = base.
Proof.
  intros Hb Hm Hr Hc.
  assert (Hbase : base = 0 \/ base = 16 \/ base = 32 \/ base = 48 \/ base = 64
                  \/ base = 80 \/ base = 96 \/ base = 112).
  { pose proof (Z.div_mod base 16 ltac:(lia)) as D. rewrite Hm in D.
    assert (0 <= base / 16 < 8) by (split; [apply Z.div_pos|apply Z.div_lt_upper_bound]; lia).
    lia. }
  assert (Hcs : c = 0 \/ c = 1 \/ c = 2 \/ c = 3) by lia.
  destruct r; try congruence;
    repeat (destruct Hbase as [->|Hbase]); try subst base;
    repeat (destruct Hcs as [->|Hcs]); try subst c;
    repeat split; reflexivity.
Qed.

(** The call that starts a run, on any state: what it returns and what it
    appends to the frame. *)
Lemma MaybeWrite_new_run_bytes (w : WriteCombiner.t) (f : CanFrame) (r : Resolution) :
  nth_error (WriteCombiner.resolutions_ w) (Z.to_nat (WriteCombiner.offset_ w)) = Some r ->
  WriteCombiner.current_resolution_ w <> r ->
  r <> kIgnore ->
  wf_frame f ->
  size f + 3 <= 64 ->
  size_t (WriteCombiner.start_register_ w + WriteCombiner.offset_ w) <= 127 ->
  fst (WriteCombiner.MaybeWrite (w, f)) = Returns true
  /\ contents (snd (snd (WriteCombiner.MaybeWrite (w, f))))
     = contents f
       ++ framing_bytes (WriteCombiner.base_command_ w) r
            (1 + WriteCombiner.run_ahead r
                   (skipn (S (Z.to_nat (WriteCombiner.offset_ w)))
                      (WriteCombiner.resolutions_ w)))
            (size_t (WriteCombiner.start_register_ w + WriteCombiner.offset_ w)).
Proof.
  intros Hn Hc Hr Hwf Hroom Hreg.
  rewrite (MaybeWrite_new_run w f r Hn Hc Hr).
  edestruct write_framing_writes as (f' & E & _ & Hcont);
    [exact Hr|exact Hwf|exact Hroom| |rewrite E; split; [reflexivity|exact Hcont]].
  exact Hreg.
Qed.

Lemma framing_bytes_fields (base : Z) (r : Resolution) (count reg : Z) :
  0 <= base < 128 -> base mod 16 = 0 -> r <> kIgnore -> 1 <= count -> 0 <= reg <= 127 ->
  exists opcode,
    MultiplexParser.resolution_of_id (Z.land (Z.shiftr opcode 2) 0x03) = r
    /\ Z.land opcode 0xF0 = base
    /\ (count <= 3 ->
        Z.land opcode 0x03 = count
        /\ opcode = base + width_bits r + count
        /\ framing_bytes (static_cast int8_t base) r count reg = [opcode; reg])
    /\ (3 < count ->
        Z.land opcode 0x03 = 0
        /\ opcode = base + width_bits r
        /\ framing_bytes (static_cast int8_t base) r count reg = [opcode; uint8 count; reg]).
Proof.
  intros Hb Hm Hr Hcount Hreg.
  assert (Hsb : static_cast int8_t base = base)
    by (apply static_cast_small; unfold numeric_limits_min; simpl; lia).
  assert (Hureg : uint8 reg = reg) by (unfold uint8; apply Z.mod_small; lia).
  unfold framing_bytes. rewrite Hsb, Hureg.
  destruct (Z.leb_spec count 3) as [Hle|Hgt].
  - pose proof (command_byte_fields base r count Hb Hm Hr ltac:(lia)) as (Hs & Hu & H3 & Hid & Hf).
    exists (base + width_bits r + count).
    split; [exact Hid|]. split; [exact Hf|]. split; [|intros; lia].
    intros _. split; [exact H3|]. split; [reflexivity|].
    rewrite Hs, Hu. reflexivity.
  - pose proof (command_byte_fields base r 0 Hb Hm Hr ltac:(lia)) as (Hs & Hu & H3 & Hid & Hf).
    cbv zeta in Hu, H3, Hid, Hf. rewrite Z.add_0_r in Hu, H3, Hid, Hf.
    exists (base + width_bits r).
    split; [exact Hid|]. split; [exact Hf|]. split; [intros; lia|].
    intros _. split; [exact H3|]. split; [reflexivity|].
    rewrite Hs, Hu. reflexivity.
Qed.

(** C4. The call that starts a run of [count] registers of resolution
    [r] other than [kIgnore] (register [i] has resolution [r], register
    [i - 1] does not, and the run ends after [count] registers) appends
    its framing to a frame with room for it: a command byte whose high
    nibble is the base command and whose bits 2-3 are the width code of
    [r], then either the count in the low two bits (count at most 3, one
    byte) or a clear count field and a count byte (two bytes), then the
    register byte.  Four [kInt8] in a row take the long form, two the
    short one. *)
Theorem MaybeWrite_frames_each_new_run
    (base start : Z) (res : list Resolution) (f0 : CanFrame)
    (i count : nat) (r : Resolution) :
  r <> kIgnore ->
  (1 <= count)%nat ->
  (forall j, (i <= j < i + count)%nat -> nth_error res j = Some r) ->
  nth_error res (i + count) <> Some r ->
  (i <> O -> nth_error res (i - 1) <> Some r) ->
  Z.of_nat (length res) < 2 ^ 64 ->
  0 <= base < 128 -> base mod 16 = 0 ->
  0 <= start -> start + Z.of_nat i <= 127 ->
  wf_frame f0 ->
  let s := snd (WriteCombiner.drive i (WriteCombiner.make base start res, f0)) in
  size (snd s) + 3 <= 64 ->
  let call := WriteCombiner.MaybeWrite s in
  let reg := start + Z.of_nat i in
  fst call = Returns true
  /\ (exists opcode,
        MultiplexParser.resolution_of_id (Z.land (Z.shiftr opcode 2) 0x03) = r
        /\ Z.land opcode 0xF0 = base
        /\ ((count <= 3)%nat ->
            Z.land opcode 0x03 = Z.of_nat count
            /\ contents (snd (snd call)) = contents (snd s) ++ [opcode; reg])
        /\ ((3 < count)%nat ->
            Z.land opcode 0x03 = 0
            /\ contents (snd (snd call))
               = contents (snd s) ++ [opcode; uint8 (Z.of_nat count); reg]))
  /\ contents (snd (snd (WriteCombiner.MaybeWrite
                           (WriteCombiner.make base start [kInt8; kInt8; kInt8; kInt8],
                            empty_frame))))
     = [base; 4; start]
  /\ contents (snd (snd (WriteCombiner.MaybeWrite
                           (WriteCombiner.make base start [kInt8; kInt8], empty_frame))))
     = [base + 2; start].
Proof.
  intros Hr Hcount Hrun Hend Hbegin HN Hb Hm Hs0 Hreg Hwf0 s Hroom call reg.
  assert (Hus : uint32 start = start) by (unfold uint32; apply Z.mod_small; lia).
  assert (Hempty : wf_frame empty_frame) by (split; simpl; [reflexivity|lia]).
  assert (Hi : (i < length res)%nat).
  { apply nth_error_Some. rewrite (Hrun i) by lia. discriminate. }
  pose proof (drive_state base start res f0 i ltac:(lia) HN) as (So & Sres & Sb & Ss & Sc).
  pose proof (drive_wf i (WriteCombiner.make base start res, f0) Hwf0) as Swf.
  fold s in So, Sres, Sb, Ss, Sc, Swf. subst call.
  destruct s as [w f]. cbn [fst snd] in *.
  assert (Hn : nth_error (WriteCombiner.resolutions_ w)
                 (Z.to_nat (WriteCombiner.offset_ w)) = Some r)
    by (rewrite So, Sres, Nat2Z.id; apply Hrun; lia).
  assert (Hcur : WriteCombiner.current_resolution_ w <> r).
  { rewrite Sc. destruct i as [|i']; [congruence|].
    intros E. apply (Hbegin ltac:(discriminate)).
    replace (S i' - 1)%nat with i' by lia.
    rewrite (nth_error_nth' res kIgnore) by lia. now rewrite E. }
  assert (Hsz : size_t (WriteCombiner.start_register_ w + WriteCombiner.offset_ w) = reg).
  { rewrite Ss, So, Hus. unfold size_t, reg. apply Z.mod_small. lia. }
  pose proof (MaybeWrite_new_run_bytes w f r Hn Hcur Hr Swf Hroom ltac:(rewrite Hsz; subst reg; lia))
    as (Hret & Hbytes).
  rewrite Hsz, Sb, So, Sres, Nat2Z.id in Hbytes.
  rewrite (run_ahead_run r (skipn (S i) res) (count - 1)) in Hbytes.
  2:{ intros j Hj. rewrite nth_error_skipn. apply Hrun. lia. }
  2:{ rewrite nth_error_skipn. replace (S i + (count - 1))%nat with (i + count)%nat by lia.
      exact Hend. }
  replace (1 + Z.of_nat (count - 1)) with (Z.of_nat count) in Hbytes by lia.
  split; [exact Hret|]. split.
  - destruct (framing_bytes_fields base r (Z.of_nat count) reg Hb Hm Hr ltac:(lia)
                ltac:(subst reg; lia)) as (opcode & Hid & Hf & Hshort & Hlong).
    exists opcode. split; [exact Hid|]. split; [exact Hf|]. split.
    + intros Hle. destruct (Hshort ltac:(lia)) as (H3 & _ & Hfb).
      split; [exact H3|]. now rewrite Hbytes, Hfb.
    + intros Hgt. destruct (Hlong ltac:(lia)) as (H3 & _ & Hfb).
      split; [exact H3|]. now rewrite Hbytes, Hfb.
  - assert (Hfirst : forall rs n,
              WriteCombiner.run_ahead kInt8 rs = n -> 1 <= 1 + n ->
              contents (snd (snd (WriteCombiner.MaybeWrite
                                    (WriteCombiner.make base start (kInt8 :: rs), empty_frame))))
              = framing_bytes (static_cast int8_t base) kInt8 (1 + n) start).
    { intros rs n Hrs Hn1.
      pose proof (MaybeWrite_new_run_bytes
                    (WriteCombiner.make base start (kInt8 :: rs)) empty_frame kInt8) as H.
      cbn [WriteCombiner.make WriteCombiner.resolutions_ WriteCombiner.offset_
           WriteCombiner.current_resolution_ WriteCombiner.start_register_
           WriteCombiner.base_command_] in H.
      rewrite Z.add_0_r, Hus in H.
      assert (Hst : size_t start = start) by (unfold size_t; apply Z.mod_small; lia).
      rewrite Hst in H.
      destruct H as (_ & H); try easy; try (simpl; lia).
      rewrite H. simpl skipn. rewrite Hrs. reflexivity. }
    split.
    + rewrite (Hfirst [kInt8; kInt8; kInt8] 3) by (reflexivity || lia).
      destruct (framing_bytes_fields base kInt8 4 start Hb Hm ltac:(discriminate) ltac:(lia)
                  ltac:(lia)) as (opcode & _ & _ & _ & Hlong).
      destruct (Hlong ltac:(lia)) as (_ & Hop & Hfb).
      change (1 + 3) with 4. rewrite Hfb, Hop. simpl width_bits. rewrite Z.add_0_r.
      reflexivity.
    + rewrite (Hfirst [kInt8] 1) by (reflexivity || lia).
      destruct (framing_bytes_fields base kInt8 2 start Hb Hm ltac:(discriminate) ltac:(lia)
                  ltac:(lia)) as (opcode & _ & _ & Hshort & _).
      destruct (Hshort ltac:(lia)) as (_ & Hop & Hfb).
      change (1 + 1) with 2. rewrite Hfb, Hop. simpl width_bits. rewrite Z.add_0_r.
      reflexivity.
Qed.

Lemma MaybeWrite_frames_each_new_run_witness :
  fst (WriteCombiner.MaybeWrite
         (snd (WriteCombiner.drive 0
                 (WriteCombiner.make 0x10 0x0d [kInt8; kInt8; kInt8; kInt8], empty_frame))))
  = Returns true.
Proof.
  apply (MaybeWrite_frames_each_new_run 0x10 0x0d [kInt8; kInt8; kInt8; kInt8]
           empty_frame 0 4 kInt8).
  - discriminate.
  - lia.
  - intros [|[|[|[|j]]]] Hj; try reflexivity; lia.
  - discriminate.
  - intros H; now elim H.
  - reflexivity.
  - lia.
  - reflexivity.
  - lia.
  - simpl; lia.
  - split; simpl; [reflexivity|lia].
  - simpl; lia.
Defined.

(** ** The multiplex parser *)

Definition byte_at (p : MultiplexParser.t) (i : Z) : Z :=
  nth (Z.to_nat i) (MultiplexParser.data_ p) 0.

Lemma fetch_in_bounds (p : MultiplexParser.t) :
  MultiplexParser.wf p ->
  MultiplexParser.offset_ p < MultiplexParser.size_ p ->
  MultiplexParser.fetch p
  = (Returns (byte_at p (MultiplexParser.offset_ p)),
     MultiplexParser.set_offset p (MultiplexParser.offset_ p + 1)).
Proof.
  intros [H0 Hs] Hlt. unfold MultiplexParser.fetch, byte_at.
  destruct (nth_error _ _) as [b|] eqn:E.
  - now rewrite (nth_error_nth _ _ 0 E).
  - apply nth_error_None in E. lia.
Qed.

(** The part of the loop body of [next] that starts a run: the register
    byte, the run length and the first element, when the register byte is
    in the buffer. *)
Definition start_run (count : Z) (q : MultiplexParser.t)
  : outcome (bool * Z * Resolution) * MultiplexParser.t :=
  let reg := byte_at q (MultiplexParser.offset_ q) in
  let q := MultiplexParser.set_offset q (MultiplexParser.offset_ q + 1) in
  let q := MultiplexParser.set_current_register q reg in
  let q := MultiplexParser.set_remaining q (count - 1) in
  if MultiplexParser.offset_ q
     + MultiplexParser.ResolutionSize (MultiplexParser.current_resolution_ q)
     >? MultiplexParser.size_ q
  then (Returns MultiplexParser.no_element, q)
  else (Returns (true, MultiplexParser.current_register_ q,
                 MultiplexParser.current_resolution_ q),
        MultiplexParser.set_current_register q
          (uint32 (MultiplexParser.current_register_ q + 1))).

(** One iteration of the loop of [next] with every read resolved, [rec]
    standing for the rest of the loop. *)
Definition scan_body (rec : M MultiplexParser.t (bool * Z * Resolution))
  : M MultiplexParser.t (bool * Z * Resolution) :=
  fun p =>
    if MultiplexParser.offset_ p <? MultiplexParser.size_ p then
      let cmd := byte_at p (MultiplexParser.offset_ p) in
      let p1 := MultiplexParser.set_offset p (MultiplexParser.offset_ p + 1) in
      if cmd =? Multiplex.kNop then rec p1
      else if MultiplexParser.offset_ p1 >=? MultiplexParser.size_ p1
      then (Returns MultiplexParser.no_element, p1)
      else if (cmd >=? 0x20) && (cmd <? 0x30) then
        let p2 := MultiplexParser.set_current_resolution p1
                    (MultiplexParser.resolution_of_id (Z.land (Z.shiftr cmd 2) 0x03)) in
        if Z.land cmd 0x03 =? 0 then
          let count := byte_at p2 (MultiplexParser.offset_ p2) in
          let p3 := MultiplexParser.set_offset p2 (MultiplexParser.offset_ p2 + 1) in
          if MultiplexParser.offset_ p3 >=? MultiplexParser.size_ p3
          then (Returns MultiplexParser.no_element, p3)
          else if count =? 0 then rec p3 else start_run count p3
        else start_run (Z.land cmd 0x03) p2
      else (Returns MultiplexParser.no_element,
            MultiplexParser.set_offset p1 (MultiplexParser.size_ p1))
    else (Returns MultiplexParser.no_element, p).

Lemma scan_in_bounds (fuel : nat) (p : MultiplexParser.t) :
  MultiplexParser.wf p ->
  MultiplexParser.scan (S fuel) p = scan_body (MultiplexParser.scan fuel) p.
Proof.
  intros Hwf. unfold scan_body. cbn [MultiplexParser.scan].
  destruct (Z.ltb_spec (MultiplexParser.offset_ p) (MultiplexParser.size_ p)) as [Hlt|];
    [|reflexivity].
  unfold bind at 1. rewrite (fetch_in_bounds p Hwf Hlt).
  set (cmd := byte_at p (MultiplexParser.offset_ p)).
  set (p1 := MultiplexParser.set_offset p (MultiplexParser.offset_ p + 1)).
  destruct (cmd =? Multiplex.kNop); [reflexivity|].
  destruct (Z.geb_spec (MultiplexParser.offset_ p1) (MultiplexParser.size_ p1)) as [|Hlt1];
    [reflexivity|].
  destruct ((cmd >=? 0x20) && (cmd <? 0x30)); [|reflexivity].
  set (p2 := MultiplexParser.set_current_resolution p1 _).
  assert (Hwf2 : MultiplexParser.wf p2) by (destruct Hwf; split; simpl; lia).
  assert (Hlt2 : MultiplexParser.offset_ p2 < MultiplexParser.size_ p2) by exact Hlt1.
  assert (Hrun : forall count q,
             MultiplexParser.wf q ->
             MultiplexParser.offset_ q < MultiplexParser.size_ q ->
             bind MultiplexParser.fetch
               (fun reg q0 =>
                  let q1 := MultiplexParser.set_current_register q0 reg in
                  let q2 := MultiplexParser.set_remaining q1 (count - 1) in
                  if MultiplexParser.offset_ q2
                     + MultiplexParser.ResolutionSize (MultiplexParser.current_resolution_ q2)
                     >? MultiplexParser.size_ q2
                  then (Returns MultiplexParser.no_element, q2)
                  else (Returns (true, MultiplexParser.current_register_ q2,
                                 MultiplexParser.current_resolution_ q2),
                        MultiplexParser.set_current_register q2
                          (uint32 (MultiplexParser.current_register_ q2 + 1)))) q
             = start_run count q).
  { intros count q Hq Hltq. unfold bind. rewrite (fetch_in_bounds q Hq Hltq). reflexivity. }
  destruct (Z.land cmd 3 =? 0) eqn:E0.
  - unfold bind at 1. rewrite (fetch_in_bounds p2 Hwf2 Hlt2).
    set (count := byte_at p2 (MultiplexParser.offset_ p2)).
    set (p3 := MultiplexParser.set_offset p2 (MultiplexParser.offset_ p2 + 1)).
    destruct (Z.geb_spec (MultiplexParser.offset_ p3) (MultiplexParser.size_ p3)) as [|Hlt3];
      [reflexivity|].
    destruct (count =? 0); [reflexivity|].
    apply Hrun; [destruct Hwf; split; simpl; lia|exact Hlt3].
  - apply Hrun; assumption.
Qed.

(** What a call of [next] guarantees about its result [r] and final state
    [p'], from the state [p]: the buffer is the same, the cursor moved
    forward and stays within the buffer, an element has its whole value in
    the buffer, and "no element" is the one tuple the source returns. *)
Definition next_post (p : MultiplexParser.t)
    (res : outcome (bool * Z * Resolution) * MultiplexParser.t) : Prop :=
  exists r,
    fst res = Returns r
    /\ MultiplexParser.data_ (snd res) = MultiplexParser.data_ p
    /\ MultiplexParser.size_ (snd res) = MultiplexParser.size_ p
    /\ MultiplexParser.offset_ p <= MultiplexParser.offset_ (snd res)
    /\ (MultiplexParser.offset_ p <= MultiplexParser.size_ p ->
        MultiplexParser.offset_ (snd res) <= MultiplexParser.size_ p)
    /\ (fst (fst r) = false -> r = MultiplexParser.no_element)
    /\ (fst (fst r) = true ->
        MultiplexParser.offset_ (snd res) + MultiplexParser.ResolutionSize (snd r)
        <= MultiplexParser.size_ p).

Lemma next_post_none (p p' : MultiplexParser.t) :
  MultiplexParser.data_ p' = MultiplexParser.data_ p ->
  MultiplexParser.size_ p' = MultiplexParser.size_ p ->
  MultiplexParser.offset_ p <= MultiplexParser.offset_ p' ->
  MultiplexParser.offset_ p' <= Z.max (MultiplexParser.offset_ p) (MultiplexParser.size_ p) ->
  next_post p (Returns MultiplexParser.no_element, p').
Proof.
  intros Hd Hs Ho Hm. exists MultiplexParser.no_element. cbn [fst snd].
  repeat split; try assumption; try lia; discriminate.
Qed.

Lemma next_post_trans (p q : MultiplexParser.t)
    (res : outcome (bool * Z * Resolution) * MultiplexParser.t) :
  MultiplexParser.data_ q = MultiplexParser.data_ p ->
  MultiplexParser.size_ q = MultiplexParser.size_ p ->
  MultiplexParser.offset_ p <= MultiplexParser.offset_ q ->
  MultiplexParser.offset_ q <= MultiplexParser.size_ p ->
  next_post q res -> next_post p res.
Proof.
  intros Hd Hs Ho Hq (r & Hr & Hd' & Hs' & Ho' & Hb & Hn & Hy).
  exists r. rewrite Hd, Hs in *.
  repeat split; try assumption; lia.
Qed.

Lemma start_run_post (count : Z) (q : MultiplexParser.t) :
  MultiplexParser.offset_ q < MultiplexParser.size_ q ->
  next_post q (start_run count q).
Proof.
  intros Hlt. unfold start_run. cbn [MultiplexParser.set_offset MultiplexParser.set_remaining
    MultiplexParser.set_current_register MultiplexParser.offset_ MultiplexParser.size_
    MultiplexParser.current_resolution_ MultiplexParser.current_register_].
  destruct (Z.gtb_spec (MultiplexParser.offset_ q + 1
              + MultiplexParser.ResolutionSize (MultiplexParser.current_resolution_ q))
              (MultiplexParser.size_ q)) as [Hgt|Hle].
  - apply next_post_none; simpl; try reflexivity; lia.
  - eexists. cbn [fst snd]. split; [reflexivity|].
    simpl. repeat split; try lia; discriminate.
Qed.

(** One iteration that enters the loop reads at least the command byte. *)
Lemma scan_body_post (rec : M MultiplexParser.t (bool * Z * Resolution))
    (p : MultiplexParser.t) :
  MultiplexParser.wf p ->
  MultiplexParser.offset_ p < MultiplexParser.size_ p ->
  (forall q, MultiplexParser.wf q -> next_post q (rec q)) ->
  next_post (MultiplexParser.set_offset p (MultiplexParser.offset_ p + 1)) (scan_body rec p).
Proof.
  intros Hwf Hlt Hrec. unfold scan_body.
  destruct (Z.ltb_spec (MultiplexParser.offset_ p) (MultiplexParser.size_ p)) as [_|]; [|lia].
  cbv zeta.
  set (cmd := byte_at p (MultiplexParser.offset_ p)).
  set (p1 := MultiplexParser.set_offset p (MultiplexParser.offset_ p + 1)).
  assert (Hwf1 : MultiplexParser.wf p1) by (destruct Hwf; split; simpl; lia).
  destruct (cmd =? Multiplex.kNop); [now apply Hrec|].
  destruct (Z.geb_spec (MultiplexParser.offset_ p1) (MultiplexParser.size_ p1)) as [Hge1|Hlt1].
  { apply next_post_none; simpl in *; try reflexivity; lia. }
  destruct ((cmd >=? 0x20) && (cmd <? 0x30)).
  2:{ apply next_post_none; simpl in *; try reflexivity; lia. }
  set (p2 := MultiplexParser.set_current_resolution p1 _).
  simpl in Hlt1.
  destruct (Z.land cmd 3 =? 0).
  - set (count := byte_at p2 (MultiplexParser.offset_ p2)).
    set (p3 := MultiplexParser.set_offset p2 (MultiplexParser.offset_ p2 + 1)).
    destruct (Z.geb_spec (MultiplexParser.offset_ p3) (MultiplexParser.size_ p3)) as [Hge3|Hlt3].
    { apply next_post_none; simpl in *; try reflexivity; lia. }
    simpl in Hlt3.
    destruct (count =? 0).
    + apply (next_post_trans p1 p3); simpl; try lia; try reflexivity.
      apply Hrec. destruct Hwf; split; simpl; lia.
    + apply (next_post_trans p1 p3); simpl; try lia; try reflexivity.
      apply start_run_post. simpl. lia.
  - apply (next_post_trans p1 p2); simpl; try lia; try reflexivity.
    apply start_run_post. simpl. lia.
Qed.

Lemma scan_post (fuel : nat) (p : MultiplexParser.t) :
  MultiplexParser.wf p ->
  next_post p (MultiplexParser.scan fuel p).
Proof.
  revert p; induction fuel as [|fuel IH]; intros p Hwf.
  - apply next_post_none; simpl; try reflexivity; lia.
  - destruct (Z_lt_ge_dec (MultiplexParser.offset_ p) (MultiplexParser.size_ p)) as [Hlt|Hge].
    + rewrite (scan_in_bounds fuel p Hwf).
      apply (next_post_trans p (MultiplexParser.set_offset p (MultiplexParser.offset_ p + 1)));
        [reflexivity|reflexivity|simpl; lia|simpl; lia|].
      now apply scan_body_post.
    + rewrite (scan_in_bounds fuel p Hwf). unfold scan_body.
      destruct (Z.ltb_spec (MultiplexParser.offset_ p) (MultiplexParser.size_ p)); [lia|].
      apply next_post_none; try reflexivity; lia.
Qed.

Lemma next_satisfies_post (p : MultiplexParser.t) :
  MultiplexParser.wf p -> next_post p (MultiplexParser.next p).
Proof.
  intros Hwf. unfold MultiplexParser.next.
  destruct (Z.geb_spec (MultiplexParser.offset_ p) (MultiplexParser.size_ p)) as [Hge|Hlt].
  { apply next_post_none; try reflexivity; lia. }
  destruct (negb (MultiplexParser.remaining_ p =? 0)).
  - cbn [MultiplexParser.set_remaining MultiplexParser.set_current_register
         MultiplexParser.offset_ MultiplexParser.size_ MultiplexParser.current_resolution_
         MultiplexParser.current_register_].
    destruct (Z.gtb_spec (MultiplexParser.offset_ p
                + MultiplexParser.ResolutionSize (MultiplexParser.current_resolution_ p))
                (MultiplexParser.size_ p)) as [Hgt|Hle].
    + apply next_post_none; simpl; try reflexivity; lia.
    + eexists. cbn [fst snd]. split; [reflexivity|]. simpl.
      repeat split; try lia; try discriminate.
  - apply scan_post. exact Hwf.
Qed.

(** *** The same buffer with a shorter declared size *)

Definition with_size (p : MultiplexParser.t) (n : Z) : MultiplexParser.t :=
  {| MultiplexParser.data_ := MultiplexParser.data_ p;
     MultiplexParser.size_ := n;
     MultiplexParser.offset_ := MultiplexParser.offset_ p;
     MultiplexParser.remaining_ := MultiplexParser.remaining_ p;
     MultiplexParser.current_resolution_ := MultiplexParser.current_resolution_ p;
     MultiplexParser.current_register_ := MultiplexParser.current_register_ p |}.

Lemma ResolutionSize_pos (res : Resolution) : 1 <= MultiplexParser.ResolutionSize res.
Proof. destruct res; simpl; lia. Qed.

(** How a call on the buffer cut at [n1] relates to the same call on the
    longer buffer: either both yield the same element, whose value lies
    within [n1], and reach the same state; or the short one yields no
    element, and the long one yields none or one whose value goes beyond
    [n1]. *)
Definition lockstep (n1 : Z)
    (r1 r2 : outcome (bool * Z * Resolution) * MultiplexParser.t) : Prop :=
  (exists reg res,
      fst r2 = Returns (true, reg, res)
      /\ MultiplexParser.offset_ (snd r2) + MultiplexParser.ResolutionSize res <= n1
      /\ r1 = (Returns (true, reg, res), with_size (snd r2) n1))
  \/ (fst r1 = Returns MultiplexParser.no_element
      /\ (fst r2 = Returns MultiplexParser.no_element
          \/ exists reg res,
               fst r2 = Returns (true, reg, res)
               /\ n1 < MultiplexParser.offset_ (snd r2) + MultiplexParser.ResolutionSize res)).

Lemma lockstep_short_done (n1 : Z) (q p1 : MultiplexParser.t)
    (r2 : outcome (bool * Z * Resolution) * MultiplexParser.t) :
  next_post q r2 ->
  n1 <= MultiplexParser.offset_ q ->
  lockstep n1 (Returns MultiplexParser.no_element, p1) r2.
Proof.
  intros (r & Hr & _ & _ & Ho & _ & Hn & _) Hq. right. split; [reflexivity|].
  destruct r as [[[|] reg] res].
  - right. exists reg, res. split; [exact Hr|].
    pose proof (ResolutionSize_pos res). lia.
  - left. rewrite Hr. f_equal. now apply Hn.
Qed.

Lemma start_run_lockstep (count n1 n2 : Z) (q : MultiplexParser.t) :
  n1 <= n2 ->
  lockstep n1 (start_run count (with_size q n1)) (start_run count (with_size q n2)).
Proof.
  intros Hn. unfold start_run, byte_at.
  cbn [with_size MultiplexParser.set_offset MultiplexParser.set_remaining
    MultiplexParser.set_current_register MultiplexParser.offset_ MultiplexParser.size_
    MultiplexParser.data_ MultiplexParser.current_resolution_
    MultiplexParser.current_register_].
  set (sz := MultiplexParser.ResolutionSize (MultiplexParser.current_resolution_ q)).
  destruct (Z.gtb_spec (MultiplexParser.offset_ q + 1 + sz) n1) as [H1|H1];
    destruct (Z.gtb_spec (MultiplexParser.offset_ q + 1 + sz) n2) as [H2|H2]; try lia.
  - right. split; [reflexivity|]. left. reflexivity.
  - right. split; [reflexivity|]. right. do 2 eexists. split; [reflexivity|].
    cbn. fold sz. lia.
  - left. do 2 eexists. cbn [fst snd]. split; [reflexivity|]. split; [cbn; fold sz; lia|].
    reflexivity.
Qed.

Lemma with_size_wf (p : MultiplexParser.t) (n : Z) :
  0 <= MultiplexParser.offset_ p ->
  0 <= n <= Z.of_nat (length (MultiplexParser.data_ p)) ->
  MultiplexParser.wf (with_size p n).
Proof. intros H0 Hn. split; simpl; lia. Qed.

Lemma scan_lockstep (fuel : nat) (p : MultiplexParser.t) (n1 n2 : Z) :
  0 <= MultiplexParser.offset_ p ->
  0 <= n1 -> n1 <= n2 ->
  n2 <= Z.of_nat (length (MultiplexParser.data_ p)) ->
  lockstep n1 (MultiplexParser.scan fuel (with_size p n1))
              (MultiplexParser.scan fuel (with_size p n2)).
Proof.
  revert p; induction fuel as [|fuel IH]; intros p H0 Hn1 Hn Hn2.
  - right. split; [reflexivity|]. left. reflexivity.
  - assert (Hwf2 : MultiplexParser.wf (with_size p n2)) by (apply with_size_wf; simpl; lia).
    assert (Hwf1 : MultiplexParser.wf (with_size p n1)) by (apply with_size_wf; simpl; lia).
    rewrite (scan_in_bounds fuel (with_size p n1) Hwf1).
    destruct (Z.ltb_spec (MultiplexParser.offset_ p) n1) as [Hlt|Hge].
    2:{ unfold scan_body at 1. cbn [with_size MultiplexParser.offset_ MultiplexParser.size_].
        destruct (Z.ltb_spec (MultiplexParser.offset_ p) n1); [lia|].
        apply (lockstep_short_done n1 (with_size p n2)); [now apply scan_post|simpl; lia]. }
    rewrite (scan_in_bounds fuel (with_size p n2) Hwf2).
    pose proof (scan_body_post (MultiplexParser.scan fuel) (with_size p n2) Hwf2
                  ltac:(simpl; lia) (scan_post fuel)) as Hpost2.
    unfold scan_body, byte_at in Hpost2 |- *.
    cbn [with_size MultiplexParser.set_offset MultiplexParser.set_current_resolution
      MultiplexParser.offset_ MultiplexParser.size_ MultiplexParser.data_] in Hpost2 |- *.
    destruct (Z.ltb_spec (MultiplexParser.offset_ p) n1) as [_|]; [|lia].
    destruct (Z.ltb_spec (MultiplexParser.offset_ p) n2) as [_|]; [|lia].
    set (cmd := nth (Z.to_nat (MultiplexParser.offset_ p)) (MultiplexParser.data_ p) 0) in *.
    destruct (cmd =? Multiplex.kNop).
    { apply (IH (MultiplexParser.set_offset p (MultiplexParser.offset_ p + 1))); simpl; lia. }
    destruct (Z.geb_spec (MultiplexParser.offset_ p + 1) n1) as [Hge1|Hlt1].
    { eapply lockstep_short_done; [exact Hpost2|simpl; lia]. }
    clear Hpost2.
    destruct (Z.geb_spec (MultiplexParser.offset_ p + 1) n2) as [|_]; [lia|].
    destruct ((cmd >=? 0x20) && (cmd <? 0x30)).
    2:{ right. split; [reflexivity|]. left. reflexivity. }
    set (res := MultiplexParser.resolution_of_id (Z.land (Z.shiftr cmd 2) 3)).
    destruct (Z.land cmd 3 =? 0).
    + set (count := nth (Z.to_nat (MultiplexParser.offset_ p + 1)) (MultiplexParser.data_ p) 0).
      destruct (Z.geb_spec (MultiplexParser.offset_ p + 1 + 1) n1) as [Hge3|Hlt3].
      * (* the short buffer ends after the count byte *)
        destruct (Z.geb_spec (MultiplexParser.offset_ p + 1 + 1) n2) as [Hge4|Hlt4].
        { right. split; [reflexivity|]. left. reflexivity. }
        match goal with
        | |- lockstep _ _ (if _ then ?a ?q else ?b ?q) =>
            apply (lockstep_short_done n1 q); [|simpl; lia]
        end.
        destruct (count =? 0).
        -- apply scan_post. split; simpl; lia.
        -- apply start_run_post. simpl. lia.
      * destruct (Z.geb_spec (MultiplexParser.offset_ p + 1 + 1) n2) as [|_]; [lia|].
        destruct (count =? 0).
        -- apply (IH (MultiplexParser.set_offset
                        (MultiplexParser.set_current_resolution
                           (MultiplexParser.set_offset p (MultiplexParser.offset_ p + 1)) res)
                        (MultiplexParser.offset_ p + 1 + 1))); simpl; lia.
        -- apply (start_run_lockstep count n1 n2
                    (MultiplexParser.set_offset
                       (MultiplexParser.set_current_resolution
                          (MultiplexParser.set_offset p (MultiplexParser.offset_ p + 1)) res)
                       (MultiplexParser.offset_ p + 1 + 1))). exact Hn.
    + apply (start_run_lockstep (Z.land cmd 3) n1 n2
               (MultiplexParser.set_current_resolution
                  (MultiplexParser.set_offset p (MultiplexParser.offset_ p + 1)) res)).
      exact Hn.
Qed.

(** The loop never runs out of fuel: more fuel than bytes left changes
    nothing. *)
Lemma scan_fuel (fuel extra : nat) (p : MultiplexParser.t) :
  MultiplexParser.wf p ->
  MultiplexParser.size_ p - MultiplexParser.offset_ p <= Z.of_nat fuel ->
  MultiplexParser.scan (fuel + extra) p = MultiplexParser.scan fuel p.
Proof.
  revert p; induction fuel as [|fuel IH]; intros p Hwf Hf.
  - destruct extra as [|extra]; [reflexivity|].
    change (0 + S extra)%nat with (S extra).
    rewrite (scan_in_bounds extra p Hwf). unfold scan_body.
    destruct (Z.ltb_spec (MultiplexParser.offset_ p) (MultiplexParser.size_ p)); [lia|].
    reflexivity.
  - change (S fuel + extra)%nat with (S (fuel + extra)).
    rewrite !scan_in_bounds by assumption. unfold scan_body.
    destruct (Z.ltb_spec (MultiplexParser.offset_ p) (MultiplexParser.size_ p)) as [Hlt|];
      [|reflexivity].
    cbv zeta. destruct Hwf as [Hw0 Hws].
    destruct (_ =? Multiplex.kNop).
    { apply IH; [split|]; simpl; lia. }
    destruct (_ >=? _); [reflexivity|].
    destruct (_ && _); [|reflexivity].
    destruct (_ =? 0); [|reflexivity].
    destruct (_ >=? _); [reflexivity|].
    destruct (_ =? 0); [|reflexivity].
    apply IH; [split|]; simpl; lia.
Qed.

Lemma next_lockstep (p : MultiplexParser.t) (n1 n2 : Z) :
  0 <= MultiplexParser.offset_ p ->
  0 <= n1 -> n1 <= n2 ->
  n2 <= Z.of_nat (length (MultiplexParser.data_ p)) ->
  lockstep n1 (MultiplexParser.next (with_size p n1)) (MultiplexParser.next (with_size p n2)).
Proof.
  intros H0 Hn1 Hn Hn2.
  assert (Hwf2 : MultiplexParser.wf (with_size p n2)) by (apply with_size_wf; simpl; lia).
  assert (Hwf1 : MultiplexParser.wf (with_size p n1)) by (apply with_size_wf; simpl; lia).
  destruct (Z_lt_ge_dec (MultiplexParser.offset_ p) n1) as [Hlt|Hge].
  2:{ unfold MultiplexParser.next at 1.
      cbn [with_size MultiplexParser.offset_ MultiplexParser.size_].
      destruct (Z.geb_spec (MultiplexParser.offset_ p) n1); [|lia].
      apply (lockstep_short_done n1 (with_size p n2));
        [now apply next_satisfies_post|simpl; lia]. }
  unfold MultiplexParser.next.
  cbn [with_size MultiplexParser.offset_ MultiplexParser.size_ MultiplexParser.remaining_
    MultiplexParser.set_remaining MultiplexParser.set_current_register
    MultiplexParser.current_resolution_ MultiplexParser.current_register_].
  destruct (Z.geb_spec (MultiplexParser.offset_ p) n1); [lia|].
  destruct (Z.geb_spec (MultiplexParser.offset_ p) n2); [lia|].
  destruct (negb (MultiplexParser.remaining_ p =? 0)).
  - set (sz := MultiplexParser.ResolutionSize (MultiplexParser.current_resolution_ p)).
    destruct (Z.gtb_spec (MultiplexParser.offset_ p + sz) n1) as [Hs1|Hs1];
      destruct (Z.gtb_spec (MultiplexParser.offset_ p + sz) n2) as [Hs2|Hs2]; try lia.
    + right. split; [reflexivity|]. left. reflexivity.
    + right. split; [reflexivity|]. right. do 2 eexists. split; [reflexivity|].
      cbn. fold sz. lia.
    + left. do 2 eexists. cbn [fst snd]. split; [reflexivity|].
      split; [cbn; fold sz; lia|reflexivity].
  - replace (Z.to_nat (n2 - MultiplexParser.offset_ p))
      with (Z.to_nat (n1 - MultiplexParser.offset_ p) + Z.to_nat (n2 - n1))%nat by lia.
    rewrite <- (scan_fuel (Z.to_nat (n1 - MultiplexParser.offset_ p)) (Z.to_nat (n2 - n1))
                  (with_size p n1) Hwf1) by (simpl; lia).
    apply scan_lockstep; assumption.
Qed.

Definition value_within (n : Z) (e : Z * Resolution * Z) : bool :=
  snd e + MultiplexParser.ResolutionSize (snd (fst e)) <=? n.

Lemma elements_fuel (fuel extra : nat) (p : MultiplexParser.t) :
  MultiplexParser.wf p ->
  MultiplexParser.size_ p - MultiplexParser.offset_ p <= Z.of_nat fuel ->
  MultiplexParser.elements (fuel + extra) p = MultiplexParser.elements fuel p.
Proof.
  revert p; induction fuel as [|fuel IH]; intros p Hwf Hf.
  - destruct extra as [|extra]; [reflexivity|]. simpl.
    unfold MultiplexParser.next.
    destruct (Z.geb_spec (MultiplexParser.offset_ p) (MultiplexParser.size_ p)); [|lia].
    reflexivity.
  - change (S fuel + extra)%nat with (S (fuel + extra)).
    cbn [MultiplexParser.elements].
    destruct (next_satisfies_post p Hwf) as (r & Hr & Hd & Hs & Ho & Hb & _ & Hy).
    destruct (MultiplexParser.next p) as [o p']. cbn [fst snd] in *. subst o.
    destruct r as [[[|] reg] res]; [|reflexivity].
    f_equal. specialize (Hy eq_refl). cbn [snd] in Hy.
    pose proof (ResolutionSize_pos res). destruct Hwf as [Hw0 Hws].
    apply IH; [split|]; simpl; rewrite ?Hd, ?Hs; lia.
Qed.

Lemma elements_lockstep (fuel : nat) (p : MultiplexParser.t) (n1 n2 : Z) :
  0 <= MultiplexParser.offset_ p ->
  0 <= n1 -> n1 <= n2 ->
  n2 <= Z.of_nat (length (MultiplexParser.data_ p)) ->
  MultiplexParser.elements fuel (with_size p n1)
  = take_while (value_within n1) (MultiplexParser.elements fuel (with_size p n2)).
Proof.
  revert p; induction fuel as [|fuel IH]; intros p H0 Hn1 Hn Hn2; [reflexivity|].
  cbn [MultiplexParser.elements].
  pose proof (next_lockstep p n1 n2 H0 Hn1 Hn Hn2) as L.
  pose proof (next_satisfies_post (with_size p n2)
                ltac:(apply with_size_wf; simpl; lia)) as (r & Hr & Hd & Hs & Ho & _).
  destruct (MultiplexParser.next (with_size p n2)) as [o2 q2].
  destruct (MultiplexParser.next (with_size p n1)) as [o1 q1].
  cbn [fst snd with_size MultiplexParser.data_ MultiplexParser.size_
       MultiplexParser.offset_] in *.
  unfold lockstep in L. cbn [fst snd] in L.
  destruct L as [(reg & res & E2 & Hfit & E1)|(E1 & [E2|(reg & res & E2 & Hbeyond)])].
  - injection E1 as -> ->. rewrite E2 in *. clear E2 Hr. cbn [take_while].
    unfold value_within at 1. cbn [fst snd].
    destruct (Z.leb_spec (MultiplexParser.offset_ q2 + MultiplexParser.ResolutionSize res) n1);
      [|lia].
    f_equal.
    set (q := MultiplexParser.set_offset q2
                (MultiplexParser.offset_ q2 + MultiplexParser.ResolutionSize res)).
    assert (Hq : snd (MultiplexParser.Ignore res q2) = with_size q n2).
    { destruct q2; cbn in *. subst. reflexivity. }
    rewrite Hq.
    change (snd (MultiplexParser.Ignore res (with_size q2 n1))) with (with_size q n1).
    pose proof (ResolutionSize_pos res).
    apply IH; subst q; simpl; rewrite ?Hd; lia.
  - rewrite E1, E2. reflexivity.
  - rewrite E1, E2. cbn [take_while]. unfold value_within. cbn [fst snd].
    destruct (Z.leb_spec (MultiplexParser.offset_ q2 + MultiplexParser.ResolutionSize res) n1);
      [lia|reflexivity].
Qed.

(** Truncation: the elements read from a buffer cut at [n1] are the longest
    prefix of the elements of the longer buffer whose values lie within
    [n1]. *)
Lemma all_elements_truncated (data : list Z) (n1 n2 : Z) :
  0 <= n1 -> n1 <= n2 -> n2 <= 255 -> n2 <= Z.of_nat (length data) ->
  MultiplexParser.all_elements (MultiplexParser.make data n1)
  = take_while (value_within n1)
      (MultiplexParser.all_elements (MultiplexParser.make data n2)).
Proof.
  intros Hn1 Hn H255 Hlen. unfold MultiplexParser.all_elements, MultiplexParser.make.
  cbn [MultiplexParser.size_ MultiplexParser.offset_]. unfold uint8.
  rewrite !Z.mod_small, !Z.sub_0_r by lia.
  set (p := {| MultiplexParser.data_ := data; MultiplexParser.size_ := 0;
               MultiplexParser.offset_ := 0; MultiplexParser.remaining_ := 0;
               MultiplexParser.current_resolution_ := kIgnore;
               MultiplexParser.current_register_ := 0 |}).
  change (MultiplexParser.elements (Z.to_nat n2) _)
    with (MultiplexParser.elements (Z.to_nat n2) (with_size p n2)).
  change (MultiplexParser.elements (Z.to_nat n1) _)
    with (MultiplexParser.elements (Z.to_nat n1) (with_size p n1)).
  rewrite <- (elements_lockstep (Z.to_nat n2) p n1 n2) by (simpl; lia).
  replace (Z.to_nat n2) with (Z.to_nat n1 + Z.to_nat (n2 - n1))%nat by lia.
  symmetry. apply elements_fuel; [apply with_size_wf|]; simpl; lia.
Qed.

(** [k] calls of [next] in a row. *)
Fixpoint next_calls (k : nat) (p : MultiplexParser.t)
  : list (outcome (bool * Z * Resolution)) * MultiplexParser.t :=
  match k with
  | O => ([], p)
  | S k' =>
      let (o, p') := MultiplexParser.next p in
      let (os, p'') := next_calls k' p' in
      (o :: os, p'')
  end.

(** A buffer of three 16 bit registers cut in the third value yields
    registers 1 and 2 and stops. *)
Example truncated_reply_elements :
  MultiplexParser.all_elements
    (MultiplexParser.make [0x27; 0x01; 0x10; 0x00; 0x20; 0x00; 0x30; 0x00] 7)
  = [(1, kInt16, 2); (2, kInt16, 4)].
Proof. reflexivity. Qed.


(** *** Commands outside the reply family *)

(** Scanning the buffer from offset [o] for a command, past filler bytes
    and empty replies, meets a command byte that is neither a reply nor
    the filler. *)
Inductive scan_meets_other (data : list Z) (size : Z) : Z -> Prop :=
| meets_here (o : Z) :
    0 <= o < size ->
    nth (Z.to_nat o) data 0 <> Multiplex.kNop ->
    ~ (0x20 <= nth (Z.to_nat o) data 0 < 0x30) ->
    scan_meets_other data size o
| meets_after_filler (o : Z) :
    0 <= o < size ->
    nth (Z.to_nat o) data 0 = Multiplex.kNop ->
    scan_meets_other data size (o + 1) ->
    scan_meets_other data size o
| meets_after_empty_reply (o : Z) :
    0 <= o < size ->
    0x20 <= nth (Z.to_nat o) data 0 < 0x30 ->
    Z.land (nth (Z.to_nat o) data 0) 0x03 = 0 ->
    nth (Z.to_nat (o + 1)) data 0 = 0 ->
    scan_meets_other data size (o + 2) ->
    scan_meets_other data size o.

Lemma scan_meets_other_in_buffer (data : list Z) (size o : Z) :
  scan_meets_other data size o -> 0 <= o < size.
Proof. now destruct 1. Qed.

Lemma scan_stops_at_other (data : list Z) (size o : Z) :
  scan_meets_other data size o ->
  forall (fuel : nat) (q : MultiplexParser.t),
    MultiplexParser.wf q ->
    MultiplexParser.data_ q = data ->
    MultiplexParser.size_ q = size ->
    MultiplexParser.offset_ q = o ->
    size - o <= Z.of_nat fuel ->
    exists q',
      MultiplexParser.scan fuel q = (Returns MultiplexParser.no_element, q')
      /\ MultiplexParser.offset_ q' = size
      /\ MultiplexParser.size_ q' = size
      /\ MultiplexParser.data_ q' = data.
Proof.
  induction 1 as [o Ho Hnop Hrep|o Ho Hnop _ IH|o Ho Hrep Hcnt Hzero Hnext IH];
    intros fuel q Hwf Hd Hs Hoff Hfuel;
    (destruct fuel as [|fuel]; [lia|]);
    rewrite (scan_in_bounds fuel q Hwf); unfold scan_body, byte_at;
    rewrite Hd, Hs, Hoff; cbv zeta;
    cbn [MultiplexParser.set_offset MultiplexParser.set_current_resolution
         MultiplexParser.offset_ MultiplexParser.size_ MultiplexParser.data_];
    rewrite ?Hd, ?Hs, ?Hoff;
    (destruct (Z.ltb_spec o size); [|lia]).
  - destruct (Z.eqb_spec (nth (Z.to_nat o) data 0) Multiplex.kNop); [contradiction|].
    destruct (Z.geb_spec (o + 1) size).
    + eexists. split; [reflexivity|]. simpl. repeat split; try assumption. lia.
    + destruct (Z.geb_spec (nth (Z.to_nat o) data 0) 32);
        destruct (Z.ltb_spec (nth (Z.to_nat o) data 0) 48); cbn [andb]; try lia;
        (eexists; split; [reflexivity|]; simpl; repeat split; assumption).
  - rewrite Hnop, Z.eqb_refl.
    apply IH; simpl; try assumption; try lia.
    destruct Hwf; split; simpl; lia.
  - pose proof (scan_meets_other_in_buffer _ _ _ Hnext) as Hin.
    unfold Multiplex.kNop.
    destruct (Z.eqb_spec (nth (Z.to_nat o) data 0) 80); [lia|].
    destruct (Z.geb_spec (o + 1) size); [lia|].
    destruct (Z.geb_spec (nth (Z.to_nat o) data 0) 32);
      destruct (Z.ltb_spec (nth (Z.to_nat o) data 0) 48); cbn [andb]; try lia.
    rewrite Hcnt. cbn [Z.eqb]. rewrite Hzero. cbn [Z.eqb].
    destruct (Z.geb_spec (o + 1 + 1) size); [lia|].
    apply IH; simpl; try assumption; try lia.
    destruct Hwf; split; simpl; lia.
Qed.

Lemma next_exhausted (q : MultiplexParser.t) :
  MultiplexParser.size_ q <= MultiplexParser.offset_ q ->
  MultiplexParser.next q = (Returns MultiplexParser.no_element, q).
Proof.
  intros H. unfold MultiplexParser.next.
  destruct (Z.geb_spec (MultiplexParser.offset_ q) (MultiplexParser.size_ q)); [reflexivity|lia].
Qed.

Lemma next_calls_exhausted (k : nat) (q : MultiplexParser.t) :
  MultiplexParser.size_ q <= MultiplexParser.offset_ q ->
  next_calls k q = (repeat (Returns MultiplexParser.no_element) k, q).
Proof.
  intros H. induction k as [|k IH]; [reflexivity|].
  cbn [next_calls]. rewrite (next_exhausted q H), IH. reflexivity.
Qed.

(** C8. When the scan for the next command, from a state outside a run,
    meets a command byte that is neither a reply nor the filler, that call
    of [next] yields no element and leaves the cursor at the end of the
    buffer; every later call yields no element and leaves it there, and a
    [Read] throws: no byte after that command is read again. *)
Theorem next_stops_at_a_command_outside_the_reply_family (p : MultiplexParser.t) :
  MultiplexParser.wf p ->
  MultiplexParser.remaining_ p = 0 ->
  scan_meets_other (MultiplexParser.data_ p) (MultiplexParser.size_ p)
    (MultiplexParser.offset_ p) ->
  let p' := snd (MultiplexParser.next p) in
  fst (MultiplexParser.next p) = Returns MultiplexParser.no_element
  /\ MultiplexParser.offset_ p' = MultiplexParser.size_ p
  /\ (forall k,
        next_calls k p' = (repeat (Returns MultiplexParser.no_element) k, p'))
  /\ (forall T,
        MultiplexParser.Read T p' = (Throws (runtime_error "overrun"%str), p')).
Proof.
  intros Hwf Hrem Hmeets p'.
  pose proof (scan_meets_other_in_buffer _ _ _ Hmeets) as Hin.
  assert (E : exists q',
             MultiplexParser.next p = (Returns MultiplexParser.no_element, q')
             /\ MultiplexParser.offset_ q' = MultiplexParser.size_ p
             /\ MultiplexParser.size_ q' = MultiplexParser.size_ p).
  { unfold MultiplexParser.next. rewrite Hrem.
    destruct (Z.geb_spec (MultiplexParser.offset_ p) (MultiplexParser.size_ p)); [lia|].
    cbn [Z.eqb negb].
    destruct (scan_stops_at_other _ _ _ Hmeets
                (Z.to_nat (MultiplexParser.size_ p - MultiplexParser.offset_ p)) p Hwf
                eq_refl eq_refl eq_refl ltac:(lia)) as (q' & Eq & Ho & Hs & _).
    exists q'. now rewrite Eq. }
  destruct E as (q' & Eq & Ho & Hs). subst p'. rewrite Eq. cbn [fst snd].
  split; [reflexivity|]. split; [exact Ho|]. split.
  - intros k. apply next_calls_exhausted. lia.
  - intros T. unfold MultiplexParser.Read, MultiplexParser.Read_repr, bind.
    destruct (Z.gtb_spec (MultiplexParser.offset_ q' + sizeof T) (MultiplexParser.size_ q'));
      [reflexivity|destruct T; simpl in *; lia].
Qed.

Lemma next_stops_at_a_command_outside_the_reply_family_witness :
  fst (MultiplexParser.next
         (MultiplexParser.make [0x50; 0x31; 0x25; 0x04; 0x00; 0x0a; 0x00] 7))
  = Returns MultiplexParser.no_element.
Proof.
  apply (next_stops_at_a_command_outside_the_reply_family
           (MultiplexParser.make [0x50; 0x31; 0x25; 0x04; 0x00; 0x0a; 0x00] 7)).
  - unfold MultiplexParser.wf; cbn; lia.
  - reflexivity.
  - change (scan_meets_other [0x50; 0x31; 0x25; 0x04; 0x00; 0x0a; 0x00] 7 0).
    apply meets_after_filler; [lia|reflexivity|].
    apply meets_here; [lia|simpl; discriminate|simpl; lia].
Defined.

(** ** The frame writer: capacity *)

(** C9. Appending to a frame of length L an object representation of w
    bytes, and in particular an integer of type [T] or a [float], throws
    the overflow error and leaves the frame as it was when L + w exceeds
    64; otherwise it appends exactly those w bytes, least significant
    byte first, and the length becomes L + w. *)
Theorem Write_checks_capacity_before_writing
    (f : CanFrame) (repr : list Z) (T : IntType) (value_in : Z) :
  wf_frame f ->
  let L := size f in
  (L + Z.of_nat (length repr) > 64 ->
     WriteCanFrame.Write_repr repr f = (Throws (runtime_error "overflow"%str), f))
  /\ (L + Z.of_nat (length repr) <= 64 ->
      exists f',
        WriteCanFrame.Write_repr repr f = (Returns tt, f')
        /\ length (data f') = 64%nat
        /\ size f' = L + Z.of_nat (length repr)
        /\ contents f' = contents f ++ repr)
  /\ (L + sizeof T > 64 ->
      WriteCanFrame.Write T value_in f = (Throws (runtime_error "overflow"%str), f))
  /\ (L + sizeof T <= 64 ->
      exists f',
        WriteCanFrame.Write T value_in f = (Returns tt, f')
        /\ size f' = L + sizeof T
        /\ Z.of_nat (length (contents f')) = L + sizeof T
        /\ firstn (Z.to_nat L) (contents f') = contents f
        /\ forall i, 0 <= i < sizeof T ->
             nth (Z.to_nat (L + i)) (contents f') 0
             = (static_cast T value_in / 256 ^ i) mod 256)
  /\ (forall x : spec_float,
        (L + 4 > 64 ->
           WriteCanFrame.Write_float x f = (Throws (runtime_error "overflow"%str), f))
        /\ (L + 4 <= 64 ->
            exists f',
              WriteCanFrame.Write_float x f = (Returns tt, f')
              /\ size f' = L + 4
              /\ contents f' = contents f ++ le_bytes 4 (bits_of_float x))).
Proof.
  intros Hwf L.
  assert (Hfloat : forall x : spec_float,
            (L + 4 > 64 ->
               WriteCanFrame.Write_float x f = (Throws (runtime_error "overflow"%str), f))
            /\ (L + 4 <= 64 ->
                exists f',
                  WriteCanFrame.Write_float x f = (Returns tt, f')
                  /\ size f' = L + 4
                  /\ contents f' = contents f ++ le_bytes 4 (bits_of_float x))).
  { intros x. unfold WriteCanFrame.Write_float. split; intros H.
    - apply Write_repr_overflow. rewrite le_bytes_length. exact H.
    - destruct (Write_repr_append (le_bytes 4 (bits_of_float x)) f Hwf)
        as (f' & E & _ & Hs & Hc); [rewrite le_bytes_length; exact H|].
      rewrite le_bytes_length in Hs. exists f'. repeat split; assumption. }
  refine ((fun H => conj (proj1 H) (conj (proj1 (proj2 H))
            (conj (proj1 (proj2 (proj2 H))) (conj (proj2 (proj2 (proj2 H))) Hfloat)))) _).
  clear Hfloat.
  assert (HlenT : Z.of_nat (length (le_bytes (Z.to_nat (sizeof T)) (static_cast T value_in)))
                  = sizeof T)
    by (rewrite le_bytes_length; destruct T; reflexivity).
  assert (Hcont : Z.of_nat (length (contents f)) = L).
  { unfold contents. rewrite length_firstn. destruct Hwf as [Hl Hs]. subst L. lia. }
  split; [|split; [|split]].
  - intros H. now apply Write_repr_overflow.
  - intros H. destruct (Write_repr_append repr f Hwf H) as (f' & E & [Hl _] & Hs & Hc).
    exists f'. repeat split; assumption.
  - intros H. unfold WriteCanFrame.Write. apply Write_repr_overflow. rewrite HlenT. exact H.
  - intros H. unfold WriteCanFrame.Write.
    destruct (Write_repr_append (le_bytes (Z.to_nat (sizeof T)) (static_cast T value_in)) f Hwf)
      as (f' & E & _ & Hs & Hc); [rewrite HlenT; exact H|].
    exists f'. split; [exact E|]. rewrite HlenT in Hs. split; [exact Hs|].
    rewrite Hc. split; [rewrite length_app; lia|]. split.
    + rewrite firstn_app.
      replace (Z.to_nat L - length (contents f))%nat with 0%nat by lia.
      rewrite firstn_all2 by lia. simpl. now rewrite app_nil_r.
    + intros i Hi. rewrite app_nth2 by lia.
      replace (Z.to_nat (L + i) - length (contents f))%nat with (Z.to_nat i) by lia.
      apply nth_error_nth. rewrite nth_error_le_bytes by lia.
      now rewrite Z2Nat.id by lia.
Qed.

Lemma Write_checks_capacity_before_writing_witness :
  WriteCanFrame.Write_repr [0x01; 0x02]
    {| data := repeat 0 64; size := 63 |}
  = (Throws (runtime_error "overflow"%str), {| data := repeat 0 64; size := 63 |}).
Proof.
  apply (Write_checks_capacity_before_writing
           {| data := repeat 0 64; size := 63 |} [0x01; 0x02] int16_t 0).
  - split; simpl; [reflexivity|lia].
  - simpl; lia.
Defined.

(** ** The wrapper *)

(** C10. With vectors of equal length the condition handed to [assert] is
    false and the constructor aborts; the assertion passes only when the
    lengths differ. *)
Theorem MoteusWrapper_asserts_the_lengths_differ
    (MoteusAPI : Type) (MoteusAPI_new : String.string -> Z -> MoteusAPI)
    (dev_name : list String.string) (moteus_id : list Z) :
  (length dev_name = length moteus_id ->
     MoteusWrapper.assert_condition dev_name moteus_id = false
     /\ MoteusWrapper.make MoteusAPI MoteusAPI_new dev_name moteus_id = Aborts)
  /\ (MoteusWrapper.assert_condition dev_name moteus_id = true ->
      length dev_name <> length moteus_id)
  /\ (MoteusWrapper.make MoteusAPI MoteusAPI_new dev_name moteus_id <> Aborts ->
      length dev_name <> length moteus_id).
Proof.
  unfold MoteusWrapper.make, MoteusWrapper.assert_condition.
  destruct (Nat.eqb_spec (length dev_name) (length moteus_id)) as [E|E]; cbn [negb].
  - split; [intros _; split; reflexivity|].
    split; [discriminate|]. intros H. now elim H.
  - split; [contradiction|]. split; intros _; exact E.
Qed.

Lemma MoteusWrapper_asserts_the_lengths_differ_witness :
  MoteusWrapper.make unit (fun _ _ => tt) ["can0"%str; "can1"%str] [1; 2] = Aborts.
Proof.
  apply (MoteusWrapper_asserts_the_lengths_differ unit (fun _ _ => tt)
           ["can0"%str; "can1"%str] [1; 2]).
  reflexivity.
Defined.

(** ** Floating point formats *)

(** *** Digits *)

Lemma digits2_pos_size (m : positive) : digits2_pos m = Pos.size m.
Proof. induction m as [m IH|m IH|]; simpl; now rewrite ?IH. Qed.

Lemma Zdigits2_log2 (m : Z) : 0 < m -> Zdigits2 m = Z.log2 m + 1.
Proof.
  destruct m as [|m|m]; try lia. intros _. simpl Zdigits2. rewrite digits2_pos_size.
  destruct m as [m|m|]; simpl; try lia.
Qed.

Lemma Zdigits2_nonneg (m : Z) : 0 <= Zdigits2 m.
Proof. destruct m; simpl; lia. Qed.

Lemma Zdigits2_bounds (m : Z) :
  0 < m -> 2 ^ (Zdigits2 m - 1) <= m < 2 ^ Zdigits2 m.
Proof.
  intros Hm. rewrite (Zdigits2_log2 m Hm).
  replace (Z.log2 m + 1 - 1) with (Z.log2 m) by lia.
  pose proof (Z.log2_spec m Hm) as H. rewrite <- Z.add_1_r in H. exact H.
Qed.

Lemma Zdigits2_unique (m d : Z) :
  2 ^ (d - 1) <= m < 2 ^ d -> 0 < m -> Zdigits2 m = d.
Proof.
  intros H Hm. rewrite (Zdigits2_log2 m Hm).
  assert (0 < d).
  { destruct (Z_lt_le_dec 0 d); [assumption|].
    assert (2 ^ d <= 2 ^ 0) by (apply Z.pow_le_mono_r; lia). simpl in *. lia. }
  rewrite (Z.log2_unique m (d - 1)); [lia|lia|].
  replace (Z.succ (d - 1)) with d by lia. exact H.
Qed.

(** A number below [2^d] has at most [d] digits, and conversely. *)
Lemma Zdigits2_le (m d : Z) : 0 <= m -> 0 <= d -> (Zdigits2 m <= d <-> m < 2 ^ d).
Proof.
  intros Hm Hd. destruct (Z.eq_dec m 0) as [->|Hne].
  - simpl. split; intros _; [apply Z.pow_pos_nonneg; lia|lia].
  - pose proof (Zdigits2_bounds m ltac:(lia)) as [Hlo Hhi]. split; intros H.
    + eapply Z.lt_le_trans; [exact Hhi|]. apply Z.pow_le_mono_r; lia.
    + destruct (Z_le_gt_dec (Zdigits2 m) d) as [|Hgt]; [assumption|].
      assert (2 ^ d <= 2 ^ (Zdigits2 m - 1)) by (apply Z.pow_le_mono_r; lia). lia.
Qed.

Lemma Zdigits2_mono (m n : Z) : 0 <= m <= n -> Zdigits2 m <= Zdigits2 n.
Proof.
  intros [Hm Hmn]. destruct (Z.eq_dec n 0) as [->|Hn].
  - replace m with 0 by lia. lia.
  - apply Zdigits2_le; [lia|apply Zdigits2_nonneg|].
    pose proof (Zdigits2_bounds n ltac:(lia)). lia.
Qed.

Lemma Zdigits2_div_pow2 (m n : Z) :
  0 <= m -> 0 <= n -> 0 < m / 2 ^ n -> Zdigits2 (m / 2 ^ n) = Zdigits2 m - n.
Proof.
  intros Hm Hn Hq.
  assert (Hm0 : 0 < m).
  { destruct (Z.eq_dec m 0) as [->|]; [|lia]. rewrite Z.div_0_l in Hq; lia. }
  rewrite !Zdigits2_log2 by assumption.
  rewrite <- Z.shiftr_div_pow2 by assumption.
  rewrite Z.log2_shiftr by assumption.
  rewrite <- Z.shiftr_div_pow2 in Hq by assumption.
  assert (0 <= Z.log2 m - n).
  { destruct (Z_le_gt_dec 0 (Z.log2 m - n)); [assumption|].
    rewrite Z.shiftr_eq_0 in Hq; lia. }
  lia.
Qed.

(** *** Shifting right *)

Lemma iter_pos_nat {A} (f : A -> A) (p : positive) (x : A) :
  iter_pos f p x = Nat.iter (Pos.to_nat p) f x.
Proof.
  revert x; induction p as [p IH|p IH|]; intros x; simpl iter_pos.
  - rewrite !IH, Pos2Nat.inj_xI.
    replace (S (2 * Pos.to_nat p)) with (Pos.to_nat p + (Pos.to_nat p + 1))%nat by lia.
    rewrite !Nat.iter_add. simpl. reflexivity.
  - rewrite !IH, Pos2Nat.inj_xO.
    replace (2 * Pos.to_nat p)%nat with (Pos.to_nat p + Pos.to_nat p)%nat by lia.
    now rewrite Nat.iter_add.
  - reflexivity.
Qed.

Lemma shr_1_m (mrs : shr_record) :
  0 <= shr_m mrs -> shr_m (shr_1 mrs) = shr_m mrs / 2.
Proof.
  destruct mrs as [m r s]. simpl. intros Hm.
  destruct m as [|[p|p|]|p]; try lia; simpl shr_m.
  - reflexivity.
  - rewrite Pos2Z.inj_xI. apply (Z.div_unique _ 2 _ 1); lia.
  - rewrite Pos2Z.inj_xO. apply (Z.div_unique _ 2 _ 0); lia.
  - reflexivity.
Qed.

Lemma shr_iter_m (n : nat) (mrs : shr_record) :
  0 <= shr_m mrs ->
  shr_m (Nat.iter n shr_1 mrs) = shr_m mrs / 2 ^ Z.of_nat n.
Proof.
  intros Hm. induction n as [|n IH].
  - simpl. now rewrite Z.div_1_r.
  - change (Nat.iter (S n) shr_1 mrs) with (shr_1 (Nat.iter n shr_1 mrs)).
    rewrite shr_1_m.
    + rewrite IH, Nat2Z.inj_succ, Z.pow_succ_r by lia.
      rewrite Z.div_div by lia. f_equal. lia.
    + rewrite IH. apply Z.div_pos; lia.
Qed.

Lemma shr_m_of_loc (m : Z) (l : location) : shr_m (shr_record_of_loc m l) = m.
Proof. destruct l as [|[| |]]; reflexivity. Qed.

(** *** Rounding yields numbers of the format *)

Section Format.

Variables prec emax : Z.
Hypothesis prec_gt_0 : 0 < prec.

Let emin := SpecFloat.emin prec emax.
Let fexp := SpecFloat.fexp prec emax.

(** The mantissa [m] (possibly zero) is as long as the exponent [e]
    allows: the condition [canonical_mantissa] tests. *)
Definition canonical (m e : Z) : Prop := fexp (Zdigits2 m + e) = e.

Lemma fexp_mono (x y : Z) : x <= y -> fexp x <= fexp y.
Proof. unfold fexp, SpecFloat.fexp. lia. Qed.

Lemma canonical_iff (m e : Z) :
  canonical m e <->
  emin <= e /\ Zdigits2 m <= prec /\ (Zdigits2 m = prec \/ e = emin).
Proof. unfold canonical, fexp, SpecFloat.fexp, emin. lia. Qed.

Lemma shr_fexp_canonical (m e : Z) (l : location) :
  0 <= m ->
  e <= fexp (Zdigits2 m + e) ->
  0 <= shr_m (fst (shr_fexp prec emax m e l))
  /\ canonical (shr_m (fst (shr_fexp prec emax m e l))) (snd (shr_fexp prec emax m e l)).
Proof.
  intros Hm He. unfold shr_fexp, shr. fold fexp.
  destruct (fexp (Zdigits2 m + e) - e) as [|p|p] eqn:En; cbn [fst snd]; try lia.
  - rewrite shr_m_of_loc. split; [assumption|]. unfold canonical. lia.
  - rewrite iter_pos_nat, shr_iter_m, shr_m_of_loc, positive_nat_Z
      by (rewrite shr_m_of_loc; assumption).
    split; [apply Z.div_pos; lia|].
    pose proof (Zdigits2_nonneg m) as Hd.
    destruct (Z.eq_dec (m / 2 ^ Z.pos p) 0) as [E0|Hq].
    + rewrite E0. simpl Zdigits2.
      assert (Hlt : m < 2 ^ Z.pos p).
      { apply Z.div_small_iff in E0; lia. }
      apply (Zdigits2_le m (Z.pos p)) in Hlt; try lia.
      unfold canonical, fexp, SpecFloat.fexp in *. change (Zdigits2 0) with 0. lia.
    + assert (Hq0 : 0 < m / 2 ^ Z.pos p).
      { pose proof (Z.div_pos m (2 ^ Z.pos p) Hm ltac:(lia)). lia. }
      unfold canonical. rewrite Zdigits2_div_pow2 by lia.
      replace (Zdigits2 m - Z.pos p + (e + Z.pos p)) with (Zdigits2 m + e) by lia. lia.
Qed.

Lemma round_nearest_even_bounds (m : Z) (l : location) :
  m <= round_nearest_even m l <= m + 1.
Proof.
  unfold round_nearest_even. destruct l as [|[| |]]; try lia.
  destruct (Z.even m); lia.
Qed.

(** Rounding a number [mx * 2^ex] whose mantissa is long enough gives a
    number of the format: a zero, an infinity, or a canonical finite
    number. *)
Lemma binary_round_aux_valid (sx : bool) (mx ex : Z) (lx : location) :
  0 <= mx ->
  ex <= fexp (Zdigits2 mx + ex) ->
  valid_binary prec emax (binary_round_aux prec emax sx mx ex lx) = true
  /\ binary_round_aux prec emax sx mx ex lx <> S754_nan.
Proof.
  intros Hm He. unfold binary_round_aux.
  pose proof (shr_fexp_canonical mx ex lx Hm He) as [H1 C1].
  destruct (shr_fexp prec emax mx ex lx) as [mrs' e']. cbn [fst snd] in *.
  set (m1 := round_nearest_even (shr_m mrs') (loc_of_shr_record mrs')).
  pose proof (round_nearest_even_bounds (shr_m mrs') (loc_of_shr_record mrs')) as Hb.
  fold m1 in Hb.
  assert (He1 : e' <= fexp (Zdigits2 m1 + e')).
  { unfold canonical in C1. rewrite <- C1 at 1. apply fexp_mono.
    pose proof (Zdigits2_mono (shr_m mrs') m1 ltac:(lia)). lia. }
  pose proof (shr_fexp_canonical m1 e' loc_Exact ltac:(lia) He1) as [H2 C2].
  destruct (shr_fexp prec emax m1 e' loc_Exact) as [mrs'' e'']. cbn [fst snd] in *.
  destruct (shr_m mrs'') as [|m|m]; try lia.
  - split; [reflexivity|discriminate].
  - destruct (e'' <=? emax - prec) eqn:El; [|split; [reflexivity|discriminate]].
    split; [|discriminate].
    cbn [valid_binary]. unfold bounded, canonical_mantissa. rewrite El.
    unfold canonical in C2. simpl Zdigits2 in C2. unfold fexp in C2. rewrite C2.
    now rewrite Z.eqb_refl.
Qed.

(** The quotient computed by [SFdiv_core_binary] is long enough. *)
Lemma SFdiv_core_binary_enough (m1 m2 : positive) (e1 e2 : Z) :
  0 <= fst (fst (SFdiv_core_binary prec emax (Z.pos m1) e1 (Z.pos m2) e2))
  /\ snd (fst (SFdiv_core_binary prec emax (Z.pos m1) e1 (Z.pos m2) e2))
     <= fexp (Zdigits2 (fst (fst (SFdiv_core_binary prec emax (Z.pos m1) e1 (Z.pos m2) e2)))
              + snd (fst (SFdiv_core_binary prec emax (Z.pos m1) e1 (Z.pos m2) e2))).
Proof.
  unfold SFdiv_core_binary. fold fexp.
  set (d1 := Zdigits2 (Z.pos m1)). set (d2 := Zdigits2 (Z.pos m2)).
  set (X := d1 + e1 - (d2 + e2)).
  set (e' := Z.min (fexp X) (e1 - e2)).
  set (s := e1 - e2 - e').
  assert (Hs : 0 <= s) by (unfold s, e'; lia).
  set (m' := match s with Z.pos _ => Z.shiftl (Z.pos m1) s | 0 => Z.pos m1 | Z.neg _ => 0 end).
  assert (Hm' : m' = Z.pos m1 * 2 ^ s).
  { unfold m'. clearbody s. destruct s as [|p|p]; try lia.
    now rewrite Z.shiftl_mul_pow2 by lia. }
  pose proof (Z_div_mod m' (Z.pos m2) ltac:(lia)) as Hdm.
  destruct (Z.div_eucl m' (Z.pos m2)) as [q r]. cbn [fst snd].
  destruct Hdm as [Hq Hr].
  assert (Hq0 : 0 <= q) by nia.
  split; [assumption|].
  transitivity (fexp X); [unfold e'; lia|]. apply fexp_mono.
  (* q has at least d1 + s - d2 digits *)
  pose proof (Zdigits2_bounds (Z.pos m1) ltac:(lia)) as [Hlo1 _]. fold d1 in Hlo1.
  pose proof (Zdigits2_bounds (Z.pos m2) ltac:(lia)) as [_ Hhi2]. fold d2 in Hhi2.
  pose proof (Zdigits2_nonneg q) as Hdq.
  assert (Hqhi : q + 1 <= 2 ^ Zdigits2 q).
  { destruct (Z.eq_dec q 0) as [->|]; [simpl; lia|].
    pose proof (Zdigits2_bounds q ltac:(lia)). lia. }
  assert (Hd1 : 1 <= d1) by (unfold d1; simpl; lia).
  assert (Hd2 : 1 <= d2) by (unfold d2; simpl; lia).
  assert (Hpow : 2 ^ (d1 - 1 + s) < 2 ^ (Zdigits2 q + d2)).
  { rewrite !Z.pow_add_r by lia.
    assert (0 < 2 ^ s) by (apply Z.pow_pos_nonneg; lia).
    assert (0 < 2 ^ d2) by (apply Z.pow_pos_nonneg; lia).
    assert (0 < 2 ^ Zdigits2 q) by (apply Z.pow_pos_nonneg; lia).
    assert (2 ^ (d1 - 1) * 2 ^ s <= m') by nia.
    assert (m' < (q + 1) * Z.pos m2) by nia.
    assert ((q + 1) * Z.pos m2 < 2 ^ Zdigits2 q * 2 ^ d2) by nia.
    lia. }
  apply Z.pow_lt_mono_r_iff in Hpow; unfold X, s in *; lia.
Qed.

End Format.

Lemma SFdiv_valid (prec emax : Z) (x y : spec_float) :
  0 < prec ->
  isfinite x = true ->
  y <> S754_nan ->
  (forall s, y <> S754_zero s) ->
  valid_binary prec emax (SFdiv prec emax x y) = true
  /\ SFdiv prec emax x y <> S754_nan.
Proof.
  intros Hprec Hx Hnan Hzero.
  destruct x as [sx|sx| |sx mx ex]; try discriminate;
    destruct y as [sy|sy| |sy my ey]; try congruence;
    try (now elim (Hzero sy)); try (split; [reflexivity|discriminate]).
  unfold SFdiv.
  pose proof (SFdiv_core_binary_enough prec emax mx my ex ey) as [Hq He].
  destruct (SFdiv_core_binary prec emax (Z.pos mx) ex (Z.pos my) ey) as [[mz ez] lz].
  cbn [fst snd] in *. now apply binary_round_aux_valid.
Qed.

(** *** Order and truncation *)

Section Order.

Variables prec emax : Z.
Hypothesis prec_gt_0 : 0 < prec.
Hypothesis emin_le_0 : SpecFloat.emin prec emax <= 0.

Let emin := SpecFloat.emin prec emax.

(** The value of a zero or finite number in units of [2^emin]: an
    integer for the numbers of the format. *)
Definition scaled_value (x : spec_float) : Z :=
  match x with
  | S754_finite s m e => cond_Zopp s (Z.pos m * 2 ^ (e - emin))
  | _ => 0
  end.

Lemma bounded_canonical (m : positive) (e : Z) :
  bounded prec emax m e = true ->
  emin <= e /\ Z.pos m < 2 ^ prec /\ (e = emin \/ 2 ^ (prec - 1) <= Z.pos m).
Proof.
  unfold bounded, canonical_mantissa. intros H.
  apply andb_prop in H. destruct H as [H _]. apply Z.eqb_eq in H.
  change (Z.pos (digits2_pos m)) with (Zdigits2 (Z.pos m)) in H.
  apply (canonical_iff prec emax) in H. fold emin in H.
  destruct H as (He & Hd & Hc).
  pose proof (Zdigits2_bounds (Z.pos m) ltac:(lia)) as [Hlo Hhi].
  split; [assumption|]. split.
  - apply Zdigits2_le; lia.
  - destruct Hc as [Hc|Hc]; [right; now rewrite <- Hc|left; assumption].
Qed.

Lemma scaled_value_pos (m : positive) (e : Z) :
  emin <= e -> 0 < Z.pos m * 2 ^ (e - emin).
Proof. intros He. pose proof (Z.pow_pos_nonneg 2 (e - emin)). nia. Qed.

Lemma lower_exponent_is_smaller (m1 m2 : positive) (e1 e2 : Z) :
  bounded prec emax m1 e1 = true ->
  bounded prec emax m2 e2 = true ->
  e1 < e2 ->
  Z.pos m1 * 2 ^ (e1 - emin) < Z.pos m2 * 2 ^ (e2 - emin).
Proof.
  intros B1 B2 Hlt.
  apply bounded_canonical in B1, B2.
  destruct B1 as (He1 & Hm1 & _). destruct B2 as (He2 & _ & [E|Hm2]); [lia|].
  assert (H1 : Z.pos m1 * 2 ^ (e1 - emin) < 2 ^ prec * 2 ^ (e1 - emin)).
  { apply Z.mul_lt_mono_pos_r; [apply Z.pow_pos_nonneg; lia|assumption]. }
  assert (H2 : 2 ^ (prec - 1) * 2 ^ (e2 - emin) <= Z.pos m2 * 2 ^ (e2 - emin)).
  { apply Z.mul_le_mono_nonneg_r; [apply Z.pow_nonneg; lia|assumption]. }
  rewrite <- Z.pow_add_r in H1, H2 by lia.
  assert (2 ^ (prec + (e1 - emin)) <= 2 ^ (prec - 1 + (e2 - emin)))
    by (apply Z.pow_le_mono_r; lia).
  lia.
Qed.

Definition zero_or_finite (x : spec_float) : Prop :=
  match x with
  | S754_zero _ => True
  | S754_finite _ m e => bounded prec emax m e = true
  | _ => False
  end.

Lemma SFcompare_scaled_value (x y : spec_float) :
  zero_or_finite x -> zero_or_finite y ->
  SFcompare x y = Some (scaled_value x ?= scaled_value y).
Proof.
  destruct x as [sx|sx| |sx mx ex]; try contradiction;
    destruct y as [sy|sy| |sy my ey]; try contradiction; intros Hx Hy;
    cbn [SFcompare scaled_value zero_or_finite] in *.
  - reflexivity.
  - pose proof (scaled_value_pos my ey ltac:(now apply bounded_canonical in Hy)) as P.
    f_equal. symmetry. destruct sy; cbn [cond_Zopp]; [apply Z.compare_gt_iff|apply Z.compare_lt_iff]; lia.
  - pose proof (scaled_value_pos mx ex ltac:(now apply bounded_canonical in Hx)) as P.
    f_equal. symmetry. destruct sx; cbn [cond_Zopp]; [apply Z.compare_lt_iff|apply Z.compare_gt_iff]; lia.
  - pose proof (scaled_value_pos mx ex ltac:(now apply bounded_canonical in Hx)) as Px.
    pose proof (scaled_value_pos my ey ltac:(now apply bounded_canonical in Hy)) as Py.
    f_equal. symmetry.
    destruct sx, sy; cbn [cond_Zopp].
    + destruct (Z.compare_spec ex ey) as [E|E|E].
      * subst ey. rewrite Pos.compare_cont_spec.
        rewrite Z.compare_opp, <- Zmult_compare_compat_r by (apply Z.lt_gt, Z.pow_pos_nonneg;
          apply bounded_canonical in Hx; lia).
        change (Z.pos my ?= Z.pos mx) with (my ?= mx)%positive.
        rewrite (Pos.compare_antisym mx my).
        now destruct (mx ?= my)%positive.
      * apply Z.compare_gt_iff.
        pose proof (lower_exponent_is_smaller mx my ex ey Hx Hy E). lia.
      * apply Z.compare_lt_iff.
        pose proof (lower_exponent_is_smaller my mx ey ex Hy Hx E). lia.
    + apply Z.compare_lt_iff. lia.
    + apply Z.compare_gt_iff. lia.
    + destruct (Z.compare_spec ex ey) as [E|E|E].
      * subst ey. rewrite Pos.compare_cont_spec.
        rewrite <- Zmult_compare_compat_r by (apply Z.lt_gt, Z.pow_pos_nonneg;
          apply bounded_canonical in Hx; lia).
        change (Z.pos mx ?= Z.pos my) with (mx ?= my)%positive.
        now destruct (mx ?= my)%positive.
      * apply Z.compare_lt_iff.
        pose proof (lower_exponent_is_smaller mx my ex ey Hx Hy E). lia.
      * apply Z.compare_gt_iff.
        pose proof (lower_exponent_is_smaller my mx ey ex Hy Hx E). lia.
Qed.

Lemma SFltb_scaled_value (x y : spec_float) :
  zero_or_finite x -> zero_or_finite y ->
  SFltb x y = (scaled_value x <? scaled_value y).
Proof.
  intros Hx Hy. unfold SFltb, Z.ltb. rewrite (SFcompare_scaled_value x y Hx Hy).
  now destruct (scaled_value x ?= scaled_value y).
Qed.

(** Truncation discards the part of the scaled value below [2^-emin]. *)
Lemma truncate_scaled_value (x : spec_float) :
  zero_or_finite x ->
  truncate x = Some (Z.quot (scaled_value x) (2 ^ (- emin))).
Proof.
  destruct x as [sx|sx| |sx mx ex]; try contradiction; cbn [zero_or_finite]; intros Hx.
  - cbn [truncate scaled_value]. now rewrite Z.quot_0_l by (apply Z.pow_nonzero; lia).
  - apply bounded_canonical in Hx. destruct Hx as (He & _).
    cbn [truncate scaled_value]. f_equal.
    assert (Hp : 0 < 2 ^ (- emin)) by (apply Z.pow_pos_nonneg; lia).
    assert (Hval : (match ex with
                    | Z.neg _ => Z.pos mx / 2 ^ (- ex)
                    | _ => Z.pos mx * 2 ^ ex
                    end)
                   = Z.quot (Z.pos mx * 2 ^ (ex - emin)) (2 ^ (- emin))).
    { destruct ex as [|p|p].
      - rewrite Z.pow_0_r, Z.mul_1_r. change (0 - emin) with (- emin).
        now rewrite Z.quot_mul by lia.
      - replace (Z.pos p - emin) with (Z.pos p + - emin) by lia.
        rewrite Z.pow_add_r, Z.mul_assoc by lia. now rewrite Z.quot_mul by lia.
      - assert (0 <= Z.pos mx * 2 ^ (Z.neg p - emin))
          by (apply Z.mul_nonneg_nonneg; [lia|apply Z.pow_nonneg; lia]).
        rewrite Z.quot_div_nonneg by assumption.
        replace (- emin) with ((Z.neg p - emin) + - Z.neg p) by lia.
        rewrite Z.pow_add_r by lia.
        rewrite (Z.mul_comm (2 ^ (Z.neg p - emin))).
        rewrite Z.div_mul_cancel_r; [reflexivity| |];
          apply Z.pow_nonzero; lia. }
    rewrite Hval. destruct sx; cbn [cond_Zopp]; [|reflexivity].
    now rewrite Z.quot_opp_l by lia.
Qed.

End Order.

(** *** The error of one rounding *)

Section RoundingError.

Variables prec emax : Z.
Hypothesis prec_gt_0 : 0 < prec.

Let emin := SpecFloat.emin prec emax.
Let fexp := SpecFloat.fexp prec emax.

Definition round_core (mx ex : Z) (lx : location) : Z * Z :=
  let '(mrs', e') := shr_fexp prec emax mx ex lx in
  let '(mrs'', e'') :=
    shr_fexp prec emax (round_nearest_even (shr_m mrs') (loc_of_shr_record mrs')) e' loc_Exact in
  (shr_m mrs'', e'').

Lemma binary_round_aux_core (s : bool) (mx ex : Z) (lx : location) :
  binary_round_aux prec emax s mx ex lx
  = match fst (round_core mx ex lx) with
    | 0 => S754_zero s
    | Z.pos m =>
        if snd (round_core mx ex lx) <=? emax - prec
        then S754_finite s m (snd (round_core mx ex lx))
        else S754_infinity s
    | Z.neg _ => S754_nan
    end.
Proof.
  unfold binary_round_aux, round_core.
  destruct (shr_fexp prec emax mx ex lx) as [mrs' e'].
  destruct (shr_fexp prec emax _ e' loc_Exact) as [mrs'' e'']. reflexivity.
Qed.

Lemma shr_fexp_value (m e : Z) (l : location) :
  0 <= m ->
  exists n, 0 <= n
    /\ snd (shr_fexp prec emax m e l) = e + n
    /\ shr_m (fst (shr_fexp prec emax m e l)) = m / 2 ^ n.
Proof.
  intros Hm. unfold shr_fexp, shr.
  destruct (SpecFloat.fexp prec emax (Zdigits2 m + e) - e) as [|p|p]; cbn [fst snd].
  - exists 0. rewrite shr_m_of_loc, Z.div_1_r. lia.
  - exists (Z.pos p).
    rewrite iter_pos_nat, shr_iter_m, shr_m_of_loc, positive_nat_Z
      by (rewrite shr_m_of_loc; assumption).
    lia.
  - exists 0. rewrite shr_m_of_loc, Z.div_1_r. lia.
Qed.

Lemma round_core_error (mx ex : Z) (lx : location) :
  0 <= mx ->
  ex <= fexp (Zdigits2 mx + ex) ->
  0 <= fst (round_core mx ex lx)
  /\ canonical prec emax (fst (round_core mx ex lx)) (snd (round_core mx ex lx))
  /\ ex <= snd (round_core mx ex lx)
  /\ (fst (round_core mx ex lx) - 1) * 2 ^ (snd (round_core mx ex lx) - ex) <= mx
  /\ mx + 1 <= (fst (round_core mx ex lx) + 1) * 2 ^ (snd (round_core mx ex lx) - ex).
Proof.
  intros Hm He. unfold round_core.
  pose proof (shr_fexp_canonical prec emax prec_gt_0 mx ex lx Hm He) as [H1 C1].
  destruct (shr_fexp_value mx ex lx Hm) as (n1 & Hn1 & E1 & V1).
  destruct (shr_fexp prec emax mx ex lx) as [mrs' e']. cbn [fst snd] in *.
  set (m1 := round_nearest_even (shr_m mrs') (loc_of_shr_record mrs')).
  pose proof (round_nearest_even_bounds prec emax (shr_m mrs') (loc_of_shr_record mrs')) as Hb.
  fold m1 in Hb.
  assert (He1 : e' <= fexp (Zdigits2 m1 + e')).
  { unfold canonical in C1. fold fexp in C1. rewrite <- C1 at 1. apply fexp_mono.
    pose proof (Zdigits2_mono (shr_m mrs') m1 ltac:(lia)). lia. }
  pose proof (shr_fexp_canonical prec emax prec_gt_0 m1 e' loc_Exact ltac:(lia) He1) as [H2 C2].
  destruct (shr_fexp_value m1 e' loc_Exact ltac:(lia)) as (n2 & Hn2 & E2 & V2).
  destruct (shr_fexp prec emax m1 e' loc_Exact) as [mrs'' e'']. cbn [fst snd] in *.
  split; [assumption|]. split; [assumption|]. split; [lia|].
  assert (P1 : 0 < 2 ^ n1) by (apply Z.pow_pos_nonneg; lia).
  assert (P2 : 0 < 2 ^ n2) by (apply Z.pow_pos_nonneg; lia).
  replace (e'' - ex) with (n2 + n1) by lia. rewrite Z.pow_add_r by lia.
  pose proof (Z.div_mod mx (2 ^ n1) ltac:(lia)) as D1.
  pose proof (Z.mod_pos_bound mx (2 ^ n1) P1) as B1.
  pose proof (Z.div_mod m1 (2 ^ n2) ltac:(lia)) as D2.
  pose proof (Z.mod_pos_bound m1 (2 ^ n2) P2) as B2.
  rewrite <- V1 in D1. rewrite <- V2 in D2.
  set (a := shr_m mrs') in *. set (b := shr_m mrs'') in *.
  split; nia.
Qed.

End RoundingError.

Section Error.

Variables prec emax : Z.
Hypothesis prec_gt_1 : 1 < prec.
Hypothesis emax_ge_prec : prec <= emax.

Let emin := SpecFloat.emin prec emax.
Let fexp := SpecFloat.fexp prec emax.
Let sv := scaled_value prec emax.

Definition ulp_value (x : spec_float) : Z :=
  match x with
  | S754_finite _ _ e => 2 ^ (e - emin)
  | _ => 1
  end.

Lemma pow2_split (a b : Z) : 0 <= a -> 0 <= b -> 2 ^ (a + b) = 2 ^ a * 2 ^ b.
Proof. intros. apply Z.pow_add_r; assumption. Qed.

Lemma binary_round_aux_error (s : bool) (mx ex : Z) (lx : location) (g : Z) :
  0 <= mx ->
  ex <= fexp (Zdigits2 mx + ex) ->
  g <= ex ->
  g <= emin ->
  let r := binary_round_aux prec emax s mx ex lx in
  (r = S754_infinity s /\ 2 ^ (emax - 1 - g) <= mx * 2 ^ (ex - g))
  \/ (zero_or_finite prec emax r
      /\ sv r = cond_Zopp s (Z.abs (sv r))
      /\ (Z.abs (sv r) - ulp_value r) * 2 ^ (emin - g) <= mx * 2 ^ (ex - g)
      /\ (mx + 1) * 2 ^ (ex - g) <= (Z.abs (sv r) + ulp_value r) * 2 ^ (emin - g)
      /\ (2 ^ (prec - 1) * ulp_value r <= Z.abs (sv r) \/ ulp_value r = 1)).
Proof.
  intros Hm He Hg1 Hg2 r. subst r. rewrite binary_round_aux_core.
  destruct (round_core_error prec emax ltac:(lia) mx ex lx Hm He) as (H0 & C & Hle & Hlo & Hhi).
  set (m2 := fst (round_core prec emax mx ex lx)) in *.
  set (e2 := snd (round_core prec emax mx ex lx)) in *.
  apply canonical_iff in C. fold emin in C. destruct C as (Ce & Cd & Cc).
  assert (Px : 0 < 2 ^ (ex - g)) by (apply Z.pow_pos_nonneg; lia).
  assert (Pe : 0 < 2 ^ (emin - g)) by (apply Z.pow_pos_nonneg; lia).
  assert (P2 : 0 < 2 ^ (e2 - ex)) by (apply Z.pow_pos_nonneg; lia).
  assert (Pu : 0 < 2 ^ (e2 - emin)) by (apply Z.pow_pos_nonneg; lia).
  assert (Epow : 2 ^ (e2 - emin) * 2 ^ (emin - g) = 2 ^ (e2 - ex) * 2 ^ (ex - g)).
  { rewrite <- !pow2_split by lia. f_equal. lia. }
  destruct m2 as [|m|m] eqn:Em; [| |lia].
  - (* the result is a zero *)
    right. cbn [zero_or_finite ulp_value]. unfold sv. cbn [scaled_value Z.abs].
    split; [exact I|]. split; [now destruct s|].
    assert (E2 : e2 = emin) by (destruct Cc as [Cc|Cc]; [simpl in Cc; lia|exact Cc]).
    assert (E0 : 2 ^ (e2 - emin) = 1) by (rewrite E2, Z.sub_diag; reflexivity).
    rewrite E0, Z.mul_1_l in Epow.
    assert (0 <= mx * 2 ^ (ex - g)) by (apply Z.mul_nonneg_nonneg; lia).
    split; [lia|]. split; [rewrite Epow; nia|]. right; reflexivity.
  - destruct (Z.leb_spec e2 (emax - prec)) as [Hfit|Hover].
    + right.
      assert (Hb : bounded prec emax m e2 = true).
      { unfold bounded, canonical_mantissa. apply andb_true_intro. split.
        - apply Z.eqb_eq. change (Z.pos (digits2_pos m)) with (Zdigits2 (Z.pos m)).
          unfold SpecFloat.fexp. fold emin. lia.
        - apply Z.leb_le. exact Hfit. }
      cbn [zero_or_finite ulp_value]. unfold sv. cbn [scaled_value]. fold emin.
      assert (Habs : Z.abs (cond_Zopp s (Z.pos m * 2 ^ (e2 - emin))) = Z.pos m * 2 ^ (e2 - emin)).
      { destruct s; cbn [cond_Zopp]; nia. }
      rewrite Habs.
      split; [exact Hb|]. split; [reflexivity|].
      split; [nia|]. split; [nia|].
      destruct Cc as [Cc|Cc].
      * left. pose proof (Zdigits2_bounds (Z.pos m) ltac:(lia)) as [Hd _].
        rewrite Cc in Hd. nia.
      * right. rewrite Cc, Z.sub_diag. reflexivity.
    + left. split; [reflexivity|].
      assert (Cn : Zdigits2 (Z.pos m) = prec).
      { destruct Cc as [Cc|Cc]; [exact Cc|]. unfold emin, SpecFloat.emin in Cc. lia. }
      pose proof (Zdigits2_bounds (Z.pos m) ltac:(lia)) as [Hd _]. rewrite Cn in Hd.
      assert (H2 : 2 * 2 ^ (prec - 2) = 2 ^ (prec - 1)).
      { rewrite <- Z.pow_succ_r by lia. f_equal. lia. }
      assert (P3 : 0 < 2 ^ (prec - 2)) by (apply Z.pow_pos_nonneg; lia).
      assert (Hm1 : 2 ^ (prec - 2) <= Z.pos m - 1) by lia.
      assert (Hexp : 2 ^ (emax - 1 - g) <= 2 ^ (prec - 2) * 2 ^ (e2 - g)).
      { rewrite <- pow2_split by lia. apply Z.pow_le_mono_r; lia. }
      assert (E3 : 2 ^ (e2 - g) = 2 ^ (e2 - ex) * 2 ^ (ex - g)).
      { rewrite <- pow2_split by lia. f_equal. lia. }
      nia.
Qed.

Lemma SFdiv_core_binary_quotient (m1 m2 : positive) (e1 e2 : Z) :
  snd (fst (SFdiv_core_binary prec emax (Z.pos m1) e1 (Z.pos m2) e2)) <= e1 - e2
  /\ Z.min emin (e1 - e2) <= snd (fst (SFdiv_core_binary prec emax (Z.pos m1) e1 (Z.pos m2) e2))
  /\ fst (fst (SFdiv_core_binary prec emax (Z.pos m1) e1 (Z.pos m2) e2)) * Z.pos m2
     <= Z.pos m1 * 2 ^ (e1 - e2 - snd (fst (SFdiv_core_binary prec emax (Z.pos m1) e1 (Z.pos m2) e2)))
     < (fst (fst (SFdiv_core_binary prec emax (Z.pos m1) e1 (Z.pos m2) e2)) + 1) * Z.pos m2.
Proof.
  unfold SFdiv_core_binary.
  set (X := Zdigits2 (Z.pos m1) + e1 - (Zdigits2 (Z.pos m2) + e2)).
  set (e' := Z.min (SpecFloat.fexp prec emax X) (e1 - e2)).
  set (s := e1 - e2 - e').
  assert (Hs : 0 <= s) by (unfold s, e'; lia).
  set (m' := match s with Z.pos _ => Z.shiftl (Z.pos m1) s | 0 => Z.pos m1 | Z.neg _ => 0 end).
  assert (Hm' : m' = Z.pos m1 * 2 ^ s).
  { unfold m'. clearbody s. destruct s as [|p|p]; try lia.
    now rewrite Z.shiftl_mul_pow2 by lia. }
  pose proof (Z_div_mod m' (Z.pos m2) ltac:(lia)) as Hdm.
  destruct (Z.div_eucl m' (Z.pos m2)) as [q r]. cbn [fst snd].
  destruct Hdm as [Hq Hr]. fold s. rewrite <- Hm'.
  split; [unfold e'; lia|]. split; [|nia].
  unfold e', SpecFloat.fexp. fold emin. lia.
Qed.

Lemma cond_Zopp_mul (s1 s2 : bool) (x y : Z) :
  cond_Zopp s1 x * cond_Zopp s2 y = cond_Zopp (xorb s1 s2) (x * y).
Proof. destruct s1, s2; cbn [cond_Zopp xorb]; lia. Qed.

Lemma abs_cond_Zopp (s : bool) (x : Z) : Z.abs (cond_Zopp s x) = Z.abs x.
Proof. destruct s; cbn [cond_Zopp]; lia. Qed.

(** The product of two numbers of the format, when it is below the
    overflow threshold, is within one unit in the last place of the
    exact product. *)
Lemma SFmul_error (a b : spec_float) :
  zero_or_finite prec emax a ->
  zero_or_finite prec emax b ->
  Z.abs (sv a * sv b) < 2 ^ (emax - 1 - 2 * emin) ->
  zero_or_finite prec emax (SFmul prec emax a b)
  /\ Z.abs (sv (SFmul prec emax a b) * 2 ^ (- emin) - sv a * sv b)
     <= ulp_value (SFmul prec emax a b) * 2 ^ (- emin)
  /\ (2 ^ (prec - 1) * ulp_value (SFmul prec emax a b) <= Z.abs (sv (SFmul prec emax a b))
      \/ ulp_value (SFmul prec emax a b) = 1).
Proof.
  assert (Hemin : emin <= 0) by (unfold emin, SpecFloat.emin; lia).
  assert (PK : 0 < 2 ^ (- emin)) by (apply Z.pow_pos_nonneg; lia).
  destruct a as [sa|sa| |sa ma ea]; try contradiction;
    destruct b as [sb|sb| |sb mb eb]; try contradiction; intros Ha Hb Hsmall;
    try (cbn [SFmul zero_or_finite ulp_value]; unfold sv; cbn [scaled_value];
         split; [exact I|]; split; [|right; reflexivity];
         rewrite ?Z.mul_0_l, ?Z.mul_0_r, Z.sub_diag; cbn [Z.abs]; lia).
  cbn [zero_or_finite] in Ha, Hb.
  pose proof (bounded_canonical prec emax ltac:(lia) ma ea Ha) as (Hea & Hma & Hca).
  pose proof (bounded_canonical prec emax ltac:(lia) mb eb Hb) as (Heb & Hmb & Hcb).
  fold emin in Hea, Heb, Hca, Hcb.
  cbn [SFmul].
  assert (Henough : ea + eb <= fexp (Zdigits2 (Z.pos (ma * mb)) + (ea + eb))).
  { assert (Hnormal : 2 ^ (prec - 1) <= Z.pos (ma * mb) ->
                      ea + eb <= fexp (Zdigits2 (Z.pos (ma * mb)) + (ea + eb))).
    { intros Hn. assert (prec <= Zdigits2 (Z.pos (ma * mb))).
      { destruct (Z_le_gt_dec prec (Zdigits2 (Z.pos (ma * mb)))) as [|Hgt]; [assumption|].
        assert (Zdigits2 (Z.pos (ma * mb)) <= prec - 1) as Hd by lia.
        apply Zdigits2_le in Hd; lia. }
      unfold fexp, SpecFloat.fexp. lia. }
    rewrite Pos2Z.inj_mul in *.
    destruct Hca as [Hca|Hca]; [|apply Hnormal; nia].
    destruct Hcb as [Hcb|Hcb]; [|apply Hnormal; nia].
    unfold fexp, SpecFloat.fexp. fold emin. lia. }
  set (A := Z.pos ma * 2 ^ (ea - emin)). set (B := Z.pos mb * 2 ^ (eb - emin)).
  assert (PA : 0 < 2 ^ (ea - emin)) by (apply Z.pow_pos_nonneg; lia).
  assert (PB : 0 < 2 ^ (eb - emin)) by (apply Z.pow_pos_nonneg; lia).
  assert (Eprod : Z.pos (ma * mb) * 2 ^ (ea + eb - 2 * emin) = A * B).
  { unfold A, B. replace (ea + eb - 2 * emin) with ((ea - emin) + (eb - emin)) by lia.
    rewrite pow2_split, Pos2Z.inj_mul by lia. ring. }
  assert (Esv : sv (S754_finite sa ma ea) * sv (S754_finite sb mb eb)
                = cond_Zopp (xorb sa sb) (A * B)).
  { unfold sv. cbn [scaled_value]. fold emin. apply cond_Zopp_mul. }
  rewrite Esv in *. rewrite abs_cond_Zopp in Hsmall.
  destruct (binary_round_aux_error (xorb sa sb) (Z.pos (ma * mb)) (ea + eb) loc_Exact (2 * emin)
              ltac:(lia) Henough ltac:(lia) ltac:(lia))
    as [[_ Hover]|(Hz & Hsign & Hlo & Hhi & Hn)].
  - rewrite Eprod in Hover. unfold A, B in *. nia.
  - set (D := binary_round_aux prec emax (xorb sa sb) (Z.pos (ma * mb)) (ea + eb) loc_Exact) in *.
    rewrite Z.mul_add_distr_r in Hhi.
    rewrite Eprod in Hlo, Hhi. replace (emin - 2 * emin) with (- emin) in Hlo, Hhi by lia.
    assert (Pprod : 0 < 2 ^ (ea + eb - 2 * emin)) by (apply Z.pow_pos_nonneg; lia).
    split; [exact Hz|]. split; [|exact Hn].
    rewrite Hsign. set (M := Z.abs (sv D)) in *. 
    assert (HM : 0 <= M) by (unfold M; lia).
    clearbody M D A B. clear - Hlo Hhi Pprod HM PK.
    destruct (xorb sa sb); cbn [cond_Zopp]; lia.
Qed.

(** The quotient of two numbers of the format, when it does not
    overflow, is within one unit in the last place of the exact
    quotient. *)
Lemma SFdiv_error (a b : spec_float) :
  zero_or_finite prec emax a ->
  zero_or_finite prec emax b ->
  sv b <> 0 ->
  ((exists s, SFdiv prec emax a b = S754_infinity s)
   /\ 2 ^ (emax - 1 - emin) * Z.abs (sv b) <= Z.abs (sv a) * 2 ^ (- emin))
  \/ (zero_or_finite prec emax (SFdiv prec emax a b)
      /\ Z.abs (sv a * 2 ^ (- emin) - sv (SFdiv prec emax a b) * sv b)
         <= ulp_value (SFdiv prec emax a b) * Z.abs (sv b)
      /\ (2 ^ (prec - 1) * ulp_value (SFdiv prec emax a b)
            <= Z.abs (sv (SFdiv prec emax a b))
          \/ ulp_value (SFdiv prec emax a b) = 1)).
Proof.
  assert (Hemin : emin <= 0) by (unfold emin, SpecFloat.emin; lia).
  assert (PK : 0 < 2 ^ (- emin)) by (apply Z.pow_pos_nonneg; lia).
  destruct a as [sa|sa| |sa ma ea]; try contradiction;
    destruct b as [sb|sb| |sb mb eb]; try contradiction; intros Ha Hb Hnz;
    try (unfold sv in Hnz; cbn [scaled_value] in Hnz; congruence).
  - right. cbn [SFdiv ulp_value zero_or_finite]. unfold sv. cbn [scaled_value].
    split; [exact I|]. split; [lia|right; reflexivity].
  - cbn [zero_or_finite] in Ha, Hb.
    pose proof (bounded_canonical prec emax ltac:(lia) ma ea Ha) as (Hea & _).
    pose proof (bounded_canonical prec emax ltac:(lia) mb eb Hb) as (Heb & _).
    fold emin in Hea, Heb.
    cbn [SFdiv] in *.
    pose proof (SFdiv_core_binary_enough prec emax ma mb ea eb) as [Hq0 Henough].
    pose proof (SFdiv_core_binary_quotient ma mb ea eb) as (Hez & Hez' & Hquo).
    destruct (SFdiv_core_binary prec emax (Z.pos ma) ea (Z.pos mb) eb) as [[q ez] lz].
    cbn [fst snd] in *.
    set (G := ez - (2 * emin - eb)).
    assert (PG : 0 < 2 ^ G) by (apply Z.pow_pos_nonneg; unfold G; lia).
    assert (PB : 0 < 2 ^ (eb - emin)) by (apply Z.pow_pos_nonneg; lia).
    assert (PS : 0 < 2 ^ (ea - eb - ez)) by (apply Z.pow_pos_nonneg; lia).
    assert (EV : Z.pos ma * 2 ^ (ea - emin) * 2 ^ (- emin)
                 = Z.pos ma * 2 ^ (ea - eb - ez) * 2 ^ G).
    { rewrite <- !Z.mul_assoc, <- !pow2_split by (unfold G; lia). do 2 f_equal. unfold G. lia. }
    change (sv (S754_finite sa ma ea)) with (cond_Zopp sa (Z.pos ma * 2 ^ (ea - emin))) in *.
    change (sv (S754_finite sb mb eb)) with (cond_Zopp sb (Z.pos mb * 2 ^ (eb - emin))) in *.
    set (V := Z.pos ma * 2 ^ (ea - emin)) in *.
    set (S := Z.pos mb * 2 ^ (eb - emin)) in *.
    assert (HS : 0 < S) by (unfold S; nia).
    rewrite !abs_cond_Zopp, (Z.abs_eq S) in * by lia.
    assert (HV : 0 <= V) by (unfold V; nia).
    rewrite (Z.abs_eq V) by lia.
    destruct (binary_round_aux_error (xorb sa sb) q ez lz (2 * emin - eb)
                Hq0 Henough ltac:(lia) ltac:(lia))
      as [[Hinf Hover]|(Hz & Hsign & Hlo & Hhi & Hn)].
    { left. split; [now exists (xorb sa sb)|]. fold G in Hover.
      replace (emax - 1 - (2 * emin - eb)) with ((emax - 1 - emin) + (eb - emin)) in Hover by lia.
      rewrite pow2_split in Hover by lia.
      assert (PE : 0 < 2 ^ (emax - 1 - emin)) by (apply Z.pow_pos_nonneg; lia).
      assert (H1 : 2 ^ (emax - 1 - emin) * S <= q * 2 ^ G * Z.pos mb).
      { unfold S. rewrite (Z.mul_comm (Z.pos mb)), Z.mul_assoc.
        apply Z.mul_le_mono_nonneg_r; lia. }
      assert (H2 : q * 2 ^ G * Z.pos mb <= V * 2 ^ (- emin)).
      { rewrite EV. replace (q * 2 ^ G * Z.pos mb) with (q * Z.pos mb * 2 ^ G) by ring.
        apply Z.mul_le_mono_nonneg_r; lia. }
      lia. }
    right.
    set (X := binary_round_aux prec emax (xorb sa sb) q ez lz) in *.
    split; [exact Hz|]. split; [|exact Hn].
    replace (emin - (2 * emin - eb)) with (eb - emin) in Hlo, Hhi by lia.
    fold G in Hlo, Hhi.
    set (M := Z.abs (sv X)) in *. assert (HM : 0 <= M) by (unfold M; lia).
    rewrite Hsign, cond_Zopp_mul.
    replace (xorb (xorb sa sb) sb) with sa by (destruct sa, sb; reflexivity).
    assert (Hlo' : (M - ulp_value X) * S <= V * 2 ^ (- emin)).
    { rewrite EV. unfold S. nia. }
    assert (Hhi' : V * 2 ^ (- emin) <= (M + ulp_value X) * S).
    { rewrite EV. unfold S. nia. }
    destruct sa; cbn [cond_Zopp]; lia.
Qed.

End Error.

(** ** Reading back what was written *)

Lemma memcpy_read (dst src : list Z) (at_ : Z) :
  (Z.to_nat at_ <= length dst)%nat ->
  firstn (length src) (skipn (Z.to_nat at_) (memcpy dst at_ src)) = src.
Proof.
  intros Hle. unfold memcpy.
  rewrite skipn_app.
  rewrite skipn_all2 by (rewrite length_firstn; lia).
  rewrite length_firstn.
  replace (Z.to_nat at_ - Nat.min (Z.to_nat at_) (length dst))%nat with 0%nat by lia.
  simpl. rewrite firstn_app, firstn_all, Nat.sub_diag. simpl. now rewrite app_nil_r.
Qed.

(** A parser over the bytes of a frame, with its cursor at [offset]. *)
Definition reader (f : CanFrame) (offset : Z) : MultiplexParser.t :=
  {| MultiplexParser.data_ := data f;
     MultiplexParser.size_ := size f;
     MultiplexParser.offset_ := offset;
     MultiplexParser.remaining_ := 0;
     MultiplexParser.current_resolution_ := kIgnore;
     MultiplexParser.current_register_ := 0 |}.

Lemma Read_repr_after_Write_repr (repr : list Z) (f : CanFrame) :
  wf_frame f ->
  size f + Z.of_nat (length repr) <= 64 ->
  exists f',
    WriteCanFrame.Write_repr repr f = (Returns tt, f')
    /\ wf_frame f'
    /\ size f' = size f + Z.of_nat (length repr)
    /\ contents f' = contents f ++ repr
    /\ MultiplexParser.Read_repr (Z.of_nat (length repr)) (reader f' (size f))
       = (Returns (le_value repr), reader f' (size f')).
Proof.
  intros Hwf Hroom.
  destruct (Write_repr_append repr f Hwf Hroom) as (f' & E & Hwf' & Hs & Hc).
  exists f'. repeat (split; [assumption|]).
  unfold WriteCanFrame.Write_repr in E.
  destruct (_ >? 64); [discriminate|]. injection E as E. subst f'.
  unfold MultiplexParser.Read_repr, reader. cbn [data size MultiplexParser.offset_
    MultiplexParser.size_ MultiplexParser.data_ MultiplexParser.set_offset] in *.
  rewrite Hs.
  destruct (Z.gtb_spec (size f + Z.of_nat (length repr)) (size f + Z.of_nat (length repr)));
    [lia|].
  rewrite Nat2Z.id, memcpy_read by (destruct Hwf; lia). reflexivity.
Qed.

Lemma static_cast_idem (T : IntType) (z : Z) :
  static_cast T (static_cast T z mod 256 ^ Z.of_nat (Z.to_nat (sizeof T))) = static_cast T z.
Proof.
  replace (256 ^ Z.of_nat (Z.to_nat (sizeof T))) with (2 ^ (8 * sizeof T))
    by (destruct T; reflexivity).
  rewrite static_cast_mod. unfold static_cast.
  rewrite Zplus_mod_idemp_l. reflexivity.
Qed.

(** An integer written by [Write<T>] is the integer [Read<T>] returns. *)
Lemma Read_after_Write (T : IntType) (v : Z) (f : CanFrame) :
  wf_frame f ->
  size f + sizeof T <= 64 ->
  exists f',
    WriteCanFrame.Write T v f = (Returns tt, f')
    /\ wf_frame f'
    /\ contents f' = contents f ++ le_bytes (Z.to_nat (sizeof T)) (static_cast T v)
    /\ MultiplexParser.Read T (reader f' (size f))
       = (Returns (static_cast T v), reader f' (size f')).
Proof.
  intros Hwf Hroom. unfold WriteCanFrame.Write, MultiplexParser.Read, bind, ret.
  set (repr := le_bytes (Z.to_nat (sizeof T)) (static_cast T v)).
  assert (Hlen : Z.of_nat (length repr) = sizeof T)
    by (unfold repr; rewrite le_bytes_length; destruct T; reflexivity).
  destruct (Read_repr_after_Write_repr repr f Hwf ltac:(lia))
    as (f' & E & Hwf' & Hs & Hc & Hr).
  exists f'. repeat (split; [assumption|]).
  rewrite Hlen in Hr. rewrite Hr. unfold repr.
  now rewrite le_value_le_bytes, static_cast_idem.
Qed.

(** ** The quantizer *)

Definition resolution_of (T : IntType) : Resolution :=
  match T with int8_t => kInt8 | int16_t => kInt16 | int32_t => kInt32 end.

(** The scale [WriteMapped] and [ReadMapped] use at an integer resolution. *)
Definition scale_for (T : IntType) (int8_scale int16_scale int32_scale : spec_float)
  : spec_float :=
  match T with int8_t => int8_scale | int16_t => int16_scale | int32_t => int32_scale end.

Lemma WriteMapped_integer (T : IntType) (value s8 s16 s32 : spec_float) (f : CanFrame) :
  WriteCanFrame.WriteMapped value s8 s16 s32 (resolution_of T) f
  = match Saturate T value (scale_for T s8 s16 s32) with
    | Returns v => WriteCanFrame.Write T v f
    | Throws e => (Throws e, f)
    | Aborts => (Aborts, f)
    | Undefined => (Undefined, f)
    end.
Proof.
  destruct T; cbn [resolution_of scale_for WriteCanFrame.WriteMapped];
    unfold bind, WriteCanFrame.computed;
    match goal with |- context [Saturate ?T ?v ?s] => destruct (Saturate T v s) end;
    reflexivity.
Qed.

Lemma ReadMapped_integer (T : IntType) (s8 s16 s32 : spec_float) (p : MultiplexParser.t) :
  MultiplexParser.ReadMapped (resolution_of T) s8 s16 s32 p
  = match MultiplexParser.Read T p with
    | (Returns v, p') =>
        (Returns (double_mul (MultiplexParser.Nanify T v) (scale_for T s8 s16 s32)), p')
    | (Throws e, p') => (Throws e, p')
    | (Aborts, p') => (Aborts, p')
    | (Undefined, p') => (Undefined, p')
    end.
Proof.
  destruct T; cbn [resolution_of scale_for MultiplexParser.ReadMapped];
    unfold bind at 1;
    match goal with |- context [MultiplexParser.Read ?T ?p] =>
      destruct (MultiplexParser.Read T p) as [[v|e| |] p'] end;
    reflexivity.
Qed.

(** C2. At every integer resolution and whatever the scales, a value that
    is not finite (NaN or an infinity of either sign) is quantized to the
    minimum of the integer type, and that minimum is read back as NaN:
    by [Saturate] and [Nanify], and through the bytes of a frame by
    [WriteMapped] and [ReadMapped]. *)
Theorem non_finite_is_the_minimum_and_reads_as_NaN
    (T : IntType) (value s8 s16 s32 r8 r16 r32 : spec_float) (f : CanFrame) :
  isfinite value = false ->
  wf_frame f ->
  size f + sizeof T <= 64 ->
  Saturate T value (scale_for T s8 s16 s32) = Returns (numeric_limits_min T)
  /\ double_mul (MultiplexParser.Nanify T (numeric_limits_min T)) (scale_for T r8 r16 r32)
     = S754_nan
  /\ exists f',
       WriteCanFrame.WriteMapped value s8 s16 s32 (resolution_of T) f = (Returns tt, f')
       /\ contents f'
          = contents f ++ le_bytes (Z.to_nat (sizeof T)) (numeric_limits_min T)
       /\ MultiplexParser.ReadMapped (resolution_of T) r8 r16 r32 (reader f' (size f))
          = (Returns S754_nan, reader f' (size f')).
Proof.
  intros Hnf Hwf Hroom.
  assert (Hsat : forall s, Saturate T value s = Returns (numeric_limits_min T)).
  { intros s. unfold Saturate. now rewrite Hnf. }
  assert (Hnan : forall s,
             double_mul (MultiplexParser.Nanify T (numeric_limits_min T)) s = S754_nan).
  { intros s. unfold MultiplexParser.Nanify. rewrite Z.eqb_refl. reflexivity. }
  split; [apply Hsat|]. split; [apply Hnan|].
  destruct (Read_after_Write T (numeric_limits_min T) f Hwf Hroom)
    as (f' & E & _ & Hc & Hr).
  assert (Hmin : static_cast T (numeric_limits_min T) = numeric_limits_min T)
    by (apply static_cast_small; unfold numeric_limits_min; destruct T; simpl; lia).
  rewrite Hmin in Hc, Hr.
  exists f'. rewrite WriteMapped_integer, Hsat, ReadMapped_integer, Hr, Hnan.
  repeat split; assumption.
Qed.

Lemma non_finite_is_the_minimum_and_reads_as_NaN_witness :
  Saturate int16_t (S754_infinity false) (literal 1 10000) = Returns (-32768).
Proof.
  apply (non_finite_is_the_minimum_and_reads_as_NaN int16_t (S754_infinity false)
           (literal 1 100) (literal 1 10000) (literal 1 100000)
           (literal 1 100) (literal 1 10000) (literal 1 100000) empty_frame).
  - reflexivity.
  - split; simpl; [reflexivity|lia].
  - simpl; lia.
Defined.

(** *** Saturation *)

(** The value of a [double] in units of [2^-1074]. *)
Definition double_value (x : spec_float) : Z := scaled_value prec64 emax64 x.

(** One, in the same units. *)
Definition double_unit : Z := 2 ^ 1074.

Definition finite_double (x : spec_float) : Prop := zero_or_finite prec64 emax64 x.

Lemma double_div_finite (x y : spec_float) :
  isfinite x = true ->
  y <> S754_nan ->
  (forall s, y <> S754_zero s) ->
  (exists s, double_div x y = S754_infinity s) \/ finite_double (double_div x y).
Proof.
  intros Hx Hn Hz.
  destruct (SFdiv_valid prec64 emax64 x y ltac:(reflexivity) Hx Hn Hz) as [Hv Hnn].
  unfold double_div, finite_double. destruct (SFdiv prec64 emax64 x y) as [s|s| |s m e].
  - right. exact I.
  - left. now exists s.
  - congruence.
  - right. exact Hv.
Qed.

Lemma double_of_max (T : IntType) :
  finite_double (double_of_int (numeric_limits_max T))
  /\ finite_double (SFopp (double_of_int (numeric_limits_max T)))
  /\ double_value (double_of_int (numeric_limits_max T)) = numeric_limits_max T * double_unit
  /\ double_value (SFopp (double_of_int (numeric_limits_max T)))
     = - numeric_limits_max T * double_unit
  /\ (forall s, SFltb (S754_infinity s) (SFopp (double_of_int (numeric_limits_max T))) = s)
  /\ (forall s, SFltb (double_of_int (numeric_limits_max T)) (S754_infinity s) = negb s).
Proof.
  destruct T; vm_compute; repeat split; try reflexivity; intros []; reflexivity.
Qed.

(** The three ways out of [Saturate] for a finite value and a scale that
    is a number other than zero. *)
Lemma Saturate_cases (T : IntType) (value scale : spec_float) :
  isfinite value = true ->
  scale <> S754_nan ->
  (forall s, scale <> S754_zero s) ->
  let max := numeric_limits_max T in
  let scaled := double_div value scale in
  (SFltb scaled (SFopp (double_of_int max)) = true
   /\ SFltb (double_of_int max) scaled = false
   /\ Saturate T value scale = Returns (- max))
  \/ (SFltb scaled (SFopp (double_of_int max)) = false
      /\ SFltb (double_of_int max) scaled = true
      /\ Saturate T value scale = Returns max)
  \/ (SFltb scaled (SFopp (double_of_int max)) = false
      /\ SFltb (double_of_int max) scaled = false
      /\ finite_double scaled
      /\ - max * double_unit <= double_value scaled <= max * double_unit
      /\ truncate scaled = Some (Z.quot (double_value scaled) double_unit)
      /\ Saturate T value scale = Returns (Z.quot (double_value scaled) double_unit)).
Proof.
  intros Hfin Hn Hz max scaled.
  pose proof (double_of_max T) as (Fc & Fo & Vc & Vo & Io & Ic). fold max in Fc, Fo, Vc, Vo, Io, Ic.
  unfold Saturate. rewrite Hfin. cbn [negb]. fold max. fold scaled.
  destruct (double_div_finite value scale Hfin Hn Hz) as [[s Hinf]|Hf].
  - fold scaled in Hinf. rewrite Hinf, Io, Ic. destruct s; cbn [negb].
    + left. repeat split; reflexivity.
    + right. left. repeat split; reflexivity.
  - fold scaled in Hf.
    rewrite (SFltb_scaled_value prec64 emax64 ltac:(reflexivity) scaled _ Hf Fo).
    rewrite (SFltb_scaled_value prec64 emax64 ltac:(reflexivity) _ scaled Fc Hf).
    fold (double_value scaled). fold (double_value (SFopp (double_of_int max))).
    fold (double_value (double_of_int max)). rewrite Vc, Vo.
    assert (Hunit : 0 < double_unit) by reflexivity.
    assert (Hmax : 0 < max) by (subst max; destruct T; reflexivity).
    destruct (Z.ltb_spec (double_value scaled) (- max * double_unit)) as [Hlo|Hlo].
    { left. split; [reflexivity|]. split; [|reflexivity].
      apply Z.ltb_ge. nia. }
    destruct (Z.ltb_spec (max * double_unit) (double_value scaled)) as [Hhi|Hhi].
    { right. left. repeat split; reflexivity. }
    right. right.
    pose proof (truncate_scaled_value prec64 emax64 ltac:(reflexivity) ltac:(vm_compute; discriminate)
                  scaled Hf) as Ht.
    change (2 ^ (- emin prec64 emax64)) with double_unit in Ht.
    fold (double_value scaled) in Ht.
    assert (Hq : - max <= Z.quot (double_value scaled) double_unit <= max).
    { split.
      - transitivity (Z.quot (- max * double_unit) double_unit);
          [rewrite Z.quot_mul; lia|apply Z.quot_le_mono; lia].
      - transitivity (Z.quot (max * double_unit) double_unit);
          [apply Z.quot_le_mono; lia|rewrite Z.quot_mul; lia]. }
    repeat (split; [first [reflexivity|assumption|lia]|]).
    unfold int_of_double. rewrite Ht.
    destruct (Z.leb_spec (numeric_limits_min T) (Z.quot (double_value scaled) double_unit));
      [|unfold numeric_limits_min in *; subst max; lia].
    destruct (Z.leb_spec (Z.quot (double_value scaled) double_unit) (numeric_limits_max T));
      [reflexivity|subst max; lia].
Qed.

(** C3 (amended). For every finite value and every scale that is a number
    other than zero, [Saturate] returns an integer within [-max, max],
    never the minimum of the type; a quotient [value / scale] above [max]
    or below [-max] gives [max] or [-max], which are also what a quotient
    of exactly [max] or [-max] gives; and these are the bytes
    [WriteMapped] appends. *)
Theorem Saturate_clamps_finite_values
    (T : IntType) (value s8 s16 s32 : spec_float) (f : CanFrame) :
  let scale := scale_for T s8 s16 s32 in
  let max := numeric_limits_max T in
  let scaled := double_div value scale in
  isfinite value = true ->
  scale <> S754_nan ->
  (forall s, scale <> S754_zero s) ->
  wf_frame f ->
  size f + sizeof T <= 64 ->
  exists q,
    Saturate T value scale = Returns q
    /\ - max <= q <= max
    /\ q <> numeric_limits_min T
    /\ (SFltb (double_of_int max) scaled = true -> q = max)
    /\ (SFltb scaled (SFopp (double_of_int max)) = true -> q = - max)
    /\ (scaled = double_of_int max -> q = max)
    /\ (scaled = SFopp (double_of_int max) -> q = - max)
    /\ exists f',
         WriteCanFrame.WriteMapped value s8 s16 s32 (resolution_of T) f = (Returns tt, f')
         /\ contents f' = contents f ++ le_bytes (Z.to_nat (sizeof T)) q.
Proof.
  intros scale max scaled Hfin Hn Hz Hwf Hroom.
  pose proof (double_of_max T) as (Fc & Fo & Vc & Vo & _). fold max in Fc, Fo, Vc, Vo.
  assert (Hmax : 0 < max) by (subst max; destruct T; reflexivity).
  assert (Hunit : 0 < double_unit) by reflexivity.
  assert (Hself : SFltb (double_of_int max) (double_of_int max) = false).
  { rewrite (SFltb_scaled_value prec64 emax64 ltac:(reflexivity) _ _ Fc Fc). apply Z.ltb_irrefl. }
  assert (Hselfo : SFltb (SFopp (double_of_int max)) (SFopp (double_of_int max)) = false).
  { rewrite (SFltb_scaled_value prec64 emax64 ltac:(reflexivity) _ _ Fo Fo). apply Z.ltb_irrefl. }
  assert (Hco : SFltb (double_of_int max) (SFopp (double_of_int max)) = false).
  { rewrite (SFltb_scaled_value prec64 emax64 ltac:(reflexivity) _ _ Fc Fo).
    fold (double_value (double_of_int max)). fold (double_value (SFopp (double_of_int max))).
    rewrite Vc, Vo. apply Z.ltb_ge. nia. }
  assert (Hoc : SFltb (SFopp (double_of_int max)) (double_of_int max) = true).
  { rewrite (SFltb_scaled_value prec64 emax64 ltac:(reflexivity) _ _ Fo Fc).
    fold (double_value (double_of_int max)). fold (double_value (SFopp (double_of_int max))).
    rewrite Vc, Vo. apply Z.ltb_lt. nia. }
  assert (Hwrite : forall q, Saturate T value scale = Returns q ->
            - max <= q <= max ->
            exists f',
              WriteCanFrame.WriteMapped value s8 s16 s32 (resolution_of T) f = (Returns tt, f')
              /\ contents f' = contents f ++ le_bytes (Z.to_nat (sizeof T)) q).
  { intros q Hq Hr. rewrite WriteMapped_integer. fold scale. rewrite Hq.
    destruct (Read_after_Write T q f Hwf Hroom) as (f' & E & _ & Hc & _).
    rewrite static_cast_small in Hc by (unfold numeric_limits_min; fold max; lia).
    exists f'. now split. }
  destruct (Saturate_cases T value scale Hfin Hn Hz)
    as [(Hlo & Hhi & E)|[(Hlo & Hhi & E)|(Hlo & Hhi & _ & Hr & _ & E)]];
    fold max in Hlo, Hhi, E; fold scaled in Hlo, Hhi, E.
  - exists (- max). split; [exact E|]. split; [lia|].
    split; [unfold numeric_limits_min; fold max; lia|].
    split; [congruence|]. split; [reflexivity|].
    split; [intros Heq; rewrite Heq in Hlo; congruence|].
    split; [reflexivity|]. apply Hwrite; [exact E|lia].
  - exists max. split; [exact E|]. split; [lia|].
    split; [unfold numeric_limits_min; fold max; lia|].
    split; [reflexivity|]. split; [congruence|]. split; [reflexivity|].
    split; [intros Heq; rewrite Heq in Hhi; congruence|].
    apply Hwrite; [exact E|lia].
  - fold max in Hr. fold scaled in Hr.
    assert (Hq : - max <= Z.quot (double_value scaled) double_unit <= max).
    { split.
      - transitivity (Z.quot (- max * double_unit) double_unit);
          [rewrite Z.quot_mul; lia|apply Z.quot_le_mono; lia].
      - transitivity (Z.quot (max * double_unit) double_unit);
          [apply Z.quot_le_mono; lia|rewrite Z.quot_mul; lia]. }
    exists (Z.quot (double_value scaled) double_unit).
    split; [exact E|]. split; [exact Hq|].
    split; [unfold numeric_limits_min; fold max; lia|].
    split; [congruence|]. split; [congruence|].
    split; [intros Heq; rewrite Heq, Vc; apply Z.quot_mul; lia|].
    split; [intros Heq; rewrite Heq, Vo; apply Z.quot_mul; lia|].
    apply Hwrite; [exact E|exact Hq].
Qed.

Lemma Saturate_clamps_finite_values_witness :
  exists q,
    Saturate int16_t (double_of_int 4) (literal 1 10000) = Returns q
    /\ - 32767 <= q <= 32767.
Proof.
  destruct (Saturate_clamps_finite_values int16_t (double_of_int 4)
              (literal 1 100) (literal 1 10000) (literal 1 100000) empty_frame)
    as (q & E & Hq & _).
  - reflexivity.
  - vm_compute; discriminate.
  - intros s; vm_compute; discriminate.
  - split; simpl; [reflexivity|lia].
  - simpl; lia.
  - exists q. split; [exact E|exact Hq].
Defined.

(** The claim as stated fails: at the int16 position scale a value far
    above the range is encoded as 32767, but the product 32767 * 0.0001,
    and the literal 3.2767, are encoded as 32766, because their quotient
    by the scale is the double just below 32767; and a zero value with a
    zero scale has the quotient NaN, whose conversion to an integer is
    undefined. *)
Lemma Saturate_of_max_times_scale_is_below_max :
  Saturate int16_t (double_of_int 4) (literal 1 10000) = Returns 32767
  /\ Saturate int16_t (double_mul (double_of_int 32767) (literal 1 10000)) (literal 1 10000)
     = Returns 32766
  /\ Saturate int16_t (literal 32767 10000) (literal 1 10000) = Returns 32766
  /\ isfinite (double_mul (double_of_int 32767) (literal 1 10000)) = true
  /\ Saturate int32_t (S754_zero false) (S754_zero false) = Undefined.
Proof. vm_compute. repeat split; reflexivity. Qed.

(** ** Conversions between [float] and [double] *)

Lemma iter_xO_value (m k : positive) :
  Z.pos (Pos.iter xO m k) = Z.pos m * 2 ^ Z.pos k.
Proof.
  induction k as [|k IH] using Pos.peano_ind.
  - cbn [Pos.iter]. rewrite Pos2Z.inj_xO. lia.
  - rewrite Pos.iter_succ, Pos2Z.inj_xO, IH, Pos2Z.inj_succ, Z.pow_succ_r by lia. lia.
Qed.

Lemma iter_xO_digits (m k : positive) :
  Zdigits2 (Z.pos (Pos.iter xO m k)) = Zdigits2 (Z.pos m) + Z.pos k.
Proof.
  pose proof (Zdigits2_bounds (Z.pos m) ltac:(lia)) as [Hlo Hhi].
  assert (1 <= Zdigits2 (Z.pos m)) by (simpl; lia).
  assert (0 < 2 ^ Z.pos k) by (apply Z.pow_pos_nonneg; lia).
  apply Zdigits2_unique; [|lia]. rewrite iter_xO_value.
  replace (Zdigits2 (Z.pos m) + Z.pos k - 1) with (Zdigits2 (Z.pos m) - 1 + Z.pos k) by lia.
  rewrite !Z.pow_add_r by lia. nia.
Qed.

(** Shifting out the zeros that were shifted in is exact. *)
Lemma shr_iter_xO (m k : positive) :
  iter_pos shr_1 k {| shr_m := Z.pos (Pos.iter xO m k); shr_r := false; shr_s := false |}
  = {| shr_m := Z.pos m; shr_r := false; shr_s := false |}.
Proof.
  rewrite iter_pos_nat.
  induction k as [|k IH] using Pos.peano_ind; [reflexivity|].
  rewrite Pos2Nat.inj_succ, Nat.iter_succ_r, Pos.iter_succ. exact IH.
Qed.

Section Rounding.

Variables prec emax : Z.
Hypothesis prec_gt_0 : 0 < prec.

Lemma shl_align_cases (mx : positive) (ex ex' : Z) :
  shl_align mx ex ex'
  = if ex' <? ex then (Pos.iter xO mx (Z.to_pos (ex - ex')), ex') else (mx, ex).
Proof.
  unfold shl_align. destruct (Z.ltb_spec ex' ex) as [Hlt|Hge].
  - destruct (ex' - ex) as [|p|p] eqn:E; try lia.
    replace (ex - ex') with (Z.pos p) by lia. reflexivity.
  - destruct (ex' - ex) as [|p|p] eqn:E; try lia; reflexivity.
Qed.

(** Rounding a number of the format leaves it as it is. *)
Lemma binary_round_aux_canonical (s : bool) (m : positive) (e : Z) :
  bounded prec emax m e = true ->
  binary_round_aux prec emax s (Z.pos m) e loc_Exact = S754_finite s m e.
Proof.
  intros Hb. pose proof Hb as Hb'. unfold bounded in Hb'.
  apply andb_prop in Hb'. destruct Hb' as [Hc He].
  unfold canonical_mantissa in Hc. apply Z.eqb_eq in Hc.
  unfold binary_round_aux, shr_fexp. cbn [Zdigits2]. rewrite Hc, Z.sub_diag.
  cbn [shr shr_record_of_loc shr_m loc_of_shr_record round_nearest_even Zdigits2].
  rewrite Hc, Z.sub_diag. cbn [shr shr_record_of_loc shr_m]. now rewrite He.
Qed.

(** [binary_round] always gives a number of the format. *)
Lemma binary_round_valid (s : bool) (m : positive) (e : Z) :
  valid_binary prec emax (binary_round prec emax s m e) = true.
Proof.
  unfold binary_round. rewrite shl_align_cases.
  destruct (Z.ltb_spec (fexp prec emax (Z.pos (digits2_pos m) + e)) e) as [Hlt|Hge].
  - apply binary_round_aux_valid; [assumption|lia|].
    rewrite iter_xO_digits. cbn [Zdigits2].
    rewrite Z2Pos.id by lia.
    replace (Z.pos (digits2_pos m) + (e - fexp prec emax (Z.pos (digits2_pos m) + e))
             + fexp prec emax (Z.pos (digits2_pos m) + e))
      with (Z.pos (digits2_pos m) + e) by lia.
    lia.
  - apply binary_round_aux_valid; [assumption|lia|]. cbn [Zdigits2]. lia.
Qed.

(** A mantissa of the format that was shifted left by [k] bits rounds back
    to the number it came from. *)
Lemma binary_round_shifted (s : bool) (m k : positive) (e : Z) :
  bounded prec emax m e = true ->
  binary_round prec emax s (Pos.iter xO m k) (e - Z.pos k) = S754_finite s m e.
Proof.
  intros Hb. pose proof Hb as Hb'. unfold bounded in Hb'.
  apply andb_prop in Hb'. destruct Hb' as [Hc He].
  unfold canonical_mantissa in Hc. apply Z.eqb_eq in Hc.
  assert (Hd : Z.pos (digits2_pos (Pos.iter xO m k)) = Z.pos (digits2_pos m) + Z.pos k)
    by (apply (iter_xO_digits m k)).
  unfold binary_round. rewrite shl_align_cases, Hd.
  replace (Z.pos (digits2_pos m) + Z.pos k + (e - Z.pos k))
    with (Z.pos (digits2_pos m) + e) by lia.
  rewrite Hc.
  destruct (Z.ltb_spec e (e - Z.pos k)) as [|_]; [lia|].
  unfold binary_round_aux, shr_fexp. cbn [Zdigits2]. rewrite Hd.
  replace (Z.pos (digits2_pos m) + Z.pos k + (e - Z.pos k))
    with (Z.pos (digits2_pos m) + e) by lia.
  rewrite Hc. replace (e - (e - Z.pos k)) with (Z.pos k) by lia.
  cbn [shr shr_record_of_loc]. rewrite shr_iter_xO.
  cbn [shr_m loc_of_shr_record round_nearest_even Zdigits2].
  replace (e - Z.pos k + Z.pos k) with e by lia.
  rewrite Hc, Z.sub_diag. cbn [shr shr_record_of_loc shr_m]. now rewrite He.
Qed.

End Rounding.

Lemma bounded_float (m : positive) (e : Z) :
  bounded prec32 emax32 m e = true ->
  -149 <= e <= 104
  /\ 1 <= Z.pos (digits2_pos m) <= 24
  /\ Z.pos m < 2 ^ 24
  /\ (e = -149 \/ 2 ^ 23 <= Z.pos m).
Proof.
  intros Hb. pose proof (bounded_canonical prec32 emax32 ltac:(reflexivity) m e Hb)
    as (He & Hm & Hc).
  unfold bounded in Hb. apply andb_prop in Hb. destruct Hb as [_ Hle].
  apply Z.leb_le in Hle.
  change (emin prec32 emax32) with (-149) in *. change (emax32 - prec32) with 104 in Hle.
  change prec32 with 24 in *. change (24 - 1) with 23 in Hc.
  repeat split; try lia; try assumption.
  apply (Zdigits2_le (Z.pos m) 24); lia.
Qed.

(** A [float] widened to [double]: the same number, with its mantissa
    extended to 53 bits. *)
Lemma double_of_float_finite (s : bool) (m : positive) (e : Z) :
  bounded prec32 emax32 m e = true ->
  let k := Z.to_pos (53 - Z.pos (digits2_pos m)) in
  double_of_float (S754_finite s m e) = S754_finite s (Pos.iter xO m k) (e - Z.pos k).
Proof.
  intros Hb k. destruct (bounded_float m e Hb) as (He & Hd & _).
  assert (Hk : Z.pos k = 53 - Z.pos (digits2_pos m)) by (unfold k; rewrite Z2Pos.id; lia).
  assert (Hf : fexp prec64 emax64 (Z.pos (digits2_pos m) + e) = e - Z.pos k).
  { unfold fexp, emin, prec64, emax64. lia. }
  cbn [double_of_float]. unfold binary_round. rewrite shl_align_cases, Hf.
  destruct (Z.ltb_spec (e - Z.pos k) e) as [_|]; [|lia].
  replace (e - (e - Z.pos k)) with (Z.pos k) by lia. rewrite Pos2Z.id.
  apply binary_round_aux_canonical.
  unfold bounded, canonical_mantissa.
  change (Z.pos (digits2_pos (Pos.iter xO m k))) with (Zdigits2 (Z.pos (Pos.iter xO m k))).
  rewrite iter_xO_digits. cbn [Zdigits2].
  replace (Z.pos (digits2_pos m) + Z.pos k + (e - Z.pos k))
    with (Z.pos (digits2_pos m) + e) by lia.
  rewrite Hf, Z.eqb_refl. cbn [andb]. apply Z.leb_le.
  unfold prec64, emax64. lia.
Qed.

(** Narrowing what was widened gives the [float] back. *)
Lemma float_of_double_of_float (x : spec_float) :
  is_float x -> float_of_double (double_of_float x) = x.
Proof.
  destruct x as [s|s| |s m e]; try reflexivity. intros Hb.
  unfold is_float in Hb. cbn [valid_binary] in Hb.
  rewrite (double_of_float_finite s m e Hb). cbn [float_of_double].
  apply binary_round_shifted. assumption.
Qed.

(** Narrowing always gives a [float]. *)
Lemma float_of_double_is_float (x : spec_float) : is_float (float_of_double x).
Proof.
  destruct x as [s|s| |s m e]; try reflexivity.
  apply binary_round_valid. reflexivity.
Qed.

(** *** The bits of a [float] *)

Lemma bits_of_float_range (x : spec_float) :
  is_float x -> 0 <= bits_of_float x < 2 ^ 32.
Proof.
  destruct x as [s|s| |s m e];
    [destruct s; intros _; vm_compute; split; congruence
    |destruct s; intros _; vm_compute; split; congruence
    |intros _; vm_compute; split; congruence
    |].
  unfold is_float. cbn [valid_binary]. intros Hb.
  destruct (bounded_float m e Hb) as (He & _ & Hm & Hc).
  cbn [bits_of_float].
  change (2 ^ 31) with 2147483648. change (2 ^ 23) with 8388608 in *.
  change (2 ^ 24) with 16777216 in *. change (2 ^ 32) with 4294967296.
  destruct (Z.ltb_spec (Z.pos m) 8388608); destruct s; lia.
Qed.

Lemma float_of_bits_of_float (x : spec_float) :
  is_float x -> float_of_bits (bits_of_float x) = x.
Proof.
  destruct x as [s|s| |s m e];
    [destruct s; intros _; reflexivity
    |destruct s; intros _; reflexivity
    |intros _; reflexivity
    |].
  unfold is_float. cbn [valid_binary]. intros Hb.
  destruct (bounded_float m e Hb) as (He & _ & Hm & Hc).
  cbn [bits_of_float]. unfold float_of_bits.
  change (2 ^ 31) with 2147483648. change (2 ^ 23) with 8388608 in *.
  change (2 ^ 24) with 16777216 in *.
  set (sign := if s then 2147483648 else 0).
  assert (Hsign : sign = 2147483648 * (if s then 1 else 0)) by (unfold sign; destruct s; lia).
  assert (Hbit : forall r, 0 <= r < 2147483648 -> Z.testbit (sign + r) 31 = s).
  { intros r Hr. rewrite Z.testbit_odd, Z.shiftr_div_pow2 by lia.
    change (2 ^ 31) with 2147483648.
    replace ((sign + r) / 2147483648) with (if s then 1 else 0); [now destruct s|].
    apply (Z.div_unique _ _ _ r); [lia|]. rewrite Hsign. lia. }
  destruct (Z.ltb_spec (Z.pos m) 8388608) as [Hsub|Hnorm].
  - assert (e = -149) by lia. subst e.
    rewrite Hbit by lia.
    replace ((sign + Z.pos m) / 8388608) with (256 * (if s then 1 else 0))
      by (apply (Z.div_unique _ _ _ (Z.pos m)); [lia|rewrite Hsign; lia]).
    replace ((256 * (if s then 1 else 0)) mod 256) with 0
      by (apply (Z.mod_unique _ _ (if s then 1 else 0)); [lia|destruct s; lia]).
    cbn [Z.eqb].
    replace ((sign + Z.pos m) mod 8388608) with (Z.pos m)
      by (apply (Z.mod_unique _ _ (256 * (if s then 1 else 0))); [lia|rewrite Hsign; lia]).
    reflexivity.
  - rewrite Hbit by lia.
    replace ((sign + ((e + 150) * 8388608 + (Z.pos m - 8388608))) / 8388608)
      with (256 * (if s then 1 else 0) + (e + 150))
      by (apply (Z.div_unique _ _ _ (Z.pos m - 8388608)); [lia|rewrite Hsign; lia]).
    replace ((256 * (if s then 1 else 0) + (e + 150)) mod 256) with (e + 150)
      by (apply (Z.mod_unique _ _ (if s then 1 else 0)); [lia|destruct s; lia]).
    destruct (Z.eqb_spec (e + 150) 0); [lia|].
    destruct (Z.eqb_spec (e + 150) 255); [lia|].
    replace ((sign + ((e + 150) * 8388608 + (Z.pos m - 8388608))) mod 8388608)
      with (Z.pos m - 8388608)
      by (apply (Z.mod_unique _ _ (256 * (if s then 1 else 0) + (e + 150)));
          [lia|rewrite Hsign; lia]).
    replace (Z.pos m - 8388608 + 8388608) with (Z.pos m) by lia.
    f_equal. lia.
Qed.

(** ** The error of a round trip at an integer resolution *)

Definition double_ulp (x : spec_float) : Z := ulp_value prec64 emax64 x.

Lemma is_double_finite (x : spec_float) :
  is_double x -> isfinite x = true -> finite_double x.
Proof. destruct x; try discriminate; intros H _; [exact I|exact H]. Qed.

Lemma is_double_nonzero (x : spec_float) :
  is_double x -> double_value x <> 0 -> finite_double x.
Proof. destruct x; intros H Hv; try (now elim Hv); exact H. Qed.

(** An integer below [2^53] is a [double]. *)
Lemma binary_round_integer (s : bool) (p : positive) :
  Z.pos p < 2 ^ 53 ->
  finite_double (binary_round prec64 emax64 s p 0)
  /\ double_value (binary_round prec64 emax64 s p 0) = cond_Zopp s (Z.pos p * double_unit).
Proof.
  intros Hp.
  assert (Hd : 1 <= Z.pos (digits2_pos p) <= 53).
  { split; [lia|]. apply (Zdigits2_le (Z.pos p) 53); lia. }
  assert (Hf : fexp prec64 emax64 (Z.pos (digits2_pos p) + 0) = Z.pos (digits2_pos p) - 53).
  { unfold fexp, emin, prec64, emax64. lia. }
  unfold binary_round. rewrite shl_align_cases, Hf.
  destruct (Z.ltb_spec (Z.pos (digits2_pos p) - 53) 0) as [Hlt|Hge].
  - set (k := Z.to_pos (0 - (Z.pos (digits2_pos p) - 53))).
    assert (Hk : Z.pos k = 53 - Z.pos (digits2_pos p)) by (unfold k; rewrite Z2Pos.id; lia).
    assert (Hb : bounded prec64 emax64 (Pos.iter xO p k) (Z.pos (digits2_pos p) - 53) = true).
    { unfold bounded, canonical_mantissa.
      change (Z.pos (digits2_pos (Pos.iter xO p k))) with (Zdigits2 (Z.pos (Pos.iter xO p k))).
      rewrite iter_xO_digits. cbn [Zdigits2].
      replace (Z.pos (digits2_pos p) + Z.pos k + (Z.pos (digits2_pos p) - 53))
        with (Z.pos (digits2_pos p) + 0) by lia.
      rewrite Hf, Z.eqb_refl. cbn [andb]. apply Z.leb_le. unfold prec64, emax64. lia. }
    rewrite (binary_round_aux_canonical prec64 emax64 s _ _ Hb).
    split; [exact Hb|].
    unfold double_value. cbn [scaled_value]. f_equal.
    rewrite iter_xO_value, <- Z.mul_assoc, <- Z.pow_add_r
      by (unfold emin, prec64, emax64; lia).
    unfold double_unit. do 2 f_equal. unfold emin, prec64, emax64. lia.
  - assert (Hb : bounded prec64 emax64 p 0 = true).
    { unfold bounded, canonical_mantissa.
      replace (Z.pos (digits2_pos p) + 0) with 53 by lia. reflexivity. }
    rewrite (binary_round_aux_canonical prec64 emax64 s _ _ Hb).
    split; [exact Hb|]. reflexivity.
Qed.

Lemma double_of_int_value (q : Z) :
  Z.abs q < 2 ^ 53 ->
  finite_double (double_of_int q)
  /\ double_value (double_of_int q) = q * double_unit.
Proof.
  intros Hq. destruct q as [|p|p].
  - split; [exact I|reflexivity].
  - exact (binary_round_integer false p Hq).
  - destruct (binary_round_integer true p Hq) as [Hf Hv]. split; [exact Hf|].
    unfold double_of_int, binary_normalize. rewrite Hv. cbn [cond_Zopp]. lia.
Qed.

(** The arithmetic of the two roundings and of the truncation, on the
    scaled values. *)
Lemma round_trip_arithmetic (K v s x q d uX uD : Z) :
  2 ^ 21 <= K ->
  2 ^ 52 <= Z.abs s ->
  Z.abs (v * K - x * s) <= uX * Z.abs s ->
  2 ^ 52 * uX <= Z.abs x \/ uX = 1 ->
  Z.abs x <= 2 ^ 31 * K ->
  Z.abs (q * K - x) < K ->
  Z.abs q <= 2 ^ 31 ->
  Z.abs (d * K - q * K * s) <= uD * K ->
  2 ^ 52 * uD <= Z.abs d \/ uD = 1 ->
  2 ^ 19 * Z.abs (d - v) < (2 ^ 19 + 1) * Z.abs s.
Proof.
  intros HK Hs Ha Hb Hx Hq Hq31 Hc Hd.
  change (2 ^ 21) with 2097152 in *. change (2 ^ 52) with 4503599627370496 in *.
  change (2 ^ 31) with 2147483648 in *. change (2 ^ 19) with 524288.
  set (S := Z.abs s) in *.
  assert (HX : 2097152 * uX <= K) by lia.
  assert (Hds : Z.abs (d - q * s) <= uD).
  { replace (d * K - q * K * s) with ((d - q * s) * K) in Hc by ring.
    rewrite Z.abs_mul, (Z.abs_eq K) in Hc by lia.
    apply Z.mul_le_mono_pos_r in Hc; lia. }
  assert (Hqs : Z.abs (q * s) <= 2147483648 * S).
  { rewrite Z.abs_mul. fold S. apply Z.mul_le_mono_nonneg_r; lia. }
  assert (HD : 1048576 * uD <= S) by lia.
  assert (Hqv : Z.abs (q * s - v) * K <= (K - 1) * S + uX * S).
  { replace (Z.abs (q * s - v) * K) with (Z.abs ((q * K - x) * s + (x * s - v * K))).
    - eapply Z.le_trans; [apply Z.abs_triangle|].
      apply Z.add_le_mono.
      + rewrite Z.abs_mul. fold S. apply Z.mul_le_mono_nonneg_r; lia.
      + rewrite <- Z.abs_opp. replace (- (x * s - v * K)) with (v * K - x * s) by ring.
        exact Ha.
    - replace ((q * K - x) * s + (x * s - v * K)) with ((q * s - v) * K) by ring.
      rewrite Z.abs_mul, (Z.abs_eq K) by lia. reflexivity. }
  assert (Hdv : Z.abs (d - v) <= uD + Z.abs (q * s - v)).
  { replace (d - v) with ((d - q * s) + (q * s - v)) by ring.
    eapply Z.le_trans; [apply Z.abs_triangle|]. lia. }
  assert (Hfinal : 2097152 * Z.abs (d - v) * K < 2097155 * S * K).
  { set (E := Z.abs (d - v)) in *. set (F := Z.abs (q * s - v)) in *.
    assert (E * K <= uD * K + F * K).
    { rewrite <- Z.mul_add_distr_r. apply Z.mul_le_mono_nonneg_r; lia. }
    assert (2097152 * (uX * S) <= K * S)
      by (rewrite Z.mul_assoc; apply Z.mul_le_mono_nonneg_r; lia).
    assert (1048576 * (uD * K) <= S * K) by (rewrite Z.mul_assoc; apply Z.mul_le_mono_nonneg_r; lia).
    assert (0 < S * K) by (apply Z.mul_pos_pos; lia).
    clearbody E F S. clear - Hs Hqv H H0 H1 H2. lia. }
  apply Z.mul_lt_mono_pos_r in Hfinal; [|lia].
  set (E := Z.abs (d - v)) in *. clearbody E S. clear - Hfinal Hs. lia.
Qed.

(** The quotient of two [double]s, a divisor other than zero: either it
    overflows, or it is within one unit in the last place of the exact
    quotient. *)
Lemma double_div_error (value scale : spec_float) :
  finite_double value ->
  finite_double scale ->
  double_value scale <> 0 ->
  ((exists s, double_div value scale = S754_infinity s)
   /\ 2 ^ 2097 * Z.abs (double_value scale) <= Z.abs (double_value value) * double_unit)
  \/ (finite_double (double_div value scale)
      /\ Z.abs (double_value value * double_unit
                - double_value (double_div value scale) * double_value scale)
         <= double_ulp (double_div value scale) * Z.abs (double_value scale)
      /\ (2 ^ 52 * double_ulp (double_div value scale)
            <= Z.abs (double_value (double_div value scale))
          \/ double_ulp (double_div value scale) = 1)).
Proof.
  intros Hv Hs Hnz.
  exact (SFdiv_error prec64 emax64 ltac:(reflexivity) ltac:(discriminate)
           value scale Hv Hs Hnz).
Qed.

Lemma quotient_range_arithmetic (K v s x m u : Z) :
  1 < K ->
  s <> 0 ->
  0 <= m < 2 ^ 31 ->
  Z.abs v <= m * Z.abs s ->
  Z.abs (v * K - x * s) <= u * Z.abs s ->
  2 ^ 52 * u <= Z.abs x \/ u = 1 ->
  Z.abs x < (m + 1) * K.
Proof.
  intros HK Hs Hm Hv Ha Hb.
  change (2 ^ 31) with 2147483648 in *. change (2 ^ 52) with 4503599627370496 in *.
  assert (HS : 0 < Z.abs s) by lia.
  assert (Hxs : Z.abs x * Z.abs s <= (m * K + u) * Z.abs s).
  { rewrite <- Z.abs_mul.
    replace (x * s) with (v * K + - (v * K - x * s)) by ring.
    eapply Z.le_trans; [apply Z.abs_triangle|].
    rewrite Z.abs_opp, Z.abs_mul, (Z.abs_eq K) by lia.
    assert (Z.abs v * K <= m * Z.abs s * K) by (apply Z.mul_le_mono_nonneg_r; lia).
    set (A := Z.abs (v * K - x * s)) in *. set (S := Z.abs s) in *.
    set (V := Z.abs v) in *. clearbody A S V. clear - Ha H. lia. }
  apply Z.mul_le_mono_pos_r in Hxs; [|exact HS].
  assert (HmK : m * K <= 2147483647 * K) by (apply Z.mul_le_mono_nonneg_r; lia).
  set (X := Z.abs x) in *. clearbody X. clear - HK Hxs Hb HmK. lia.
Qed.

(** A value within [m] units of the scale has a quotient that does not
    overflow and is below [m + 1]. *)
Lemma quotient_in_range (value scale : spec_float) (m : Z) :
  finite_double value ->
  finite_double scale ->
  double_value scale <> 0 ->
  0 <= m < 2 ^ 31 ->
  Z.abs (double_value value) <= m * Z.abs (double_value scale) ->
  finite_double (double_div value scale)
  /\ Z.abs (double_value (double_div value scale)) < (m + 1) * double_unit.
Proof.
  intros Hv Hs Hnz Hm Hrange.
  destruct (double_div_error value scale Hv Hs Hnz) as [[_ Hbig]|(HX & Ha & Hb)].
  - exfalso.
    assert (HS : 0 < Z.abs (double_value scale)) by lia.
    assert (H1 : Z.abs (double_value value) * double_unit
                 <= m * Z.abs (double_value scale) * double_unit)
      by (apply Z.mul_le_mono_nonneg_r; [discriminate|exact Hrange]).
    assert (H2 : m * Z.abs (double_value scale) * double_unit
                 <= 2 ^ 31 * Z.abs (double_value scale) * double_unit).
    { apply Z.mul_le_mono_nonneg_r; [discriminate|].
      apply Z.mul_le_mono_nonneg_r; lia. }
    assert (H3 : 2 ^ 31 * Z.abs (double_value scale) * double_unit
                 < 2 ^ 2097 * Z.abs (double_value scale)).
    { rewrite <- Z.mul_assoc, (Z.mul_comm (Z.abs _) double_unit), Z.mul_assoc.
      apply Z.mul_lt_mono_pos_r; [exact HS|reflexivity]. }
    eapply Z.lt_irrefl, Z.le_lt_trans; [exact Hbig|].
    eapply Z.le_lt_trans; [exact H1|]. eapply Z.le_lt_trans; [exact H2|exact H3].
  - split; [exact HX|].
    apply (quotient_range_arithmetic double_unit (double_value value) (double_value scale)
             (double_value (double_div value scale)) m (double_ulp (double_div value scale)));
      try assumption.
    reflexivity.
Qed.

(** The error of encoding and decoding at an integer resolution, for an
    integer [q] less than one away from the quotient. *)
Lemma decoded_near_value (value scale : spec_float) (q : Z) :
  finite_double value ->
  finite_double scale ->
  2 ^ 52 <= Z.abs (double_value scale) < 2 ^ 900 * double_unit ->
  finite_double (double_div value scale) ->
  Z.abs (double_value (double_div value scale)) <= 2 ^ 31 * double_unit ->
  Z.abs (q * double_unit - double_value (double_div value scale)) < double_unit ->
  Z.abs q <= 2 ^ 31 ->
  finite_double (double_mul (double_of_int q) scale)
  /\ 2 ^ 19 * Z.abs (double_value (double_mul (double_of_int q) scale) - double_value value)
     < (2 ^ 19 + 1) * Z.abs (double_value scale).
Proof.
  intros Hv Hs Hnormal HX Hrange Hq Hq31.
  assert (HK : 0 < double_unit) by reflexivity.
  (* the quotient *)
  destruct (double_div_error value scale Hv Hs ltac:(lia)) as [[[s Hinf] _]|(_ & Ha & Hb)].
  { rewrite Hinf in HX. contradiction. }
  set (X := double_div value scale) in *.
  (* the product *)
  destruct (double_of_int_value q ltac:(lia)) as [Hqf Hqv].
  destruct (SFmul_error prec64 emax64 ltac:(reflexivity) ltac:(discriminate)
              (double_of_int q) scale Hqf Hs) as (HD & Hc & Hd).
  { fold (double_value (double_of_int q)) (double_value scale). rewrite Hqv.
    change (2 ^ (emax64 - 1 - 2 * emin prec64 emax64))
      with (2 ^ 92 * (2 ^ 31 * double_unit * (2 ^ 900 * double_unit))).
    rewrite !Z.abs_mul, (Z.abs_eq double_unit) by lia.
    assert (H1 : Z.abs q * double_unit * Z.abs (double_value scale)
                 <= 2 ^ 31 * double_unit * (2 ^ 900 * double_unit)).
    { apply Z.mul_le_mono_nonneg; [| |lia|lia].
      - apply Z.mul_nonneg_nonneg; lia.
      - apply Z.mul_le_mono_nonneg_r; lia. }
    assert (H2 : 0 < 2 ^ 31 * double_unit * (2 ^ 900 * double_unit)) by reflexivity.
    set (P := 2 ^ 31 * double_unit * (2 ^ 900 * double_unit)) in *.
    set (A := Z.abs q * double_unit * Z.abs (double_value scale)) in *.
    change (2 ^ 92) with 4951760157141521099596496896.
    clearbody P A. clear - H1 H2. lia. }
  fold (double_mul (double_of_int q) scale) in HD, Hc, Hd.
  set (decoded := double_mul (double_of_int q) scale) in *.
  fold (double_ulp decoded) in Hc, Hd.
  change (2 ^ (- emin prec64 emax64)) with double_unit in Hc.
  change (2 ^ (prec64 - 1)) with (2 ^ 52) in Hd.
  fold (double_value decoded) (double_value (double_of_int q)) (double_value scale) in Hc, Hd.
  rewrite Hqv in Hc.
  split; [exact HD|].
  apply (round_trip_arithmetic double_unit (double_value value) (double_value scale)
           (double_value X) q (double_value decoded) (double_ulp X) (double_ulp decoded));
    try assumption; try lia.
  vm_compute; discriminate.
Qed.

(** The scales of the tables of [WritePosition], [WriteVelocity],
    [WriteTorque], [WritePwm], [WriteVoltage], [WriteTemperature] and
    [WriteTime] are normal [double]s below [2^900]. *)
Lemma table_scales_are_normal :
  Forall (fun scale =>
            is_double scale
            /\ 2 ^ 52 <= Z.abs (double_value scale) < 2 ^ 900 * double_unit)
    [literal 1 100; literal 1 10000; literal 1 100000;
     literal 1 10; literal 25 100000;
     literal 5 10; literal 1 1000;
     literal 1 127; literal 1 32767; literal 1 2147483647;
     literal 1 1; literal 1 1000000].
Proof.
  repeat (apply Forall_cons;
          [split; [reflexivity|split; vm_compute; [discriminate|reflexivity]]|]).
  apply Forall_nil.
Qed.

(** ** The round trip *)

Lemma ReadMapped_after_WriteMapped_float
    (value s8 s16 s32 r8 r16 r32 : spec_float) (f : CanFrame) :
  wf_frame f ->
  size f + 4 <= 64 ->
  exists f',
    WriteCanFrame.WriteMapped value s8 s16 s32 kFloat f = (Returns tt, f')
    /\ contents f' = contents f ++ le_bytes 4 (bits_of_float (float_of_double value))
    /\ MultiplexParser.ReadMapped kFloat r8 r16 r32 (reader f' (size f))
       = (Returns (double_of_float (float_of_double value)), reader f' (size f')).
Proof.
  intros Hwf Hroom.
  cbn [WriteCanFrame.WriteMapped MultiplexParser.ReadMapped].
  unfold WriteCanFrame.Write_float, MultiplexParser.Read_float, bind, ret.
  set (x := float_of_double value).
  destruct (Read_repr_after_Write_repr (le_bytes 4 (bits_of_float x)) f Hwf)
    as (f' & E & _ & _ & Hc & Hr); [rewrite le_bytes_length; simpl; lia|].
  exists f'. split; [exact E|]. split; [exact Hc|].
  rewrite le_bytes_length in Hr. change (Z.of_nat 4) with 4 in Hr. rewrite Hr.
  rewrite le_value_le_bytes.
  pose proof (bits_of_float_range x (float_of_double_is_float value)) as Hb.
  change (256 ^ Z.of_nat 4) with (2 ^ 32). rewrite Z.mod_small by exact Hb.
  now rewrite (float_of_bits_of_float x (float_of_double_is_float value)).
Qed.

(** What [WriteMapped] appends and [ReadMapped] reads back, given the
    integer [Saturate] returns. *)
Lemma round_trip_integer
    (T : IntType) (value s8 s16 s32 : spec_float) (f : CanFrame) (q : Z) :
  wf_frame f ->
  size f + 4 <= 64 ->
  Saturate T value (scale_for T s8 s16 s32) = Returns q ->
  - numeric_limits_max T <= q <= numeric_limits_max T ->
  exists f',
    WriteCanFrame.WriteMapped value s8 s16 s32 (resolution_of T) f = (Returns tt, f')
    /\ contents f' = contents f ++ le_bytes (Z.to_nat (sizeof T)) q
    /\ MultiplexParser.ReadMapped (resolution_of T) s8 s16 s32 (reader f' (size f))
       = (Returns (double_mul (double_of_int q) (scale_for T s8 s16 s32)),
          reader f' (size f')).
Proof.
  intros Hwf Hroom E Hq.
  destruct (Read_after_Write T q f Hwf ltac:(destruct T; simpl; lia))
    as (f' & Ew & _ & Hc & Hread).
  rewrite static_cast_small in Hc, Hread by (unfold numeric_limits_min; lia).
  exists f'. rewrite WriteMapped_integer, ReadMapped_integer, E, Hread.
  split; [exact Ew|]. split; [exact Hc|].
  unfold MultiplexParser.Nanify, numeric_limits_min.
  destruct (Z.eqb_spec q (- numeric_limits_max T - 1)); [lia|reflexivity].
Qed.

(** Truncation towards zero moves a number by less than one unit. *)
Lemma quot_near (x K : Z) :
  0 < K ->
  Z.abs (Z.quot x K * K - x) < K /\ Z.abs (Z.quot x K * K) <= Z.abs x.
Proof.
  intros HK. pose proof (Z.quot_rem' x K) as Hqr.
  destruct (Z_le_gt_dec 0 x) as [Hpos|Hneg].
  - pose proof (Z.rem_bound_pos x K Hpos HK).
    assert (0 <= Z.quot x K) by (apply Z.quot_pos; lia). lia.
  - pose proof (Z.rem_bound_abs x K ltac:(lia)).
    pose proof (Z.rem_nonpos x K ltac:(lia) ltac:(lia)).
    assert (Z.quot x K <= 0).
    { rewrite <- (Z.opp_involutive x), Z.quot_opp_l by lia.
      assert (0 <= Z.quot (- x) K) by (apply Z.quot_pos; lia).
      lia. }
    lia.
Qed.

(** C1 (amended). Through the bytes of a frame, [ReadMapped] after
    [WriteMapped].  At an integer resolution, for a finite value whose
    quotient by the scale (a number other than zero) is not beyond
    [-max] and [max], the integer on the wire is that quotient with its
    fraction discarded, less than one unit away from the quotient and
    towards zero, and the value read is that integer times the scale, in
    [double] arithmetic.  For a value within [max] units of a scale that
    is a normal number below [2^900], the value read is finite and less
    than [1 + 2^-19] units of the scale away from the value.  At the
    float resolution the value read is the value rounded to binary32,
    which is the value itself when a [float] represents it. *)
Theorem ReadMapped_after_WriteMapped
    (T : IntType) (value s8 s16 s32 : spec_float) (f : CanFrame) :
  wf_frame f ->
  size f + 4 <= 64 ->
  let scale := scale_for T s8 s16 s32 in
  let scaled := double_div value scale in
  let max := numeric_limits_max T in
  (isfinite value = true ->
   scale <> S754_nan ->
   (forall s, scale <> S754_zero s) ->
   SFltb scaled (SFopp (double_of_int max)) = false ->
   SFltb (double_of_int max) scaled = false ->
   exists q f',
     WriteCanFrame.WriteMapped value s8 s16 s32 (resolution_of T) f = (Returns tt, f')
     /\ contents f' = contents f ++ le_bytes (Z.to_nat (sizeof T)) q
     /\ MultiplexParser.ReadMapped (resolution_of T) s8 s16 s32 (reader f' (size f))
        = (Returns (double_mul (double_of_int q) scale), reader f' (size f'))
     /\ truncate scaled = Some q
     /\ Z.abs (q * double_unit - double_value scaled) < double_unit
     /\ Z.abs (q * double_unit) <= Z.abs (double_value scaled))
  /\ (is_double value ->
      isfinite value = true ->
      is_double scale ->
      2 ^ 52 <= Z.abs (double_value scale) < 2 ^ 900 * double_unit ->
      Z.abs (double_value value) <= max * Z.abs (double_value scale) ->
      exists q f',
        WriteCanFrame.WriteMapped value s8 s16 s32 (resolution_of T) f = (Returns tt, f')
        /\ contents f' = contents f ++ le_bytes (Z.to_nat (sizeof T)) q
        /\ MultiplexParser.ReadMapped (resolution_of T) s8 s16 s32 (reader f' (size f))
           = (Returns (double_mul (double_of_int q) scale), reader f' (size f'))
        /\ finite_double (double_mul (double_of_int q) scale)
        /\ 2 ^ 19 * Z.abs (double_value (double_mul (double_of_int q) scale)
                           - double_value value)
           < (2 ^ 19 + 1) * Z.abs (double_value scale))
  /\ (exists f',
        WriteCanFrame.WriteMapped value s8 s16 s32 kFloat f = (Returns tt, f')
        /\ contents f' = contents f ++ le_bytes 4 (bits_of_float (float_of_double value))
        /\ MultiplexParser.ReadMapped kFloat s8 s16 s32 (reader f' (size f))
           = (Returns (double_of_float (float_of_double value)), reader f' (size f')))
  /\ (forall x, is_float x -> value = double_of_float x ->
        double_of_float (float_of_double value) = value).
Proof.
  intros Hwf Hroom scale scaled max. subst scaled max.
  assert (Hunit : 0 < double_unit) by reflexivity.
  assert (Hmax : 0 < numeric_limits_max T < 2 ^ 31) by (destruct T; split; reflexivity).
  split; [|split; [|split]].
  - intros Hfin Hn Hz Hlo Hhi.
    destruct (Saturate_cases T value scale Hfin Hn Hz)
      as [(Hlo' & _)|[(_ & Hhi' & _)|(_ & _ & _ & Hr & Ht & E)]]; try congruence.
    set (sv := double_value (double_div value scale)) in *.
    destruct (quot_near sv double_unit Hunit) as [Hnear Hbelow].
    assert (Hq : - numeric_limits_max T <= Z.quot sv double_unit <= numeric_limits_max T).
    { split.
      - transitivity (Z.quot (- numeric_limits_max T * double_unit) double_unit);
          [rewrite Z.quot_mul; lia|apply Z.quot_le_mono; lia].
      - transitivity (Z.quot (numeric_limits_max T * double_unit) double_unit);
          [apply Z.quot_le_mono; lia|rewrite Z.quot_mul; lia]. }
    destruct (round_trip_integer T value s8 s16 s32 f _ Hwf Hroom E Hq) as (f' & Ew & Hc & Hread).
    exists (Z.quot sv double_unit), f'.
    repeat (split; [assumption|]). assumption.
  - intros Hdv Hfin Hds Hnormal Hrange.
    assert (Hv : finite_double value) by (apply is_double_finite; assumption).
    assert (Hs : finite_double scale) by (apply is_double_nonzero; [assumption|lia]).
    assert (Hn : scale <> S754_nan) by (intros Heq; rewrite Heq in Hs; exact Hs).
    assert (Hz : forall s, scale <> S754_zero s).
    { intros s Heq. rewrite Heq in Hnormal. vm_compute in Hnormal. now destruct Hnormal. }
    destruct (quotient_in_range value scale (numeric_limits_max T) Hv Hs ltac:(lia)
                ltac:(lia) Hrange) as [HX HXr].
    pose proof (double_of_max T) as (Fc & Fo & Vc & Vo & _).
    assert (Hwire : exists q,
              Saturate T value scale = Returns q
              /\ - numeric_limits_max T <= q <= numeric_limits_max T
              /\ Z.abs (q * double_unit - double_value (double_div value scale)) < double_unit).
    { destruct (Saturate_cases T value scale Hfin Hn Hz)
        as [(Hlo & _ & E)|[(_ & Hhi & E)|(_ & _ & _ & Hr & _ & E)]].
      - exists (- numeric_limits_max T). split; [exact E|]. split; [lia|].
        rewrite (SFltb_scaled_value prec64 emax64 ltac:(reflexivity) _ _ HX Fo) in Hlo.
        fold (double_value (double_div value scale)) in Hlo.
        fold (double_value (SFopp (double_of_int (numeric_limits_max T)))) in Hlo.
        rewrite Vo in Hlo. apply Z.ltb_lt in Hlo. lia.
      - exists (numeric_limits_max T). split; [exact E|]. split; [lia|].
        rewrite (SFltb_scaled_value prec64 emax64 ltac:(reflexivity) _ _ Fc HX) in Hhi.
        fold (double_value (double_div value scale)) in Hhi.
        fold (double_value (double_of_int (numeric_limits_max T))) in Hhi.
        rewrite Vc in Hhi. apply Z.ltb_lt in Hhi. lia.
      - exists (Z.quot (double_value (double_div value scale)) double_unit).
        split; [exact E|].
        destruct (quot_near (double_value (double_div value scale)) double_unit Hunit)
          as [Hnear _].
        split; [|exact Hnear]. split.
        + transitivity (Z.quot (- numeric_limits_max T * double_unit) double_unit);
            [rewrite Z.quot_mul; lia|apply Z.quot_le_mono; lia].
        + transitivity (Z.quot (numeric_limits_max T * double_unit) double_unit);
            [apply Z.quot_le_mono; lia|rewrite Z.quot_mul; lia]. }
    destruct Hwire as (q & E & Hq & Hnear).
    destruct (round_trip_integer T value s8 s16 s32 f q Hwf Hroom E Hq) as (f' & Ew & Hc & Hread).
    assert (HXmax : (numeric_limits_max T + 1) * double_unit <= 2 ^ 31 * double_unit)
      by (apply Z.mul_le_mono_nonneg_r; lia).
    destruct (decoded_near_value value scale q Hv Hs Hnormal HX) as [HD Hbound];
      [lia|exact Hnear|lia|].
    exists q, f'. repeat (split; [assumption|]). assumption.
  - apply ReadMapped_after_WriteMapped_float; assumption.
  - intros x Hx ->. now rewrite float_of_double_of_float.
Qed.

Lemma ReadMapped_after_WriteMapped_witness :
  exists q f',
    WriteCanFrame.WritePosition (literal 119 100) kInt8 empty_frame = (Returns tt, f')
    /\ contents f' = le_bytes 1 q
    /\ 2 ^ 19 * Z.abs (double_value (double_mul (double_of_int q) (literal 1 100))
                       - double_value (literal 119 100))
       < (2 ^ 19 + 1) * Z.abs (double_value (literal 1 100)).
Proof.
  assert (Hwf : wf_frame empty_frame) by (split; simpl; [reflexivity|lia]).
  assert (Hroom : size empty_frame + 4 <= 64) by (simpl; lia).
  pose proof (ReadMapped_after_WriteMapped int8_t (literal 119 100) (literal 1 100)
                (literal 1 10000) (literal 1 100000) empty_frame Hwf Hroom) as H.
  cbv zeta in H. destruct H as (_ & H & _).
  destruct H as (q & f' & E & Hc & _ & _ & Hb).
  - reflexivity.
  - reflexivity.
  - reflexivity.
  - vm_compute. split; [discriminate|reflexivity].
  - vm_compute. discriminate.
  - exists q, f'. split; [exact E|]. split; [exact Hc|exact Hb].
Defined.

(** The claim as stated fails twice.  At the float resolution 0.1 is read
    back as the [float] nearest to it, another number.  At the int8
    position scale 0.01, the value 1.19 is in range, its quotient
    118.99999999999999 is written as 118 and read back as 1.18, further
    from 1.19 than one unit of the scale (all three are the doubles of
    these decimals, compared as exact numbers). *)
Lemma round_trip_is_not_always_within_one_unit :
  (let value := literal 1 10 in
   fst (MultiplexParser.ReadMapped kFloat (literal 1 100) (literal 1 10000) (literal 1 100000)
          (reader (snd (WriteCanFrame.WritePosition value kFloat empty_frame)) 0))
   = Returns (double_of_float (float_of_double value))
   /\ double_of_float (float_of_double value) <> value)
  /\ (let value := literal 119 100 in
      let scale := literal 1 100 in
      let decoded := double_mul (double_of_int 118) scale in
      Saturate int8_t value scale = Returns 118
      /\ fst (MultiplexParser.ReadPosition kInt8
                (reader (snd (WriteCanFrame.WritePosition value kInt8 empty_frame)) 0))
         = Returns decoded
      /\ decoded = literal 118 100
      /\ Z.abs (double_value value) <= 127 * double_value scale
      /\ double_value scale < Z.abs (double_value decoded - double_value value)).
Proof.
  split.
  - split; [vm_compute; reflexivity|vm_compute; discriminate].
  - cbv zeta. repeat split; vm_compute; first [reflexivity|discriminate].
Qed.

(** * Further properties *)

(** ** Commands without values *)

Lemma Write_int8_overflow (v : Z) (f : CanFrame) :
  64 < size f + 1 ->
  WriteCanFrame.Write int8_t v f = (Throws (runtime_error "overflow"%str), f).
Proof.
  intros H. unfold WriteCanFrame.Write. apply Write_repr_overflow.
  rewrite le_bytes_length. simpl. lia.
Qed.

(** [EmitStopCommand] appends the three bytes of "write one int8
    register, the mode, stopped" when they fit; when they do not, the
    bytes that fit are written before the third or an earlier [Write]
    throws, and the frame is left full. *)
Theorem EmitStopCommand_writes_what_fits (f : CanFrame) :
  wf_frame f ->
  (size f + 3 <= 64 ->
   exists f',
     EmitStopCommand f = (Returns tt, f')
     /\ size f' = size f + 3
     /\ contents f' = contents f ++ [0x01; 0x00; 0x00])
  /\ (64 < size f + 3 ->
      exists f',
        EmitStopCommand f = (Throws (runtime_error "overflow"%str), f')
        /\ size f' = 64
        /\ contents f' = contents f ++ firstn (Z.to_nat (64 - size f)) [0x01; 0x00; 0x00]).
Proof.
  intros Hwf. unfold EmitStopCommand, bind.
  change (Z.lor Multiplex.kWriteInt8 1) with 1.
  change Register.kMode with 0. change Mode.kStopped with 0.
  split; intros Hroom.
  - destruct (Write_int8_append 1 f Hwf ltac:(lia)) as (f1 & E1 & Hwf1 & Hs1 & Hc1).
    destruct (Write_int8_append 0 f1 Hwf1 ltac:(lia)) as (f2 & E2 & Hwf2 & Hs2 & Hc2).
    destruct (Write_int8_append 0 f2 Hwf2 ltac:(lia)) as (f3 & E3 & Hwf3 & Hs3 & Hc3).
    rewrite E1, E2, E3. exists f3. split; [reflexivity|]. split; [lia|].
    rewrite Hc3, Hc2, Hc1, <- !app_assoc. reflexivity.
  - assert (Hsz : size f = 62 \/ size f = 63 \/ size f = 64) by (destruct Hwf; lia).
    destruct Hsz as [Hsz|[Hsz|Hsz]].
    + destruct (Write_int8_append 1 f Hwf ltac:(lia)) as (f1 & E1 & Hwf1 & Hs1 & Hc1).
      destruct (Write_int8_append 0 f1 Hwf1 ltac:(lia)) as (f2 & E2 & Hwf2 & Hs2 & Hc2).
      rewrite E1, E2, (Write_int8_overflow 0 f2) by lia.
      exists f2. split; [reflexivity|]. split; [lia|].
      rewrite Hc2, Hc1, <- !app_assoc, Hsz. reflexivity.
    + destruct (Write_int8_append 1 f Hwf ltac:(lia)) as (f1 & E1 & Hwf1 & Hs1 & Hc1).
      rewrite E1, (Write_int8_overflow 0 f1) by lia.
      exists f1. split; [reflexivity|]. split; [lia|].
      rewrite Hc1, Hsz. reflexivity.
    + rewrite (Write_int8_overflow 1 f) by lia.
      exists f. split; [reflexivity|]. split; [lia|].
      rewrite Hsz. simpl. now rewrite app_nil_r.
Qed.

Lemma EmitStopCommand_writes_what_fits_witness :
  exists f',
    EmitStopCommand empty_frame = (Returns tt, f')
    /\ contents f' = [0x01; 0x00; 0x00].
Proof.
  assert (Hwf : wf_frame empty_frame) by (split; simpl; [reflexivity|lia]).
  destruct (EmitStopCommand_writes_what_fits empty_frame Hwf) as [H _].
  destruct H as (f' & E & _ & Hc); [simpl; lia|].
  exists f'. split; [exact E|exact Hc].
Defined.

(** ** A register the combiner cannot address *)

(** The header of a run, without its register byte. *)
Definition header_bytes (base : Z) (r : Resolution) (count : Z) : list Z :=
  let write_command := static_cast int8_t (base + width_bits r) in
  if count <=? 3 then [uint8 (write_command + count)]
  else [uint8 write_command; uint8 count].

(** When a run starts at a register above 127, [MaybeWrite] throws
    "unsupported" after it has appended the command byte (and the count
    byte of the long form): the frame keeps a header without its
    register. *)
Theorem MaybeWrite_unsupported_register_leaves_a_header
    (w : WriteCombiner.t) (f : CanFrame) (r : Resolution) :
  nth_error (WriteCombiner.resolutions_ w) (Z.to_nat (WriteCombiner.offset_ w)) = Some r ->
  WriteCombiner.current_resolution_ w <> r ->
  r <> kIgnore ->
  wf_frame f ->
  size f + 2 <= 64 ->
  127 < size_t (WriteCombiner.start_register_ w + WriteCombiner.offset_ w) ->
  let count :=
    1 + WriteCombiner.run_ahead r
          (skipn (S (Z.to_nat (WriteCombiner.offset_ w))) (WriteCombiner.resolutions_ w)) in
  exists w' f',
    WriteCombiner.MaybeWrite (w, f) = (Throws (logic_error "unsupported"%str), (w', f'))
    /\ WriteCombiner.offset_ w' = size_t (WriteCombiner.offset_ w + 1)
    /\ contents f' = contents f ++ header_bytes (WriteCombiner.base_command_ w) r count.
Proof.
  intros Hn Hc Hr Hwf Hroom Hreg count.
  rewrite (MaybeWrite_new_run w f r Hn Hc Hr). fold count.
  set (w' := WriteCombiner.set_current_resolution
               (WriteCombiner.set_offset w (size_t (WriteCombiner.offset_ w + 1))) r).
  unfold WriteCombiner.write_framing, header_bytes, bind, ret, throw.
  cbn [fst snd].
  assert (Hcode : WriteCombiner.width_code r (w', f) = (Returns (width_bits r), (w', f)))
    by (destruct r; try reflexivity; congruence).
  rewrite Hcode.
  change (WriteCombiner.base_command_ w') with (WriteCombiner.base_command_ w).
  change (WriteCombiner.start_register_ w') with (WriteCombiner.start_register_ w).
  set (wc := static_cast int8_t (WriteCombiner.base_command_ w + width_bits r)).
  destruct (Z.gtb_spec (size_t (WriteCombiner.start_register_ w + WriteCombiner.offset_ w)) 127)
    as [_|Hle]; [|lia].
  unfold WriteCombiner.on_frame. cbn [fst snd].
  destruct (count <=? 3); cbn [fst snd].
  - destruct (Write_int8_append (wc + count) f Hwf) as (f1 & E1 & Hwf1 & Hs1 & Hc1); [lia|].
    rewrite E1. cbn [fst snd]. exists w', f1. repeat split. exact Hc1.
  - destruct (Write_int8_append wc f Hwf) as (f1 & E1 & Hwf1 & Hs1 & Hc1); [lia|].
    rewrite E1. cbn [fst snd].
    destruct (Write_int8_append count f1 Hwf1) as (f2 & E2 & Hwf2 & Hs2 & Hc2); [lia|].
    rewrite E2. cbn [fst snd]. exists w', f2. repeat split.
    rewrite Hc2, Hc1, <- app_assoc. reflexivity.
Qed.

Lemma MaybeWrite_unsupported_register_leaves_a_header_witness :
  exists w' f',
    WriteCombiner.MaybeWrite (WriteCombiner.make 0x10 0x100 [kInt32], empty_frame)
    = (Throws (logic_error "unsupported"%str), (w', f'))
    /\ contents f' = [0x19].
Proof.
  destruct (MaybeWrite_unsupported_register_leaves_a_header
              (WriteCombiner.make 0x10 0x100 [kInt32]) empty_frame kInt32)
    as (w' & f' & E & _ & Hc).
  - reflexivity.
  - discriminate.
  - discriminate.
  - split; simpl; [reflexivity|lia].
  - simpl; lia.
  - vm_compute; reflexivity.
  - exists w', f'. split; [exact E|exact Hc].
Defined.

(** ** The bytes of a whole combiner *)

Lemma framing_bytes_length (base : Z) (r : Resolution) (count reg : Z) :
  Z.of_nat (length (framing_bytes base r count reg)) = if count <=? 3 then 2 else 3.
Proof. unfold framing_bytes. now destruct (count <=? 3). Qed.

(** [write_framing] needs no more room than the bytes it writes. *)
Lemma write_framing_fits (w : WriteCombiner.t) (f : CanFrame)
    (r : Resolution) (count this_offset : Z) :
  r <> kIgnore ->
  wf_frame f ->
  size f + Z.of_nat (length (framing_bytes (WriteCombiner.base_command_ w) r count
                               (size_t (WriteCombiner.start_register_ w + this_offset))))
  <= 64 ->
  size_t (WriteCombiner.start_register_ w + this_offset) <= 127 ->
  exists f',
    WriteCombiner.write_framing r count this_offset (w, f) = (Returns true, (w, f'))
    /\ wf_frame f'
    /\ contents f'
       = contents f
         ++ framing_bytes (WriteCombiner.base_command_ w) r count
              (size_t (WriteCombiner.start_register_ w + this_offset)).
Proof.
  intros Hr Hwf Hroom Hreg. rewrite framing_bytes_length in Hroom.
  destruct (Z.leb_spec count 3) as [Hc|Hc]; [|apply write_framing_writes; assumption].
  unfold WriteCombiner.write_framing, framing_bytes, bind, ret, throw.
  cbn [fst snd].
  assert (Hcode : WriteCombiner.width_code r (w, f) = (Returns (width_bits r), (w, f)))
    by (destruct r; try reflexivity; congruence).
  rewrite Hcode.
  set (wc := static_cast int8_t (WriteCombiner.base_command_ w + width_bits r)).
  destruct (Z.gtb_spec (size_t (WriteCombiner.start_register_ w + this_offset)) 127) as [Hgt|_];
    [lia|].
  unfold WriteCombiner.on_frame. cbn [fst snd].
  destruct (Z.leb_spec count 3) as [_|]; [|lia]. cbn [fst snd].
  destruct (Write_int8_append (wc + count) f Hwf) as (f1 & E1 & Hwf1 & Hs1 & Hc1); [lia|].
  rewrite E1. cbn [fst snd].
  destruct (Write_int8_append (size_t (WriteCombiner.start_register_ w + this_offset)) f1 Hwf1)
    as (f2 & E2 & Hwf2 & Hs2 & Hc2); [lia|].
  rewrite E2. cbn [fst snd]. exists f2. split; [reflexivity|]. split; [assumption|].
  rewrite Hc2, Hc1, <- app_assoc. reflexivity.
Qed.

(** The bytes one call appends, for the resolution [r] it reads. *)
Definition call_bytes (w : WriteCombiner.t) (r : Resolution) : list Z :=
  if Resolution_eqb (WriteCombiner.current_resolution_ w) r || Resolution_eqb r kIgnore
  then []
  else framing_bytes (WriteCombiner.base_command_ w) r
         (1 + WriteCombiner.run_ahead r
                (skipn (S (Z.to_nat (WriteCombiner.offset_ w))) (WriteCombiner.resolutions_ w)))
         (size_t (WriteCombiner.start_register_ w + WriteCombiner.offset_ w)).

(** The members after a call that read [r]. *)
Definition after_call (w : WriteCombiner.t) (r : Resolution) : WriteCombiner.t :=
  WriteCombiner.set_current_resolution
    (WriteCombiner.set_offset w (size_t (WriteCombiner.offset_ w + 1))) r.

Lemma contents_length (f : CanFrame) :
  wf_frame f -> Z.of_nat (length (contents f)) = size f.
Proof.
  intros [Hl Hs]. unfold contents. rewrite length_firstn. lia.
Qed.

Lemma MaybeWrite_step (w : WriteCombiner.t) (f : CanFrame) (r : Resolution) :
  nth_error (WriteCombiner.resolutions_ w) (Z.to_nat (WriteCombiner.offset_ w)) = Some r ->
  wf_frame f ->
  size_t (WriteCombiner.start_register_ w + WriteCombiner.offset_ w) <= 127 ->
  size f + Z.of_nat (length (call_bytes w r)) <= 64 ->
  exists f',
    WriteCombiner.MaybeWrite (w, f)
    = (Returns (negb (Resolution_eqb r kIgnore)), (after_call w r, f'))
    /\ wf_frame f'
    /\ contents f' = contents f ++ call_bytes w r.
Proof.
  intros Hn Hwf Hreg Hroom. unfold call_bytes in *.
  destruct (Resolution_eqb (WriteCombiner.current_resolution_ w) r) eqn:Ec.
  - apply Resolution_eqb_eq in Ec. cbn [orb]. exists f.
    rewrite (MaybeWrite_same_resolution w f r Hn Ec), app_nil_r.
    split; [|split; [assumption|reflexivity]].
    do 2 f_equal. unfold after_call. destruct w; simpl in *. now subst.
  - apply Resolution_eqb_neq in Ec. cbn [orb] in *.
    destruct (Resolution_eqb r kIgnore) eqn:Er.
    + apply Resolution_eqb_eq in Er. subst r. exists f.
      rewrite (MaybeWrite_new_gap w f Hn Ec), app_nil_r.
      split; [reflexivity|]. split; [assumption|reflexivity].
    + apply Resolution_eqb_neq in Er. rewrite (MaybeWrite_new_run w f r Hn Ec Er).
      fold (after_call w r).
      destruct (write_framing_fits (after_call w r) f r
                  (1 + WriteCombiner.run_ahead r
                         (skipn (S (Z.to_nat (WriteCombiner.offset_ w)))
                            (WriteCombiner.resolutions_ w)))
                  (WriteCombiner.offset_ w) Er Hwf Hroom Hreg) as (f' & E & Hwf' & Hc).
      exists f'. split; [exact E|]. split; [exact Hwf'|exact Hc].
Qed.

(** The calls of a block that drives a combiner, each followed by the
    write of its value when the call asks for it. *)
Fixpoint write_each (ws : list (M CanFrame unit)) : M (WriteCombiner.t * CanFrame) unit :=
  match ws with
  | [] => ret tt
  | write :: ws' => (write_if_requested write ;; write_each ws')%cpp
  end.

(** The number of framing bytes the calls for the registers [rs] append,
    when the current resolution is [cur]. *)
Fixpoint framing_length (cur : Resolution) (rs : list Resolution) : Z :=
  match rs with
  | [] => 0
  | r :: rest =>
      (if Resolution_eqb cur r || Resolution_eqb r kIgnore then 0
       else if 1 + WriteCombiner.run_ahead r rest <=? 3 then 2 else 3)
      + framing_length r rest
  end.

(** The number of value bytes, [width r] for each register that is not
    ignored. *)
Fixpoint values_length (width : Resolution -> Z) (rs : list Resolution) : Z :=
  match rs with
  | [] => 0
  | r :: rest => (if Resolution_eqb r kIgnore then 0 else width r) + values_length width rest
  end.

(** What the write of a value of resolution [r] does to a frame with
    room: it returns and appends [width r] bytes. *)
Definition writes_value (width : Resolution -> Z) (write : M CanFrame unit) (r : Resolution)
  : Prop :=
  r <> kIgnore ->
  forall g, wf_frame g -> size g + width r <= 64 ->
  exists g' bs,
    write g = (Returns tt, g')
    /\ wf_frame g'
    /\ contents g' = contents g ++ bs
    /\ Z.of_nat (length bs) = width r.

Lemma skipn_cons_inv {A} (n : nat) (l : list A) (x : A) (rest : list A) :
  skipn n l = x :: rest -> nth_error l n = Some x /\ skipn (S n) l = rest.
Proof.
  revert l; induction n as [|n IH]; intros l H.
  - destruct l; simpl in *; [discriminate|]. inversion H. now split.
  - destruct l as [|y l]; simpl in *; [discriminate|]. now apply IH.
Qed.

Lemma framing_length_nonneg (cur : Resolution) (rs : list Resolution) :
  0 <= framing_length cur rs.
Proof.
  revert cur; induction rs as [|r rest IH]; intros cur; simpl; [lia|].
  specialize (IH r).
  destruct (_ || _); [lia|]. destruct (_ <=? 3); lia.
Qed.

Lemma values_length_nonneg (width : Resolution -> Z) (rs : list Resolution) :
  (forall r, 0 <= width r) -> 0 <= values_length width rs.
Proof.
  intros Hw. induction rs as [|r rest IH]; simpl; [lia|].
  specialize (Hw r). destruct (Resolution_eqb r kIgnore); lia.
Qed.

Lemma write_each_fits (width : Resolution -> Z) (ws : list (M CanFrame unit))
    (rs : list Resolution) (w : WriteCombiner.t) (f : CanFrame) :
  (forall r, 0 <= width r) ->
  Forall2 (writes_value width) ws rs ->
  skipn (Z.to_nat (WriteCombiner.offset_ w)) (WriteCombiner.resolutions_ w) = rs ->
  0 <= WriteCombiner.offset_ w ->
  0 <= WriteCombiner.start_register_ w ->
  WriteCombiner.start_register_ w + WriteCombiner.offset_ w + Z.of_nat (length rs) <= 128 ->
  wf_frame f ->
  size f + framing_length (WriteCombiner.current_resolution_ w) rs + values_length width rs
  <= 64 ->
  exists w' f' bs,
    write_each ws (w, f) = (Returns tt, (w', f'))
    /\ WriteCombiner.offset_ w' = WriteCombiner.offset_ w + Z.of_nat (length rs)
    /\ WriteCombiner.resolutions_ w' = WriteCombiner.resolutions_ w
    /\ wf_frame f'
    /\ contents f' = contents f ++ bs
    /\ Z.of_nat (length bs)
       = framing_length (WriteCombiner.current_resolution_ w) rs + values_length width rs.
Proof.
  intros Hwidth Hws. revert w f.
  induction Hws as [|write r ws rest Hwrite Hws IH]; intros w f Hskip Ho Hs Hreg Hwf Hroom.
  - exists w, f, []. cbn [write_each ret length framing_length values_length].
    rewrite app_nil_r. split; [reflexivity|]. split; [simpl; lia|].
    split; [reflexivity|]. split; [assumption|]. split; reflexivity.
  - apply skipn_cons_inv in Hskip. destruct Hskip as [Hn Hrest].
    cbn [length framing_length values_length] in *.
    pose proof (framing_length_nonneg r rest) as Hf0.
    pose proof (values_length_nonneg width rest Hwidth) as Hv0.
    assert (Hst : size_t (WriteCombiner.start_register_ w + WriteCombiner.offset_ w)
                  = WriteCombiner.start_register_ w + WriteCombiner.offset_ w)
      by (unfold size_t; apply Z.mod_small; lia).
    assert (Hso : size_t (WriteCombiner.offset_ w + 1) = WriteCombiner.offset_ w + 1)
      by (unfold size_t; apply Z.mod_small; lia).
    assert (Hcb : Z.of_nat (length (call_bytes w r))
                  = if Resolution_eqb (WriteCombiner.current_resolution_ w) r
                       || Resolution_eqb r kIgnore then 0
                    else if 1 + WriteCombiner.run_ahead r rest <=? 3 then 2 else 3).
    { unfold call_bytes. destruct (_ || _); [reflexivity|].
      rewrite framing_bytes_length, Hrest. reflexivity. }
    assert (Hv1 : 0 <= (if Resolution_eqb r kIgnore then 0 else width r))
      by (specialize (Hwidth r); destruct (Resolution_eqb r kIgnore); lia).
    set (fr := if Resolution_eqb (WriteCombiner.current_resolution_ w) r
                  || Resolution_eqb r kIgnore then 0
               else if 1 + WriteCombiner.run_ahead r rest <=? 3 then 2 else 3) in *.
    set (vl := if Resolution_eqb r kIgnore then 0 else width r) in *.
    assert (Hfr : 0 <= fr) by (rewrite <- Hcb; lia).
    destruct (MaybeWrite_step w f r Hn Hwf ltac:(lia) ltac:(lia)) as (f1 & E1 & Hwf1 & Hc1).
    assert (Hs1 : size f1 = size f + Z.of_nat (length (call_bytes w r))).
    { rewrite <- (contents_length f1 Hwf1), Hc1, length_app, Nat2Z.inj_add,
        (contents_length f Hwf). reflexivity. }
    cbn [write_each]. unfold bind at 1. unfold write_if_requested, bind at 1.
    rewrite E1. cbn [fst snd].
    assert (Hvalue : exists f2 bs2,
               (if negb (Resolution_eqb r kIgnore)
                then WriteCombiner.on_frame write
                else ret tt) (after_call w r, f1) = (Returns tt, (after_call w r, f2))
               /\ wf_frame f2
               /\ contents f2 = contents f1 ++ bs2
               /\ Z.of_nat (length bs2) = vl).
    { unfold vl in *. destruct (Resolution_eqb r kIgnore) eqn:Er; cbn [negb].
      - exists f1, []. rewrite app_nil_r.
        split; [reflexivity|]. split; [assumption|]. split; reflexivity.
      - apply Resolution_eqb_neq in Er.
        destruct (Hwrite Er f1 Hwf1 ltac:(lia)) as (f2 & bs2 & E2 & Hwf2 & Hc2 & Hl2).
        exists f2, bs2. unfold WriteCombiner.on_frame. cbn [fst snd]. rewrite E2.
        split; [reflexivity|]. split; [assumption|]. split; assumption. }
    destruct Hvalue as (f2 & bs2 & E2 & Hwf2 & Hc2 & Hl2).
    rewrite E2.
    assert (Hs2 : size f2 = size f1 + Z.of_nat (length bs2)).
    { rewrite <- (contents_length f2 Hwf2), Hc2, length_app, Nat2Z.inj_add,
        (contents_length f1 Hwf1). reflexivity. }
    destruct (IH (after_call w r) f2) as (w' & f' & bs & E & Ho' & Hres' & Hwf' & Hc' & Hl').
    + cbn [after_call WriteCombiner.set_current_resolution WriteCombiner.set_offset
           WriteCombiner.offset_ WriteCombiner.resolutions_].
      rewrite Hso. replace (Z.to_nat (WriteCombiner.offset_ w + 1))
        with (S (Z.to_nat (WriteCombiner.offset_ w))) by lia.
      exact Hrest.
    + cbn. lia.
    + cbn. lia.
    + cbn [after_call WriteCombiner.set_current_resolution WriteCombiner.set_offset
           WriteCombiner.offset_ WriteCombiner.start_register_]. lia.
    + exact Hwf2.
    + cbn [after_call WriteCombiner.set_current_resolution WriteCombiner.set_offset
           WriteCombiner.current_resolution_]. lia.
    + exists w', f', (call_bytes w r ++ bs2 ++ bs).
      split; [exact E|].
      cbn [after_call WriteCombiner.set_current_resolution WriteCombiner.set_offset
           WriteCombiner.offset_ WriteCombiner.resolutions_
           WriteCombiner.current_resolution_] in Ho', Hres', Hl'.
      split; [lia|]. split; [exact Hres'|]. split; [exact Hwf'|]. split.
      * rewrite Hc', Hc2, Hc1, <- !app_assoc. reflexivity.
      * rewrite !length_app, !Nat2Z.inj_add. lia.
Qed.

(** *** Two bytes of framing for each register are enough *)

Lemma run_ahead_nonneg (r : Resolution) (rest : list Resolution) :
  0 <= WriteCombiner.run_ahead r rest.
Proof.
  induction rest as [|x rest IH]; cbn [WriteCombiner.run_ahead]; [lia|].
  destruct (Resolution_eqb x r); lia.
Qed.

(** A run that goes on for three more registers starts with three
    registers of that resolution. *)
Lemma run_ahead_three (r : Resolution) (rest : list Resolution) :
  3 <= WriteCombiner.run_ahead r rest ->
  exists rest', rest = r :: r :: r :: rest'.
Proof.
  intros H.
  destruct rest as [|a [|b [|c rest']]]; cbn [WriteCombiner.run_ahead] in H;
    repeat match type of H with
           | context [Resolution_eqb ?x r] =>
               let E := fresh "E" in
               destruct (Resolution_eqb x r) eqn:E;
               [apply Resolution_eqb_eq in E; subst x|]
           end; try lia.
  now exists rest'.
Qed.

Lemma framing_length_bound (rs : list Resolution) (cur : Resolution) :
  framing_length cur rs <= 2 * Z.of_nat (length rs).
Proof.
  remember (length rs) as n eqn:Hn.
  assert (Hle : (length rs <= n)%nat) by lia.
  rewrite Hn. clear Hn. revert rs cur Hle.
  induction n as [|n IH]; intros rs cur Hle.
  - destruct rs; simpl in *; lia.
  - destruct rs as [|r rest]; [simpl; lia|].
    cbn [framing_length length]. cbn [length] in Hle.
    pose proof (IH rest r ltac:(lia)) as Hrest.
    destruct (_ || _); [lia|].
    destruct (Z.leb_spec (1 + WriteCombiner.run_ahead r rest) 3) as [|Hlong]; [lia|].
    destruct (run_ahead_three r rest ltac:(lia)) as (rest' & ->).
    cbn [framing_length length]. rewrite Resolution_eqb_refl. cbn [orb].
    cbn [length] in Hle.
    pose proof (IH rest' r ltac:(lia)). lia.
Qed.

Lemma framing_length_none (rs : list Resolution) :
  framing_length kIgnore rs = 0 <-> Forall (eq kIgnore) rs.
Proof.
  induction rs as [|r rest IH]; cbn [framing_length]; [split; [constructor|reflexivity]|].
  pose proof (framing_length_nonneg r rest) as H0.
  destruct r; cbn [Resolution_eqb orb].
  1-4: split; [destruct (_ <=? 3); lia|intros H; inversion H; discriminate].
  split; intros H.
  - constructor; [reflexivity|]. apply IH. lia.
  - inversion H as [|x l _ Hrest]; subst. apply IH in Hrest. lia.
Qed.

Lemma values_length_none (width : Resolution -> Z) (rs : list Resolution) :
  Forall (eq kIgnore) rs -> values_length width rs = 0.
Proof.
  induction 1 as [|r rest <- _ IH]; [reflexivity|]. cbn [values_length Resolution_eqb]. lia.
Qed.

Lemma values_length_bound (rs : list Resolution) :
  values_length MultiplexParser.ResolutionSize rs <= 4 * Z.of_nat (length rs).
Proof.
  induction rs as [|r rest IH]; [simpl; lia|].
  cbn [values_length length]. destruct r; cbn [Resolution_eqb MultiplexParser.ResolutionSize]; lia.
Qed.

(** *** Leaving the block *)

Lemma combiner_scope_returns (w w' : WriteCombiner.t)
    (body : M (WriteCombiner.t * CanFrame) unit) (f f' : CanFrame) :
  body (w, f) = (Returns tt, (w', f')) ->
  WriteCombiner.offset_ w' = WriteCombiner.N w' ->
  combiner_scope w body f = (Returns tt, f').
Proof.
  intros E Ho. unfold combiner_scope, WriteCombiner.destructor. rewrite E, Ho, Z.eqb_refl.
  reflexivity.
Qed.

Lemma bind_ret_unit {St} (c : M St unit) (s : St) : bind c (fun _ => ret tt) s = c s.
Proof. unfold bind, ret. now destruct (c s) as [[[]|e| |] s']. Qed.

Lemma bind_ext {St A B} (c : M St A) (k1 k2 : A -> M St B) (s : St) :
  (forall a s', k1 a s' = k2 a s') -> bind c k1 s = bind c k2 s.
Proof. intros H. unfold bind. destruct (c s) as [[a|e| |] s']; [apply H|reflexivity..]. Qed.

Lemma MaybeWrite_times_write_each (n : nat) (s : WriteCombiner.t * CanFrame) :
  MaybeWrite_times n s = write_each (repeat (ret tt) n) s.
Proof.
  revert s; induction n as [|n IH]; intros s; [reflexivity|].
  cbn [MaybeWrite_times repeat write_each]. unfold write_if_requested, bind.
  destruct (WriteCombiner.MaybeWrite s) as [[b|e| |] [w f]]; try reflexivity.
  destruct b; apply IH.
Qed.

Lemma ret_writes_nothing (r : Resolution) : writes_value (fun _ => 0) (ret tt) r.
Proof.
  intros _ g Hg _. exists g, []. rewrite app_nil_r.
  split; [reflexivity|]. split; [assumption|]. split; reflexivity.
Qed.

(** *** The values *)

Lemma Saturate_returns (T : IntType) (value scale : spec_float) :
  scale <> S754_nan ->
  (forall s, scale <> S754_zero s) ->
  exists q,
    Saturate T value scale = Returns q
    /\ numeric_limits_min T <= q <= numeric_limits_max T.
Proof.
  intros Hn Hz.
  assert (Hmax : 0 < numeric_limits_max T) by (destruct T; reflexivity).
  destruct (isfinite value) eqn:Hfin.
  - destruct (Saturate_cases T value scale Hfin Hn Hz)
      as [(_ & _ & E)|[(_ & _ & E)|(_ & _ & _ & Hr & _ & E)]].
    + exists (- numeric_limits_max T). split; [exact E|]. unfold numeric_limits_min. lia.
    + exists (numeric_limits_max T). split; [exact E|]. unfold numeric_limits_min. lia.
    + eexists. split; [exact E|].
      assert (Hunit : 0 < double_unit) by reflexivity.
      unfold numeric_limits_min. split.
      * transitivity (Z.quot (- numeric_limits_max T * double_unit) double_unit);
          [rewrite Z.quot_mul; lia|apply Z.quot_le_mono; lia].
      * transitivity (Z.quot (numeric_limits_max T * double_unit) double_unit);
          [apply Z.quot_le_mono; lia|rewrite Z.quot_mul; lia].
  - exists (numeric_limits_min T). unfold Saturate. rewrite Hfin. cbn [negb].
    split; [reflexivity|]. unfold numeric_limits_min. lia.
Qed.

(** A scale [Saturate] can divide by. *)
Definition usable_scale (scale : spec_float) : Prop :=
  scale <> S754_nan /\ forall s, scale <> S754_zero s.

Lemma WriteMapped_appends (value s8 s16 s32 : spec_float) (res : Resolution) :
  usable_scale s8 -> usable_scale s16 -> usable_scale s32 ->
  writes_value MultiplexParser.ResolutionSize
    (WriteCanFrame.WriteMapped value s8 s16 s32 res) res.
Proof.
  intros H8 H16 H32 Hres g Hg Hroom.
  assert (Hint : forall T, resolution_of T = res ->
            exists g' bs,
              WriteCanFrame.WriteMapped value s8 s16 s32 res g = (Returns tt, g')
              /\ wf_frame g'
              /\ contents g' = contents g ++ bs
              /\ Z.of_nat (length bs) = MultiplexParser.ResolutionSize res).
  { intros T <-. rewrite WriteMapped_integer.
    destruct (Saturate_returns T value (scale_for T s8 s16 s32)) as (q & E & Hq);
      [destruct T; [apply H8|apply H16|apply H32]
      |destruct T; [apply H8|apply H16|apply H32]|].
    rewrite E.
    destruct (Read_after_Write T q g Hg ltac:(destruct T; exact Hroom))
      as (g' & Ew & Hg' & Hc & _).
    exists g', (le_bytes (Z.to_nat (sizeof T)) (static_cast T q)).
    split; [exact Ew|]. split; [exact Hg'|]. split; [exact Hc|].
    rewrite le_bytes_length. now destruct T. }
  destruct res; try (now elim Hres).
  - exact (Hint int8_t eq_refl).
  - exact (Hint int16_t eq_refl).
  - exact (Hint int32_t eq_refl).
  - cbn [WriteCanFrame.WriteMapped]. unfold WriteCanFrame.Write_float.
    destruct (Write_repr_append (le_bytes 4 (bits_of_float (float_of_double value))) g Hg)
      as (g' & E & Hg' & _ & Hc); [rewrite le_bytes_length; exact Hroom|].
    exists g', (le_bytes 4 (bits_of_float (float_of_double value))).
    split; [exact E|]. split; [exact Hg'|]. split; [exact Hc|].
    now rewrite le_bytes_length.
Qed.

Lemma table_scales_usable :
  Forall usable_scale
    [literal 1 100; literal 1 10000; literal 1 100000;
     literal 1 10; literal 25 100000;
     literal 5 10; literal 1 1000;
     literal 1 127; literal 1 32767; literal 1 2147483647;
     literal 1 1; literal 1 1000000].
Proof.
  repeat (apply Forall_cons;
          [split; [vm_compute; discriminate|intros s; vm_compute; discriminate]|]).
  apply Forall_nil.
Qed.

(** ** The query command *)

Lemma values_length_zero (rs : list Resolution) : values_length (fun _ => 0) rs = 0.
Proof. induction rs as [|r rest IH]; simpl; [reflexivity|]. destruct (Resolution_eqb r kIgnore); lia. Qed.

Lemma any_set_false (c : QueryCommand.t) :
  QueryCommand.any_set c = false
  <-> Forall (eq kIgnore)
        [QueryCommand.mode c; QueryCommand.position c; QueryCommand.velocity c;
         QueryCommand.torque c; QueryCommand.q_current c; QueryCommand.d_current c]
      /\ Forall (eq kIgnore)
           [QueryCommand.rezero_state c; QueryCommand.voltage c;
            QueryCommand.temperature c; QueryCommand.fault c].
Proof.
  unfold QueryCommand.any_set.
  rewrite !Bool.orb_false_iff, !Bool.negb_false_iff, !Resolution_eqb_eq.
  split.
  - intros (((((((((H1 & H2) & H3) & H4) & H5) & H6) & H7) & H8) & H9) & H10).
    split; repeat constructor; congruence.
  - intros [Ha Hb].
    repeat match goal with
           | H : Forall _ (_ :: _) |- _ => inversion H; clear H; subst
           end.
    repeat split; congruence.
Qed.

(** One block of [EmitQueryCommand]: a fresh combiner driven once for
    each of its registers. *)
Lemma query_block_fits (start : Z) (rs : list Resolution) (f : CanFrame) :
  0 <= start ->
  start + Z.of_nat (length rs) <= 128 ->
  wf_frame f ->
  size f + 2 * Z.of_nat (length rs) <= 64 ->
  exists f' bs,
    combiner_scope (WriteCombiner.make 0x10 start rs) (MaybeWrite_times (length rs)) f
    = (Returns tt, f')
    /\ wf_frame f'
    /\ contents f' = contents f ++ bs
    /\ Z.of_nat (length bs) = framing_length kIgnore rs.
Proof.
  intros Hs Hreg Hwf Hroom.
  assert (Hus : uint32 start = start) by (unfold uint32; apply Z.mod_small; lia).
  pose proof (framing_length_bound rs kIgnore) as Hb.
  destruct (write_each_fits (fun _ => 0) (repeat (ret tt) (length rs)) rs
              (WriteCombiner.make 0x10 start rs) f)
    as (w' & f' & bs & E & Ho & Hres & Hwf' & Hc & Hl).
  - intros _. lia.
  - clear. induction rs as [|r rs IH]; simpl; constructor;
      [apply ret_writes_nothing|exact IH].
  - reflexivity.
  - simpl. lia.
  - cbn [WriteCombiner.make WriteCombiner.start_register_]. lia.
  - cbn [WriteCombiner.make WriteCombiner.start_register_ WriteCombiner.offset_]. lia.
  - exact Hwf.
  - cbn [WriteCombiner.make WriteCombiner.current_resolution_].
    rewrite values_length_zero. lia.
  - exists f', bs.
    cbn [WriteCombiner.make WriteCombiner.current_resolution_ WriteCombiner.offset_
         WriteCombiner.resolutions_] in Ho, Hres, Hl.
    rewrite values_length_zero, Z.add_0_r in Hl.
    split; [|split; [exact Hwf'|split; [exact Hc|exact Hl]]].
    apply (combiner_scope_returns _ w').
    + rewrite MaybeWrite_times_write_each. exact E.
    + unfold WriteCombiner.N. rewrite Hres, Ho. lia.
Qed.

(** [EmitQueryCommand] needs at most 20 bytes: into a frame with that
    room it returns, the combiners tear down quietly, and it appends
    nothing exactly when no register is asked for. *)
Theorem EmitQueryCommand_fits_in_twenty_bytes (c : QueryCommand.t) (f : CanFrame) :
  wf_frame f ->
  size f + 20 <= 64 ->
  exists f' bs,
    EmitQueryCommand c f = (Returns tt, f')
    /\ wf_frame f'
    /\ contents f' = contents f ++ bs
    /\ (length bs <= 20)%nat
    /\ (bs = [] <-> QueryCommand.any_set c = false).
Proof.
  intros Hwf Hroom. unfold EmitQueryCommand, bind.
  set (rs1 := [QueryCommand.mode c; QueryCommand.position c; QueryCommand.velocity c;
               QueryCommand.torque c; QueryCommand.q_current c; QueryCommand.d_current c]).
  set (rs2 := [QueryCommand.rezero_state c; QueryCommand.voltage c;
               QueryCommand.temperature c; QueryCommand.fault c]).
  pose proof (framing_length_bound rs1 kIgnore) as Hb1.
  pose proof (framing_length_bound rs2 kIgnore) as Hb2.
  pose proof (framing_length_nonneg kIgnore rs1) as Hn1.
  pose proof (framing_length_nonneg kIgnore rs2) as Hn2.
  change (Z.of_nat (length rs1)) with 6 in Hb1. change (Z.of_nat (length rs2)) with 4 in Hb2.
  destruct (query_block_fits Register.kMode rs1 f) as (f1 & bs1 & E1 & Hwf1 & Hc1 & Hl1);
    [discriminate|discriminate|exact Hwf|simpl; lia|].
  change (length rs1) with 6%nat in E1. rewrite E1.
  assert (Hs1 : size f1 = size f + Z.of_nat (length bs1)).
  { rewrite <- (contents_length f1 Hwf1), Hc1, length_app, Nat2Z.inj_add,
      (contents_length f Hwf). reflexivity. }
  destruct (query_block_fits Register.kRezeroState rs2 f1) as (f2 & bs2 & E2 & Hwf2 & Hc2 & Hl2);
    [discriminate|discriminate|exact Hwf1|simpl; lia|].
  change (length rs2) with 4%nat in E2. rewrite E2.
  exists f2, (bs1 ++ bs2).
  split; [reflexivity|]. split; [exact Hwf2|].
  split; [rewrite Hc2, Hc1, <- app_assoc; reflexivity|].
  split; [rewrite length_app; lia|].
  rewrite any_set_false. fold rs1 rs2.
  rewrite <- !framing_length_none, <- Hl1, <- Hl2.
  split.
  - intros H. apply app_eq_nil in H. destruct H as [-> ->]. split; reflexivity.
  - intros [H1 H2]. destruct bs1; [|discriminate]. destruct bs2; [|discriminate]. reflexivity.
Qed.

Lemma EmitQueryCommand_fits_in_twenty_bytes_witness :
  exists f' bs,
    EmitQueryCommand QueryCommand.initial empty_frame = (Returns tt, f')
    /\ contents f' = bs
    /\ (length bs <= 20)%nat.
Proof.
  destruct (EmitQueryCommand_fits_in_twenty_bytes QueryCommand.initial empty_frame)
    as (f' & bs & E & _ & Hc & Hl & _).
  - split; simpl; [reflexivity|lia].
  - simpl; lia.
  - exists f', bs. split; [exact E|]. split; [exact Hc|exact Hl].
Defined.

(** The default query, as the member initializers of [QueryCommand] set
    it, is seven bytes. *)
Example default_query_bytes :
  contents (snd (EmitQueryCommand QueryCommand.initial empty_frame))
  = [0x14; 0x06; 0x00; 0x15; 0x0c; 0x13; 0x0d].
Proof. vm_compute. reflexivity. Qed.

(** ** The position and stay-within commands *)

Ltac usable_scales :=
  repeat match goal with
         | |- usable_scale _ =>
             split; [vm_compute; discriminate|intros ?; vm_compute; discriminate]
         end.

Lemma WritePosition_appends (value : spec_float) (res : Resolution) :
  writes_value MultiplexParser.ResolutionSize (WriteCanFrame.WritePosition value res) res.
Proof. apply WriteMapped_appends; usable_scales. Qed.

Lemma WriteVelocity_appends (value : spec_float) (res : Resolution) :
  writes_value MultiplexParser.ResolutionSize (WriteCanFrame.WriteVelocity value res) res.
Proof. apply WriteMapped_appends; usable_scales. Qed.

Lemma WriteTorque_appends (value : spec_float) (res : Resolution) :
  writes_value MultiplexParser.ResolutionSize (WriteCanFrame.WriteTorque value res) res.
Proof. apply WriteMapped_appends; usable_scales. Qed.

Lemma WritePwm_appends (value : spec_float) (res : Resolution) :
  writes_value MultiplexParser.ResolutionSize (WriteCanFrame.WritePwm value res) res.
Proof. apply WriteMapped_appends; usable_scales. Qed.

Lemma WriteTime_appends (value : spec_float) (res : Resolution) :
  writes_value MultiplexParser.ResolutionSize (WriteCanFrame.WriteTime value res) res.
Proof. apply WriteMapped_appends; usable_scales. Qed.

(** The mode bytes and a block of eight registers, each written when its
    call asks for it. *)
Lemma mode_and_eight_registers (mode start : Z) (rs : list Resolution)
    (ws : list (M CanFrame unit)) (body : M (WriteCombiner.t * CanFrame) unit)
    (f : CanFrame) :
  Forall2 (writes_value MultiplexParser.ResolutionSize) ws rs ->
  length rs = 8%nat ->
  (forall s, body s = write_each ws s) ->
  0 <= start -> start + 8 <= 128 ->
  wf_frame f ->
  size f + 51 <= 64 ->
  exists f' bs,
    (WriteCanFrame.Write int8_t (Z.lor Multiplex.kWriteInt8 0x01) ;;
     WriteCanFrame.Write int8_t Register.kMode ;;
     WriteCanFrame.Write int8_t mode ;;
     combiner_scope (WriteCombiner.make 0x00 start rs) body)%cpp f = (Returns tt, f')
    /\ wf_frame f'
    /\ contents f' = contents f ++ [0x01; 0x00; uint8 mode] ++ bs
    /\ (length bs <= 48)%nat
    /\ (bs = [] <-> Forall (eq kIgnore) rs).
Proof.
  intros Hws Hlen Hbody Hs Hreg Hwf Hroom. unfold bind.
  change (Z.lor Multiplex.kWriteInt8 1) with 1. change Register.kMode with 0.
  destruct (Write_int8_append 1 f Hwf ltac:(lia)) as (f1 & E1 & Hwf1 & Hs1 & Hc1).
  destruct (Write_int8_append 0 f1 Hwf1 ltac:(lia)) as (f2 & E2 & Hwf2 & Hs2 & Hc2).
  destruct (Write_int8_append mode f2 Hwf2 ltac:(lia)) as (f3 & E3 & Hwf3 & Hs3 & Hc3).
  rewrite E1, E2, E3.
  pose proof (framing_length_bound rs kIgnore) as Hb.
  pose proof (values_length_bound rs) as Hv.
  pose proof (framing_length_nonneg kIgnore rs) as Hb0.
  pose proof (values_length_nonneg MultiplexParser.ResolutionSize rs
                ltac:(intros r; pose proof (ResolutionSize_pos r); lia)) as Hv0.
  rewrite Hlen in Hb, Hv.
  assert (Hus : uint32 start = start) by (unfold uint32; apply Z.mod_small; lia).
  destruct (write_each_fits MultiplexParser.ResolutionSize ws rs
              (WriteCombiner.make 0x00 start rs) f3)
    as (w' & f' & bs & E & Ho & Hres & Hwf' & Hc & Hl).
  - intros r. pose proof (ResolutionSize_pos r). lia.
  - exact Hws.
  - reflexivity.
  - simpl. lia.
  - cbn [WriteCombiner.make WriteCombiner.start_register_]. lia.
  - cbn [WriteCombiner.make WriteCombiner.start_register_ WriteCombiner.offset_].
    rewrite Hlen. lia.
  - exact Hwf3.
  - cbn [WriteCombiner.make WriteCombiner.current_resolution_]. lia.
  - cbn [WriteCombiner.make WriteCombiner.current_resolution_ WriteCombiner.offset_
         WriteCombiner.resolutions_] in Ho, Hres, Hl.
    exists f', bs.
    split.
    { apply (combiner_scope_returns _ w'); [rewrite Hbody; exact E|].
      unfold WriteCombiner.N. rewrite Hres, Ho. lia. }
    split; [exact Hwf'|].
    split; [rewrite Hc, Hc3, Hc2, Hc1, <- !app_assoc; reflexivity|].
    split; [lia|].
    split.
    + intros ->. simpl in Hl. apply framing_length_none. lia.
    + intros Hall. pose proof (values_length_none MultiplexParser.ResolutionSize rs Hall).
      apply framing_length_none in Hall. destruct bs; [reflexivity|simpl in Hl; lia].
Qed.

(** [EmitPositionCommand] needs at most 51 bytes, whatever the values
    (NaN and infinities included) and the resolutions: into a frame with
    that room it returns, after the three bytes that select the position
    mode come at most 48 bytes of registers, none when every resolution
    is [kIgnore]. *)
Theorem EmitPositionCommand_fits_in_an_empty_frame
    (command : PositionCommand.t) (resolution : PositionResolution.t) (f : CanFrame) :
  wf_frame f ->
  size f + 51 <= 64 ->
  exists f' bs,
    EmitPositionCommand command resolution f = (Returns tt, f')
    /\ wf_frame f'
    /\ contents f' = contents f ++ [0x01; 0x00; 0x0a] ++ bs
    /\ (length bs <= 48)%nat
    /\ (bs = []
        <-> Forall (eq kIgnore)
              [PositionResolution.position resolution;
               PositionResolution.velocity resolution;
               PositionResolution.feedforward_torque resolution;
               PositionResolution.kp_scale resolution;
               PositionResolution.kd_scale resolution;
               PositionResolution.maximum_torque resolution;
               PositionResolution.stop_position resolution;
               PositionResolution.watchdog_timeout resolution]).
Proof.
  intros Hwf Hroom. unfold EmitPositionCommand.
  apply (mode_and_eight_registers Mode.kPosition Register.kCommandPosition _
           [WriteCanFrame.WritePosition (PositionCommand.position command)
              (PositionResolution.position resolution);
            WriteCanFrame.WriteVelocity (PositionCommand.velocity command)
              (PositionResolution.velocity resolution);
            WriteCanFrame.WriteTorque (PositionCommand.feedforward_torque command)
              (PositionResolution.feedforward_torque resolution);
            WriteCanFrame.WritePwm (PositionCommand.kp_scale command)
              (PositionResolution.kp_scale resolution);
            WriteCanFrame.WritePwm (PositionCommand.kd_scale command)
              (PositionResolution.kd_scale resolution);
            WriteCanFrame.WriteTorque (PositionCommand.maximum_torque command)
              (PositionResolution.maximum_torque resolution);
            WriteCanFrame.WritePosition (PositionCommand.stop_position command)
              (PositionResolution.stop_position resolution);
            WriteCanFrame.WriteTime
              (float_of_double (PositionCommand.watchdog_timeout command))
              (PositionResolution.watchdog_timeout resolution)]);
    [|reflexivity| |discriminate|discriminate|exact Hwf|exact Hroom].
  - apply Forall2_cons; [apply WritePosition_appends|].
    apply Forall2_cons; [apply WriteVelocity_appends|].
    apply Forall2_cons; [apply WriteTorque_appends|].
    apply Forall2_cons; [apply WritePwm_appends|].
    apply Forall2_cons; [apply WritePwm_appends|].
    apply Forall2_cons; [apply WriteTorque_appends|].
    apply Forall2_cons; [apply WritePosition_appends|].
    apply Forall2_cons; [apply WriteTime_appends|].
    apply Forall2_nil.
  - intros s. cbn [write_each].
    repeat (apply bind_ext; intros _ ?). symmetry. apply bind_ret_unit.
Qed.

Lemma EmitPositionCommand_fits_in_an_empty_frame_witness :
  exists f' bs,
    EmitPositionCommand PositionCommand.initial PositionResolution.initial empty_frame
    = (Returns tt, f')
    /\ contents f' = [0x01; 0x00; 0x0a] ++ bs
    /\ (length bs <= 48)%nat.
Proof.
  destruct (EmitPositionCommand_fits_in_an_empty_frame
              PositionCommand.initial PositionResolution.initial empty_frame)
    as (f' & bs & E & _ & Hc & Hl & _).
  - split; simpl; [reflexivity|lia].
  - simpl; lia.
  - exists f', bs. split; [exact E|]. split; [exact Hc|exact Hl].
Defined.

(** [EmitWithinCommand]: the same, with the stay-within mode and its
    registers. *)
Theorem EmitWithinCommand_fits_in_an_empty_frame
    (command : WithinCommand.t) (resolution : WithinResolution.t) (f : CanFrame) :
  wf_frame f ->
  size f + 51 <= 64 ->
  exists f' bs,
    EmitWithinCommand command resolution f = (Returns tt, f')
    /\ wf_frame f'
    /\ contents f' = contents f ++ [0x01; 0x00; 0x0d] ++ bs
    /\ (length bs <= 48)%nat
    /\ (bs = []
        <-> Forall (eq kIgnore)
              [WithinResolution.bounds_min resolution;
               WithinResolution.bounds_max resolution;
               WithinResolution.feedforward_torque resolution;
               WithinResolution.kp_scale resolution;
               WithinResolution.kd_scale resolution;
               WithinResolution.maximum_torque resolution;
               WithinResolution.stop_position resolution;
               WithinResolution.watchdog_timeout resolution]).
Proof.
  intros Hwf Hroom. unfold EmitWithinCommand.
  apply (mode_and_eight_registers Mode.kStayWithinBounds Register.kStayWithinLower _
           [WriteCanFrame.WriteTime (WithinCommand.bounds_min command)
              (WithinResolution.bounds_min resolution);
            WriteCanFrame.WriteTime (WithinCommand.bounds_max command)
              (WithinResolution.bounds_max resolution);
            WriteCanFrame.WriteTorque (WithinCommand.feedforward_torque command)
              (WithinResolution.feedforward_torque resolution);
            WriteCanFrame.WritePwm (WithinCommand.kp_scale command)
              (WithinResolution.kp_scale resolution);
            WriteCanFrame.WritePwm (WithinCommand.kd_scale command)
              (WithinResolution.kd_scale resolution);
            WriteCanFrame.WriteTorque (WithinCommand.maximum_torque command)
              (WithinResolution.maximum_torque resolution);
            WriteCanFrame.WritePosition (WithinCommand.stop_position command)
              (WithinResolution.stop_position resolution);
            WriteCanFrame.WriteTime
              (float_of_double (WithinCommand.watchdog_timeout command))
              (WithinResolution.watchdog_timeout resolution)]);
    [|reflexivity| |discriminate|discriminate|exact Hwf|exact Hroom].
  - apply Forall2_cons; [apply WriteTime_appends|].
    apply Forall2_cons; [apply WriteTime_appends|].
    apply Forall2_cons; [apply WriteTorque_appends|].
    apply Forall2_cons; [apply WritePwm_appends|].
    apply Forall2_cons; [apply WritePwm_appends|].
    apply Forall2_cons; [apply WriteTorque_appends|].
    apply Forall2_cons; [apply WritePosition_appends|].
    apply Forall2_cons; [apply WriteTime_appends|].
    apply Forall2_nil.
  - intros s. cbn [write_each].
    repeat (apply bind_ext; intros _ ?). symmetry. apply bind_ret_unit.
Qed.

Lemma EmitWithinCommand_fits_in_an_empty_frame_witness :
  exists f' bs,
    EmitWithinCommand WithinCommand.initial WithinResolution.initial empty_frame
    = (Returns tt, f')
    /\ contents f' = [0x01; 0x00; 0x0d] ++ bs
    /\ (length bs <= 48)%nat.
Proof.
  destruct (EmitWithinCommand_fits_in_an_empty_frame
              WithinCommand.initial WithinResolution.initial empty_frame)
    as (f' & bs & E & _ & Hc & Hl & _).
  - split; simpl; [reflexivity|lia].
  - simpl; lia.
  - exists f', bs. split; [exact E|]. split; [exact Hc|exact Hl].
Defined.

(** ** The width of a value *)

(** A value written at a resolution takes the bytes the parser counts
    for that resolution: [WriteMapped] appends [ResolutionSize res]
    bytes, whatever the value, and from the start of the value both
    [Ignore] and [ReadMapped] leave the cursor at its end, without an
    exception. *)
Theorem WriteMapped_writes_what_the_parser_skips
    (value s8 s16 s32 r8 r16 r32 : spec_float) (res : Resolution) (f : CanFrame) :
  res <> kIgnore ->
  usable_scale s8 -> usable_scale s16 -> usable_scale s32 ->
  wf_frame f ->
  size f + MultiplexParser.ResolutionSize res <= 64 ->
  exists f',
    WriteCanFrame.WriteMapped value s8 s16 s32 res f = (Returns tt, f')
    /\ size f' = size f + MultiplexParser.ResolutionSize res
    /\ MultiplexParser.Ignore res (reader f' (size f)) = (Returns tt, reader f' (size f'))
    /\ exists x,
         MultiplexParser.ReadMapped res r8 r16 r32 (reader f' (size f))
         = (Returns x, reader f' (size f')).
Proof.
  intros Hres H8 H16 H32 Hwf Hroom.
  assert (Hint : forall T, resolution_of T = res ->
            exists f',
              WriteCanFrame.WriteMapped value s8 s16 s32 res f = (Returns tt, f')
              /\ size f' = size f + MultiplexParser.ResolutionSize res
              /\ exists x,
                   MultiplexParser.ReadMapped res r8 r16 r32 (reader f' (size f))
                   = (Returns x, reader f' (size f'))).
  { intros T <-. rewrite WriteMapped_integer.
    destruct (Saturate_returns T value (scale_for T s8 s16 s32)) as (q & E & Hq);
      [destruct T; [apply H8|apply H16|apply H32]
      |destruct T; [apply H8|apply H16|apply H32]|].
    rewrite E.
    destruct (Read_after_Write T q f Hwf ltac:(destruct T; exact Hroom))
      as (f' & Ew & Hwf' & Hc & Hread).
    exists f'. split; [exact Ew|]. split.
    - rewrite <- (contents_length f' Hwf'), Hc, length_app, Nat2Z.inj_add,
        (contents_length f Hwf), le_bytes_length. now destruct T.
    - rewrite ReadMapped_integer, Hread. eexists. reflexivity. }
  assert (Hskip : forall f', size f' = size f + MultiplexParser.ResolutionSize res ->
            MultiplexParser.Ignore res (reader f' (size f)) = (Returns tt, reader f' (size f'))).
  { intros f' Hs. unfold MultiplexParser.Ignore, reader, MultiplexParser.set_offset.
    cbn [MultiplexParser.offset_ MultiplexParser.data_ MultiplexParser.size_
         MultiplexParser.remaining_ MultiplexParser.current_resolution_
         MultiplexParser.current_register_].
    now rewrite Hs. }
  destruct res; try (now elim Hres).
  - destruct (Hint int8_t eq_refl) as (f' & E & Hs & Hr). exists f'. auto.
  - destruct (Hint int16_t eq_refl) as (f' & E & Hs & Hr). exists f'. auto.
  - destruct (Hint int32_t eq_refl) as (f' & E & Hs & Hr). exists f'. auto.
  - destruct (ReadMapped_after_WriteMapped_float value s8 s16 s32 r8 r16 r32 f Hwf Hroom)
      as (f' & E & Hc & Hr).
    assert (Hs : size f' = size f + 4).
    { unfold WriteCanFrame.WriteMapped, WriteCanFrame.Write_float in E.
      destruct (Write_repr_append (le_bytes 4 (bits_of_float (float_of_double value))) f Hwf)
        as (f2 & E2 & _ & Hs2 & _); [rewrite le_bytes_length; exact Hroom|].
      rewrite E2 in E. inversion E; subst f2. rewrite Hs2, le_bytes_length. reflexivity. }
    exists f'. split; [exact E|]. split; [exact Hs|]. split; [apply Hskip; exact Hs|].
    eexists. exact Hr.
Qed.

Lemma WriteMapped_writes_what_the_parser_skips_witness :
  exists f',
    WriteCanFrame.WritePosition S754_nan kInt16 empty_frame = (Returns tt, f')
    /\ size f' = 2
    /\ MultiplexParser.Ignore kInt16 (reader f' 0) = (Returns tt, reader f' 2).
Proof.
  destruct (WriteMapped_writes_what_the_parser_skips S754_nan
              (literal 1 100) (literal 1 10000) (literal 1 100000)
              (literal 1 100) (literal 1 10000) (literal 1 100000) kInt16 empty_frame)
    as (f' & E & Hs & Hi & _).
  - discriminate.
  - split; [vm_compute; discriminate|intros s; vm_compute; discriminate].
  - split; [vm_compute; discriminate|intros s; vm_compute; discriminate].
  - split; [vm_compute; discriminate|intros s; vm_compute; discriminate].
  - split; simpl; [reflexivity|lia].
  - simpl; lia.
  - exists f'. split; [exact E|]. split; [exact Hs|].
    change (size empty_frame) with 0 in Hi. rewrite Hs in Hi. exact Hi.
Defined.

(** ** Integers read with [ReadInt] *)

(** A mantissa of the format followed by [k] zero bits rounds to the
    number it came from. *)
Lemma binary_round_aux_shifted (s : bool) (m k : positive) (e : Z) :
  bounded prec64 emax64 m e = true ->
  binary_round_aux prec64 emax64 s (Z.pos (Pos.iter xO m k)) (e - Z.pos k) loc_Exact
  = S754_finite s m e.
Proof.
  intros Hb.
  pose proof (binary_round_shifted prec64 emax64 s m k e Hb) as H.
  unfold binary_round in H. rewrite shl_align_cases in H.
  pose proof Hb as Hb'. unfold bounded in Hb'.
  apply andb_prop in Hb'. destruct Hb' as [Hc _].
  unfold canonical_mantissa in Hc. apply Z.eqb_eq in Hc.
  assert (Hd : Z.pos (digits2_pos (Pos.iter xO m k)) = Z.pos (digits2_pos m) + Z.pos k)
    by (apply (iter_xO_digits m k)).
  rewrite Hd in H.
  replace (Z.pos (digits2_pos m) + Z.pos k + (e - Z.pos k))
    with (Z.pos (digits2_pos m) + e) in H by lia.
  rewrite Hc in H.
  destruct (Z.ltb_spec e (e - Z.pos k)) as [|_]; [lia|]. exact H.
Qed.

(** Multiplying by 1.0 changes nothing. *)
Lemma double_mul_one (x : spec_float) :
  finite_double x -> double_mul x (literal 1 1) = x.
Proof.
  change (literal 1 1) with (S754_finite false 4503599627370496 (-52)).
  destruct x as [s|s| |s m e]; try contradiction; intros Hb.
  - now destruct s.
  - cbn [double_mul SFmul]. unfold double_mul. cbn [SFmul].
    replace (xorb s false) with s by now destruct s.
    replace (m * 4503599627370496)%positive with (Pos.iter xO m 52).
    + exact (binary_round_aux_shifted s m 52 e Hb).
    + apply Pos2Z.inj. rewrite iter_xO_value, Pos2Z.inj_mul. reflexivity.
Qed.

(** An [int] that went through [double] comes back. *)
Lemma int_of_double_of_int (q : Z) :
  numeric_limits_min int32_t <= q <= numeric_limits_max int32_t ->
  int_of_double int32_t (double_of_int q) = Returns q.
Proof.
  intros Hq. unfold numeric_limits_min in Hq. cbn [numeric_limits_max] in Hq.
  destruct (double_of_int_value q ltac:(change (2 ^ 53) with 9007199254740992; lia))
    as [Hf Hv].
  unfold int_of_double.
  rewrite (truncate_scaled_value prec64 emax64 ltac:(reflexivity)
             ltac:(vm_compute; discriminate) (double_of_int q) Hf).
  fold (double_value (double_of_int q)). rewrite Hv.
  change (2 ^ (- emin prec64 emax64)) with double_unit.
  rewrite Z.quot_mul by (vm_compute; discriminate).
  replace (numeric_limits_min int32_t <=? q) with true
    by (symmetry; apply Z.leb_le; unfold numeric_limits_min; cbn [numeric_limits_max]; lia).
  replace (q <=? numeric_limits_max int32_t) with true
    by (symmetry; apply Z.leb_le; cbn [numeric_limits_max]; lia).
  reflexivity.
Qed.

(** [ReadInt] returns the integer that was written at an integer
    resolution, except the minimum of the type: that one stands for NaN,
    and the conversion of NaN to [int] is undefined. *)
Theorem ReadInt_after_Write (T : IntType) (q : Z) (f : CanFrame) :
  numeric_limits_min T <= q <= numeric_limits_max T ->
  wf_frame f ->
  size f + sizeof T <= 64 ->
  exists f',
    WriteCanFrame.Write T q f = (Returns tt, f')
    /\ MultiplexParser.ReadInt (resolution_of T) (reader f' (size f))
       = (if q =? numeric_limits_min T then Undefined else Returns q, reader f' (size f')).
Proof.
  intros Hq Hwf Hroom.
  destruct (Read_after_Write T q f Hwf Hroom) as (f' & Ew & _ & _ & Hread).
  rewrite static_cast_small in Hread by exact Hq.
  exists f'. split; [exact Ew|].
  unfold MultiplexParser.ReadInt, bind. rewrite ReadMapped_integer, Hread.
  unfold MultiplexParser.Nanify.
  destruct (Z.eqb_spec q (numeric_limits_min T)) as [Hmin|Hne].
  - destruct T; reflexivity.
  - assert (H32 : numeric_limits_min int32_t <= q <= numeric_limits_max int32_t).
    { unfold numeric_limits_min in *. destruct T; cbn [numeric_limits_max] in *; lia. }
    destruct (double_of_int_value q) as [Hf _].
    { unfold numeric_limits_min in H32. cbn [numeric_limits_max] in H32.
      change (2 ^ 53) with 9007199254740992. lia. }
    replace (scale_for T (literal 1 1) (literal 1 1) (literal 1 1)) with (literal 1 1)
      by (now destruct T).
    rewrite (double_mul_one _ Hf), (int_of_double_of_int q H32). reflexivity.
Qed.

Lemma ReadInt_after_Write_witness :
  exists f',
    WriteCanFrame.Write int8_t (-128) empty_frame = (Returns tt, f')
    /\ MultiplexParser.ReadInt kInt8 (reader f' 0) = (Undefined, reader f' (size f')).
Proof.
  destruct (ReadInt_after_Write int8_t (-128) empty_frame) as (f' & E & Hr).
  - vm_compute. split; discriminate.
  - split; simpl; [reflexivity|lia].
  - simpl; lia.
  - exists f'. split; [exact E|exact Hr].
Defined.

(** ** The quantizer is symmetric *)

Lemma binary_round_aux_opp (prec emax : Z) (s : bool) (mx ex : Z) (lx : location) :
  binary_round_aux prec emax (negb s) mx ex lx
  = SFopp (binary_round_aux prec emax s mx ex lx).
Proof.
  rewrite !binary_round_aux_core.
  destruct (fst (round_core prec emax mx ex lx)); [reflexivity| |reflexivity].
  now destruct (_ <=? _).
Qed.

Lemma SFdiv_opp_l (prec emax : Z) (x y : spec_float) :
  SFdiv prec emax (SFopp x) y = SFopp (SFdiv prec emax x y).
Proof.
  destruct x as [sx|sx| |sx mx ex], y as [sy|sy| |sy my ey]; cbn [SFopp SFdiv];
    try reflexivity; try (now destruct sx, sy).
  destruct (SFdiv_core_binary prec emax (Z.pos mx) ex (Z.pos my) ey) as [[mz ez] lz].
  replace (xorb (negb sx) sy) with (negb (xorb sx sy)) by (now destruct sx, sy).
  apply binary_round_aux_opp.
Qed.

(** What [Saturate] returns for a finite value, from the quotient. *)
Definition clamped (T : IntType) (x : Z) : Z :=
  if x <? - numeric_limits_max T * double_unit then - numeric_limits_max T
  else if numeric_limits_max T * double_unit <? x then numeric_limits_max T
  else Z.quot x double_unit.

Lemma Saturate_of_quotient (T : IntType) (value scale : spec_float) :
  isfinite value = true ->
  scale <> S754_nan ->
  (forall s, scale <> S754_zero s) ->
  (exists s,
     double_div value scale = S754_infinity s
     /\ Saturate T value scale
        = Returns (if s then - numeric_limits_max T else numeric_limits_max T))
  \/ (finite_double (double_div value scale)
      /\ Saturate T value scale
         = Returns (clamped T (double_value (double_div value scale)))).
Proof.
  intros Hfin Hn Hz.
  pose proof (double_of_max T) as (Fc & Fo & Vc & Vo & Io & Ic).
  assert (Hmax : 0 < numeric_limits_max T) by (destruct T; reflexivity).
  assert (Hunit : 0 < double_unit) by reflexivity.
  destruct (double_div_finite value scale Hfin Hn Hz) as [[s Hinf]|Hf].
  - left. exists s. split; [exact Hinf|].
    unfold Saturate. rewrite Hfin. cbn [negb]. rewrite Hinf, Io, Ic.
    now destruct s.
  - right. split; [exact Hf|]. unfold clamped.
    destruct (Saturate_cases T value scale Hfin Hn Hz)
      as [(Hlo & Hhi & E)|[(Hlo & Hhi & E)|(Hlo & Hhi & _ & _ & _ & E)]];
      rewrite (SFltb_scaled_value prec64 emax64 ltac:(reflexivity) _ _ Hf Fo) in Hlo;
      rewrite (SFltb_scaled_value prec64 emax64 ltac:(reflexivity) _ _ Fc Hf) in Hhi;
      fold (double_value (double_div value scale)) in Hlo, Hhi;
      fold (double_value (SFopp (double_of_int (numeric_limits_max T)))) in Hlo;
      fold (double_value (double_of_int (numeric_limits_max T))) in Hhi;
      rewrite Vo in Hlo; rewrite Vc in Hhi; rewrite E, Hlo; [reflexivity| |];
      rewrite Hhi; reflexivity.
Qed.

Lemma double_value_opp (x : spec_float) : double_value (SFopp x) = - double_value x.
Proof.
  destruct x as [s|s| |s m e]; try reflexivity.
  unfold double_value. cbn [SFopp scaled_value]. destruct s; cbn [negb cond_Zopp]; lia.
Qed.

Lemma finite_double_opp (x : spec_float) : finite_double x -> finite_double (SFopp x).
Proof. destruct x; intros H; exact H. Qed.

Lemma clamped_opp (T : IntType) (x : Z) : clamped T (- x) = - clamped T x.
Proof.
  assert (Hmax : 0 < numeric_limits_max T) by (destruct T; reflexivity).
  assert (Hunit : 0 < double_unit) by reflexivity.
  unfold clamped.
  set (m := numeric_limits_max T * double_unit).
  replace (- numeric_limits_max T * double_unit) with (- m) by (unfold m; lia).
  assert (Hm : 0 < m) by (unfold m; apply Z.mul_pos_pos; assumption).
  destruct (Z.ltb_spec (- x) (- m)), (Z.ltb_spec x (- m)), (Z.ltb_spec m (- x)),
    (Z.ltb_spec m x); try lia.
  apply Z.quot_opp_l. lia.
Qed.

(** For a finite value and a scale that is a number other than zero, the
    integer that encodes the negated value is the negated integer. *)
Theorem Saturate_of_the_negated_value (T : IntType) (value scale : spec_float) :
  isfinite value = true ->
  scale <> S754_nan ->
  (forall s, scale <> S754_zero s) ->
  exists q,
    Saturate T value scale = Returns q
    /\ Saturate T (SFopp value) scale = Returns (- q).
Proof.
  intros Hfin Hn Hz.
  assert (Hfin' : isfinite (SFopp value) = true) by (now destruct value).
  assert (Hdiv : double_div (SFopp value) scale = SFopp (double_div value scale))
    by (apply SFdiv_opp_l).
  destruct (Saturate_of_quotient T value scale Hfin Hn Hz) as [(s & Hinf & E)|(Hf & E)];
    destruct (Saturate_of_quotient T (SFopp value) scale Hfin' Hn Hz)
      as [(s' & Hinf' & E')|(Hf' & E')];
    rewrite Hdiv in *.
  - rewrite Hinf in Hinf'. cbn [SFopp] in Hinf'. inversion Hinf'; subst s'.
    eexists. split; [exact E|]. rewrite E'. destruct s; cbn [negb]; f_equal; lia.
  - rewrite Hinf in Hf'. contradiction.
  - destruct (double_div value scale); try discriminate Hinf'; contradiction.
  - eexists. split; [exact E|]. rewrite E', double_value_opp, clamped_opp. reflexivity.
Qed.

Lemma Saturate_of_the_negated_value_witness :
  exists q,
    Saturate int16_t (literal 119 100) (literal 1 10000) = Returns q
    /\ Saturate int16_t (SFopp (literal 119 100)) (literal 1 10000) = Returns (- q).
Proof.
  apply (Saturate_of_the_negated_value int16_t (literal 119 100) (literal 1 10000)).
  - reflexivity.
  - vm_compute; discriminate.
  - intros s; vm_compute; discriminate.
Defined.

(** ** Parsing a reply *)

(** The resolution of the run in progress is one of the four widths of
    the wire: [kIgnore], the initial value of the member, is replaced
    before the first run starts. *)
Definition run_resolution_known (p : MultiplexParser.t) : Prop :=
  MultiplexParser.remaining_ p = 0 \/ MultiplexParser.current_resolution_ p <> kIgnore.

Definition yields_known (x : outcome (bool * Z * Resolution) * MultiplexParser.t) : Prop :=
  run_resolution_known (snd x)
  /\ forall reg r, fst x = Returns (true, reg, r) -> r <> kIgnore.

Lemma resolution_of_id_known (id : Z) : MultiplexParser.resolution_of_id id <> kIgnore.
Proof.
  unfold MultiplexParser.resolution_of_id.
  repeat match goal with |- context [match ?x with _ => _ end] => destruct x end;
    discriminate.
Qed.

Lemma no_element_known (p : MultiplexParser.t) :
  run_resolution_known p -> yields_known (Returns MultiplexParser.no_element, p).
Proof. intros H. split; [exact H|]. intros reg r E. discriminate E. Qed.

Lemma start_run_known (count : Z) (q : MultiplexParser.t) :
  MultiplexParser.current_resolution_ q <> kIgnore ->
  yields_known (start_run count q).
Proof.
  intros Hq. unfold start_run.
  cbn [MultiplexParser.set_offset MultiplexParser.set_remaining
    MultiplexParser.set_current_register MultiplexParser.offset_ MultiplexParser.size_
    MultiplexParser.current_resolution_ MultiplexParser.current_register_].
  destruct (_ >? _).
  - apply no_element_known. right. exact Hq.
  - split; [right; exact Hq|]. cbn [fst]. intros reg r E. inversion E; subst. exact Hq.
Qed.

Lemma scan_known (fuel : nat) (p : MultiplexParser.t) :
  MultiplexParser.wf p ->
  run_resolution_known p ->
  yields_known (MultiplexParser.scan fuel p).
Proof.
  revert p; induction fuel as [|fuel IH]; intros p Hwf Hk.
  - apply no_element_known. exact Hk.
  - rewrite (scan_in_bounds fuel p Hwf). unfold scan_body.
    destruct (Z.ltb_spec (MultiplexParser.offset_ p) (MultiplexParser.size_ p)) as [Hlt|];
      [|apply no_element_known; exact Hk].
    cbv zeta. destruct Hwf as [Hw0 Hws].
    destruct (_ =? Multiplex.kNop).
    { apply IH; [split; simpl; lia|exact Hk]. }
    destruct (_ >=? _); [apply no_element_known; exact Hk|].
    destruct (_ && _); [|apply no_element_known; exact Hk].
    destruct (_ =? 0).
    + destruct (_ >=? _).
      { apply no_element_known. right. apply resolution_of_id_known. }
      destruct (_ =? 0).
      * apply IH; [split; simpl; lia|]. right. apply resolution_of_id_known.
      * apply start_run_known. apply resolution_of_id_known.
    + apply start_run_known. apply resolution_of_id_known.
Qed.

Lemma next_known (p : MultiplexParser.t) :
  MultiplexParser.wf p ->
  run_resolution_known p ->
  yields_known (MultiplexParser.next p).
Proof.
  intros Hwf Hk. unfold MultiplexParser.next.
  destruct (_ >=? _); [apply no_element_known; exact Hk|].
  destruct (MultiplexParser.remaining_ p =? 0) eqn:Er; cbn [negb].
  - apply scan_known; assumption.
  - assert (Hres : MultiplexParser.current_resolution_ p <> kIgnore).
    { destruct Hk as [H0|H]; [|exact H]. rewrite H0 in Er. discriminate Er. }
    cbn [MultiplexParser.set_remaining MultiplexParser.set_current_register
         MultiplexParser.offset_ MultiplexParser.size_ MultiplexParser.current_resolution_
         MultiplexParser.current_register_].
    destruct (_ >? _).
    + apply no_element_known. right. exact Hres.
    + split; [right; exact Hres|]. cbn [fst]. intros reg r E. inversion E; subst. exact Hres.
Qed.

(** A value that lies within the buffer is read without an exception,
    and the cursor moves past it. *)
Lemma ReadMapped_in_buffer (res : Resolution) (s8 s16 s32 : spec_float)
    (p : MultiplexParser.t) :
  res <> kIgnore ->
  MultiplexParser.offset_ p + MultiplexParser.ResolutionSize res <= MultiplexParser.size_ p ->
  exists x,
    MultiplexParser.ReadMapped res s8 s16 s32 p
    = (Returns x,
       MultiplexParser.set_offset p
         (MultiplexParser.offset_ p + MultiplexParser.ResolutionSize res)).
Proof.
  intros Hres Hfit.
  destruct res; try (now elim Hres);
    cbn [MultiplexParser.ResolutionSize] in Hfit;
    unfold MultiplexParser.ReadMapped, MultiplexParser.Read, MultiplexParser.Read_float,
      bind, MultiplexParser.Read_repr, ret;
    cbn [sizeof];
    match goal with |- context [?a >? ?b] =>
      destruct (Z.gtb_spec a b); [lia|]
    end;
    eexists; reflexivity.
Qed.

(** Neither an exception nor a call of [abort]. *)
Definition no_exception {A} (o : outcome A) : Prop :=
  match o with
  | Throws _ | Aborts => False
  | Returns _ | Undefined => True
  end.

(** What the [switch] of [ParseQueryResult] does with an element whose
    value lies within the buffer. *)
Definition stores (res : Resolution) (p : MultiplexParser.t)
    (x : outcome QueryResult.t * MultiplexParser.t) : Prop :=
  no_exception (fst x)
  /\ snd x = MultiplexParser.set_offset p
               (MultiplexParser.offset_ p + MultiplexParser.ResolutionSize res).

Lemma ReadInt_in_buffer (res : Resolution) (p : MultiplexParser.t)
    (k : Z -> QueryResult.t) :
  res <> kIgnore ->
  MultiplexParser.offset_ p + MultiplexParser.ResolutionSize res <= MultiplexParser.size_ p ->
  stores res p (bind (MultiplexParser.ReadInt res) (fun v => ret (k v)) p).
Proof.
  intros Hres Hfit. unfold MultiplexParser.ReadInt, bind.
  destruct (ReadMapped_in_buffer res (literal 1 1) (literal 1 1) (literal 1 1) p Hres Hfit)
    as (x & E).
  rewrite E. unfold int_of_double.
  destruct (truncate x); [destruct (_ && _)|]; split; cbn; auto.
Qed.

Lemma Read_double_in_buffer (res : Resolution) (s8 s16 s32 : spec_float)
    (p : MultiplexParser.t) (k : spec_float -> QueryResult.t) :
  res <> kIgnore ->
  MultiplexParser.offset_ p + MultiplexParser.ResolutionSize res <= MultiplexParser.size_ p ->
  stores res p (bind (MultiplexParser.ReadMapped res s8 s16 s32) (fun v => ret (k v)) p).
Proof.
  intros Hres Hfit. unfold bind.
  destruct (ReadMapped_in_buffer res s8 s16 s32 p Hres Hfit) as (x & E).
  rewrite E. split; cbn; auto.
Qed.

Lemma store_register_in_buffer (reg : Z) (res : Resolution) (result : QueryResult.t)
    (p : MultiplexParser.t) :
  res <> kIgnore ->
  MultiplexParser.offset_ p + MultiplexParser.ResolutionSize res <= MultiplexParser.size_ p ->
  stores res p (store_register reg res result p).
Proof.
  intros Hres Hfit. unfold store_register.
  repeat match goal with
         | |- context [if ?c then _ else _] => destruct c
         end;
    try (apply ReadInt_in_buffer; assumption);
    try (apply Read_double_in_buffer; assumption).
  split; cbn; auto.
Qed.

(** One round of the loop of [ParseQueryResult]. *)
Definition parse_round (rest : QueryResult.t -> M MultiplexParser.t QueryResult.t)
    (result : QueryResult.t) : M MultiplexParser.t QueryResult.t :=
  fun p =>
    match MultiplexParser.next p with
    | (Returns (true, reg, res), p') =>
        match store_register reg res result p' with
        | (Returns result', p'') => rest result' p''
        | (Throws e, p'') => (Throws e, p'')
        | (Aborts, p'') => (Aborts, p'')
        | (Undefined, p'') => (Undefined, p'')
        end
    | (Returns (false, _, _), p') => (Returns result, p')
    | (Throws e, p') => (Throws e, p')
    | (Aborts, p') => (Aborts, p')
    | (Undefined, p') => (Undefined, p')
    end.

Lemma parse_registers_round (fuel : nat) (result : QueryResult.t) (p : MultiplexParser.t) :
  parse_registers (S fuel) result p = parse_round (parse_registers fuel) result p.
Proof.
  cbn [parse_registers]. unfold parse_round, bind.
  destruct (MultiplexParser.next p) as [[[[[|] reg] res]| | |] p']; reflexivity.
Qed.

Lemma parse_registers_rounds (fuel extra : nat) (result : QueryResult.t)
    (p : MultiplexParser.t) :
  MultiplexParser.wf p ->
  run_resolution_known p ->
  MultiplexParser.size_ p - MultiplexParser.offset_ p < Z.of_nat fuel ->
  parse_registers (fuel + extra) result p = parse_registers fuel result p
  /\ no_exception (fst (parse_registers fuel result p)).
Proof.
  revert result p; induction fuel as [|fuel IH]; intros result p Hwf Hk Hf.
  - split; [|exact I]. destruct extra as [|extra]; [reflexivity|].
    change (0 + S extra)%nat with (S extra). rewrite parse_registers_round.
    unfold parse_round, MultiplexParser.next.
    destruct (Z.geb_spec (MultiplexParser.offset_ p) (MultiplexParser.size_ p)); [|lia].
    reflexivity.
  - change (S fuel + extra)%nat with (S (fuel + extra)).
    rewrite !parse_registers_round. unfold parse_round.
    destruct (next_satisfies_post p Hwf) as (r & Hr & Hd & Hs & Ho & Hb & _ & Hy).
    destruct (next_known p Hwf Hk) as [Hk' Hres].
    destruct (MultiplexParser.next p) as [o p']. cbn [fst snd] in *. subst o.
    destruct r as [[[|] reg] res]; [|split; [reflexivity|exact I]].
    specialize (Hy eq_refl). cbn [snd] in Hy. specialize (Hres reg res eq_refl).
    assert (Hfit : MultiplexParser.offset_ p' + MultiplexParser.ResolutionSize res
                   <= MultiplexParser.size_ p') by lia.
    destruct (store_register_in_buffer reg res result p' Hres Hfit) as [Hne Hp''].
    destruct (store_register reg res result p') as [o p'']. cbn [fst snd] in *.
    destruct o as [result'| | |]; try (split; [reflexivity|exact Hne]).
    pose proof (ResolutionSize_pos res). destruct Hwf as [Hw0 Hws].
    apply IH; subst p''.
    + split; simpl; rewrite ?Hd, ?Hs; lia.
    + exact Hk'.
    + simpl. lia.
Qed.

(** [ParseQueryResult] lets no exception escape, whatever the bytes: the
    loop ends after at most one round per byte, [Read] is only called for
    a value that [next] found within the buffer, and [ReadMapped] only at
    one of the four widths. What remains is the conversion to [int] in
    [ReadInt], undefined for a NaN and for a value out of range. *)
Theorem ParseQueryResult_lets_no_exception_escape (data : list Z) (size : Z) :
  uint8 size <= Z.of_nat (length data) ->
  (forall extra,
      fst (parse_registers (S (Z.to_nat (uint8 size)) + extra) QueryResult.initial
             (MultiplexParser.make data size))
      = ParseQueryResult data size)
  /\ (ParseQueryResult data size = Undefined
      \/ exists result, ParseQueryResult data size = Returns result).
Proof.
  intros Hlen.
  assert (Hu : 0 <= uint8 size < 256) by (unfold uint8; apply Z.mod_pos_bound; lia).
  assert (Hwf : MultiplexParser.wf (MultiplexParser.make data size))
    by (split; simpl; lia).
  assert (Hk : run_resolution_known (MultiplexParser.make data size))
    by (left; reflexivity).
  split.
  - intros extra. unfold ParseQueryResult. f_equal.
    apply parse_registers_rounds; [exact Hwf|exact Hk|simpl; lia].
  - destruct (parse_registers_rounds (S (Z.to_nat (uint8 size))) 0 QueryResult.initial
                (MultiplexParser.make data size) Hwf Hk ltac:(simpl; lia)) as [_ Hne].
    unfold ParseQueryResult.
    destruct (fst (parse_registers _ _ _)) as [result| | |]; try contradiction.
    + right. exists result. reflexivity.
    + left. reflexivity.
Qed.

Lemma ParseQueryResult_lets_no_exception_escape_witness :
  ParseQueryResult [0x21; 0x00; 0x80] 3 = Undefined
  \/ exists result, ParseQueryResult [0x21; 0x00; 0x80] 3 = Returns result.
Proof.
  apply (ParseQueryResult_lets_no_exception_escape [0x21; 0x00; 0x80] 3).
  vm_compute. discriminate.
Defined.

(** ** A block of registers, written and parsed *)

(** The frame that holds the value of a write alone. *)
Definition alone (write : M CanFrame unit) : CanFrame := snd (write empty_frame).

(** A write of a value of resolution [r] appends the same bytes to every
    frame with room for them: the bytes of the frame that holds the value
    alone. *)
Definition writes_alone (write : M CanFrame unit) (r : Resolution) : Prop :=
  r <> kIgnore ->
  Z.of_nat (length (contents (alone write))) = MultiplexParser.ResolutionSize r
  /\ forall g, wf_frame g -> size g + MultiplexParser.ResolutionSize r <= 64 ->
     exists g',
       write g = (Returns tt, g')
       /\ wf_frame g'
       /\ contents g' = contents g ++ contents (alone write).

(** The bytes of the registers [rs], numbered from [start + o], as the
    calls of a combiner and the writes [ws] of the values append them
    when the resolution before them is [cur]: nothing for an ignored
    register, the value alone within a run, and the framing of the run
    before the value of its first register. *)
Inductive block (base start : Z)
  : Resolution -> Z -> list Resolution -> list (M CanFrame unit) -> list Z -> Prop :=
| block_end (cur : Resolution) (o : Z) : block base start cur o [] [] []
| block_ignored (cur : Resolution) (o : Z) (rest : list Resolution)
    (write : M CanFrame unit) (ws : list (M CanFrame unit)) (bs : list Z) :
    block base start kIgnore (o + 1) rest ws bs ->
    block base start cur o (kIgnore :: rest) (write :: ws) bs
| block_same (r : Resolution) (o : Z) (rest : list Resolution)
    (write : M CanFrame unit) (ws : list (M CanFrame unit)) (bs : list Z) :
    r <> kIgnore ->
    Z.of_nat (length (contents (alone write))) = MultiplexParser.ResolutionSize r ->
    block base start r (o + 1) rest ws bs ->
    block base start r o (r :: rest) (write :: ws) (contents (alone write) ++ bs)
| block_new (cur r : Resolution) (o : Z) (rest : list Resolution)
    (write : M CanFrame unit) (ws : list (M CanFrame unit)) (bs : list Z) :
    r <> kIgnore ->
    cur <> r ->
    Z.of_nat (length (contents (alone write))) = MultiplexParser.ResolutionSize r ->
    block base start r (o + 1) rest ws bs ->
    block base start cur o (r :: rest) (write :: ws)
      (framing_bytes base r (1 + WriteCombiner.run_ahead r rest) (start + o)
       ++ contents (alone write) ++ bs).

Lemma writes_alone_appends (write : M CanFrame unit) (r : Resolution) :
  writes_alone write r -> writes_value MultiplexParser.ResolutionSize write r.
Proof.
  intros H Hr g Hg Hroom. destruct (H Hr) as [Hlen Happ].
  destruct (Happ g Hg Hroom) as (g' & E & Hg' & Hc).
  exists g', (contents (alone write)). auto.
Qed.

Lemma write_each_block (ws : list (M CanFrame unit))
    (rs : list Resolution) (w : WriteCombiner.t) (f : CanFrame) :
  Forall2 writes_alone ws rs ->
  skipn (Z.to_nat (WriteCombiner.offset_ w)) (WriteCombiner.resolutions_ w) = rs ->
  0 <= WriteCombiner.offset_ w ->
  0 <= WriteCombiner.start_register_ w ->
  WriteCombiner.start_register_ w + WriteCombiner.offset_ w + Z.of_nat (length rs) <= 128 ->
  wf_frame f ->
  size f + framing_length (WriteCombiner.current_resolution_ w) rs
  + values_length MultiplexParser.ResolutionSize rs <= 64 ->
  exists w' f' bs,
    write_each ws (w, f) = (Returns tt, (w', f'))
    /\ WriteCombiner.offset_ w' = WriteCombiner.offset_ w + Z.of_nat (length rs)
    /\ WriteCombiner.resolutions_ w' = WriteCombiner.resolutions_ w
    /\ wf_frame f'
    /\ contents f' = contents f ++ bs
    /\ block (WriteCombiner.base_command_ w) (WriteCombiner.start_register_ w)
         (WriteCombiner.current_resolution_ w) (WriteCombiner.offset_ w) rs ws bs.
Proof.
  assert (Hwidth : forall r, 0 <= MultiplexParser.ResolutionSize r)
    by (intros r; pose proof (ResolutionSize_pos r); lia).
  intros Hws. revert w f.
  induction Hws as [|write r ws rest Hwrite Hws IH]; intros w f Hskip Ho Hs Hreg Hwf Hroom.
  - exists w, f, []. cbn [write_each ret length].
    rewrite app_nil_r. split; [reflexivity|]. split; [simpl; lia|].
    split; [reflexivity|]. split; [assumption|]. split; [reflexivity|]. constructor.
  - apply skipn_cons_inv in Hskip. destruct Hskip as [Hn Hrest].
    cbn [length framing_length values_length] in *.
    pose proof (framing_length_nonneg r rest) as Hf0.
    pose proof (values_length_nonneg MultiplexParser.ResolutionSize rest Hwidth) as Hv0.
    assert (Hst : size_t (WriteCombiner.start_register_ w + WriteCombiner.offset_ w)
                  = WriteCombiner.start_register_ w + WriteCombiner.offset_ w)
      by (unfold size_t; apply Z.mod_small; lia).
    assert (Hso : size_t (WriteCombiner.offset_ w + 1) = WriteCombiner.offset_ w + 1)
      by (unfold size_t; apply Z.mod_small; lia).
    assert (Hcb : Z.of_nat (length (call_bytes w r))
                  = if Resolution_eqb (WriteCombiner.current_resolution_ w) r
                       || Resolution_eqb r kIgnore then 0
                    else if 1 + WriteCombiner.run_ahead r rest <=? 3 then 2 else 3).
    { unfold call_bytes. destruct (_ || _); [reflexivity|].
      rewrite framing_bytes_length, Hrest. reflexivity. }
    assert (Hv1 : 0 <= (if Resolution_eqb r kIgnore then 0
                        else MultiplexParser.ResolutionSize r))
      by (specialize (Hwidth r); destruct (Resolution_eqb r kIgnore); lia).
    set (fr := if Resolution_eqb (WriteCombiner.current_resolution_ w) r
                  || Resolution_eqb r kIgnore then 0
               else if 1 + WriteCombiner.run_ahead r rest <=? 3 then 2 else 3) in *.
    set (vl := if Resolution_eqb r kIgnore then 0 else MultiplexParser.ResolutionSize r) in *.
    assert (Hfr : 0 <= fr) by (rewrite <- Hcb; lia).
    destruct (MaybeWrite_step w f r Hn Hwf ltac:(lia) ltac:(lia)) as (f1 & E1 & Hwf1 & Hc1).
    assert (Hs1 : size f1 = size f + Z.of_nat (length (call_bytes w r))).
    { rewrite <- (contents_length f1 Hwf1), Hc1, length_app, Nat2Z.inj_add,
        (contents_length f Hwf). reflexivity. }
    cbn [write_each]. unfold bind at 1. unfold write_if_requested, bind at 1.
    rewrite E1. cbn [fst snd].
    assert (Hvalue : exists f2 bs2,
               (if negb (Resolution_eqb r kIgnore)
                then WriteCombiner.on_frame write
                else ret tt) (after_call w r, f1) = (Returns tt, (after_call w r, f2))
               /\ wf_frame f2
               /\ contents f2 = contents f1 ++ bs2
               /\ Z.of_nat (length bs2) = vl
               /\ (r = kIgnore -> bs2 = [])
               /\ (r <> kIgnore ->
                   bs2 = contents (alone write)
                   /\ Z.of_nat (length (contents (alone write)))
                      = MultiplexParser.ResolutionSize r)).
    { unfold vl in *. destruct (Resolution_eqb r kIgnore) eqn:Er; cbn [negb].
      - apply Resolution_eqb_eq in Er. exists f1, []. rewrite app_nil_r.
        split; [reflexivity|]. split; [assumption|]. split; [reflexivity|].
        split; [reflexivity|]. split; [reflexivity|]. intros H. now elim H.
      - apply Resolution_eqb_neq in Er.
        destruct (Hwrite Er) as [Hlen Happ].
        destruct (Happ f1 Hwf1 ltac:(lia)) as (f2 & E2 & Hwf2 & Hc2).
        exists f2, (contents (alone write)). unfold WriteCombiner.on_frame.
        cbn [fst snd]. rewrite E2.
        split; [reflexivity|]. split; [assumption|]. split; [assumption|].
        split; [assumption|]. split; [intros ->; now elim Er|]. intros _. now split. }
    destruct Hvalue as (f2 & bs2 & E2 & Hwf2 & Hc2 & Hl2 & Hnil & Halone).
    rewrite E2.
    assert (Hs2 : size f2 = size f1 + Z.of_nat (length bs2)).
    { rewrite <- (contents_length f2 Hwf2), Hc2, length_app, Nat2Z.inj_add,
        (contents_length f1 Hwf1). reflexivity. }
    destruct (IH (after_call w r) f2) as (w' & f' & bs & E & Ho' & Hres' & Hwf' & Hc' & Hb').
    + cbn [after_call WriteCombiner.set_current_resolution WriteCombiner.set_offset
           WriteCombiner.offset_ WriteCombiner.resolutions_].
      rewrite Hso. replace (Z.to_nat (WriteCombiner.offset_ w + 1))
        with (S (Z.to_nat (WriteCombiner.offset_ w))) by lia.
      exact Hrest.
    + cbn. lia.
    + cbn. lia.
    + cbn [after_call WriteCombiner.set_current_resolution WriteCombiner.set_offset
           WriteCombiner.offset_ WriteCombiner.start_register_]. lia.
    + exact Hwf2.
    + cbn [after_call WriteCombiner.set_current_resolution WriteCombiner.set_offset
           WriteCombiner.current_resolution_]. lia.
    + exists w', f', (call_bytes w r ++ bs2 ++ bs).
      split; [exact E|].
      cbn [after_call WriteCombiner.set_current_resolution WriteCombiner.set_offset
           WriteCombiner.offset_ WriteCombiner.resolutions_ WriteCombiner.base_command_
           WriteCombiner.start_register_ WriteCombiner.current_resolution_]
        in Ho', Hres', Hb'.
      rewrite Hso in Hb'.
      split; [lia|]. split; [exact Hres'|]. split; [exact Hwf'|]. split.
      * rewrite Hc', Hc2, Hc1, <- !app_assoc. reflexivity.
      * unfold call_bytes. rewrite Hrest, Hst. unfold vl in Hl2.
        destruct (Resolution_eqb r kIgnore) eqn:Er.
        { apply Resolution_eqb_eq in Er. subst r. rewrite orb_true_r, (Hnil eq_refl).
          cbn [app]. apply block_ignored. exact Hb'. }
        apply Resolution_eqb_neq in Er. rewrite orb_false_r.
        destruct (Halone Er) as [-> Hlen].
        destruct (Resolution_eqb (WriteCombiner.current_resolution_ w) r) eqn:Ec.
        { apply Resolution_eqb_eq in Ec. rewrite Ec. cbn [app].
          apply block_same; assumption. }
        apply Resolution_eqb_neq in Ec. apply block_new; assumption.
Qed.

Lemma run_ahead_length (r : Resolution) (rest : list Resolution) :
  WriteCombiner.run_ahead r rest <= Z.of_nat (length rest).
Proof.
  induction rest as [|x rest IH]; cbn [WriteCombiner.run_ahead length]; [lia|].
  destruct (Resolution_eqb x r); lia.
Qed.

(** The parser after it has yielded an element. *)
Definition yielded (p : MultiplexParser.t) (offset remaining : Z) (r : Resolution)
    (next_register : Z) : MultiplexParser.t :=
  {| MultiplexParser.data_ := MultiplexParser.data_ p;
     MultiplexParser.size_ := MultiplexParser.size_ p;
     MultiplexParser.offset_ := offset;
     MultiplexParser.remaining_ := remaining;
     MultiplexParser.current_resolution_ := r;
     MultiplexParser.current_register_ := next_register |}.

Ltac same_parser_state :=
  f_equal;
  unfold yielded, MultiplexParser.set_offset, MultiplexParser.set_current_resolution,
    MultiplexParser.set_remaining, MultiplexParser.set_current_register;
  cbn [MultiplexParser.offset_ MultiplexParser.size_ MultiplexParser.data_
       MultiplexParser.current_resolution_ MultiplexParser.current_register_
       MultiplexParser.remaining_];
  f_equal; try (simpl; lia); try (unfold uint32; apply Z.mod_small; lia).

(** Within a run, [next] yields the next register of the run. *)
Lemma next_within_a_run (p : MultiplexParser.t) :
  MultiplexParser.remaining_ p <> 0 ->
  MultiplexParser.offset_ p
  + MultiplexParser.ResolutionSize (MultiplexParser.current_resolution_ p)
  <= MultiplexParser.size_ p ->
  0 <= MultiplexParser.current_register_ p <= 127 ->
  MultiplexParser.next p
  = (Returns (true, MultiplexParser.current_register_ p,
              MultiplexParser.current_resolution_ p),
     yielded p (MultiplexParser.offset_ p) (MultiplexParser.remaining_ p - 1)
       (MultiplexParser.current_resolution_ p) (MultiplexParser.current_register_ p + 1)).
Proof.
  intros Hrem Hfit Hreg. unfold MultiplexParser.next.
  pose proof (ResolutionSize_pos (MultiplexParser.current_resolution_ p)).
  destruct (Z.geb_spec (MultiplexParser.offset_ p) (MultiplexParser.size_ p)); [lia|].
  destruct (Z.eqb_spec (MultiplexParser.remaining_ p) 0); [contradiction|]. cbn [negb].
  cbn [MultiplexParser.set_remaining MultiplexParser.set_current_register
       MultiplexParser.offset_ MultiplexParser.size_ MultiplexParser.current_resolution_
       MultiplexParser.current_register_ MultiplexParser.data_ MultiplexParser.remaining_].
  destruct (Z.gtb_spec (MultiplexParser.offset_ p
              + MultiplexParser.ResolutionSize (MultiplexParser.current_resolution_ p))
              (MultiplexParser.size_ p)); [lia|].
  same_parser_state.
Qed.

Lemma nth_after {A} (pre l post : list A) (k : nat) (d : A) :
  (k < length l)%nat ->
  nth (length pre + k) (pre ++ l ++ post) d = nth k l d.
Proof.
  intros Hk. rewrite app_nth2_plus. apply app_nth1. exact Hk.
Qed.

(** At the framing of a run, as a combiner with the base command of the
    replies writes it, [next] yields the first register of the run. *)
Lemma next_at_a_new_run (p : MultiplexParser.t) (pre post : list Z)
    (r : Resolution) (count reg : Z) :
  let framing := framing_bytes 0x20 r count reg in
  MultiplexParser.data_ p = pre ++ framing ++ post ->
  MultiplexParser.offset_ p = Z.of_nat (length pre) ->
  MultiplexParser.size_ p <= Z.of_nat (length (MultiplexParser.data_ p)) ->
  Z.of_nat (length pre) + Z.of_nat (length framing) + MultiplexParser.ResolutionSize r
  <= MultiplexParser.size_ p ->
  MultiplexParser.remaining_ p = 0 ->
  r <> kIgnore ->
  1 <= count <= 255 ->
  0 <= reg <= 127 ->
  MultiplexParser.next p
  = (Returns (true, reg, r),
     yielded p (MultiplexParser.offset_ p + Z.of_nat (length framing)) (count - 1) r
       (reg + 1)).
Proof.
  intros framing Hdata Hoff Hlen Hfit Hrem Hr Hcount Hreg.
  pose proof (ResolutionSize_pos r) as Hsz.
  assert (Hwf : MultiplexParser.wf p) by (split; lia).
  pose proof (framing_bytes_length 0x20 r count reg) as Hfl. fold framing in Hfl.
  destruct (framing_bytes_fields 0x20 r count reg ltac:(lia) eq_refl Hr ltac:(lia) Hreg)
    as (opcode & Hid & Hbase & Hshort & Hlong).
  change (static_cast int8_t 0x20) with 0x20 in Hshort, Hlong.
  fold framing in Hshort, Hlong. clearbody framing. clear Hfl.
  assert (Hbits : 0 <= width_bits r <= 12) by (destruct r; simpl; lia).
  assert (Hbyte : forall k, (k < length framing)%nat ->
            nth (Z.to_nat (MultiplexParser.offset_ p + Z.of_nat k))
              (MultiplexParser.data_ p) 0 = nth k framing 0).
  { intros k Hk. rewrite Hoff, Hdata.
    replace (Z.to_nat (Z.of_nat (length pre) + Z.of_nat k)) with (length pre + k)%nat by lia.
    apply nth_after. exact Hk. }
  unfold MultiplexParser.next.
  destruct (Z.geb_spec (MultiplexParser.offset_ p) (MultiplexParser.size_ p)); [lia|].
  rewrite Hrem. cbn [Z.eqb negb].
  destruct (Z.to_nat (MultiplexParser.size_ p - MultiplexParser.offset_ p)) as [|fuel] eqn:Ef;
    [lia|].
  rewrite (scan_in_bounds fuel p Hwf). unfold scan_body, byte_at.
  destruct (Z.ltb_spec (MultiplexParser.offset_ p) (MultiplexParser.size_ p)); [|lia].
  cbv zeta.
  cbn [MultiplexParser.set_offset MultiplexParser.set_current_resolution
       MultiplexParser.offset_ MultiplexParser.size_ MultiplexParser.data_].
  destruct (Z.leb_spec count 3) as [Hle|Hgt].
  - destruct (Hshort Hle) as (H3 & Hop & Hfb).
    pose proof (Hbyte 0%nat ltac:(rewrite Hfb; simpl; lia)) as Hb0.
    pose proof (Hbyte 1%nat ltac:(rewrite Hfb; simpl; lia)) as Hb1.
    subst framing. cbn [nth] in Hb0, Hb1. cbn [length] in Hfit |- *.
    rewrite Z.add_0_r in Hb0. change (Z.of_nat 1) with 1 in Hb1.
    rewrite Hb0.
    destruct (Z.eqb_spec opcode Multiplex.kNop) as [Hnop|_];
      [unfold Multiplex.kNop in Hnop; lia|].
    destruct (Z.geb_spec (MultiplexParser.offset_ p + 1) (MultiplexParser.size_ p)); [lia|].
    destruct (Z.geb_spec opcode 0x20); [|lia].
    destruct (Z.ltb_spec opcode 0x30); [|lia]. cbn [andb].
    rewrite H3.
    destruct (Z.eqb_spec count 0); [lia|].
    unfold start_run, byte_at.
    cbn [MultiplexParser.set_offset MultiplexParser.set_current_resolution
         MultiplexParser.set_remaining MultiplexParser.set_current_register
         MultiplexParser.offset_ MultiplexParser.size_ MultiplexParser.data_
         MultiplexParser.current_resolution_ MultiplexParser.current_register_
         MultiplexParser.remaining_].
    rewrite Hb1, Hid.
    destruct (Z.gtb_spec (MultiplexParser.offset_ p + 1 + 1 + MultiplexParser.ResolutionSize r)
                (MultiplexParser.size_ p)); [lia|].
    same_parser_state.
  - destruct (Hlong Hgt) as (H3 & Hop & Hfb).
    pose proof (Hbyte 0%nat ltac:(rewrite Hfb; simpl; lia)) as Hb0.
    pose proof (Hbyte 1%nat ltac:(rewrite Hfb; simpl; lia)) as Hb1.
    pose proof (Hbyte 2%nat ltac:(rewrite Hfb; simpl; lia)) as Hb2.
    subst framing. cbn [nth] in Hb0, Hb1, Hb2. cbn [length] in Hfit |- *.
    rewrite Z.add_0_r in Hb0. change (Z.of_nat 1) with 1 in Hb1.
    change (Z.of_nat 2) with 2 in Hb2.
    assert (Hu : uint8 count = count) by (unfold uint8; apply Z.mod_small; lia).
    rewrite Hu in Hb1.
    rewrite Hb0.
    destruct (Z.eqb_spec opcode Multiplex.kNop) as [Hnop|_];
      [unfold Multiplex.kNop in Hnop; lia|].
    destruct (Z.geb_spec (MultiplexParser.offset_ p + 1) (MultiplexParser.size_ p)); [lia|].
    destruct (Z.geb_spec opcode 0x20); [|lia].
    destruct (Z.ltb_spec opcode 0x30); [|lia]. cbn [andb].
    rewrite H3. cbn [Z.eqb].
    rewrite Hb1.
    destruct (Z.geb_spec (MultiplexParser.offset_ p + 1 + 1) (MultiplexParser.size_ p));
      [lia|].
    destruct (Z.eqb_spec count 0); [lia|].
    unfold start_run, byte_at.
    cbn [MultiplexParser.set_offset MultiplexParser.set_current_resolution
         MultiplexParser.set_remaining MultiplexParser.set_current_register
         MultiplexParser.offset_ MultiplexParser.size_ MultiplexParser.data_
         MultiplexParser.current_resolution_ MultiplexParser.current_register_
         MultiplexParser.remaining_].
    replace (MultiplexParser.offset_ p + 1 + 1) with (MultiplexParser.offset_ p + 2) by lia.
    rewrite Hb2, Hid.
    destruct (Z.gtb_spec (MultiplexParser.offset_ p + 2 + 1 + MultiplexParser.ResolutionSize r)
                (MultiplexParser.size_ p)); [lia|].
    same_parser_state.
Qed.

Lemma nth_middle_padding {A} (pre post : list A) (x : A) (k : nat) (d : A) :
  nth (length pre) (pre ++ repeat x (S k) ++ post) d = x.
Proof.
  rewrite app_nth2 by lia. rewrite Nat.sub_diag. reflexivity.
Qed.

(** Padding is skipped: over bytes that are all [kNop] the loop of [next]
    runs to the end of the buffer and finds no element. *)
Lemma scan_over_padding (fuel : nat) (p : MultiplexParser.t) (pre post : list Z) (k : nat) :
  MultiplexParser.data_ p = pre ++ repeat Multiplex.kNop k ++ post ->
  MultiplexParser.offset_ p = Z.of_nat (length pre) ->
  MultiplexParser.size_ p = Z.of_nat (length pre) + Z.of_nat k ->
  fst (MultiplexParser.scan fuel p) = Returns MultiplexParser.no_element.
Proof.
  revert p pre k; induction fuel as [|fuel IH]; intros p pre k Hdata Hoff Hsize;
    [reflexivity|].
  assert (Hwf : MultiplexParser.wf p).
  { split; [lia|]. split; [lia|].
    rewrite Hsize, Hdata, !length_app, repeat_length, !Nat2Z.inj_add. lia. }
  rewrite (scan_in_bounds fuel p Hwf). unfold scan_body, byte_at.
  destruct (Z.ltb_spec (MultiplexParser.offset_ p) (MultiplexParser.size_ p)) as [Hlt|];
    [|reflexivity].
  destruct k as [|k]; [lia|].
  cbv zeta. rewrite Hoff, Nat2Z.id, Hdata, nth_middle_padding.
  rewrite Z.eqb_refl.
  apply (IH _ (pre ++ [Multiplex.kNop]) k).
  - cbn [MultiplexParser.set_offset MultiplexParser.data_]. rewrite Hdata, <- app_assoc.
    reflexivity.
  - cbn [MultiplexParser.set_offset MultiplexParser.offset_].
    rewrite length_app, Nat2Z.inj_add. simpl. lia.
  - cbn [MultiplexParser.set_offset MultiplexParser.size_].
    rewrite length_app, Nat2Z.inj_add. simpl. lia.
Qed.

(** The registers of a block that are written: those whose resolution
    is not [kIgnore], with their numbers. *)
Fixpoint requested (reg : Z) (rs : list Resolution) : list (Z * Resolution) :=
  match rs with
  | [] => []
  | r :: rest =>
      if Resolution_eqb r kIgnore then requested (reg + 1) rest
      else (reg, r) :: requested (reg + 1) rest
  end.

Ltac parser_fields :=
  unfold MultiplexParser.Ignore, yielded, MultiplexParser.set_offset;
  cbn [snd MultiplexParser.offset_ MultiplexParser.size_ MultiplexParser.data_
       MultiplexParser.current_resolution_ MultiplexParser.current_register_
       MultiplexParser.remaining_].

Lemma elements_of_block (start : Z) (cur : Resolution) (o : Z)
    (rs : list Resolution) (ws : list (M CanFrame unit)) (bs : list Z) :
  block 0x20 start cur o rs ws bs ->
  0 <= start -> 0 <= o ->
  start + o + Z.of_nat (length rs) <= 128 ->
  forall (p : MultiplexParser.t) (pre post : list Z) (padding fuel : nat),
    MultiplexParser.data_ p = pre ++ bs ++ repeat Multiplex.kNop padding ++ post ->
    MultiplexParser.offset_ p = Z.of_nat (length pre) ->
    MultiplexParser.size_ p
    = Z.of_nat (length pre) + Z.of_nat (length bs) + Z.of_nat padding ->
    MultiplexParser.remaining_ p
    = (if Resolution_eqb cur kIgnore then 0 else WriteCombiner.run_ahead cur rs) ->
    (MultiplexParser.remaining_ p <> 0 ->
     MultiplexParser.current_resolution_ p = cur
     /\ MultiplexParser.current_register_ p = start + o) ->
    (length bs <= fuel)%nat ->
    map fst (MultiplexParser.elements fuel p) = requested (start + o) rs.
Proof.
  intros B Hs.
  induction B as [cur o|cur o rest write ws bs B IH|r o rest write ws bs Hr Hv B IH
                  |cur r o rest write ws bs Hr Hc Hv B IH];
    try set (v := contents (alone write)) in *;
    intros Ho Hn p pre post padding fuel Hdata Hoff Hsize Hrem Hcur Hfuel;
    cbn [length] in Hn.
  - destruct fuel as [|fuel]; [reflexivity|].
    cbn [MultiplexParser.elements requested]. unfold MultiplexParser.next.
    destruct (Z.geb_spec (MultiplexParser.offset_ p) (MultiplexParser.size_ p));
      [reflexivity|].
    assert (H0 : MultiplexParser.remaining_ p = 0)
      by (destruct (Resolution_eqb cur kIgnore); exact Hrem).
    rewrite H0. cbn [Z.eqb negb].
    pose proof (scan_over_padding
                  (Z.to_nat (MultiplexParser.size_ p - MultiplexParser.offset_ p))
                  p pre post padding Hdata Hoff ltac:(simpl in Hsize; lia)) as Hscan.
    destruct (MultiplexParser.scan _ p) as [res q]. cbn [fst] in Hscan. subst res.
    reflexivity.
  - cbn [requested Resolution_eqb].
    assert (H0 : MultiplexParser.remaining_ p = 0)
      by (destruct cur; cbn in Hrem; exact Hrem).
    replace (start + o + 1) with (start + (o + 1)) by lia.
    apply (IH ltac:(lia) ltac:(lia) p pre post padding fuel Hdata Hoff Hsize);
      [exact H0|intros; contradiction|exact Hfuel].
  - pose proof (ResolutionSize_pos r) as Hsz.
    pose proof (run_ahead_nonneg r rest) as Hra.
    apply Resolution_eqb_neq in Hr as Er. rewrite Er in Hrem.
    cbn [WriteCombiner.run_ahead] in Hrem. rewrite Resolution_eqb_refl in Hrem.
    destruct (Hcur ltac:(lia)) as [Hres Hreg].
    rewrite length_app, Nat2Z.inj_add in Hsize. rewrite length_app in Hfuel.
    destruct fuel as [|fuel]; [lia|].
    cbn [MultiplexParser.elements requested]. rewrite Er.
    rewrite next_within_a_run by (rewrite ?Hres, ?Hreg; lia).
    rewrite Hres, Hreg. cbn [map fst]. f_equal.
    replace (start + o + 1) with (start + (o + 1)) by lia.
    apply (IH ltac:(lia) ltac:(lia) _ (pre ++ v) post padding).
    + parser_fields. rewrite Hdata, <- !app_assoc. reflexivity.
    + parser_fields. rewrite length_app, Nat2Z.inj_add. lia.
    + parser_fields. rewrite length_app, Nat2Z.inj_add. lia.
    + parser_fields. rewrite Er. lia.
    + parser_fields. intros _. split; [reflexivity|lia].
    + lia.
  - pose proof (ResolutionSize_pos r) as Hsz.
    pose proof (run_ahead_nonneg r rest) as Hra.
    pose proof (run_ahead_length r rest) as Hrl.
    apply Resolution_eqb_neq in Hr as Er.
    assert (H0 : MultiplexParser.remaining_ p = 0).
    { destruct (Resolution_eqb cur kIgnore); [exact Hrem|].
      cbn [WriteCombiner.run_ahead] in Hrem.
      destruct (Resolution_eqb r cur) eqn:E; [|exact Hrem].
      apply Resolution_eqb_eq in E. congruence. }
    set (framing := framing_bytes 32 r (1 + WriteCombiner.run_ahead r rest) (start + o)) in *.
    pose proof (framing_bytes_length 32 r (1 + WriteCombiner.run_ahead r rest) (start + o))
      as Hfl.
    fold framing in Hfl.
    assert (Hfl' : 2 <= Z.of_nat (length framing) <= 3) by (destruct (_ <=? 3); lia).
    clear Hfl.
    rewrite !length_app, !Nat2Z.inj_add in Hsize. rewrite !length_app in Hfuel.
    destruct fuel as [|fuel]; [lia|].
    cbn [MultiplexParser.elements requested]. rewrite Er.
    rewrite (next_at_a_new_run p pre ((v ++ bs) ++ repeat Multiplex.kNop padding ++ post) r
               (1 + WriteCombiner.run_ahead r rest) (start + o));
      [|fold framing; rewrite Hdata, <- !app_assoc; reflexivity|exact Hoff
       |rewrite Hdata, !length_app, repeat_length, !Nat2Z.inj_add; lia
       |fold framing; lia|exact H0|exact Hr|lia|lia].
    fold framing. cbn [map fst]. f_equal.
    replace (start + o + 1) with (start + (o + 1)) by lia.
    apply (IH ltac:(lia) ltac:(lia) _ (pre ++ framing ++ v) post padding).
    + parser_fields. rewrite Hdata, <- !app_assoc. reflexivity.
    + parser_fields. rewrite !length_app, !Nat2Z.inj_add. lia.
    + parser_fields. rewrite !length_app, !Nat2Z.inj_add. lia.
    + parser_fields. rewrite Er. lia.
    + parser_fields. intros _. split; [reflexivity|lia].
    + lia.
Qed.

(** A call of [WriteMapped] at the resolution [r], with scales that are
    numbers other than zero. *)
Definition writes_mapped (write : M CanFrame unit) (r : Resolution) : Prop :=
  exists value s8 s16 s32,
    usable_scale s8 /\ usable_scale s16 /\ usable_scale s32
    /\ write = WriteCanFrame.WriteMapped value s8 s16 s32 r.

Lemma WriteMapped_is_mapped (value s8 s16 s32 : spec_float) (r : Resolution) :
  usable_scale s8 -> usable_scale s16 -> usable_scale s32 ->
  writes_mapped (WriteCanFrame.WriteMapped value s8 s16 s32 r) r.
Proof. intros H8 H16 H32. exists value, s8, s16, s32. auto. Qed.

Lemma Write_repr_alone (repr : list Z) (width : Z) :
  Z.of_nat (length repr) = width ->
  width <= 64 ->
  Z.of_nat (length (contents (alone (WriteCanFrame.Write_repr repr)))) = width
  /\ forall g, wf_frame g -> size g + width <= 64 ->
     exists g',
       WriteCanFrame.Write_repr repr g = (Returns tt, g')
       /\ wf_frame g'
       /\ contents g' = contents g ++ contents (alone (WriteCanFrame.Write_repr repr)).
Proof.
  intros Hlen Hw.
  assert (Hwf0 : wf_frame empty_frame) by (split; simpl; [reflexivity|lia]).
  destruct (Write_repr_append repr empty_frame Hwf0 ltac:(change (size empty_frame) with 0; lia))
    as (g0 & E0 & _ & _ & Hc0).
  assert (Halone : contents (alone (WriteCanFrame.Write_repr repr)) = repr).
  { unfold alone. rewrite E0. exact Hc0. }
  rewrite Halone. split; [exact Hlen|].
  intros g Hg Hroom.
  destruct (Write_repr_append repr g Hg ltac:(lia)) as (g' & E & Hg' & _ & Hc).
  exists g'. auto.
Qed.

Lemma WriteMapped_alone (value s8 s16 s32 : spec_float) (r : Resolution) :
  usable_scale s8 -> usable_scale s16 -> usable_scale s32 ->
  writes_alone (WriteCanFrame.WriteMapped value s8 s16 s32 r) r.
Proof.
  intros H8 H16 H32 Hr.
  assert (Hint : forall T, resolution_of T = r ->
            exists repr,
              Z.of_nat (length repr) = MultiplexParser.ResolutionSize r
              /\ forall g, WriteCanFrame.WriteMapped value s8 s16 s32 r g
                           = WriteCanFrame.Write_repr repr g).
  { intros T <-.
    destruct (Saturate_returns T value (scale_for T s8 s16 s32)) as (q & E & _);
      [destruct T; [apply H8|apply H16|apply H32]
      |destruct T; [apply H8|apply H16|apply H32]|].
    exists (le_bytes (Z.to_nat (sizeof T)) (static_cast T q)). split.
    - rewrite le_bytes_length. now destruct T.
    - intros g. rewrite WriteMapped_integer, E. reflexivity. }
  assert (Hrepr : exists repr,
            Z.of_nat (length repr) = MultiplexParser.ResolutionSize r
            /\ forall g, WriteCanFrame.WriteMapped value s8 s16 s32 r g
                         = WriteCanFrame.Write_repr repr g).
  { destruct r; try (now elim Hr).
    - apply (Hint int8_t eq_refl).
    - apply (Hint int16_t eq_refl).
    - apply (Hint int32_t eq_refl).
    - exists (le_bytes 4 (bits_of_float (float_of_double value))). split.
      + rewrite le_bytes_length. reflexivity.
      + intros g. reflexivity. }
  destruct Hrepr as (repr & Hlen & Hsame).
  assert (Hw : MultiplexParser.ResolutionSize r <= 64) by (destruct r; simpl; lia).
  destruct (Write_repr_alone repr _ Hlen Hw) as [Hl Happ].
  unfold alone in *. rewrite Hsame. split; [exact Hl|].
  intros g Hg Hroom. rewrite Hsame. apply Happ; assumption.
Qed.

Lemma writes_mapped_alone (write : M CanFrame unit) (r : Resolution) :
  writes_mapped write r -> writes_alone write r.
Proof.
  intros (v & s8 & s16 & s32 & H8 & H16 & H32 & ->). now apply WriteMapped_alone.
Qed.

Lemma reply_block_written (start : Z) (rs : list Resolution)
    (ws : list (M CanFrame unit)) (f : CanFrame) :
  Forall2 writes_mapped ws rs ->
  0 <= start ->
  start + Z.of_nat (length rs) <= 128 ->
  wf_frame f ->
  size f + 6 * Z.of_nat (length rs) <= 64 ->
  exists f' bs,
    combiner_scope (WriteCombiner.make Multiplex.kReplyBase start rs) (write_each ws) f
    = (Returns tt, f')
    /\ wf_frame f'
    /\ contents f' = contents f ++ bs
    /\ block 0x20 start kIgnore 0 rs ws bs.
Proof.
  intros Hws Hs Hn Hwf Hroom.
  assert (Hws' : Forall2 writes_alone ws rs).
  { clear - Hws. induction Hws; constructor; [now apply writes_mapped_alone|assumption]. }
  pose proof (framing_length_bound rs kIgnore) as Hfb.
  pose proof (values_length_bound rs) as Hvb.
  assert (Hus : uint32 start = start) by (unfold uint32; apply Z.mod_small; lia).
  destruct (write_each_block ws rs (WriteCombiner.make Multiplex.kReplyBase start rs) f)
    as (w' & f' & bs & E & Ho & Hres & Hwf' & Hc & B);
    cbn [WriteCombiner.make WriteCombiner.start_register_ WriteCombiner.offset_
         WriteCombiner.resolutions_ WriteCombiner.current_resolution_
         WriteCombiner.base_command_] in *;
    rewrite ?Hus in *; try assumption; try reflexivity; try lia.
  exists f', bs. split.
  { apply (combiner_scope_returns _ w'); [exact E|].
    unfold WriteCombiner.N. rewrite Hres, Ho. cbn. lia. }
  split; [exact Hwf'|]. split; [exact Hc|exact B].
Qed.

(** The writer and the parser agree on the framing. A block of registers
    written through a combiner whose base command is that of the replies,
    each value by [WriteMapped] when [MaybeWrite] asks for it, is parsed
    back by [next] as exactly the registers whose resolution is not
    [kIgnore], in order, each with its number and its resolution. *)
Theorem a_written_reply_is_parsed_back (start : Z) (rs : list Resolution)
    (ws : list (M CanFrame unit)) (f : CanFrame) :
  Forall2 writes_mapped ws rs ->
  0 <= start ->
  start + Z.of_nat (length rs) <= 128 ->
  wf_frame f ->
  size f + 6 * Z.of_nat (length rs) <= 64 ->
  exists f',
    combiner_scope (WriteCombiner.make Multiplex.kReplyBase start rs) (write_each ws) f
    = (Returns tt, f')
    /\ map fst (MultiplexParser.all_elements (reader f' (size f))) = requested start rs.
Proof.
  intros Hws Hs Hn Hwf Hroom.
  destruct (reply_block_written start rs ws f Hws Hs Hn Hwf Hroom)
    as (f' & bs & E & Hwf' & Hc & B).
  exists f'. split; [exact E|].
  pose proof (contents_length f Hwf) as Hlf.
  pose proof (contents_length f' Hwf') as Hlf'.
  rewrite Hc, length_app, Nat2Z.inj_add in Hlf'.
  unfold MultiplexParser.all_elements.
  replace (requested start rs) with (requested (start + 0) rs) by (f_equal; lia).
  apply (elements_of_block start kIgnore 0 rs ws bs B Hs ltac:(lia) ltac:(lia) _
           (contents f) (skipn (Z.to_nat (size f')) (data f')) 0%nat).
  - cbn [reader MultiplexParser.data_ repeat app]. rewrite app_assoc, <- Hc.
    unfold contents. symmetry. apply firstn_skipn.
  - cbn [reader MultiplexParser.offset_]. lia.
  - cbn [reader MultiplexParser.size_]. lia.
  - reflexivity.
  - intros H. now elim H.
  - cbn [reader MultiplexParser.size_ MultiplexParser.offset_]. lia.
Qed.

Lemma a_written_reply_is_parsed_back_witness :
  exists f',
    combiner_scope
      (WriteCombiner.make Multiplex.kReplyBase Register.kPosition [kInt16; kIgnore; kFloat])
      (write_each [WriteCanFrame.WritePosition (literal 119 100) kInt16;
                   WriteCanFrame.WriteVelocity S754_nan kIgnore;
                   WriteCanFrame.WriteTorque (literal 1 2) kFloat])
      empty_frame
    = (Returns tt, f')
    /\ map fst (MultiplexParser.all_elements (reader f' (size empty_frame)))
       = [(Register.kPosition, kInt16); (Register.kTorque, kFloat)].
Proof.
  apply (a_written_reply_is_parsed_back Register.kPosition [kInt16; kIgnore; kFloat]
           [WriteCanFrame.WritePosition (literal 119 100) kInt16;
            WriteCanFrame.WriteVelocity S754_nan kIgnore;
            WriteCanFrame.WriteTorque (literal 1 2) kFloat] empty_frame).
  - unfold WriteCanFrame.WritePosition, WriteCanFrame.WriteVelocity,
      WriteCanFrame.WriteTorque.
    repeat (apply Forall2_cons; [apply WriteMapped_is_mapped; usable_scales|]).
    apply Forall2_nil.
  - unfold Register.kPosition. lia.
  - unfold Register.kPosition. simpl. lia.
  - split; simpl; [reflexivity|lia].
  - simpl. lia.
Defined.

(** ** A block that does not fit *)

Lemma write_framing_on_a_full_frame (w : WriteCombiner.t) (f : CanFrame)
    (r : Resolution) (count this_offset : Z) :
  r <> kIgnore ->
  64 < size f + 1 ->
  WriteCombiner.write_framing r count this_offset (w, f)
  = (Throws (runtime_error "overflow"%str), (w, f)).
Proof.
  intros Hr Hfull.
  unfold WriteCombiner.write_framing, bind, ret, throw. cbn [fst snd].
  assert (Hcode : WriteCombiner.width_code r (w, f) = (Returns (width_bits r), (w, f)))
    by (destruct r; try reflexivity; congruence).
  rewrite Hcode. unfold WriteCombiner.on_frame. cbn [fst snd].
  destruct (count <=? 3); rewrite Write_int8_overflow by exact Hfull; reflexivity.
Qed.

(** The calls made until the first register that is not ignored, that
    one included. *)
Fixpoint calls_until_requested (rs : list Resolution) : Z :=
  match rs with
  | [] => 0
  | r :: rest => if Resolution_eqb r kIgnore then 1 + calls_until_requested rest else 1
  end.

(** How a block over the registers [rs] ends when the frame is full:
    nothing is to be written when every register is ignored; the first
    call that has framing to write throws, and the destructor of the
    combiner aborts unless that call was the last one. *)
Fixpoint full_frame_outcome (rs : list Resolution) : outcome unit :=
  match rs with
  | [] => Returns tt
  | r :: rest =>
      if Resolution_eqb r kIgnore then full_frame_outcome rest
      else match rest with
           | [] => Throws (runtime_error "overflow"%str)
           | _ :: _ => Aborts
           end
  end.

Lemma calls_until_requested_bounds (rs : list Resolution) :
  0 <= calls_until_requested rs <= Z.of_nat (length rs).
Proof.
  induction rs as [|r rest IH]; cbn [calls_until_requested length]; [lia|].
  destruct (Resolution_eqb r kIgnore); lia.
Qed.

Lemma full_frame_outcome_calls (rs : list Resolution) :
  full_frame_outcome rs
  = if forallb (fun r => Resolution_eqb r kIgnore) rs then Returns tt
    else if calls_until_requested rs =? Z.of_nat (length rs)
         then Throws (runtime_error "overflow"%str)
         else Aborts.
Proof.
  induction rs as [|r rest IH]; [reflexivity|].
  cbn [full_frame_outcome forallb calls_until_requested length].
  destruct (Resolution_eqb r kIgnore); cbn [andb].
  - rewrite IH. destruct (forallb _ rest); [reflexivity|].
    replace (1 + calls_until_requested rest =? Z.of_nat (S (length rest)))
      with (calls_until_requested rest =? Z.of_nat (length rest)); [reflexivity|].
    destruct (Z.eqb_spec (calls_until_requested rest) (Z.of_nat (length rest)));
      symmetry; [apply Z.eqb_eq|apply Z.eqb_neq]; lia.
  - destruct rest as [|r' rest]; [reflexivity|].
    match goal with
    | |- context [?a =? ?b] =>
        destruct (Z.eqb_spec a b) as [E|]; [cbn [length] in E; lia|reflexivity]
    end.
Qed.

Lemma write_each_on_a_full_frame (ws : list (M CanFrame unit)) (rs : list Resolution)
    (w : WriteCombiner.t) (f : CanFrame) :
  length ws = length rs ->
  skipn (Z.to_nat (WriteCombiner.offset_ w)) (WriteCombiner.resolutions_ w) = rs ->
  WriteCombiner.current_resolution_ w = kIgnore ->
  0 <= WriteCombiner.offset_ w ->
  WriteCombiner.offset_ w + Z.of_nat (length rs) < 2 ^ 64 ->
  64 < size f + 1 ->
  exists w',
    write_each ws (w, f)
    = (if forallb (fun r => Resolution_eqb r kIgnore) rs then Returns tt
       else Throws (runtime_error "overflow"%str), (w', f))
    /\ WriteCombiner.resolutions_ w' = WriteCombiner.resolutions_ w
    /\ WriteCombiner.offset_ w' = WriteCombiner.offset_ w + calls_until_requested rs.
Proof.
  revert rs w; induction ws as [|write ws IH]; intros [|r rest] w Hlen Hskip Hcur Ho Hn Hfull;
    try discriminate Hlen.
  - exists w. cbn. split; [reflexivity|]. split; [reflexivity|lia].
  - apply skipn_cons_inv in Hskip. destruct Hskip as [Hnth Hrest].
    cbn [length] in Hn.
    assert (Hso : size_t (WriteCombiner.offset_ w + 1) = WriteCombiner.offset_ w + 1)
      by (unfold size_t; apply Z.mod_small; lia).
    cbn [write_each forallb calls_until_requested]. unfold bind at 1.
    unfold write_if_requested, bind at 1.
    destruct (Resolution_eqb r kIgnore) eqn:Er; cbn [andb].
    + apply Resolution_eqb_eq in Er. subst r.
      rewrite (MaybeWrite_same_resolution w f kIgnore Hnth Hcur). cbn [negb Resolution_eqb ret].
      destruct (IH rest (WriteCombiner.set_offset w (size_t (WriteCombiner.offset_ w + 1))))
        as (w' & E & Hres & Hoff).
      * now injection Hlen.
      * cbn [WriteCombiner.set_offset WriteCombiner.offset_ WriteCombiner.resolutions_].
        rewrite Hso. replace (Z.to_nat (WriteCombiner.offset_ w + 1))
          with (S (Z.to_nat (WriteCombiner.offset_ w))) by lia.
        exact Hrest.
      * exact Hcur.
      * cbn. lia.
      * cbn. lia.
      * exact Hfull.
      * exists w'. split; [exact E|].
        cbn [WriteCombiner.set_offset WriteCombiner.offset_ WriteCombiner.resolutions_]
          in Hres, Hoff.
        split; [exact Hres|lia].
    + apply Resolution_eqb_neq in Er.
      rewrite (MaybeWrite_new_run w f r Hnth ltac:(congruence) Er).
      rewrite write_framing_on_a_full_frame by assumption.
      eexists. split; [reflexivity|]. cbn. split; [reflexivity|lia].
Qed.

Lemma combiner_scope_on_a_full_frame (base start : Z) (rs : list Resolution)
    (ws : list (M CanFrame unit)) (f : CanFrame) :
  length ws = length rs ->
  Z.of_nat (length rs) < 2 ^ 64 ->
  64 < size f + 1 ->
  combiner_scope (WriteCombiner.make base start rs) (write_each ws) f
  = (full_frame_outcome rs, f).
Proof.
  intros Hlen Hbig Hfull.
  destruct (write_each_on_a_full_frame ws rs (WriteCombiner.make base start rs) f Hlen)
    as (w' & E & Hres & Hoff); try reflexivity; try assumption; try (cbn; lia).
  cbn [WriteCombiner.make WriteCombiner.offset_ WriteCombiner.resolutions_] in Hres, Hoff.
  pose proof (calls_until_requested_bounds rs) as Hb.
  unfold combiner_scope. rewrite E, full_frame_outcome_calls.
  unfold WriteCombiner.destructor, WriteCombiner.N. rewrite Hres, Hoff, Z.add_0_l.
  destruct (forallb _ rs) eqn:Eall.
  - assert (Hall : calls_until_requested rs = Z.of_nat (length rs)).
    { clear - Eall. induction rs as [|r rest IH]; [reflexivity|].
      cbn [forallb calls_until_requested length] in *.
      apply andb_true_iff in Eall. destruct Eall as [-> Eall]. rewrite (IH Eall). lia. }
    rewrite Hall, Z.eqb_refl. reflexivity.
  - destruct (_ =? _); reflexivity.
Qed.

Lemma polling_block_on_a_full_frame (base start : Z) (rs : list Resolution) (f : CanFrame) :
  Z.of_nat (length rs) < 2 ^ 64 ->
  64 < size f + 1 ->
  combiner_scope (WriteCombiner.make base start rs) (MaybeWrite_times (length rs)) f
  = (full_frame_outcome rs, f).
Proof.
  intros Hbig Hfull.
  rewrite <- (combiner_scope_on_a_full_frame base start rs (repeat (ret tt) (length rs)) f)
    by (rewrite ?repeat_length; auto).
  unfold combiner_scope. rewrite MaybeWrite_times_write_each. reflexivity.
Qed.

(** A register that is asked for. *)
Definition is_requested (r : Resolution) : bool := negb (Resolution_eqb r kIgnore).

(** On a full frame [EmitQueryCommand] returns only when the command
    asks for nothing. The first register asked for makes [MaybeWrite]
    throw; unless this is the last register of its combiner, the
    destructor of the combiner then finds calls missing and aborts, so
    that the exception reaches the caller only when [d_current] is the
    one register asked for among the first six, or [fault] the one
    register asked for at all. The frame is left as it was. *)
Theorem EmitQueryCommand_on_a_full_frame (command : QueryCommand.t) (f : CanFrame) :
  size f = 64 ->
  EmitQueryCommand command f
  = (if is_requested (QueryCommand.mode command)
        || is_requested (QueryCommand.position command)
        || is_requested (QueryCommand.velocity command)
        || is_requested (QueryCommand.torque command)
        || is_requested (QueryCommand.q_current command)
     then Aborts
     else if is_requested (QueryCommand.d_current command)
     then Throws (runtime_error "overflow"%str)
     else if is_requested (QueryCommand.rezero_state command)
             || is_requested (QueryCommand.voltage command)
             || is_requested (QueryCommand.temperature command)
     then Aborts
     else if is_requested (QueryCommand.fault command)
     then Throws (runtime_error "overflow"%str)
     else Returns tt,
     f).
Proof.
  intros Hfull. unfold EmitQueryCommand, bind, is_requested.
  pose proof (polling_block_on_a_full_frame 0x10 Register.kMode
                [QueryCommand.mode command; QueryCommand.position command;
                 QueryCommand.velocity command; QueryCommand.torque command;
                 QueryCommand.q_current command; QueryCommand.d_current command] f
                ltac:(simpl; lia) ltac:(lia)) as H1.
  pose proof (polling_block_on_a_full_frame 0x10 Register.kRezeroState
                [QueryCommand.rezero_state command; QueryCommand.voltage command;
                 QueryCommand.temperature command; QueryCommand.fault command] f
                ltac:(simpl; lia) ltac:(lia)) as H2.
  cbn [length full_frame_outcome] in H1, H2. rewrite H1. clear H1.
  destruct (Resolution_eqb (QueryCommand.mode command) kIgnore); [|reflexivity].
  destruct (Resolution_eqb (QueryCommand.position command) kIgnore); [|reflexivity].
  destruct (Resolution_eqb (QueryCommand.velocity command) kIgnore); [|reflexivity].
  destruct (Resolution_eqb (QueryCommand.torque command) kIgnore); [|reflexivity].
  destruct (Resolution_eqb (QueryCommand.q_current command) kIgnore); [|reflexivity].
  destruct (Resolution_eqb (QueryCommand.d_current command) kIgnore); [|reflexivity].
  cbn [negb orb]. rewrite H2. clear H2.
  destruct (Resolution_eqb (QueryCommand.rezero_state command) kIgnore); [|reflexivity].
  destruct (Resolution_eqb (QueryCommand.voltage command) kIgnore); [|reflexivity].
  destruct (Resolution_eqb (QueryCommand.temperature command) kIgnore); [|reflexivity].
  destruct (Resolution_eqb (QueryCommand.fault command) kIgnore); reflexivity.
Qed.

Lemma EmitQueryCommand_on_a_full_frame_witness :
  EmitQueryCommand QueryCommand.initial {| data := repeat 0x50 64; size := 64 |}
  = (Aborts, {| data := repeat 0x50 64; size := 64 |}).
Proof.
  apply (EmitQueryCommand_on_a_full_frame QueryCommand.initial
           {| data := repeat 0x50 64; size := 64 |}).
  reflexivity.
Defined.

Lemma WriteMapped_overflows (value s8 s16 s32 : spec_float) (r : Resolution) (g : CanFrame) :
  usable_scale s8 -> usable_scale s16 -> usable_scale s32 ->
  r <> kIgnore ->
  64 < size g + MultiplexParser.ResolutionSize r ->
  WriteCanFrame.WriteMapped value s8 s16 s32 r g
  = (Throws (runtime_error "overflow"%str), g).
Proof.
  intros H8 H16 H32 Hr Hfull.
  assert (Hint : forall T, resolution_of T = r ->
            WriteCanFrame.WriteMapped value s8 s16 s32 r g
            = (Throws (runtime_error "overflow"%str), g)).
  { intros T <-. rewrite WriteMapped_integer.
    destruct (Saturate_returns T value (scale_for T s8 s16 s32)) as (q & E & _);
      [destruct T; [apply H8|apply H16|apply H32]
      |destruct T; [apply H8|apply H16|apply H32]|].
    rewrite E. unfold WriteCanFrame.Write. apply Write_repr_overflow.
    rewrite le_bytes_length. destruct T; cbn in Hfull |- *; lia. }
  destruct r; try (now elim Hr).
  - apply (Hint int8_t eq_refl).
  - apply (Hint int16_t eq_refl).
  - apply (Hint int32_t eq_refl).
  - unfold WriteCanFrame.WriteMapped, WriteCanFrame.Write_float.
    apply Write_repr_overflow. rewrite le_bytes_length. cbn in Hfull |- *. lia.
Qed.

Lemma write_framing_overflows (w : WriteCombiner.t) (f : CanFrame)
    (r : Resolution) (count this_offset : Z) :
  r <> kIgnore ->
  wf_frame f ->
  64 < size f + Z.of_nat (length (framing_bytes (WriteCombiner.base_command_ w) r count
                                   (size_t (WriteCombiner.start_register_ w + this_offset)))) ->
  size_t (WriteCombiner.start_register_ w + this_offset) <= 127 ->
  exists f',
    WriteCombiner.write_framing r count this_offset (w, f)
    = (Throws (runtime_error "overflow"%str), (w, f'))
    /\ wf_frame f'.
Proof.
  intros Hr Hwf Hroom Hreg. rewrite framing_bytes_length in Hroom.
  unfold WriteCombiner.write_framing, bind, ret, throw. cbn [fst snd].
  assert (Hcode : WriteCombiner.width_code r (w, f) = (Returns (width_bits r), (w, f)))
    by (destruct r; try reflexivity; congruence).
  rewrite Hcode.
  set (wc := static_cast int8_t (WriteCombiner.base_command_ w + width_bits r)).
  destruct (Z.gtb_spec (size_t (WriteCombiner.start_register_ w + this_offset)) 127) as [Hgt|_];
    [lia|].
  unfold WriteCombiner.on_frame. cbn [fst snd].
  destruct (Z.leb_spec count 3) as [Hc|Hc]; cbn [fst snd].
  - destruct (Z_le_gt_dec (size f + 1) 64) as [H1|H1].
    + destruct (Write_int8_append (wc + count) f Hwf H1) as (f1 & E1 & Hwf1 & Hs1 & _).
      rewrite E1. cbn [fst snd].
      rewrite Write_int8_overflow by lia. exists f1. split; [reflexivity|exact Hwf1].
    + rewrite Write_int8_overflow by lia. exists f. split; [reflexivity|exact Hwf].
  - destruct (Z_le_gt_dec (size f + 1) 64) as [H1|H1].
    + destruct (Write_int8_append wc f Hwf H1) as (f1 & E1 & Hwf1 & Hs1 & _).
      rewrite E1. cbn [fst snd].
      destruct (Z_le_gt_dec (size f1 + 1) 64) as [H2|H2].
      * destruct (Write_int8_append count f1 Hwf1 H2) as (f2 & E2 & Hwf2 & Hs2 & _).
        rewrite E2. cbn [fst snd].
        rewrite Write_int8_overflow by lia. exists f2. split; [reflexivity|exact Hwf2].
      * rewrite Write_int8_overflow by lia. exists f1. split; [reflexivity|exact Hwf1].
    + rewrite Write_int8_overflow by lia. exists f. split; [reflexivity|exact Hwf].
Qed.

Lemma writes_mapped_appends (write : M CanFrame unit) (r : Resolution) :
  writes_mapped write r -> writes_value MultiplexParser.ResolutionSize write r.
Proof.
  intros (v & s8 & s16 & s32 & H8 & H16 & H32 & ->). now apply WriteMapped_appends.
Qed.

(** A block that needs more room than the frame has ends with the
    exception of the [Write] that finds no room, in one of its calls. *)
Lemma write_each_overflows (ws : list (M CanFrame unit))
    (rs : list Resolution) (w : WriteCombiner.t) (f : CanFrame) :
  Forall2 writes_mapped ws rs ->
  skipn (Z.to_nat (WriteCombiner.offset_ w)) (WriteCombiner.resolutions_ w) = rs ->
  0 <= WriteCombiner.offset_ w ->
  0 <= WriteCombiner.start_register_ w ->
  WriteCombiner.start_register_ w + WriteCombiner.offset_ w + Z.of_nat (length rs) <= 128 ->
  wf_frame f ->
  64 < size f + framing_length (WriteCombiner.current_resolution_ w) rs
       + values_length MultiplexParser.ResolutionSize rs ->
  exists w' f',
    write_each ws (w, f) = (Throws (runtime_error "overflow"%str), (w', f'))
    /\ wf_frame f'.
Proof.
  intros Hws. revert w f.
  induction Hws as [|write r ws rest Hwrite Hws IH]; intros w f Hskip Ho Hs Hreg Hwf Hroom.
  - cbn [framing_length values_length] in Hroom. destruct Hwf. lia.
  - apply skipn_cons_inv in Hskip. destruct Hskip as [Hn Hrest].
    cbn [length framing_length values_length] in *.
    assert (Hst : size_t (WriteCombiner.start_register_ w + WriteCombiner.offset_ w)
                  = WriteCombiner.start_register_ w + WriteCombiner.offset_ w)
      by (unfold size_t; apply Z.mod_small; lia).
    assert (Hso : size_t (WriteCombiner.offset_ w + 1) = WriteCombiner.offset_ w + 1)
      by (unfold size_t; apply Z.mod_small; lia).
    assert (Hcb : Z.of_nat (length (call_bytes w r))
                  = if Resolution_eqb (WriteCombiner.current_resolution_ w) r
                       || Resolution_eqb r kIgnore then 0
                    else if 1 + WriteCombiner.run_ahead r rest <=? 3 then 2 else 3).
    { unfold call_bytes. destruct (_ || _); [reflexivity|].
      rewrite framing_bytes_length, Hrest. reflexivity. }
    set (fr := if Resolution_eqb (WriteCombiner.current_resolution_ w) r
                  || Resolution_eqb r kIgnore then 0
               else if 1 + WriteCombiner.run_ahead r rest <=? 3 then 2 else 3) in *.
    cbn [write_each]. unfold bind at 1. unfold write_if_requested, bind at 1.
    destruct (Z_le_gt_dec (size f + fr) 64) as [Hfits|Hover].
    + destruct (MaybeWrite_step w f r Hn Hwf ltac:(lia) ltac:(lia)) as (f1 & E1 & Hwf1 & Hc1).
      assert (Hs1 : size f1 = size f + fr).
      { rewrite <- (contents_length f1 Hwf1), Hc1, length_app, Nat2Z.inj_add,
          (contents_length f Hwf). lia. }
      rewrite E1. cbn [fst snd].
      assert (Hnext : forall f2, wf_frame f2 ->
                size f2 = size f1 + (if Resolution_eqb r kIgnore then 0
                                     else MultiplexParser.ResolutionSize r) ->
                exists w' f',
                  write_each ws (after_call w r, f2)
                  = (Throws (runtime_error "overflow"%str), (w', f'))
                  /\ wf_frame f').
      { intros f2 Hwf2 Hs2. apply IH.
        - cbn [after_call WriteCombiner.set_current_resolution WriteCombiner.set_offset
               WriteCombiner.offset_ WriteCombiner.resolutions_].
          rewrite Hso. replace (Z.to_nat (WriteCombiner.offset_ w + 1))
            with (S (Z.to_nat (WriteCombiner.offset_ w))) by lia.
          exact Hrest.
        - cbn. lia.
        - cbn. lia.
        - cbn [after_call WriteCombiner.set_current_resolution WriteCombiner.set_offset
               WriteCombiner.offset_ WriteCombiner.start_register_]. lia.
        - exact Hwf2.
        - cbn [after_call WriteCombiner.set_current_resolution WriteCombiner.set_offset
               WriteCombiner.current_resolution_]. lia. }
      destruct (Resolution_eqb r kIgnore) eqn:Er; cbn [negb].
      * cbn [ret]. apply Hnext; [exact Hwf1|lia].
      * apply Resolution_eqb_neq in Er.
        unfold WriteCombiner.on_frame. cbn [fst snd].
        destruct (Z_le_gt_dec (size f1 + MultiplexParser.ResolutionSize r) 64) as [Hv|Hv].
        -- destruct (writes_mapped_appends write r Hwrite Er f1 Hwf1 Hv)
             as (f2 & bs2 & E2 & Hwf2 & Hc2 & Hl2).
           rewrite E2.
           apply Hnext; [exact Hwf2|].
           rewrite <- (contents_length f2 Hwf2), Hc2, length_app, Nat2Z.inj_add,
             (contents_length f1 Hwf1). lia.
        -- destruct Hwrite as (v & s8 & s16 & s32 & H8 & H16 & H32 & ->).
           rewrite WriteMapped_overflows by (assumption || lia).
           do 2 eexists. split; [reflexivity|exact Hwf1].
    + assert (Hne : Resolution_eqb (WriteCombiner.current_resolution_ w) r
                    || Resolution_eqb r kIgnore = false).
      { unfold fr in Hover. destruct (_ || _); [destruct Hwf; lia|reflexivity]. }
      apply orb_false_iff in Hne. destruct Hne as [Ec Er].
      apply Resolution_eqb_neq in Ec, Er.
      rewrite (MaybeWrite_new_run w f r Hn Ec Er).
      destruct (write_framing_overflows
                  (WriteCombiner.set_current_resolution
                     (WriteCombiner.set_offset w (size_t (WriteCombiner.offset_ w + 1))) r)
                  f r
                  (1 + WriteCombiner.run_ahead r
                         (skipn (S (Z.to_nat (WriteCombiner.offset_ w)))
                            (WriteCombiner.resolutions_ w)))
                  (WriteCombiner.offset_ w) Er Hwf) as (f' & E & Hwf').
      * cbn [WriteCombiner.set_current_resolution WriteCombiner.set_offset
             WriteCombiner.base_command_ WriteCombiner.start_register_].
        unfold call_bytes in Hcb.
        apply Resolution_eqb_neq in Ec, Er. rewrite Ec, Er in Hcb. cbn [orb] in Hcb.
        rewrite Hcb. lia.
      * cbn [WriteCombiner.set_current_resolution WriteCombiner.set_offset
             WriteCombiner.start_register_]. lia.
      * rewrite E. do 2 eexists. split; [reflexivity|exact Hwf'].
Qed.

(** The bytes a block over the registers [rs] takes: the framing of its
    runs and the values of the registers that are not ignored. *)
Definition block_length (rs : list Resolution) : Z :=
  framing_length kIgnore rs + values_length MultiplexParser.ResolutionSize rs.

Lemma mode_and_block (mode start : Z) (rs : list Resolution)
    (ws : list (M CanFrame unit)) (body : M (WriteCombiner.t * CanFrame) unit)
    (f : CanFrame) :
  Forall2 writes_mapped ws rs ->
  (forall s, body s = write_each ws s) ->
  0 <= start -> start + Z.of_nat (length rs) <= 128 ->
  wf_frame f ->
  let emit :=
    (WriteCanFrame.Write int8_t (Z.lor Multiplex.kWriteInt8 0x01) ;;
     WriteCanFrame.Write int8_t Register.kMode ;;
     WriteCanFrame.Write int8_t mode ;;
     combiner_scope (WriteCombiner.make 0x00 start rs) body)%cpp in
  (size f + 3 + block_length rs <= 64 ->
   exists f',
     emit f = (Returns tt, f') /\ size f' = size f + 3 + block_length rs)
  /\ (64 < size f + 3 + block_length rs ->
      exists f',
        emit f = (Throws (runtime_error "overflow"%str), f') \/ emit f = (Aborts, f')).
Proof.
  intros Hws Hbody Hs Hreg Hwf emit. unfold emit, block_length, bind. clear emit.
  pose proof (framing_length_nonneg kIgnore rs) as Hb0.
  pose proof (values_length_nonneg MultiplexParser.ResolutionSize rs
                ltac:(intros r; pose proof (ResolutionSize_pos r); lia)) as Hv0.
  assert (Hus : uint32 start = start) by (unfold uint32; apply Z.mod_small; lia).
  assert (Hws' : Forall2 (writes_value MultiplexParser.ResolutionSize) ws rs).
  { clear - Hws. induction Hws; constructor; [now apply writes_mapped_appends|assumption]. }
  destruct (Z_le_gt_dec (size f + 3) 64) as [H3|H3].
  - destruct (Write_int8_append (Z.lor Multiplex.kWriteInt8 1) f Hwf ltac:(lia))
      as (f1 & E1 & Hwf1 & Hs1 & Hc1).
    destruct (Write_int8_append Register.kMode f1 Hwf1 ltac:(lia))
      as (f2 & E2 & Hwf2 & Hs2 & Hc2).
    destruct (Write_int8_append mode f2 Hwf2 ltac:(lia)) as (f3 & E3 & Hwf3 & Hs3 & Hc3).
    rewrite E1, E2, E3. split; intros Hroom.
    + destruct (write_each_fits MultiplexParser.ResolutionSize ws rs
                  (WriteCombiner.make 0x00 start rs) f3)
        as (w' & f' & bs & E & Ho & Hres & Hwf' & Hc & Hl);
        cbn [WriteCombiner.make WriteCombiner.start_register_ WriteCombiner.offset_
             WriteCombiner.resolutions_ WriteCombiner.current_resolution_] in *;
        rewrite ?Hus in *; try assumption; try reflexivity; try lia.
      { intros r. pose proof (ResolutionSize_pos r). lia. }
      exists f'. split.
      * apply (combiner_scope_returns _ w'); [rewrite Hbody; exact E|].
        unfold WriteCombiner.N. rewrite Hres, Ho. cbn. lia.
      * rewrite <- (contents_length f' Hwf'), Hc, length_app, Nat2Z.inj_add,
          (contents_length f3 Hwf3). lia.
    + destruct (write_each_overflows ws rs (WriteCombiner.make 0x00 start rs) f3)
        as (w' & f' & E & Hwf');
        cbn [WriteCombiner.make WriteCombiner.start_register_ WriteCombiner.offset_
             WriteCombiner.resolutions_ WriteCombiner.current_resolution_] in *;
        rewrite ?Hus in *; try assumption; try reflexivity; try lia.
      exists f'. unfold combiner_scope. rewrite Hbody, E.
      destruct (WriteCombiner.destructor w'); auto.
  - split; intros Hroom; [lia|].
    destruct (Z_le_gt_dec (size f + 1) 64) as [H1|H1].
    + destruct (Write_int8_append (Z.lor Multiplex.kWriteInt8 1) f Hwf H1)
        as (f1 & E1 & Hwf1 & Hs1 & Hc1).
      rewrite E1.
      destruct (Z_le_gt_dec (size f1 + 1) 64) as [H2|H2].
      * destruct (Write_int8_append Register.kMode f1 Hwf1 H2)
          as (f2 & E2 & Hwf2 & Hs2 & Hc2).
        rewrite E2, Write_int8_overflow by lia. exists f2. auto.
      * rewrite Write_int8_overflow by lia. exists f1. auto.
    + rewrite Write_int8_overflow by lia. exists f. auto.
Qed.

(** The registers of a position command, in the order of the wire. *)
Definition position_registers (resolution : PositionResolution.t) : list Resolution :=
  [PositionResolution.position resolution;
   PositionResolution.velocity resolution;
   PositionResolution.feedforward_torque resolution;
   PositionResolution.kp_scale resolution;
   PositionResolution.kd_scale resolution;
   PositionResolution.maximum_torque resolution;
   PositionResolution.stop_position resolution;
   PositionResolution.watchdog_timeout resolution].

(** [EmitPositionCommand] returns exactly when the frame has room for
    the command: the three mode bytes, two bytes of framing for each run
    of up to three registers of one resolution and three for a longer
    run, and the values. Then it fills that room. Otherwise a [Write]
    throws the overflow error, which reaches the caller unless the
    destructor of the combiner aborts first; no other exception is
    thrown, whatever the values. *)
Theorem EmitPositionCommand_returns_when_it_fits
    (command : PositionCommand.t) (resolution : PositionResolution.t) (f : CanFrame) :
  wf_frame f ->
  (size f + 3 + block_length (position_registers resolution) <= 64 ->
   exists f',
     EmitPositionCommand command resolution f = (Returns tt, f')
     /\ size f' = size f + 3 + block_length (position_registers resolution))
  /\ (64 < size f + 3 + block_length (position_registers resolution) ->
      exists f',
        EmitPositionCommand command resolution f
        = (Throws (runtime_error "overflow"%str), f')
        \/ EmitPositionCommand command resolution f = (Aborts, f')).
Proof.
  intros Hwf. unfold EmitPositionCommand, position_registers.
  apply (mode_and_block Mode.kPosition Register.kCommandPosition _
           [WriteCanFrame.WritePosition (PositionCommand.position command)
              (PositionResolution.position resolution);
            WriteCanFrame.WriteVelocity (PositionCommand.velocity command)
              (PositionResolution.velocity resolution);
            WriteCanFrame.WriteTorque (PositionCommand.feedforward_torque command)
              (PositionResolution.feedforward_torque resolution);
            WriteCanFrame.WritePwm (PositionCommand.kp_scale command)
              (PositionResolution.kp_scale resolution);
            WriteCanFrame.WritePwm (PositionCommand.kd_scale command)
              (PositionResolution.kd_scale resolution);
            WriteCanFrame.WriteTorque (PositionCommand.maximum_torque command)
              (PositionResolution.maximum_torque resolution);
            WriteCanFrame.WritePosition (PositionCommand.stop_position command)
              (PositionResolution.stop_position resolution);
            WriteCanFrame.WriteTime
              (float_of_double (PositionCommand.watchdog_timeout command))
              (PositionResolution.watchdog_timeout resolution)]);
    [| |discriminate|discriminate|exact Hwf].
  - unfold WriteCanFrame.WritePosition, WriteCanFrame.WriteVelocity,
      WriteCanFrame.WriteTorque, WriteCanFrame.WritePwm, WriteCanFrame.WriteTime.
    repeat (apply Forall2_cons; [apply WriteMapped_is_mapped; usable_scales|]).
    apply Forall2_nil.
  - intros s. cbn [write_each].
    repeat (apply bind_ext; intros _ ?). symmetry. apply bind_ret_unit.
Qed.

Lemma EmitPositionCommand_returns_when_it_fits_witness :
  (exists f',
     EmitPositionCommand PositionCommand.initial PositionResolution.initial
       {| data := repeat 0 64; size := 28 |}
     = (Returns tt, f')
     /\ size f' = 64)
  /\ (exists f',
        EmitPositionCommand PositionCommand.initial PositionResolution.initial
          {| data := repeat 0 64; size := 29 |}
        = (Throws (runtime_error "overflow"%str), f')
        \/ EmitPositionCommand PositionCommand.initial PositionResolution.initial
             {| data := repeat 0 64; size := 29 |}
           = (Aborts, f')).
Proof.
  split.
  - destruct (EmitPositionCommand_returns_when_it_fits PositionCommand.initial
                PositionResolution.initial {| data := repeat 0 64; size := 28 |})
      as [Hfits _]; [split; simpl; [reflexivity|lia]|].
    apply Hfits. vm_compute. discriminate.
  - destruct (EmitPositionCommand_returns_when_it_fits PositionCommand.initial
                PositionResolution.initial {| data := repeat 0 64; size := 29 |})
      as [_ Hover]; [split; simpl; [reflexivity|lia]|].
    apply Hover. vm_compute. reflexivity.
Defined.

(** Padding after a reply is skipped. When the bytes of a written block
    of registers are followed by any number of [kNop] bytes, a parser
    over the whole buffer yields the registers of the block and nothing
    else. *)
Theorem padding_after_a_reply_is_skipped (start : Z) (rs : list Resolution)
    (ws : list (M CanFrame unit)) (padding : nat) :
  Forall2 writes_mapped ws rs ->
  0 <= start ->
  start + Z.of_nat (length rs) <= 128 ->
  6 * Z.of_nat (length rs) <= 64 ->
  Z.of_nat padding <= 64 ->
  exists f',
    combiner_scope (WriteCombiner.make Multiplex.kReplyBase start rs) (write_each ws)
      empty_frame
    = (Returns tt, f')
    /\ map fst
         (MultiplexParser.all_elements
            (MultiplexParser.make (contents f' ++ repeat Multiplex.kNop padding)
               (size f' + Z.of_nat padding)))
       = requested start rs.
Proof.
  intros Hws Hs Hn Hroom Hpad.
  assert (Hwf : wf_frame empty_frame) by (split; simpl; [reflexivity|lia]).
  destruct (reply_block_written start rs ws empty_frame Hws Hs Hn Hwf
              ltac:(change (size empty_frame) with 0; lia))
    as (f' & bs & E & Hwf' & Hc & B).
  exists f'. split; [exact E|].
  pose proof (contents_length f' Hwf') as Hlf'.
  change (contents empty_frame) with (@nil Z) in Hc. cbn [app] in Hc.
  rewrite Hc in Hlf' |- *.
  assert (Hu : uint8 (size f' + Z.of_nat padding) = size f' + Z.of_nat padding).
  { unfold uint8. apply Z.mod_small. destruct Hwf' as [_ Hs']. lia. }
  unfold MultiplexParser.all_elements.
  replace (requested start rs) with (requested (start + 0) rs) by (f_equal; lia).
  apply (elements_of_block start kIgnore 0 rs ws bs B Hs ltac:(lia) ltac:(lia) _
           [] [] padding).
  - cbn [MultiplexParser.make MultiplexParser.data_ app]. rewrite app_nil_r. reflexivity.
  - reflexivity.
  - cbn [MultiplexParser.make MultiplexParser.size_ length]. rewrite Hu. lia.
  - reflexivity.
  - intros H. now elim H.
  - cbn [MultiplexParser.make MultiplexParser.size_ MultiplexParser.offset_].
    rewrite Hu. lia.
Qed.

Lemma padding_after_a_reply_is_skipped_witness :
  exists f',
    combiner_scope
      (WriteCombiner.make Multiplex.kReplyBase Register.kPosition [kInt16; kIgnore; kFloat])
      (write_each [WriteCanFrame.WritePosition (literal 119 100) kInt16;
                   WriteCanFrame.WriteVelocity S754_nan kIgnore;
                   WriteCanFrame.WriteTorque (literal 1 2) kFloat])
      empty_frame
    = (Returns tt, f')
    /\ map fst
         (MultiplexParser.all_elements
            (MultiplexParser.make (contents f' ++ repeat Multiplex.kNop 2)
               (size f' + Z.of_nat 2)))
       = [(Register.kPosition, kInt16); (Register.kTorque, kFloat)].
Proof.
  apply (padding_after_a_reply_is_skipped Register.kPosition [kInt16; kIgnore; kFloat]
           [WriteCanFrame.WritePosition (literal 119 100) kInt16;
            WriteCanFrame.WriteVelocity S754_nan kIgnore;
            WriteCanFrame.WriteTorque (literal 1 2) kFloat] 2).
  - unfold WriteCanFrame.WritePosition, WriteCanFrame.WriteVelocity,
      WriteCanFrame.WriteTorque.
    repeat (apply Forall2_cons; [apply WriteMapped_is_mapped; usable_scales|]).
    apply Forall2_nil.
  - unfold Register.kPosition. lia.
  - unfold Register.kPosition. simpl. lia.
  - simpl. lia.
  - simpl. lia.
Defined.

(** ** The fields of a query result *)

(** The fields of [b] are those of [a], but for the fields of the
    registers [regs]. *)
Definition same_fields_but (regs : list Z) (a b : QueryResult.t) : Prop :=
  (~ In Register.kMode regs -> QueryResult.mode b = QueryResult.mode a)
  /\ (~ In Register.kPosition regs -> QueryResult.position b = QueryResult.position a)
  /\ (~ In Register.kVelocity regs -> QueryResult.velocity b = QueryResult.velocity a)
  /\ (~ In Register.kTorque regs -> QueryResult.torque b = QueryResult.torque a)
  /\ (~ In Register.kQCurrent regs -> QueryResult.q_current b = QueryResult.q_current a)
  /\ (~ In Register.kDCurrent regs -> QueryResult.d_current b = QueryResult.d_current a)
  /\ (~ In Register.kRezeroState regs
      -> QueryResult.rezero_state b = QueryResult.rezero_state a)
  /\ (~ In Register.kVoltage regs -> QueryResult.voltage b = QueryResult.voltage a)
  /\ (~ In Register.kTemperature regs
      -> QueryResult.temperature b = QueryResult.temperature a)
  /\ (~ In Register.kFault regs -> QueryResult.fault b = QueryResult.fault a).

Lemma same_fields_refl (regs : list Z) (a : QueryResult.t) : same_fields_but regs a a.
Proof. unfold same_fields_but. repeat split; reflexivity. Qed.

Lemma same_fields_step (reg : Z) (regs : list Z) (a b c : QueryResult.t) :
  same_fields_but [reg] a b ->
  same_fields_but regs b c ->
  same_fields_but (reg :: regs) a c.
Proof.
  unfold same_fields_but.
  intros (A1 & A2 & A3 & A4 & A5 & A6 & A7 & A8 & A9 & A10)
         (B1 & B2 & B3 & B4 & B5 & B6 & B7 & B8 & B9 & B10).
  repeat split; intros H;
    match goal with
    | |- ?f c = ?f a =>
        transitivity (f b);
        [first [apply B1|apply B2|apply B3|apply B4|apply B5
               |apply B6|apply B7|apply B8|apply B9|apply B10]
        |first [apply A1|apply A2|apply A3|apply A4|apply A5
               |apply A6|apply A7|apply A8|apply A9|apply A10]]
    end;
    intros Hin; apply H; cbn [In] in *; tauto.
Qed.

(** The registers whose value [ParseQueryResult] converts to [int]. *)
Definition integer_register (reg : Z) : bool :=
  (reg =? Register.kMode) || (reg =? Register.kRezeroState) || (reg =? Register.kFault).

(** The [switch] on one element: the cursor moves past the value, only
    the field of the register changes, and nothing is undefined but the
    conversion of the three integers. *)
Lemma store_register_fields (reg : Z) (res : Resolution) (result : QueryResult.t)
    (p : MultiplexParser.t) :
  res <> kIgnore ->
  MultiplexParser.offset_ p + MultiplexParser.ResolutionSize res <= MultiplexParser.size_ p ->
  snd (store_register reg res result p) = snd (MultiplexParser.Ignore res p)
  /\ match fst (store_register reg res result p) with
     | Returns result' => same_fields_but [reg] result result'
     | Undefined => integer_register reg = true
     | Throws _ | Aborts => False
     end.
Proof.
  intros Hres Hfit.
  assert (Hint : forall k : Z -> QueryResult.t,
            let x := bind (MultiplexParser.ReadInt res) (fun v => ret (k v)) p in
            snd x = snd (MultiplexParser.Ignore res p)
            /\ match fst x with
               | Returns result' => exists v, result' = k v
               | Undefined => True
               | Throws _ | Aborts => False
               end).
  { intros k. unfold MultiplexParser.ReadInt, bind.
    destruct (ReadMapped_in_buffer res (literal 1 1) (literal 1 1) (literal 1 1) p Hres Hfit)
      as (x & E).
    rewrite E. unfold int_of_double.
    destruct (truncate x) as [z|]; [destruct (_ && _)|]; cbn; split; eauto. }
  assert (Hdbl : forall s8 s16 s32 (k : spec_float -> QueryResult.t),
            let x := bind (MultiplexParser.ReadMapped res s8 s16 s32) (fun v => ret (k v)) p in
            snd x = snd (MultiplexParser.Ignore res p)
            /\ exists v, fst x = Returns (k v)).
  { intros s8 s16 s32 k. unfold bind.
    destruct (ReadMapped_in_buffer res s8 s16 s32 p Hres Hfit) as (x & E).
    rewrite E. cbn. split; eauto. }
  unfold store_register, integer_register, same_fields_but,
    MultiplexParser.ReadPosition, MultiplexParser.ReadVelocity, MultiplexParser.ReadTorque,
    MultiplexParser.ReadCurrent, MultiplexParser.ReadVoltage, MultiplexParser.ReadTemperature.
  unfold Register.kMode, Register.kPosition, Register.kVelocity, Register.kTorque,
    Register.kQCurrent, Register.kDCurrent, Register.kRezeroState, Register.kVoltage,
    Register.kTemperature, Register.kFault.
  repeat match goal with
         | |- context [if ?a =? ?b then _ else _] => destruct (Z.eqb_spec a b)
         end;
    try subst reg;
    try match goal with
        | |- context [bind (MultiplexParser.ReadInt _) (fun v => ret (@?k v)) _] =>
            destruct (Hint k) as [Hs Ho]; split; [exact Hs|];
            destruct (fst (bind (MultiplexParser.ReadInt _) _ _)) as [r'| | |];
            [destruct Ho as (v & ->)|contradiction|contradiction|reflexivity]
        | |- context [bind (MultiplexParser.ReadMapped _ ?s8 ?s16 ?s32)
                        (fun v => ret (@?k v)) _] =>
            destruct (Hdbl s8 s16 s32 k) as [Hs (v & Ho)]; split; [exact Hs|];
            rewrite Ho
        | |- _ => split; [reflexivity|]; cbn [fst bind MultiplexParser.Ignore ret]
        end;
    repeat split; intros H;
    first [reflexivity | exfalso; apply H; left; reflexivity].
Qed.

Lemma parse_registers_fields (fuel : nat) (result : QueryResult.t) (p : MultiplexParser.t) :
  MultiplexParser.wf p ->
  run_resolution_known p ->
  match fst (parse_registers fuel result p) with
  | Returns result' =>
      same_fields_but (map (fun e => fst (fst e)) (MultiplexParser.elements fuel p))
        result result'
  | Undefined =>
      existsb integer_register
        (map (fun e => fst (fst e)) (MultiplexParser.elements fuel p)) = true
  | Throws _ | Aborts => False
  end.
Proof.
  revert result p; induction fuel as [|fuel IH]; intros result p Hwf Hk.
  - apply same_fields_refl.
  - rewrite parse_registers_round. unfold parse_round. cbn [MultiplexParser.elements].
    destruct (next_satisfies_post p Hwf) as (r & Hr & Hd & Hs & Ho & Hb & _ & Hy).
    destruct (next_known p Hwf Hk) as [Hk' Hres].
    destruct (MultiplexParser.next p) as [o p']. cbn [fst snd] in *. subst o.
    destruct r as [[[|] reg] res]; [|apply same_fields_refl].
    specialize (Hy eq_refl). cbn [snd] in Hy. specialize (Hres reg res eq_refl).
    assert (Hfit : MultiplexParser.offset_ p' + MultiplexParser.ResolutionSize res
                   <= MultiplexParser.size_ p') by lia.
    destruct (store_register_fields reg res result p' Hres Hfit) as [Hp'' Hfields].
    destruct (store_register reg res result p') as [o p'']. cbn [fst snd] in *.
    cbn [map fst existsb].
    destruct o as [result'| | |]; try contradiction.
    + subst p''.
      assert (Hwf'' : MultiplexParser.wf (snd (MultiplexParser.Ignore res p'))).
      { pose proof (ResolutionSize_pos res). destruct Hwf as [Hw0 Hws].
        split; simpl; rewrite ?Hd, ?Hs; lia. }
      specialize (IH result' (snd (MultiplexParser.Ignore res p')) Hwf'' Hk').
      destruct (fst (parse_registers fuel result' _)) as [result''| | |];
        try contradiction.
      * apply (same_fields_step reg _ result result' result''); assumption.
      * rewrite IH. apply orb_true_r.
    + cbn [fst]. rewrite Hfields. reflexivity.
Qed.

(** [ParseQueryResult] changes only the fields of the registers that
    the reply reports: the field of a register that is not among the
    elements of the reply keeps its initial value (a NaN, [kStopped],
    [false] or 0). And the call is defined whenever the reply reports
    none of the three registers that are converted to [int]. *)
Theorem ParseQueryResult_changes_only_reported_fields (data : list Z) (size : Z) :
  uint8 size <= Z.of_nat (length data) ->
  let reported :=
    map (fun e => fst (fst e))
      (MultiplexParser.all_elements (MultiplexParser.make data size)) in
  (forall result,
      ParseQueryResult data size = Returns result ->
      same_fields_but reported QueryResult.initial result)
  /\ (existsb integer_register reported = false ->
      exists result, ParseQueryResult data size = Returns result).
Proof.
  intros Hlen reported.
  assert (Hu : 0 <= uint8 size < 256) by (unfold uint8; apply Z.mod_pos_bound; lia).
  assert (Hwf : MultiplexParser.wf (MultiplexParser.make data size))
    by (split; simpl; lia).
  assert (Hk : run_resolution_known (MultiplexParser.make data size))
    by (left; reflexivity).
  pose proof (parse_registers_fields (S (Z.to_nat (uint8 size))) QueryResult.initial
                (MultiplexParser.make data size) Hwf Hk) as H.
  assert (Hel : MultiplexParser.elements (S (Z.to_nat (uint8 size)))
                  (MultiplexParser.make data size)
                = MultiplexParser.elements (Z.to_nat (uint8 size))
                    (MultiplexParser.make data size)).
  { replace (S (Z.to_nat (uint8 size))) with (Z.to_nat (uint8 size) + 1)%nat by lia.
    apply elements_fuel; [exact Hwf|simpl; lia]. }
  rewrite Hel in H.
  fold (ParseQueryResult data size) in H.
  assert (Hall : MultiplexParser.all_elements (MultiplexParser.make data size)
                 = MultiplexParser.elements (Z.to_nat (uint8 size))
                     (MultiplexParser.make data size)).
  { unfold MultiplexParser.all_elements. f_equal. simpl. lia. }
  subst reported. rewrite Hall.
  split.
  - intros result E. rewrite E in H. exact H.
  - intros Hnone. destruct (ParseQueryResult data size) as [result| | |];
      [eauto|contradiction|contradiction|congruence].
Qed.

Lemma ParseQueryResult_changes_only_reported_fields_witness :
  exists result,
    ParseQueryResult [0x25; 0x01; 0x39; 0x30; 0x50] 5 = Returns result.
Proof.
  apply (ParseQueryResult_changes_only_reported_fields [0x25; 0x01; 0x39; 0x30; 0x50] 5).
  - vm_compute. discriminate.
  - vm_compute. reflexivity.
Defined.

(** ** A reply, written and read back *)

(** The bytes of the value at the cursor. *)
Definition value_at (p : MultiplexParser.t) (width : Z) : list Z :=
  firstn (Z.to_nat width)
    (skipn (Z.to_nat (MultiplexParser.offset_ p)) (MultiplexParser.data_ p)).

(** What is read depends on the bytes of the value only. *)
Lemma ReadMapped_same_bytes (r : Resolution) (s8 s16 s32 : spec_float)
    (p1 p2 : MultiplexParser.t) :
  MultiplexParser.offset_ p1 + MultiplexParser.ResolutionSize r <= MultiplexParser.size_ p1 ->
  MultiplexParser.offset_ p2 + MultiplexParser.ResolutionSize r <= MultiplexParser.size_ p2 ->
  value_at p1 (MultiplexParser.ResolutionSize r) = value_at p2 (MultiplexParser.ResolutionSize r) ->
  fst (MultiplexParser.ReadMapped r s8 s16 s32 p1)
  = fst (MultiplexParser.ReadMapped r s8 s16 s32 p2).
Proof.
  intros H1 H2 Hv. unfold value_at in Hv.
  destruct r; cbn [MultiplexParser.ResolutionSize] in *;
    unfold MultiplexParser.ReadMapped, MultiplexParser.Read, MultiplexParser.Read_float,
      bind, MultiplexParser.Read_repr, ret, throw;
    cbn [sizeof]; try reflexivity;
    repeat match goal with |- context [?a >? ?b] =>
      destruct (Z.gtb_spec a b); [lia|]
    end;
    cbn [fst]; rewrite Hv; reflexivity.
Qed.

Lemma store_register_same_bytes (reg : Z) (r : Resolution) (result : QueryResult.t)
    (p1 p2 : MultiplexParser.t) :
  r <> kIgnore ->
  MultiplexParser.offset_ p1 + MultiplexParser.ResolutionSize r <= MultiplexParser.size_ p1 ->
  MultiplexParser.offset_ p2 + MultiplexParser.ResolutionSize r <= MultiplexParser.size_ p2 ->
  value_at p1 (MultiplexParser.ResolutionSize r) = value_at p2 (MultiplexParser.ResolutionSize r) ->
  fst (store_register reg r result p1) = fst (store_register reg r result p2).
Proof.
  intros Hr H1 H2 Hv.
  assert (Hdbl : forall s8 s16 s32 (k : spec_float -> QueryResult.t),
            fst (bind (MultiplexParser.ReadMapped r s8 s16 s32) (fun v => ret (k v)) p1)
            = fst (bind (MultiplexParser.ReadMapped r s8 s16 s32) (fun v => ret (k v)) p2)).
  { intros s8 s16 s32 k. unfold bind.
    pose proof (ReadMapped_same_bytes r s8 s16 s32 p1 p2 H1 H2 Hv) as E.
    destruct (ReadMapped_in_buffer r s8 s16 s32 p1 Hr H1) as (x1 & E1).
    destruct (ReadMapped_in_buffer r s8 s16 s32 p2 Hr H2) as (x2 & E2).
    rewrite E1, E2 in *. cbn [fst] in E. inversion E. reflexivity. }
  assert (Hint : forall k : Z -> QueryResult.t,
            fst (bind (MultiplexParser.ReadInt r) (fun v => ret (k v)) p1)
            = fst (bind (MultiplexParser.ReadInt r) (fun v => ret (k v)) p2)).
  { intros k. unfold MultiplexParser.ReadInt, bind.
    pose proof (ReadMapped_same_bytes r (literal 1 1) (literal 1 1) (literal 1 1)
                  p1 p2 H1 H2 Hv) as E.
    destruct (ReadMapped_in_buffer r (literal 1 1) (literal 1 1) (literal 1 1) p1 Hr H1)
      as (x1 & E1).
    destruct (ReadMapped_in_buffer r (literal 1 1) (literal 1 1) (literal 1 1) p2 Hr H2)
      as (x2 & E2).
    rewrite E1, E2 in *. cbn [fst] in E. inversion E.
    destruct (int_of_double int32_t x2); reflexivity. }
  unfold store_register, MultiplexParser.ReadPosition, MultiplexParser.ReadVelocity,
    MultiplexParser.ReadTorque, MultiplexParser.ReadCurrent, MultiplexParser.ReadVoltage,
    MultiplexParser.ReadTemperature.
  repeat match goal with
         | |- context [if ?c then _ else _] => destruct c
         end;
    first [apply Hint | apply Hdbl | reflexivity].
Qed.

(** The [switch] of [ParseQueryResult] run for each register that is
    not ignored, in order, each time on a parser over the frame that
    holds the value of that register alone. *)
Fixpoint store_each (reg : Z) (ws : list (M CanFrame unit)) (rs : list Resolution)
    (result : QueryResult.t) : outcome QueryResult.t :=
  match ws, rs with
  | write :: ws', r :: rs' =>
      if Resolution_eqb r kIgnore then store_each (reg + 1) ws' rs' result
      else
        match fst (store_register reg r result (reader (alone write) 0)) with
        | Returns result' => store_each (reg + 1) ws' rs' result'
        | Throws e => Throws e
        | Aborts => Aborts
        | Undefined => Undefined
        end
  | _, _ => Returns result
  end.

Lemma value_at_alone (write : M CanFrame unit) (r : Resolution) :
  Z.of_nat (length (contents (alone write))) = MultiplexParser.ResolutionSize r ->
  0 + MultiplexParser.ResolutionSize r <= MultiplexParser.size_ (reader (alone write) 0)
  /\ value_at (reader (alone write) 0) (MultiplexParser.ResolutionSize r)
     = contents (alone write).
Proof.
  intros Hlen. unfold value_at, contents in *.
  cbn [reader MultiplexParser.size_ MultiplexParser.offset_ MultiplexParser.data_].
  pose proof (firstn_le_length (Z.to_nat (size (alone write))) (data (alone write))) as Hle.
  pose proof (ResolutionSize_pos r) as Hsz.
  split; [lia|].
  change (Z.to_nat 0) with 0%nat. cbn [skipn].
  rewrite <- Hlen, Nat2Z.id.
  set (c := firstn (Z.to_nat (size (alone write))) (data (alone write))) in *.
  rewrite <- (firstn_all c) at 2. unfold c.
  rewrite firstn_firstn. f_equal. fold c. lia.
Qed.

Lemma value_at_block (p : MultiplexParser.t) (pre v rest : list Z) (width : Z) :
  MultiplexParser.data_ p = pre ++ v ++ rest ->
  MultiplexParser.offset_ p = Z.of_nat (length pre) ->
  Z.of_nat (length v) = width ->
  value_at p width = v.
Proof.
  intros Hd Ho Hl. unfold value_at. rewrite Hd, Ho, Nat2Z.id, <- Hl, Nat2Z.id.
  rewrite skipn_app, skipn_all, Nat.sub_diag. cbn [app skipn].
  rewrite firstn_app, firstn_all, Nat.sub_diag. cbn [firstn]. apply app_nil_r.
Qed.

Lemma parse_at_the_end (fuel : nat) (result : QueryResult.t) (p : MultiplexParser.t) :
  MultiplexParser.size_ p <= MultiplexParser.offset_ p ->
  fst (parse_registers (S fuel) result p) = Returns result.
Proof.
  intros H. rewrite parse_registers_round. unfold parse_round, MultiplexParser.next.
  destruct (Z.geb_spec (MultiplexParser.offset_ p) (MultiplexParser.size_ p)); [|lia].
  reflexivity.
Qed.

Lemma parse_registers_more_fuel (fuel : nat) (result : QueryResult.t)
    (p : MultiplexParser.t) :
  0 <= MultiplexParser.offset_ p ->
  0 <= MultiplexParser.size_ p <= Z.of_nat (length (MultiplexParser.data_ p)) ->
  MultiplexParser.remaining_ p = 0 ->
  MultiplexParser.size_ p - MultiplexParser.offset_ p < Z.of_nat fuel ->
  fst (parse_registers (S fuel) result p) = fst (parse_registers fuel result p).
Proof.
  intros H0 Hs Hrem Hfuel. rewrite <- Nat.add_1_r. f_equal.
  apply parse_registers_rounds; [split; assumption|left; exact Hrem|exact Hfuel].
Qed.

(** The loop of [ParseQueryResult] over a written block: it stores the
    registers of the block, and goes on behind the block with no run in
    progress. *)
Lemma parse_through_block (start : Z) (cur : Resolution) (o : Z)
    (rs : list Resolution) (ws : list (M CanFrame unit)) (bs : list Z) :
  block 0x20 start cur o rs ws bs ->
  0 <= start -> 0 <= o ->
  start + o + Z.of_nat (length rs) <= 128 ->
  forall (p : MultiplexParser.t) (pre post : list Z),
    MultiplexParser.data_ p = pre ++ bs ++ post ->
    MultiplexParser.offset_ p = Z.of_nat (length pre) ->
    Z.of_nat (length pre) + Z.of_nat (length bs) <= MultiplexParser.size_ p ->
    MultiplexParser.size_ p <= Z.of_nat (length (MultiplexParser.data_ p)) ->
    MultiplexParser.remaining_ p
    = (if Resolution_eqb cur kIgnore then 0 else WriteCombiner.run_ahead cur rs) ->
    (MultiplexParser.remaining_ p <> 0 ->
     MultiplexParser.current_resolution_ p = cur
     /\ MultiplexParser.current_register_ p = start + o) ->
    exists p_end,
      MultiplexParser.data_ p_end = MultiplexParser.data_ p
      /\ MultiplexParser.size_ p_end = MultiplexParser.size_ p
      /\ MultiplexParser.offset_ p_end = Z.of_nat (length pre) + Z.of_nat (length bs)
      /\ MultiplexParser.remaining_ p_end = 0
      /\ forall (fuel : nat) (result : QueryResult.t),
           MultiplexParser.size_ p - MultiplexParser.offset_ p < Z.of_nat fuel ->
           fst (parse_registers fuel result p)
           = match store_each (start + o) ws rs result with
             | Returns result' => fst (parse_registers fuel result' p_end)
             | Throws e => Throws e
             | Aborts => Aborts
             | Undefined => Undefined
             end.
Proof.
  intros B Hs.
  induction B as [cur o|cur o rest write ws bs B IH|r o rest write ws bs Hr Hv B IH
                  |cur r o rest write ws bs Hr Hc Hv B IH];
    try set (v := contents (alone write)) in *;
    intros Ho Hn p pre post Hdata Hoff Hsize Hlen Hrem Hcur;
    cbn [length] in Hn.
  - exists p. cbn [length store_each].
    assert (H0 : MultiplexParser.remaining_ p = 0)
      by (destruct (Resolution_eqb cur kIgnore); exact Hrem).
    repeat split; try reflexivity; try assumption. simpl. lia.
  - cbn [store_each Resolution_eqb].
    assert (H0 : MultiplexParser.remaining_ p = 0)
      by (destruct cur; cbn in Hrem; exact Hrem).
    replace (start + o + 1) with (start + (o + 1)) by lia.
    apply (IH ltac:(lia) ltac:(lia) p pre post Hdata Hoff Hsize Hlen);
      [exact H0|intros; contradiction].
  - pose proof (ResolutionSize_pos r) as Hsz.
    pose proof (run_ahead_nonneg r rest) as Hra.
    apply Resolution_eqb_neq in Hr as Er. rewrite Er in Hrem.
    cbn [WriteCombiner.run_ahead] in Hrem. rewrite Resolution_eqb_refl in Hrem.
    destruct (Hcur ltac:(lia)) as [Hres Hreg].
    rewrite length_app, Nat2Z.inj_add in Hsize |- *.
    set (p1 := yielded p (MultiplexParser.offset_ p) (MultiplexParser.remaining_ p - 1) r
                 (start + o + 1)).
    assert (Hfit : MultiplexParser.offset_ p1 + MultiplexParser.ResolutionSize r
                   <= MultiplexParser.size_ p1) by (unfold p1; parser_fields; lia).
    destruct (value_at_alone write r Hv) as [Hfit0 Hv0].
    assert (Hsame : forall result,
               fst (store_register (start + o) r result p1)
               = fst (store_register (start + o) r result (reader (alone write) 0))).
    { intros result. apply store_register_same_bytes; try assumption.
      rewrite Hv0. apply (value_at_block p1 pre v (bs ++ post));
        [unfold p1; parser_fields; rewrite Hdata, <- !app_assoc; reflexivity
        |unfold p1; parser_fields; exact Hoff|exact Hv]. }
    destruct (IH ltac:(lia) ltac:(lia)
                (MultiplexParser.set_offset p1
                   (MultiplexParser.offset_ p1 + MultiplexParser.ResolutionSize r))
                (pre ++ v) post)
      as (p_end & Hd & Hz & Hoe & Hre & Heq);
      [unfold p1; parser_fields; rewrite Hdata, <- !app_assoc; reflexivity
      |unfold p1; parser_fields; rewrite length_app, Nat2Z.inj_add; lia
      |unfold p1; parser_fields; rewrite length_app, Nat2Z.inj_add; lia
      |unfold p1; parser_fields; exact Hlen
      |unfold p1; parser_fields; rewrite Er; lia
      |unfold p1; parser_fields; intros _; split; [reflexivity|lia]|].
    unfold p1 in Hd, Hz, Hoe.
    cbn [yielded MultiplexParser.set_offset MultiplexParser.offset_ MultiplexParser.size_
         MultiplexParser.data_] in Hd, Hz, Hoe.
    rewrite length_app, Nat2Z.inj_add in Hoe.
    exists p_end.
    split; [exact Hd|]. split; [exact Hz|]. split; [lia|]. split; [exact Hre|].
    intros fuel result Hfuel.
    destruct fuel as [|fuel]; [lia|].
    rewrite parse_registers_round. unfold parse_round.
    rewrite next_within_a_run by (rewrite ?Hres, ?Hreg; lia).
    rewrite Hres, Hreg. cbn [store_each]. rewrite Er. fold p1.
    specialize (Hsame result).
    destruct (store_register_in_buffer (start + o) r result p1 Hr Hfit) as [_ Hp''].
    destruct (store_register (start + o) r result p1) as [o1 p'']. cbn [fst snd] in *.
    rewrite <- Hsame. destruct o1 as [result'| | |]; try reflexivity.
    subst p''.
    rewrite (Heq fuel result') by (unfold p1; parser_fields; lia).
    replace (start + o + 1) with (start + (o + 1)) by lia.
    destruct (store_each (start + (o + 1)) ws rest result') as [result''| | |];
      try reflexivity.
    symmetry. apply parse_registers_more_fuel; rewrite ?Hd, ?Hz, ?Hoe; lia.
  - pose proof (ResolutionSize_pos r) as Hsz.
    pose proof (run_ahead_nonneg r rest) as Hra.
    pose proof (run_ahead_length r rest) as Hrl.
    apply Resolution_eqb_neq in Hr as Er.
    assert (H0 : MultiplexParser.remaining_ p = 0).
    { destruct (Resolution_eqb cur kIgnore); [exact Hrem|].
      cbn [WriteCombiner.run_ahead] in Hrem.
      destruct (Resolution_eqb r cur) eqn:E; [|exact Hrem].
      apply Resolution_eqb_eq in E. congruence. }
    set (framing := framing_bytes 32 r (1 + WriteCombiner.run_ahead r rest) (start + o)) in *.
    pose proof (framing_bytes_length 32 r (1 + WriteCombiner.run_ahead r rest) (start + o))
      as Hfl.
    fold framing in Hfl.
    assert (Hfl' : 2 <= Z.of_nat (length framing) <= 3) by (destruct (_ <=? 3); lia).
    clear Hfl.
    rewrite !length_app, !Nat2Z.inj_add in Hsize |- *.
    set (p1 := yielded p (MultiplexParser.offset_ p + Z.of_nat (length framing))
                 (1 + WriteCombiner.run_ahead r rest - 1) r (start + o + 1)).
    assert (Hfit : MultiplexParser.offset_ p1 + MultiplexParser.ResolutionSize r
                   <= MultiplexParser.size_ p1) by (unfold p1; parser_fields; lia).
    destruct (value_at_alone write r Hv) as [Hfit0 Hv0].
    assert (Hsame : forall result,
               fst (store_register (start + o) r result p1)
               = fst (store_register (start + o) r result (reader (alone write) 0))).
    { intros result. apply store_register_same_bytes; try assumption.
      rewrite Hv0. apply (value_at_block p1 (pre ++ framing) v (bs ++ post));
        [unfold p1; parser_fields; rewrite Hdata, <- !app_assoc; reflexivity
        |unfold p1; parser_fields; rewrite length_app, Nat2Z.inj_add; lia|exact Hv]. }
    destruct (IH ltac:(lia) ltac:(lia)
                (MultiplexParser.set_offset p1
                   (MultiplexParser.offset_ p1 + MultiplexParser.ResolutionSize r))
                (pre ++ framing ++ v) post)
      as (p_end & Hd & Hz & Hoe & Hre & Heq);
      [unfold p1; parser_fields; rewrite Hdata, <- !app_assoc; reflexivity
      |unfold p1; parser_fields; rewrite !length_app, !Nat2Z.inj_add; lia
      |unfold p1; parser_fields; rewrite !length_app, !Nat2Z.inj_add; lia
      |unfold p1; parser_fields; exact Hlen
      |unfold p1; parser_fields; rewrite Er; lia
      |unfold p1; parser_fields; intros _; split; [reflexivity|lia]|].
    unfold p1 in Hd, Hz, Hoe.
    cbn [yielded MultiplexParser.set_offset MultiplexParser.offset_ MultiplexParser.size_
         MultiplexParser.data_] in Hd, Hz, Hoe.
    rewrite !length_app, !Nat2Z.inj_add in Hoe.
    exists p_end.
    split; [exact Hd|]. split; [exact Hz|]. split; [lia|]. split; [exact Hre|].
    intros fuel result Hfuel.
    destruct fuel as [|fuel]; [lia|].
    rewrite parse_registers_round. unfold parse_round.
    rewrite (next_at_a_new_run p pre ((v ++ bs) ++ post) r
               (1 + WriteCombiner.run_ahead r rest) (start + o));
      [|fold framing; rewrite Hdata, <- !app_assoc; reflexivity|exact Hoff
       |exact Hlen|fold framing; lia|exact H0|exact Hr|lia|lia].
    fold framing. cbn [store_each]. rewrite Er. fold p1.
    specialize (Hsame result).
    destruct (store_register_in_buffer (start + o) r result p1 Hr Hfit) as [_ Hp''].
    destruct (store_register (start + o) r result p1) as [o1 p'']. cbn [fst snd] in *.
    rewrite <- Hsame. destruct o1 as [result'| | |]; try reflexivity.
    subst p''.
    rewrite (Heq fuel result') by (unfold p1; parser_fields; lia).
    replace (start + o + 1) with (start + (o + 1)) by lia.
    destruct (store_each (start + (o + 1)) ws rest result') as [result''| | |];
      try reflexivity.
    symmetry. apply parse_registers_more_fuel; rewrite ?Hd, ?Hz, ?Hoe; lia.
Qed.

Lemma block_bytes_length (base start : Z) (cur : Resolution) (o : Z)
    (rs : list Resolution) (ws : list (M CanFrame unit)) (bs : list Z) :
  block base start cur o rs ws bs ->
  Z.of_nat (length bs)
  = framing_length cur rs + values_length MultiplexParser.ResolutionSize rs.
Proof.
  intros B.
  induction B as [cur o|cur o rest write ws bs B IH|r o rest write ws bs Hr Hv B IH
                  |cur r o rest write ws bs Hr Hc Hv B IH];
    cbn [framing_length values_length length].
  - reflexivity.
  - cbn [Resolution_eqb]. rewrite orb_true_r, IH. lia.
  - rewrite Resolution_eqb_refl. cbn [orb].
    apply Resolution_eqb_neq in Hr. rewrite Hr, length_app, Nat2Z.inj_add, IH. lia.
  - apply Resolution_eqb_neq in Hr, Hc. rewrite Hr, Hc. cbn [orb].
    rewrite !length_app, !Nat2Z.inj_add, framing_bytes_length, IH. lia.
Qed.

(** A written reply is read back register by register. A reply that,
    like the query of [EmitQueryCommand], has two blocks of registers,
    each written through a combiner with the base command of the
    replies, is parsed by [ParseQueryResult] to what its [switch] gives
    when it is run, for each register that is not ignored and in order,
    on the frame that holds the value of that register alone: the
    framing is undone, and no register disturbs another. *)
Theorem a_written_reply_is_read_back (start1 start2 : Z) (rs1 rs2 : list Resolution)
    (ws1 ws2 : list (M CanFrame unit)) :
  Forall2 writes_mapped ws1 rs1 ->
  Forall2 writes_mapped ws2 rs2 ->
  0 <= start1 -> start1 + Z.of_nat (length rs1) <= 128 ->
  0 <= start2 -> start2 + Z.of_nat (length rs2) <= 128 ->
  6 * (Z.of_nat (length rs1) + Z.of_nat (length rs2)) <= 64 ->
  exists f',
    (combiner_scope (WriteCombiner.make Multiplex.kReplyBase start1 rs1) (write_each ws1) ;;
     combiner_scope (WriteCombiner.make Multiplex.kReplyBase start2 rs2) (write_each ws2))%cpp
      empty_frame
    = (Returns tt, f')
    /\ ParseQueryResult (data f') (size f')
       = match store_each start1 ws1 rs1 QueryResult.initial with
         | Returns result => store_each start2 ws2 rs2 result
         | Throws e => Throws e
         | Aborts => Aborts
         | Undefined => Undefined
         end.
Proof.
  intros Hws1 Hws2 Hs1 Hn1 Hs2 Hn2 Hroom.
  assert (Hwf : wf_frame empty_frame) by (split; simpl; [reflexivity|lia]).
  destruct (reply_block_written start1 rs1 ws1 empty_frame Hws1 Hs1 Hn1 Hwf
              ltac:(change (size empty_frame) with 0; lia))
    as (f1 & bs1 & E1 & Hwf1 & Hc1 & B1).
  change (contents empty_frame) with (@nil Z) in Hc1. cbn [app] in Hc1.
  pose proof (contents_length f1 Hwf1) as Hl1. rewrite Hc1 in Hl1.
  pose proof (block_bytes_length _ _ _ _ _ _ _ B1) as Hb1.
  pose proof (framing_length_bound rs1 kIgnore) as Hfb1.
  pose proof (values_length_bound rs1) as Hvb1.
  destruct (reply_block_written start2 rs2 ws2 f1 Hws2 Hs2 Hn2 Hwf1 ltac:(lia))
    as (f' & bs2 & E2 & Hwf' & Hc' & B2).
  exists f'. split; [unfold bind; rewrite E1; exact E2|].
  rewrite Hc1 in Hc'.
  pose proof (contents_length f' Hwf') as Hl'. rewrite Hc', length_app, Nat2Z.inj_add in Hl'.
  assert (Hu : uint8 (size f') = size f').
  { unfold uint8. apply Z.mod_small. destruct Hwf' as [_ Hs']. lia. }
  assert (Hdata : data f' = bs1 ++ bs2 ++ skipn (Z.to_nat (size f')) (data f')).
  { rewrite app_assoc, <- Hc'. unfold contents. symmetry. apply firstn_skipn. }
  assert (Hlen : size f' <= Z.of_nat (length (data f'))).
  { destruct Hwf' as [Hd Hs']. rewrite Hd. lia. }
  set (p := MultiplexParser.make (data f') (size f')).
  destruct (parse_through_block start1 kIgnore 0 rs1 ws1 bs1 B1 Hs1 ltac:(lia) ltac:(lia)
              p [] (bs2 ++ skipn (Z.to_nat (size f')) (data f')))
    as (q & Hqd & Hqs & Hqo & Hqr & Hq);
    [exact Hdata|reflexivity
    |unfold p; cbn [MultiplexParser.make MultiplexParser.size_ length]; rewrite Hu; lia
    |unfold p; cbn [MultiplexParser.make MultiplexParser.size_ MultiplexParser.data_];
     rewrite Hu; exact Hlen
    |reflexivity|intros H; now elim H|].
  unfold p in Hqd, Hqs, Hqo.
  cbn [MultiplexParser.make MultiplexParser.size_ MultiplexParser.data_ length] in Hqd, Hqs, Hqo.
  rewrite Hu in Hqs.
  destruct (parse_through_block start2 kIgnore 0 rs2 ws2 bs2 B2 Hs2 ltac:(lia) ltac:(lia)
              q bs1 (skipn (Z.to_nat (size f')) (data f')))
    as (q' & Hqd' & Hqs' & Hqo' & Hqr' & Hq');
    [rewrite Hqd; exact Hdata|rewrite Hqo; lia|rewrite Hqs; lia
    |rewrite Hqs, Hqd; exact Hlen|rewrite Hqr; reflexivity
    |intros H; now elim H|].
  unfold ParseQueryResult. fold p. rewrite Hu.
  rewrite Hq by (unfold p; cbn [MultiplexParser.make MultiplexParser.size_
                                  MultiplexParser.offset_]; rewrite Hu; lia).
  replace (start1 + 0) with start1 by lia.
  destruct (store_each start1 ws1 rs1 QueryResult.initial) as [result| | |];
    try reflexivity.
  rewrite Hq' by (rewrite Hqs, Hqo; lia).
  replace (start2 + 0) with start2 by lia.
  destruct (store_each start2 ws2 rs2 result) as [result'| | |]; try reflexivity.
  apply parse_at_the_end. rewrite Hqs', Hqo', Hqs. lia.
Qed.

Lemma a_written_reply_is_read_back_witness :
  exists f',
    (combiner_scope
       (WriteCombiner.make Multiplex.kReplyBase Register.kMode [kInt16; kInt16])
       (write_each
          [WriteCanFrame.WriteMapped (literal 10 1) (literal 1 1) (literal 1 1) (literal 1 1)
             kInt16;
           WriteCanFrame.WritePosition (literal 119 100) kInt16]) ;;
     combiner_scope
       (WriteCombiner.make Multiplex.kReplyBase Register.kVoltage [kInt8; kIgnore; kInt8])
       (write_each
          [WriteCanFrame.WriteVoltage (literal 24 1) kInt8;
           WriteCanFrame.WriteTemperature (literal 30 1) kIgnore;
           WriteCanFrame.WriteMapped (literal 33 1) (literal 1 1) (literal 1 1) (literal 1 1)
             kInt8]))%cpp
      empty_frame
    = (Returns tt, f')
    /\ ParseQueryResult (data f') (size f')
       = Returns
           (QueryResult.set_fault
              (QueryResult.set_voltage
                 (QueryResult.set_position
                    (QueryResult.set_mode QueryResult.initial 10)
                    (double_mul (double_of_int 11899) (literal 1 10000)))
                 (double_mul (double_of_int 48) (literal 1 2)))
              33).
Proof.
  destruct (a_written_reply_is_read_back Register.kMode Register.kVoltage
              [kInt16; kInt16] [kInt8; kIgnore; kInt8]
              [WriteCanFrame.WriteMapped (literal 10 1) (literal 1 1) (literal 1 1)
                 (literal 1 1) kInt16;
               WriteCanFrame.WritePosition (literal 119 100) kInt16]
              [WriteCanFrame.WriteVoltage (literal 24 1) kInt8;
               WriteCanFrame.WriteTemperature (literal 30 1) kIgnore;
               WriteCanFrame.WriteMapped (literal 33 1) (literal 1 1) (literal 1 1)
                 (literal 1 1) kInt8])
    as (f' & E & Hparse).
  - unfold WriteCanFrame.WritePosition.
    repeat (apply Forall2_cons; [apply WriteMapped_is_mapped; usable_scales|]).
    apply Forall2_nil.
  - unfold WriteCanFrame.WriteVoltage, WriteCanFrame.WriteTemperature.
    repeat (apply Forall2_cons; [apply WriteMapped_is_mapped; usable_scales|]).
    apply Forall2_nil.
  - unfold Register.kMode. lia.
  - unfold Register.kMode. simpl. lia.
  - unfold Register.kVoltage. lia.
  - unfold Register.kVoltage. simpl. lia.
  - simpl. lia.
  - exists f'. split; [exact E|]. rewrite Hparse. vm_compute. reflexivity.
Defined.

(** ** The drivers of the wrapper *)

Lemma skipn_nth_error {A} (i : nat) (l : list A) (x : A) :
  nth_error l i = Some x -> skipn i l = x :: skipn (S i) l.
Proof.
  revert l; induction i as [|i IH]; intros [|y l] H; try discriminate.
  - now inversion H.
  - cbn [skipn]. now apply IH.
Qed.

Lemma push_drivers_loop (MoteusAPI : Type) (MoteusAPI_new : String.string -> Z -> MoteusAPI)
    (names : list String.string) (i : nat) (moteus_id : list Z) (drivers : list MoteusAPI) :
  (i <= length moteus_id)%nat ->
  MoteusWrapper.push_drivers MoteusAPI MoteusAPI_new names i moteus_id drivers
  = if (i + length names <=? length moteus_id)%nat
    then Returns (drivers
                  ++ map (fun x => MoteusAPI_new (fst x) (snd x))
                       (combine names (skipn i moteus_id)))
    else Undefined.
Proof.
  revert i drivers; induction names as [|name names IH]; intros i drivers Hi.
  - cbn [MoteusWrapper.push_drivers length combine map].
    destruct (Nat.leb_spec (i + 0) (length moteus_id)) as [H|H]; [|lia].
    now rewrite app_nil_r.
  - cbn [MoteusWrapper.push_drivers length].
    destruct (nth_error moteus_id i) as [id|] eqn:E.
    + assert (Hlt : (i < length moteus_id)%nat) by (apply nth_error_Some; congruence).
      rewrite IH by lia. rewrite (skipn_nth_error i moteus_id id E).
      replace (i + S (length names))%nat with (S i + length names)%nat by lia.
      destruct (_ <=? _)%nat; [|reflexivity].
      cbn [combine map fst snd]. rewrite <- app_assoc. reflexivity.
    + apply nth_error_None in E.
      destruct (Nat.leb_spec (i + S (length names)) (length moteus_id)); [lia|reflexivity].
Qed.

(** The constructor of the wrapper gives drivers only when there are
    fewer device names than ids: with as many names as ids the assertion
    aborts, and with more names than ids the loop reads [moteus_id] past
    its end. With fewer names, the driver of each name gets the id at
    the index of the name, and the ids left over are not used. *)
Theorem MoteusWrapper_needs_fewer_names_than_ids
    (MoteusAPI : Type) (MoteusAPI_new : String.string -> Z -> MoteusAPI)
    (dev_name : list String.string) (moteus_id : list Z) :
  MoteusWrapper.make MoteusAPI MoteusAPI_new dev_name moteus_id
  = if (length dev_name =? length moteus_id)%nat then Aborts
    else if (length dev_name <? length moteus_id)%nat
         then Returns (map (fun x => MoteusAPI_new (fst x) (snd x))
                         (combine dev_name moteus_id))
         else Undefined.
Proof.
  unfold MoteusWrapper.make, MoteusWrapper.assert_condition.
  destruct (Nat.eqb_spec (length dev_name) (length moteus_id)) as [E|E]; cbn [negb];
    [reflexivity|].
  rewrite push_drivers_loop by lia. cbn [Nat.add skipn app].
  destruct (Nat.leb_spec (length dev_name) (length moteus_id)),
    (Nat.ltb_spec (length dev_name) (length moteus_id)); try lia; reflexivity.
Qed.

(** ** Buffers cut short, for a consumer that stops at the first "no element" *)

(** On a buffer of [size_] bytes, [next] never throws and never reads
    outside the buffer; it yields an element only when the whole value of
    that element is in the buffer; it returns "no element" when the value
    of the next element of a run, the byte after a command byte, or the
    byte after an explicit count byte is missing; and the elements read
    from a buffer cut short are exactly the longest prefix of the elements
    of the whole buffer whose values lie within the cut. *)
Theorem a_cut_buffer_yields_a_prefix
    (p : MultiplexParser.t) (data : list Z) (n1 n2 : Z) :
  MultiplexParser.wf p ->
  0 <= n1 -> n1 <= n2 -> n2 <= 255 -> n2 <= Z.of_nat (length data) ->
  (exists r p',
      MultiplexParser.next p = (Returns r, p')
      /\ (fst (fst r) = false -> r = MultiplexParser.no_element)
      /\ (fst (fst r) = true ->
          MultiplexParser.offset_ p' + MultiplexParser.ResolutionSize (snd r)
          <= MultiplexParser.size_ p'))
  /\ (MultiplexParser.remaining_ p <> 0 ->
      MultiplexParser.size_ p
      < MultiplexParser.offset_ p
        + MultiplexParser.ResolutionSize (MultiplexParser.current_resolution_ p) ->
      fst (MultiplexParser.next p) = Returns MultiplexParser.no_element)
  /\ (MultiplexParser.remaining_ p = 0 ->
      MultiplexParser.offset_ p + 1 = MultiplexParser.size_ p ->
      fst (MultiplexParser.next p) = Returns MultiplexParser.no_element)
  /\ (MultiplexParser.remaining_ p = 0 ->
      MultiplexParser.offset_ p + 2 = MultiplexParser.size_ p ->
      0x20 <= byte_at p (MultiplexParser.offset_ p) < 0x30 ->
      Z.land (byte_at p (MultiplexParser.offset_ p)) 0x03 = 0 ->
      fst (MultiplexParser.next p) = Returns MultiplexParser.no_element)
  /\ MultiplexParser.all_elements (MultiplexParser.make data n1)
     = take_while (value_within n1)
         (MultiplexParser.all_elements (MultiplexParser.make data n2)).
Proof.
  intros Hwf Hn1 Hn H255 Hlen.
  split; [|split; [|split; [|split]]].
  - destruct (next_satisfies_post p Hwf) as (r & Hr & _ & Hs & _ & _ & Hnone & Hy).
    destruct (MultiplexParser.next p) as [o p']. cbn [fst snd] in *. subst o.
    exists r, p'. split; [reflexivity|]. split; [exact Hnone|]. now rewrite Hs.
  - intros Hrem Hcut. unfold MultiplexParser.next.
    destruct (MultiplexParser.offset_ p >=? MultiplexParser.size_ p); [reflexivity|].
    destruct (Z.eqb_spec (MultiplexParser.remaining_ p) 0) as [|_]; [contradiction|].
    cbn [negb MultiplexParser.set_remaining MultiplexParser.set_current_register
         MultiplexParser.offset_ MultiplexParser.size_ MultiplexParser.current_resolution_].
    destruct (Z.gtb_spec (MultiplexParser.offset_ p
                + MultiplexParser.ResolutionSize (MultiplexParser.current_resolution_ p))
                (MultiplexParser.size_ p)); [reflexivity|lia].
  - intros Hrem Hlast. unfold MultiplexParser.next. rewrite Hrem.
    destruct (MultiplexParser.offset_ p >=? MultiplexParser.size_ p); [reflexivity|].
    cbn [Z.eqb negb].
    replace (MultiplexParser.size_ p - MultiplexParser.offset_ p) with 1 by lia.
    change (Z.to_nat 1) with 1%nat.
    rewrite (scan_in_bounds 0 p Hwf). unfold scan_body. cbv zeta.
    cbn [MultiplexParser.scan MultiplexParser.set_offset MultiplexParser.offset_
         MultiplexParser.size_].
    destruct (_ <? _); [|reflexivity].
    destruct (_ =? Multiplex.kNop); [reflexivity|].
    destruct (Z.geb_spec (MultiplexParser.offset_ p + 1) (MultiplexParser.size_ p));
      [reflexivity|lia].
  - intros Hrem Hlast Hcmd Hcount. unfold MultiplexParser.next. rewrite Hrem.
    destruct (MultiplexParser.offset_ p >=? MultiplexParser.size_ p); [reflexivity|].
    cbn [Z.eqb negb].
    replace (MultiplexParser.size_ p - MultiplexParser.offset_ p) with 2 by lia.
    change (Z.to_nat 2) with 2%nat.
    rewrite (scan_in_bounds 1 p Hwf). unfold scan_body. cbv zeta.
    cbn [MultiplexParser.set_offset MultiplexParser.set_current_resolution
         MultiplexParser.offset_ MultiplexParser.size_].
    destruct (_ <? _); [|reflexivity].
    unfold Multiplex.kNop.
    destruct (Z.eqb_spec (byte_at p (MultiplexParser.offset_ p)) 80); [lia|].
    destruct (_ >=? _); [reflexivity|].
    destruct (_ && _); [|reflexivity].
    rewrite Hcount. cbn [Z.eqb].
    destruct (Z.geb_spec (MultiplexParser.offset_ p + 1 + 1) (MultiplexParser.size_ p));
      [reflexivity|lia].
  - now apply all_elements_truncated.
Qed.

Lemma a_cut_buffer_yields_a_prefix_witness :
  MultiplexParser.all_elements
    (MultiplexParser.make [0x27; 0x01; 0x10; 0x00; 0x20; 0x00; 0x30; 0x00] 7)
  = take_while (value_within 7)
      (MultiplexParser.all_elements
         (MultiplexParser.make [0x27; 0x01; 0x10; 0x00; 0x20; 0x00; 0x30; 0x00] 8)).
Proof.
  apply (a_cut_buffer_yields_a_prefix
           (MultiplexParser.make [0x27; 0x01; 0x10; 0x00; 0x20; 0x00; 0x30; 0x00] 8)
           [0x27; 0x01; 0x10; 0x00; 0x20; 0x00; 0x30; 0x00] 7 8).
  - unfold MultiplexParser.wf; cbn; lia.
  - lia.
  - lia.
  - lia.
  - simpl; lia.
Defined.

(** The registers of a run: [n] consecutive registers from [reg], all at
    the resolution [r], their values one after the other from offset
    [off]. *)
Fixpoint run_elements (n : nat) (reg : Z) (r : Resolution) (off : Z)
  : list (Z * Resolution * Z) :=
  match n with
  | O => []
  | S n' => (reg, r, off) :: run_elements n' (reg + 1) r (off + MultiplexParser.ResolutionSize r)
  end.

(** Within a run [next] yields the next register, whatever its number. *)
Lemma next_in_a_run (p : MultiplexParser.t) :
  MultiplexParser.remaining_ p <> 0 ->
  MultiplexParser.offset_ p
  + MultiplexParser.ResolutionSize (MultiplexParser.current_resolution_ p)
  <= MultiplexParser.size_ p ->
  0 <= MultiplexParser.current_register_ p < 2 ^ 32 - 1 ->
  MultiplexParser.next p
  = (Returns (true, MultiplexParser.current_register_ p,
              MultiplexParser.current_resolution_ p),
     yielded p (MultiplexParser.offset_ p) (MultiplexParser.remaining_ p - 1)
       (MultiplexParser.current_resolution_ p) (MultiplexParser.current_register_ p + 1)).
Proof.
  intros Hrem Hfit Hreg. unfold MultiplexParser.next.
  pose proof (ResolutionSize_pos (MultiplexParser.current_resolution_ p)).
  destruct (Z.geb_spec (MultiplexParser.offset_ p) (MultiplexParser.size_ p)); [lia|].
  destruct (Z.eqb_spec (MultiplexParser.remaining_ p) 0); [contradiction|]. cbn [negb].
  cbn [MultiplexParser.set_remaining MultiplexParser.set_current_register
       MultiplexParser.offset_ MultiplexParser.size_ MultiplexParser.current_resolution_
       MultiplexParser.current_register_ MultiplexParser.data_ MultiplexParser.remaining_].
  destruct (Z.gtb_spec (MultiplexParser.offset_ p
              + MultiplexParser.ResolutionSize (MultiplexParser.current_resolution_ p))
              (MultiplexParser.size_ p)); [lia|].
  same_parser_state.
Qed.

(** At the end of the buffer, and within a run whose next value is not
    whole, [next] returns "no element". *)
Lemma next_without_a_whole_value (p : MultiplexParser.t) :
  MultiplexParser.size_ p <= MultiplexParser.offset_ p
  \/ (MultiplexParser.remaining_ p <> 0
      /\ MultiplexParser.size_ p
         < MultiplexParser.offset_ p
           + MultiplexParser.ResolutionSize (MultiplexParser.current_resolution_ p)) ->
  fst (MultiplexParser.next p) = Returns MultiplexParser.no_element.
Proof.
  intros H. unfold MultiplexParser.next.
  destruct (Z.geb_spec (MultiplexParser.offset_ p) (MultiplexParser.size_ p)); [reflexivity|].
  destruct H as [H|[Hrem Hcut]]; [lia|].
  destruct (Z.eqb_spec (MultiplexParser.remaining_ p) 0); [contradiction|]. cbn [negb].
  cbn [MultiplexParser.set_remaining MultiplexParser.set_current_register
       MultiplexParser.offset_ MultiplexParser.size_ MultiplexParser.current_resolution_].
  destruct (Z.gtb_spec (MultiplexParser.offset_ p
              + MultiplexParser.ResolutionSize (MultiplexParser.current_resolution_ p))
              (MultiplexParser.size_ p)); [reflexivity|lia].
Qed.

Lemma elements_after_no_element (fuel : nat) (p : MultiplexParser.t) :
  fst (MultiplexParser.next p) = Returns MultiplexParser.no_element ->
  MultiplexParser.elements fuel p = [].
Proof.
  intros H. destruct fuel as [|fuel]; [reflexivity|].
  cbn [MultiplexParser.elements].
  destruct (MultiplexParser.next p) as [o p']. cbn [fst] in H. subst o.
  reflexivity.
Qed.

(** The registers left of a run whose values are whole are yielded, one
    per round, and the rounds stop at the end of the buffer or at the
    value that is cut. *)
Lemma elements_in_a_run (k : nat) :
  forall (p : MultiplexParser.t) (t : Z) (fuel : nat),
    0 <= MultiplexParser.offset_ p ->
    MultiplexParser.size_ p
    = MultiplexParser.offset_ p
      + Z.of_nat k * MultiplexParser.ResolutionSize (MultiplexParser.current_resolution_ p)
      + t ->
    0 <= t < MultiplexParser.ResolutionSize (MultiplexParser.current_resolution_ p) ->
    Z.of_nat k <= MultiplexParser.remaining_ p ->
    (Z.of_nat k = MultiplexParser.remaining_ p -> t = 0) ->
    0 <= MultiplexParser.current_register_ p ->
    MultiplexParser.current_register_ p + Z.of_nat k < 2 ^ 32 ->
    (k <= fuel)%nat ->
    MultiplexParser.elements fuel p
    = run_elements k (MultiplexParser.current_register_ p)
        (MultiplexParser.current_resolution_ p) (MultiplexParser.offset_ p).
Proof.
  induction k as [|k IH]; intros p t fuel Hoff Hsize Ht Hrem Hlast Hreg Hregs Hfuel.
  - cbn [run_elements]. apply elements_after_no_element, next_without_a_whole_value.
    destruct (Z.eq_dec t 0) as [->|Hne]; [left; lia|].
    right. split; [|lia]. intros Hzero. apply Hne, Hlast. lia.
  - destruct fuel as [|fuel]; [lia|].
    pose proof (ResolutionSize_pos (MultiplexParser.current_resolution_ p)) as Hw.
    cbn [MultiplexParser.elements run_elements].
    rewrite next_in_a_run by nia.
    unfold MultiplexParser.Ignore. cbn [snd].
    f_equal.
    rewrite (IH _ t fuel); unfold yielded, MultiplexParser.set_offset;
      cbn [MultiplexParser.offset_ MultiplexParser.size_ MultiplexParser.data_
           MultiplexParser.current_resolution_ MultiplexParser.current_register_
           MultiplexParser.remaining_];
      try reflexivity; try lia.
Qed.

(** A reply whose command and register bytes are whole but whose first
    value is not: [next] returns "no element". *)
Lemma next_at_a_cut_run (p : MultiplexParser.t) (pre post : list Z)
    (r : Resolution) (count reg : Z) :
  let framing := framing_bytes 0x20 r count reg in
  MultiplexParser.data_ p = pre ++ framing ++ post ->
  MultiplexParser.offset_ p = Z.of_nat (length pre) ->
  MultiplexParser.size_ p <= Z.of_nat (length (MultiplexParser.data_ p)) ->
  Z.of_nat (length pre) + Z.of_nat (length framing) <= MultiplexParser.size_ p ->
  MultiplexParser.size_ p
  < Z.of_nat (length pre) + Z.of_nat (length framing) + MultiplexParser.ResolutionSize r ->
  MultiplexParser.remaining_ p = 0 ->
  r <> kIgnore ->
  1 <= count <= 255 ->
  0 <= reg <= 127 ->
  fst (MultiplexParser.next p) = Returns MultiplexParser.no_element.
Proof.
  intros framing Hdata Hoff Hlen Hfit Hcut Hrem Hr Hcount Hreg.
  pose proof (ResolutionSize_pos r) as Hsz.
  assert (Hwf : MultiplexParser.wf p) by (split; lia).
  pose proof (framing_bytes_length 0x20 r count reg) as Hfl. fold framing in Hfl.
  destruct (framing_bytes_fields 0x20 r count reg ltac:(lia) eq_refl Hr ltac:(lia) Hreg)
    as (opcode & Hid & Hbase & Hshort & Hlong).
  change (static_cast int8_t 0x20) with 0x20 in Hshort, Hlong.
  fold framing in Hshort, Hlong. clearbody framing. clear Hfl.
  assert (Hbits : 0 <= width_bits r <= 12) by (destruct r; simpl; lia).
  assert (Hbyte : forall k, (k < length framing)%nat ->
            nth (Z.to_nat (MultiplexParser.offset_ p + Z.of_nat k))
              (MultiplexParser.data_ p) 0 = nth k framing 0).
  { intros k Hk. rewrite Hoff, Hdata.
    replace (Z.to_nat (Z.of_nat (length pre) + Z.of_nat k)) with (length pre + k)%nat by lia.
    apply nth_after. exact Hk. }
  unfold MultiplexParser.next.
  destruct (Z.geb_spec (MultiplexParser.offset_ p) (MultiplexParser.size_ p));
    [reflexivity|].
  rewrite Hrem. cbn [Z.eqb negb].
  destruct (Z.to_nat (MultiplexParser.size_ p - MultiplexParser.offset_ p)) as [|fuel] eqn:Ef;
    [lia|].
  rewrite (scan_in_bounds fuel p Hwf). unfold scan_body, byte_at.
  destruct (Z.ltb_spec (MultiplexParser.offset_ p) (MultiplexParser.size_ p)); [|lia].
  cbv zeta.
  cbn [MultiplexParser.set_offset MultiplexParser.set_current_resolution
       MultiplexParser.offset_ MultiplexParser.size_ MultiplexParser.data_].
  destruct (Z.leb_spec count 3) as [Hle|Hgt].
  - destruct (Hshort Hle) as (H3 & Hop & Hfb).
    pose proof (Hbyte 0%nat ltac:(rewrite Hfb; simpl; lia)) as Hb0.
    pose proof (Hbyte 1%nat ltac:(rewrite Hfb; simpl; lia)) as Hb1.
    subst framing. cbn [nth] in Hb0, Hb1. cbn [length] in Hfit, Hcut |- *.
    rewrite Z.add_0_r in Hb0. change (Z.of_nat 1) with 1 in Hb1.
    rewrite Hb0.
    destruct (Z.eqb_spec opcode Multiplex.kNop) as [Hnop|_];
      [unfold Multiplex.kNop in Hnop; lia|].
    destruct (Z.geb_spec (MultiplexParser.offset_ p + 1) (MultiplexParser.size_ p)); [lia|].
    destruct (Z.geb_spec opcode 0x20); [|lia].
    destruct (Z.ltb_spec opcode 0x30); [|lia]. cbn [andb].
    rewrite H3.
    destruct (Z.eqb_spec count 0); [lia|].
    unfold start_run, byte_at.
    cbn [MultiplexParser.set_offset MultiplexParser.set_current_resolution
         MultiplexParser.set_remaining MultiplexParser.set_current_register
         MultiplexParser.offset_ MultiplexParser.size_ MultiplexParser.data_
         MultiplexParser.current_resolution_ MultiplexParser.current_register_
         MultiplexParser.remaining_].
    rewrite Hb1, Hid.
    destruct (Z.gtb_spec (MultiplexParser.offset_ p + 1 + 1 + MultiplexParser.ResolutionSize r)
                (MultiplexParser.size_ p)); [reflexivity|lia].
  - destruct (Hlong Hgt) as (H3 & Hop & Hfb).
    pose proof (Hbyte 0%nat ltac:(rewrite Hfb; simpl; lia)) as Hb0.
    pose proof (Hbyte 1%nat ltac:(rewrite Hfb; simpl; lia)) as Hb1.
    pose proof (Hbyte 2%nat ltac:(rewrite Hfb; simpl; lia)) as Hb2.
    subst framing. cbn [nth] in Hb0, Hb1, Hb2. cbn [length] in Hfit, Hcut |- *.
    rewrite Z.add_0_r in Hb0. change (Z.of_nat 1) with 1 in Hb1.
    change (Z.of_nat 2) with 2 in Hb2.
    assert (Hu : uint8 count = count) by (unfold uint8; apply Z.mod_small; lia).
    rewrite Hu in Hb1.
    rewrite Hb0.
    destruct (Z.eqb_spec opcode Multiplex.kNop) as [Hnop|_];
      [unfold Multiplex.kNop in Hnop; lia|].
    destruct (Z.geb_spec (MultiplexParser.offset_ p + 1) (MultiplexParser.size_ p)); [lia|].
    destruct (Z.geb_spec opcode 0x20); [|lia].
    destruct (Z.ltb_spec opcode 0x30); [|lia]. cbn [andb].
    rewrite H3. cbn [Z.eqb].
    rewrite Hb1.
    destruct (Z.geb_spec (MultiplexParser.offset_ p + 1 + 1) (MultiplexParser.size_ p));
      [lia|].
    destruct (Z.eqb_spec count 0); [lia|].
    unfold start_run, byte_at.
    cbn [MultiplexParser.set_offset MultiplexParser.set_current_resolution
         MultiplexParser.set_remaining MultiplexParser.set_current_register
         MultiplexParser.offset_ MultiplexParser.size_ MultiplexParser.data_
         MultiplexParser.current_resolution_ MultiplexParser.current_register_
         MultiplexParser.remaining_].
    replace (MultiplexParser.offset_ p + 1 + 1) with (MultiplexParser.offset_ p + 2) by lia.
    rewrite Hb2, Hid.
    destruct (Z.gtb_spec (MultiplexParser.offset_ p + 2 + 1 + MultiplexParser.ResolutionSize r)
                (MultiplexParser.size_ p)); [reflexivity|lia].
Qed.

(** A reply whose declared count claims more registers than the bytes of
    the buffer support yields exactly the registers whose values are
    whole. The buffer holds the command and register bytes of a reply of
    [count] registers from [reg] at the resolution [r], then [k] whole
    values and [t] further bytes, fewer than one value; bytes of the
    array past the size do not matter. A consumer that stops at the
    first "no element" gets the [k] registers [reg], [reg + 1], ... in
    order, each at the resolution [r] with its value where it lies in
    the buffer, and nothing else. *)
Theorem a_truncated_reply_yields_its_complete_values
    (r : Resolution) (count reg : Z) (payload rest : list Z) (k : nat) (t : Z) :
  let framing := framing_bytes Multiplex.kReplyBase r count reg in
  r <> kIgnore ->
  1 <= count <= 255 ->
  0 <= reg <= 127 ->
  Z.of_nat (length payload) = Z.of_nat k * MultiplexParser.ResolutionSize r + t ->
  0 <= t < MultiplexParser.ResolutionSize r ->
  Z.of_nat k <= count ->
  (Z.of_nat k = count -> t = 0) ->
  Z.of_nat (length framing) + Z.of_nat (length payload) <= 255 ->
  MultiplexParser.all_elements
    (MultiplexParser.make (framing ++ payload ++ rest)
       (Z.of_nat (length framing) + Z.of_nat (length payload)))
  = run_elements k reg r (Z.of_nat (length framing)).
Proof.
  intros framing Hr Hcount Hreg Hlen Ht Hk Hlast H255.
  pose proof (ResolutionSize_pos r) as Hw.
  unfold MultiplexParser.all_elements, MultiplexParser.make.
  cbn [MultiplexParser.size_ MultiplexParser.offset_]. unfold uint8.
  rewrite Z.mod_small, Z.sub_0_r by lia.
  set (size := Z.of_nat (length framing) + Z.of_nat (length payload)).
  set (p := {| MultiplexParser.data_ := framing ++ payload ++ rest;
               MultiplexParser.size_ := size;
               MultiplexParser.offset_ := 0; MultiplexParser.remaining_ := 0;
               MultiplexParser.current_resolution_ := kIgnore;
               MultiplexParser.current_register_ := 0 |}).
  assert (Hdata : MultiplexParser.data_ p = [] ++ framing ++ payload ++ rest) by reflexivity.
  assert (Hbuf : MultiplexParser.size_ p <= Z.of_nat (length (MultiplexParser.data_ p))).
  { cbn [p MultiplexParser.size_ MultiplexParser.data_]. rewrite !length_app. lia. }
  destruct k as [|k].
  - cbn [run_elements]. apply elements_after_no_element.
    apply (next_at_a_cut_run p [] (payload ++ rest) r count reg);
      try assumption; try reflexivity;
      change (framing_bytes 32 r count reg) with framing;
      cbn [p MultiplexParser.size_ length]; subst size; lia.
  - destruct (Z.to_nat size) as [|fuel] eqn:Efuel; [subst size; nia|].
    cbn [MultiplexParser.elements run_elements].
    rewrite (next_at_a_new_run p [] (payload ++ rest) r count reg);
      try assumption; try reflexivity;
      [|change (framing_bytes 32 r count reg) with framing;
        cbn [p MultiplexParser.size_ length]; subst size; nia].
    change (framing_bytes 32 r count reg) with framing. unfold MultiplexParser.Ignore. cbn [snd].
    f_equal.
    rewrite (elements_in_a_run k _ t fuel); unfold yielded, MultiplexParser.set_offset;
      cbn [p MultiplexParser.offset_ MultiplexParser.size_ MultiplexParser.data_
           MultiplexParser.current_resolution_ MultiplexParser.current_register_
           MultiplexParser.remaining_];
      try reflexivity; try nia.
Qed.

Lemma a_truncated_reply_yields_its_complete_values_witness :
  MultiplexParser.all_elements
    (MultiplexParser.make [0x27; 0x01; 0x10; 0x00; 0x20; 0x00; 0x30; 0x99] 7)
  = [(1, kInt16, 2); (2, kInt16, 4)].
Proof.
  apply (a_truncated_reply_yields_its_complete_values kInt16 3 1
           [0x10; 0x00; 0x20; 0x00; 0x30] [0x99] 2 1).
  - discriminate.
  - lia.
  - lia.
  - reflexivity.
  - simpl; lia.
  - simpl; lia.
  - simpl; lia.
  - simpl; lia.
Defined.
